(** * MFP toolkit: a shallow embedding of the core and its checked properties

    The development follows the layout of the Go sources:

    - [Argv]     : [argv/tokenize.go] and [argv/parser.go]
    - [Abstract] : [abstract/scanrequest.go]
    - [Wsdd]     : [discovery/wsdd/sched.go]
    - [Transport]: the TLS auto-detecting listener
    - [Escl]     : the eSCL server on top of an abstract scanner
    - [Xml]      : the XML decoder and encoder

    Go strings are byte strings and are modelled by [string] (a list of
    8-bit [ascii]); Go [int] values are modelled by [Z]; slices by [list],
    a [nil] slice being told apart from an empty one only where the
    source does so. *)

From Stdlib Require Import ZArith List String Ascii Bool Lia.
From stdpp Require Import base option list strings gmap.

Local Open Scope string_scope.
Local Open Scope list_scope.
Local Open Scope Z_scope.

(** ** Functions of the Go library used by several packages *)

Module Go.

(** [strings.HasPrefix(s, prefix)] *)
Definition HasPrefix (s prefix : string) : bool := String.prefix prefix s.

(** [strings.CutPrefix(s, prefix)] where [s] starts with [prefix]:
    the rest of [s]. *)
Definition CutPrefix (s prefix : string) : string :=
  String.substring (String.length prefix)
    (String.length s - String.length prefix) s.

(** [s[n:]] and [s[:n]], for [n] no larger than [len(s)]. *)
Fixpoint sliceFrom (s : string) (n : nat) {struct n} : string :=
  match n with
  | O => s
  | S n' =>
      match s with
      | String _ rest => sliceFrom rest n'
      | EmptyString => s
      end
  end.

Fixpoint sliceTo (s : string) (n : nat) {struct n} : string :=
  match n with
  | O => EmptyString
  | S n' =>
      match s with
      | String c rest => String c (sliceTo rest n')
      | EmptyString => EmptyString
      end
  end.

(** [strings.HasSuffix(s, suffix)] *)
Definition HasSuffix (s suffix : string) : bool :=
  (String.length suffix <=? String.length s)%nat
  && String.eqb (sliceFrom s (String.length s - String.length suffix)) suffix.

(** [strings.IndexByte(s, c)]; [None] is the result -1. *)
Fixpoint IndexByte (s : string) (c : ascii) : option nat :=
  match s with
  | EmptyString => None
  | String c' rest =>
      if Ascii.eqb c' c then Some O else S <$> IndexByte rest c
  end.

(** The value of a byte. *)
Definition byteZ (b : ascii) : Z := Z.of_N (N_of_ascii b).

(** [utf8.RuneError] *)
Definition RuneError : Z := 65533.

(** What the table [first] of package utf8 holds for a leading byte
    above 0x7F: the size of the sequence and the range accepted for its
    second byte, or nothing for a byte that starts no sequence. *)
Definition first (s0 : Z) : option (nat * Z * Z) :=
  if (194 <=? s0) && (s0 <=? 223) then Some (2%nat, 128, 191)
  else if s0 =? 224 then Some (3%nat, 160, 191)
  else if (225 <=? s0) && (s0 <=? 236) then Some (3%nat, 128, 191)
  else if s0 =? 237 then Some (3%nat, 128, 159)
  else if (238 <=? s0) && (s0 <=? 239) then Some (3%nat, 128, 191)
  else if s0 =? 240 then Some (4%nat, 144, 191)
  else if (241 <=? s0) && (s0 <=? 243) then Some (4%nat, 128, 191)
  else if s0 =? 244 then Some (4%nat, 128, 143)
  else None.

(** A continuation byte lies between 0x80 and 0xBF. *)
Definition notCont (b : Z) : bool := (b <? 128) || (191 <? b).

(** [utf8.DecodeRuneInString]: the first rune of [s] and its width in
    bytes; an encoding that is not valid yields [RuneError] and width 1. *)
Definition DecodeRuneInString (s : string) : Z * nat :=
  match s with
  | EmptyString => (RuneError, O)
  | String b0 rest =>
      let s0 := byteZ b0 in
      if s0 <? 128 then (s0, 1%nat)
      else
        match first s0 with
        | None => (RuneError, 1%nat)
        | Some (sz, lo, hi) =>
            if (String.length s <? sz)%nat then (RuneError, 1%nat)
            else
              match rest with
              | EmptyString => (RuneError, 1%nat)
              | String b1 rest1 =>
                  let s1 := byteZ b1 in
                  if (s1 <? lo) || (hi <? s1) then (RuneError, 1%nat)
                  else if (sz <=? 2)%nat then
                    (Z.lor (Z.shiftl (Z.land s0 31) 6) (Z.land s1 63), 2%nat)
                  else
                    match rest1 with
                    | EmptyString => (RuneError, 1%nat)
                    | String b2 rest2 =>
                        let s2 := byteZ b2 in
                        if notCont s2 then (RuneError, 1%nat)
                        else if (sz <=? 3)%nat then
                          (Z.lor (Z.lor (Z.shiftl (Z.land s0 15) 12)
                                    (Z.shiftl (Z.land s1 63) 6))
                             (Z.land s2 63), 3%nat)
                        else
                          match rest2 with
                          | EmptyString => (RuneError, 1%nat)
                          | String b3 _ =>
                              let s3 := byteZ b3 in
                              if notCont s3 then (RuneError, 1%nat)
                              else
                                (Z.lor (Z.lor (Z.lor
                                   (Z.shiftl (Z.land s0 7) 18)
                                   (Z.shiftl (Z.land s1 63) 12))
                                   (Z.shiftl (Z.land s2 63) 6))
                                   (Z.land s3 63), 4%nat)
                          end
                    end
              end
        end
  end.

(** [for i, c := range s]: the byte index and the value of every rune of
    [s].  [i] is the index of the first byte of [s] and [skip] the number
    of bytes that still belong to the rune before. *)
Fixpoint rangeFrom (i skip : nat) (s : string) : list (nat * Z) :=
  match s with
  | EmptyString => []
  | String _ rest =>
      match skip with
      | S skip' => rangeFrom (S i) skip' rest
      | O =>
          let '(c, size) := DecodeRuneInString s in
          (i, c) :: rangeFrom (S i) (size - 1) rest
      end
  end.

Definition rangeString (s : string) : list (nat * Z) := rangeFrom 0 0 s.

(** The first [k] bytes of the string, as far as it goes, are above
    0x7F. *)
Fixpoint highBytes (k : nat) (s : string) : Prop :=
  match k, s with
  | S k', String b rest => 128 <= byteZ b /\ highBytes k' rest
  | _, _ => True
  end.

End Go.

(** ** Package argv *)

Module Argv.

(** *** The tokenizer ([argv/tokenize.go]) *)

(** A [rune] is a Unicode code point; [for _, c := range line] hands the
    runes of [line] to the loop body one by one. *)
Definition rune := Z.

Definition byte_of (n : Z) : ascii := ascii_of_N (Z.to_N (n mod 256)).

(** [string(c)] for a rune [c]: its UTF-8 encoding, U+FFFD for a value
    that is not a valid code point. *)
Definition replacement : string :=
  String (byte_of 239) (String (byte_of 191) (String (byte_of 189) "")).

Definition cont (n : Z) : ascii := byte_of (Z.lor 128 (Z.land n 63)).

Definition string_of_rune (c : rune) : string :=
  if c <? 0 then replacement
  else if c <? 128 then String (byte_of c) ""
  else if c <? 2048 then
    String (byte_of (Z.lor 192 (Z.shiftr c 6))) (String (cont c) "")
  else if (55296 <=? c) && (c <=? 57343) then replacement
  else if c <? 65536 then
    String (byte_of (Z.lor 224 (Z.shiftr c 12)))
      (String (cont (Z.shiftr c 6)) (String (cont c) ""))
  else if c <=? 1114111 then
    String (byte_of (Z.lor 240 (Z.shiftr c 18)))
      (String (cont (Z.shiftr c 12))
         (String (cont (Z.shiftr c 6)) (String (cont c) "")))
  else replacement.

(** [string([]byte{byte(acc)})] *)
Definition string_of_byte (acc : Z) : string := String (byte_of acc) "".

(** [unicode.IsSpace] *)
Definition IsSpace (c : rune) : bool :=
  if (0 <=? c) && (c <=? 255) then
    (c =? 9) || (c =? 10) || (c =? 11) || (c =? 12) || (c =? 13)
    || (c =? 32) || (c =? 133) || (c =? 160)
  else
    (c =? 5760) || ((8192 <=? c) && (c <=? 8202)) || (c =? 8232)
    || (c =? 8233) || (c =? 8239) || (c =? 8287) || (c =? 12288).

(** [octal] returns the value of the digit [c], or -1.  The source
    tests ['0' <= c && c <= '9']. *)
Definition octal (c : rune) : Z :=
  if (48 <=? c) && (c <=? 57) then c - 48 else -1.

Definition hexadecimal (c : rune) : Z :=
  if (48 <=? c) && (c <=? 57) then c - 48
  else if (97 <=? c) && (c <=? 102) then c - 97 + 10
  else if (65 <=? c) && (c <=? 70) then c - 65 + 10
  else -1.

Inductive tkState :=
| tkSpace
| tkWord     (* got non-space *)
| tkQuote    (* got a double quote *)
| tkQuoteBs  (* in quotes, got a backslash *)
| tkHex1     (* in quotes, got backslash x *)
| tkHex2     (* in quotes, got backslash x and one digit *)
| tkOct1     (* in quotes, got backslash and one digit *)
| tkOct2.    (* in quotes, got backslash and two digits *)

(** The local variables of [Tokenize]. *)
Record tk := mkTk {
  state : tkState;
  token : string;
  acc : Z;
  tokens : list string
}.

Definition dquote : rune := 34.
Definition backslash : rune := 92.

(** One pass through the body of the [for ... range line] loop. *)
Definition tkStep (s : tk) (c : rune) : tk :=
  match state s with
  | tkSpace | tkWord =>
      if c =? dquote then mkTk tkQuote (token s) (acc s) (tokens s)
      else if IsSpace c then
        match state s with
        | tkSpace => s
        | _ => mkTk tkSpace "" (acc s) (tokens s ++ [token s])
        end
      else mkTk tkWord (token s +:+ string_of_rune c) (acc s) (tokens s)
  | tkQuote =>
      if c =? backslash then mkTk tkQuoteBs (token s) (acc s) (tokens s)
      else if c =? dquote then mkTk tkWord (token s) (acc s) (tokens s)
      else mkTk tkQuote (token s +:+ string_of_rune c) (acc s) (tokens s)
  | tkQuoteBs =>
      if (c =? 120) || (c =? 88) then mkTk tkHex1 (token s) 0 (tokens s)
      else if (48 <=? c) && (c <=? 55) then
        mkTk tkOct1 (token s) (c - 48) (tokens s)
      else
        let esc :=
          if c =? 97 then string_of_byte 7         (* \a *)
          else if c =? 98 then string_of_byte 8    (* \b *)
          else if c =? 102 then string_of_byte 12  (* \f *)
          else if c =? 110 then string_of_byte 10  (* \n *)
          else if c =? 114 then string_of_byte 13  (* \r *)
          else if c =? 116 then string_of_byte 9   (* \t *)
          else if c =? 118 then string_of_byte 11  (* \v *)
          else string_of_rune c in
        mkTk tkQuote (token s +:+ esc) (acc s) (tokens s)
  | tkHex1 | tkHex2 =>
      let n := hexadecimal c in
      if 0 <=? n then
        let acc' := Z.lor (Z.shiftl (acc s) 4) n in
        match state s with
        | tkHex1 => mkTk tkHex2 (token s) acc' (tokens s)
        | _ => mkTk tkQuote (token s +:+ string_of_byte acc') acc' (tokens s)
        end
      else
        let token' := token s +:+ string_of_byte (acc s) in
        if c =? dquote then mkTk tkWord token' (acc s) (tokens s)
        else mkTk tkQuote (token' +:+ string_of_rune c) (acc s) (tokens s)
  | tkOct1 | tkOct2 =>
      let n := octal c in
      if 0 <=? n then
        let acc' := Z.lor (Z.shiftl (acc s) 3) n in
        match state s with
        | tkOct1 => mkTk tkOct2 (token s) acc' (tokens s)
        | _ => mkTk tkQuote (token s +:+ string_of_byte acc') acc' (tokens s)
        end
      else
        let token' := token s +:+ string_of_byte (acc s) in
        if c =? dquote then mkTk tkWord token' (acc s) (tokens s)
        else mkTk tkQuote (token' +:+ string_of_rune c) (acc s) (tokens s)
  end.

Definition tkInit : tk := mkTk tkSpace "" 0 [].

Definition tkLoop (line : list rune) : tk := fold_left tkStep line tkInit.

(** [errors.New] with the text [unterminated string]. *)
Inductive tkError := ErrUnterminatedString.

(** [Tokenize] returns [([]string, error)]; [None] in the first
    component is the [nil] slice. *)
Definition Tokenize (line : list rune) : option (list string) * option tkError :=
  let s := tkLoop line in
  match state s with
  | tkWord => (Some (tokens s ++ [token s]), None)
  | tkSpace => (Some (tokens s), None)
  | tkQuote | tkQuoteBs | tkHex1 | tkHex2 | tkOct1 | tkOct2 =>
      (None, Some ErrUnterminatedString)
  end.

(** The runes of a string of 7-bit characters. *)
Fixpoint runes (s : string) : list rune :=
  match s with
  | EmptyString => []
  | String a s' => Z.of_N (N_of_ascii a) :: runes s'
  end.

(** The tokens gathered before the loop ran into the end of the line:
    the finished ones and the one being built. *)
Definition tkBestEffort (line : list rune) : list string :=
  let s := tkLoop line in tokens s ++ [token s].

(** The line made of [foo], a space, a double quote and [bar]: its
    quoted string is not closed. *)
Definition unterminated_line : list rune :=
  runes "foo " ++ [dquote] ++ runes "bar".

(** *** Commands and the sub-command parser ([argv/parser.go]) *)

(** The [Validate] and [Complete] callbacks of options and parameters
    play no part in sub-command lookup and are left out.  [Param] is the
    source's [Parameter], a reserved word here. *)
Record Option := mkOption {
  optName : string;
  optAliases : list string;
  optHelp : string;
  optConflicts : list string;
  optRequires : list string
}.

Record Param := mkParameter {
  paramName : string;
  paramHelp : string
}.

#[local] Unset Elimination Schemes.
Inductive Command := mkCommand {
  Name : string;
  Help : string;
  Description : string;
  Options : list Option;
  Parameters : list Param;
  SubCommands : list Command
}.
#[local] Set Elimination Schemes.

(** The fields of [parser] that sub-command handling reads or writes.
    A [*Command] that points into [cmd.SubCommands] is the index of the
    element it points to. *)
Record parser := mkParser {
  cmd : Command;
  argv : list string;
  nextarg : nat;
  subcmd : option nat;
  subargv : list string
}.

Inductive parseError :=
| ErrUnknownSubCommand (arg : string)     (* unknown sub-command: %q *)
| ErrAmbiguousSubCommand (arg : string).  (* ambiguous sub-command: %q *)

(** The loop of [findSubCommand], from index [i] on, [inexact] holding
    the candidates found so far. *)
Fixpoint findSubCommandLoop (subs : list Command) (i : nat) (name : string)
    (inexact : list nat) : list nat :=
  match subs with
  | [] => inexact
  | sub :: rest =>
      if String.eqb name (Name sub) then [i]
      else if Go.HasPrefix (Name sub) name then
        findSubCommandLoop rest (S i) name (inexact ++ [i])
      else findSubCommandLoop rest (S i) name inexact
  end.

Definition findSubCommand (prs : parser) (name : string) : list nat :=
  findSubCommandLoop (SubCommands (cmd prs)) 0 name [].

Definition handleSubCommand (prs : parser) (arg : string)
    : parser * option parseError :=
  let subcommands := findSubCommand prs arg in
  if (length subcommands =? 0)%nat then (prs, Some (ErrUnknownSubCommand arg))
  else if (1 <? length subcommands)%nat then
    (prs, Some (ErrAmbiguousSubCommand arg))
  else
    (mkParser (cmd prs) (argv prs) (nextarg prs) (head subcommands)
       (drop (nextarg prs) (argv prs)), None).

(** The sub-command at index [i] is named [arg]. *)
Definition isExactAt (subs : list Command) (arg : string) (i : nat) : Prop :=
  exists sub, subs !! i = Some sub /\ Name sub = arg.

(** [arg] is a prefix of the name of the sub-command at index [i]. *)
Definition isPrefixAt (subs : list Command) (arg : string) (i : nat) : Prop :=
  exists sub, subs !! i = Some sub /\ Go.HasPrefix (Name sub) arg = true.

(** [handleSubCommand] succeeds and selects [&cmd.SubCommands[i]]. *)
Definition selects (prs : parser) (arg : string) (i : nat) : Prop :=
  handleSubCommand prs arg =
  (mkParser (cmd prs) (argv prs) (nextarg prs) (Some i)
     (drop (nextarg prs) (argv prs)), None).

(** The indices, counted from [k], of the sub-commands that have [name]
    as a prefix of their name. *)
Fixpoint prefixIdxFrom (subs : list Command) (k : nat) (name : string)
    : list nat :=
  match subs with
  | [] => []
  | sub :: rest =>
      if Go.HasPrefix (Name sub) name then k :: prefixIdxFrom rest (S k) name
      else prefixIdxFrom rest (S k) name
  end.

(** A command with the given name and sub-commands and nothing else. *)
Definition command (name : string) (subs : list Command) : Command :=
  mkCommand name "" "" [] [] subs.

Definition newParser (c : Command) (args : list string) : parser :=
  mkParser c args 0 None [].

(** A command with three sub-commands, and its parser after it has
    taken [arg], the first of two arguments. *)
Definition demoCommand : Command :=
  command "mfp" [command "list" []; command "listen" []; command "load" []].

Definition demoParser (arg : string) : parser :=
  mkParser demoCommand [arg; "rest"] 1 None [].

(** *** Rendering tokens as a command line *)

(** The loop of [Tokenize], from any state, and the states in which it is
    not inside a quoted string. *)
Definition tkRun (s : tk) (line : list rune) : tk := fold_left tkStep line s.

Definition outside (s : tk) : Prop := state s = tkSpace \/ state s = tkWord.

(** [string(c)] for every rune of a sequence, one after the other. *)
Fixpoint runesText (w : list rune) : string :=
  match w with
  | [] => ""
  | c :: rest => string_of_rune c +:+ runesText rest
  end.

(** A string in double quotes, with a backslash before every double quote
    and every backslash of it. *)
Definition quote (body : list rune) : list rune :=
  [dquote]
  ++ concat (map (fun c => if (c =? dquote) || (c =? backslash)
                           then [backslash; c] else [c]) body)
  ++ [dquote].

(** A token is written as a sequence of pieces, each either bare or in
    double quotes. *)
Inductive piece :=
| Plain (w : list rune)
| Quoted (body : list rune).

Definition pieceRunes (p : piece) : list rune :=
  match p with
  | Plain w => w
  | Quoted body => body
  end.

Definition renderPiece (p : piece) : list rune :=
  match p with
  | Plain w => w
  | Quoted body => quote body
  end.

Definition renderToken (t : list piece) : list rune :=
  concat (map renderPiece t).

Definition tokenText (t : list piece) : string :=
  runesText (concat (map pieceRunes t)).

(** A bare piece is not empty and holds neither spaces nor quotes; a
    quoted piece holds anything. *)
Definition pieceOK (p : piece) : Prop :=
  match p with
  | Plain w =>
      w <> [] /\ Forall (fun c => IsSpace c = false /\ c <> dquote) w
  | Quoted body => True
  end.

Definition tokenOK (t : list piece) : Prop :=
  t <> [] /\ Forall pieceOK t.

Definition spaces (l : list rune) : Prop :=
  Forall (fun c => IsSpace c = true) l.

(** A line of tokens, each followed by its separator, after leading
    spaces and before a last token that nothing follows (or no such
    token, when [last] is empty). *)
Definition renderLine (lead : list rune)
    (items : list (list piece * list rune)) (last : list piece) : list rune :=
  lead ++ concat (map (fun item => renderToken (fst item) ++ snd item) items)
  ++ renderToken last.

(** *** Options on the command line ([argv/parser.go]) *)

(** [isShortOption] tells if argument is a short option. *)
Definition isShortOption (arg : string) : bool :=
  match arg with
  | String c0 (String c1 _) => Ascii.eqb c0 "-" && negb (Ascii.eqb c1 "-")
  | _ => false
  end.

(** [isLongOption] tells if argument is a long option. *)
Definition isLongOption (arg : string) : bool :=
  match arg with
  | String c0 (String c1 (String _ _)) => Ascii.eqb c0 "-" && Ascii.eqb c1 "-"
  | _ => false
  end.

(** [splitOptVal] splits an option argument into name and value when both
    are in the single argument; it returns [(name, val, novalue)]. *)
Definition splitOptVal (arg : string) : string * string * bool :=
  if isShortOption arg then
    let name := Go.sliceTo arg 2 in
    let val := Go.sliceFrom arg 2 in
    (name, val, String.eqb val "")
  else if isLongOption arg then
    match Go.IndexByte arg "=" with
    | Some idx => (Go.sliceTo arg idx, Go.sliceFrom arg (idx + 1), false)
    | None => (arg, "", true)
    end
  else ("", "", false).

(** The name of an option and its aliases. *)
Definition optNames (opt : Option) : list string :=
  optName opt :: optAliases opt.

(** [findOption] finds the option of the command by name; the result is
    the index of the option in [cmd.Options]. *)
Fixpoint findOptionLoop (opts : list Option) (i : nat) (name : string)
    : option nat :=
  match opts with
  | [] => None
  | opt :: rest =>
      if String.eqb name (optName opt) then Some i
      else if existsb (String.eqb name) (optAliases opt) then Some i
      else findOptionLoop rest (S i) name
  end.

Definition findOption (prs : parser) (name : string) : option nat :=
  findOptionLoop (Options (cmd prs)) 0 name.

(** [completeSubCommand] handles auto-completion for sub-commands. *)
Definition completeSubCommand (prs : parser) (arg : string)
    : bool * list string :=
  (true,
   omap (fun sub =>
           if Go.HasPrefix (Name sub) arg
           then Some (Go.sliceFrom (Name sub) (String.length arg))
           else None)
     (SubCommands (cmd prs))).

(** *** Verification of a command definition *)

Definition hasOptions (c : Command) : bool :=
  negb (length (Options c) =? 0)%nat.
Definition hasParameters (c : Command) : bool :=
  negb (length (Parameters c) =? 0)%nat.
Definition hasSubCommands (c : Command) : bool :=
  negb (length (SubCommands c) =? 0)%nat.

(** [optional], [required] and [repeated] read the decoration of the
    parameter name. *)
Definition optional (param : Param) : bool :=
  Go.HasPrefix (paramName param) "[".
Definition required (param : Param) : bool := negb (optional param).
Definition repeated (param : Param) : bool :=
  Go.HasSuffix (paramName param) "..."
  || Go.HasSuffix (paramName param) "...]".

(** The errors of [Verify], one constructor for each message. *)
Inductive verifyError :=
| ErrMissedCommandName
| ErrExclusive (cmd : string)
| ErrInCommand (cmd : string) (err : verifyError)      (* cmd: err *)
| ErrInSubCommand (cmd : string) (err : verifyError)   (* cmd.err *)
| ErrDuplicatedOption (name : string)
| ErrDuplicatedParameter (name : string)
| ErrOptionalAfterRepeated (param rept : string)
| ErrRequiredAfterOptional (param opt : string)
| ErrRepeatedTwice (rept param : string)
| ErrDuplicatedSubcommand (name : string)
| ErrOptionNoName
| ErrInConflicts (err : verifyError)
| ErrInRequires (err : verifyError)
| ErrNoDash (name : string)
| ErrEmptyOptionName (name : string)
| ErrOptionChar (c : rune) (name : string)
| ErrShortWithLongName (name : string)
| ErrParameterNoName
| ErrMissedBracket (name : string)
| ErrEmptyParameterName (name : string)
| ErrParameterChar (c : rune) (name : string).

(** The first error a check reports on the elements of a list. *)
Fixpoint firstError {A E : Type} (check : A -> option E) (l : list A)
    : option E :=
  match l with
  | [] => None
  | x :: rest =>
      match check x with
      | Some err => Some err
      | None => firstError check rest
      end
  end.

(** The second loop of [verifyParameters]: the disposition of optional
    and repeated parameters; [rept] and [opt] are the repeated and the
    optional parameter met so far. *)
Fixpoint verifyDisposition (params : list Param) (rept opt : option Param)
    : option verifyError :=
  match params with
  | [] => None
  | param :: rest =>
      let checked : verifyError + option Param :=
        if optional param then
          match rept with
          | Some r =>
              inl (ErrOptionalAfterRepeated (paramName param) (paramName r))
          | None => inr (Some param)
          end
        else
          match opt with
          | Some o =>
              inl (ErrRequiredAfterOptional (paramName param) (paramName o))
          | None => inr opt
          end in
      match checked with
      | inl err => Some err
      | inr opt' =>
          if repeated param then
            match rept with
            | Some r => Some (ErrRepeatedTwice (paramName r) (paramName param))
            | None => verifyDisposition rest (Some param) opt'
            end
          else verifyDisposition rest rept opt'
      end
  end.

Section Verify.

(** [unicode.IsLetter] and [unicode.IsDigit] *)
Variable IsLetter IsDigit : rune -> bool.

(** [nameCheck] returns the first invalid character of a name, or -1. *)
Fixpoint nameCheckLoop (l : list (nat * rune)) : rune :=
  match l with
  | [] => -1
  | (i, c) :: rest =>
      if IsLetter c || IsDigit c then nameCheckLoop rest
      else if (0 <? i)%nat && (c =? 45) then nameCheckLoop rest
      else c
  end.

Definition nameCheck (name : string) : rune :=
  nameCheckLoop (Go.rangeString name).

(** [verifyNameSyntax] verifies option name syntax. *)
Definition verifyNameSyntax (name : string) : option verifyError :=
  let dashes :=
    if Go.HasPrefix name "--" then Some (Go.sliceFrom name 2, false)
    else if Go.HasPrefix name "-" then Some (Go.sliceFrom name 1, true)
    else None in
  match dashes with
  | None => Some (ErrNoDash name)
  | Some (check, short) =>
      if String.eqb check "" then Some (ErrEmptyOptionName name)
      else
        let c := nameCheck check in
        if 0 <=? c then Some (ErrOptionChar c name)
        else if short && (1 <? String.length check)%nat then
          Some (ErrShortWithLongName name)
        else None
  end.

(** [Option.verify] *)
Definition Option_verify (opt : Option) : option verifyError :=
  if String.eqb (optName opt) "" then Some ErrOptionNoName
  else
    match firstError verifyNameSyntax (optNames opt) with
    | Some err => Some err
    | None =>
        match firstError verifyNameSyntax (optConflicts opt) with
        | Some err => Some (ErrInConflicts err)
        | None =>
            match firstError verifyNameSyntax (optRequires opt) with
            | Some err => Some (ErrInRequires err)
            | None => None
            end
        end
    end.

(** The loop of [verifyOptions] over the names of one option. *)
Fixpoint addOptNames (names : list string) (optnames : gset string)
    : verifyError + gset string :=
  match names with
  | [] => inr optnames
  | name :: rest =>
      if bool_decide (name ∈ optnames) then inl (ErrDuplicatedOption name)
      else addOptNames rest ({[name]} ∪ optnames)
  end.

Fixpoint verifyOptionsLoop (opts : list Option) (optnames : gset string)
    : option verifyError :=
  match opts with
  | [] => None
  | opt :: rest =>
      match Option_verify opt with
      | Some err => Some err
      | None =>
          match addOptNames (optNames opt) optnames with
          | inl err => Some err
          | inr optnames' => verifyOptionsLoop rest optnames'
          end
      end
  end.

Definition verifyOptions (c : Command) : option verifyError :=
  verifyOptionsLoop (Options c) ∅.

(** [Parameter.verify] *)
Definition Param_verify (param : Param) : option verifyError :=
  let name := paramName param in
  if String.eqb name "" then Some ErrParameterNoName
  else
    let unbraced : verifyError + string :=
      if Go.HasPrefix name "[" then
        if Go.HasSuffix name "]" then
          inr (Go.sliceTo (Go.sliceFrom name 1) (String.length name - 2))
        else inl (ErrMissedBracket name)
      else inr name in
    match unbraced with
    | inl err => Some err
    | inr check =>
        let check :=
          if Go.HasSuffix check "..."
          then Go.sliceTo check (String.length check - 3) else check in
        if String.eqb check "" then Some (ErrEmptyParameterName name)
        else
          let c := nameCheck check in
          if 0 <=? c then Some (ErrParameterChar c name) else None
    end.

(** The first loop of [verifyParameters]: each parameter by itself, and
    no name twice. *)
Fixpoint verifyParamNames (params : list Param) (paramnames : gset string)
    : option verifyError :=
  match params with
  | [] => None
  | param :: rest =>
      match Param_verify param with
      | Some err => Some err
      | None =>
          if bool_decide (paramName param ∈ paramnames) then
            Some (ErrDuplicatedParameter (paramName param))
          else verifyParamNames rest ({[paramName param]} ∪ paramnames)
      end
  end.

Definition verifyParameters (c : Command) : option verifyError :=
  match verifyParamNames (Parameters c) ∅ with
  | Some err => Some err
  | None => verifyDisposition (Parameters c) None None
  end.

(** The loop of [verifySubCommands], [Verify] being the check of one
    sub-command. *)
Fixpoint verifySubCommandsLoop (Verify : Command -> option verifyError)
    (subs : list Command) (subcmdnames : gset string) : option verifyError :=
  match subs with
  | [] => None
  | subcmd :: rest =>
      if bool_decide (Name subcmd ∈ subcmdnames) then
        Some (ErrDuplicatedSubcommand (Name subcmd))
      else
        match Verify subcmd with
        | Some err => Some err
        | None =>
            verifySubCommandsLoop Verify rest ({[Name subcmd]} ∪ subcmdnames)
        end
  end.

(** [Verify] checks correctness of a command definition. *)
Fixpoint Verify (c : Command) : option verifyError :=
  match c with
  | mkCommand name _ _ _ _ subs =>
      if String.eqb name "" then Some ErrMissedCommandName
      else if hasParameters c && hasSubCommands c then Some (ErrExclusive name)
      else
        match
          match verifyOptions c with
          | None => verifyParameters c
          | Some err => Some err
          end
        with
        | Some err => Some (ErrInCommand name err)
        | None =>
            match verifySubCommandsLoop Verify subs ∅ with
            | Some err => Some (ErrInSubCommand name err)
            | None => None
            end
        end
  end.

End Verify.

(** The letters and the digits among the 7-bit characters, which is what
    [unicode.IsLetter] and [unicode.IsDigit] are on these. *)
Definition asciiLetter (c : rune) : bool :=
  (65 <=? c) && (c <=? 90) || (97 <=? c) && (c <=? 122).
Definition asciiDigit (c : rune) : bool := (48 <=? c) && (c <=? 57).

(** A command with two options and three parameters, and one with two
    sub-commands. *)
Definition copyCommand : Command :=
  mkCommand "copy" "" ""
    [mkOption "-v" ["--verbose"] "" [] [];
     mkOption "--force" ["-f"] "" ["-n"] []]
    [mkParameter "mode" ""; mkParameter "source..." "";
     mkParameter "destination" ""]
    [].

Definition toolCommand : Command :=
  mkCommand "tool" "" "" [] [] [copyCommand; command "list" []].

(** *** Positional parameters ([argv/parser.go]) *)

(** [math.MaxInt] *)
Definition MaxInt : Z := 9223372036854775807.

(** [paramsInfo] returns the minimal and the maximal count of
    parameters. *)
Definition paramsInfo (prs : parser) : Z * Z :=
  let params := Parameters (cmd prs) in
  let counted :=
    fold_left
      (fun acc param =>
         (if required param then fst acc + 1 else fst acc,
          if repeated param then MaxInt else snd acc))
      params (0, 0) in
  (fst counted,
   if negb (snd counted =? MaxInt) then Z.of_nat (length params)
   else snd counted).

(** The slice [paramDescs] of [handleParameters] holds pointers into
    [cmd.Parameters], here indices, [None] being [nil].  The three
    functions are its three loops; an index out of range is a panic,
    [None]. *)
Fixpoint descsForward (params : list Param) (count i : nat)
    (paramDescs : list (option nat)) : option (list (option nat) * Z) :=
  match count with
  | O => Some (paramDescs, -1)
  | S count' =>
      match params !! i with
      | None => None
      | Some param =>
          let paramDescs := <[i := Some i]> paramDescs in
          if repeated param then Some (paramDescs, Z.of_nat i)
          else descsForward params count' (S i) paramDescs
      end
  end.

Fixpoint descsBackward (params : list Param) (fuel : nat) (i j : Z)
    (paramDescs : list (option nat)) : option (list (option nat)) :=
  match fuel with
  | O => None
  | S fuel' =>
      match (if j <? 0 then None else params !! Z.to_nat j) with
      | None => None
      | Some param =>
          if repeated param then Some paramDescs
          else if (i <? 0) || (Z.of_nat (length paramDescs) <=? i) then None
          else
            descsBackward params fuel' (i - 1) (j - 1)
              (<[Z.to_nat i := Some (Z.to_nat j)]> paramDescs)
      end
  end.

Definition descsRepeated (rept : nat) (paramDescs : list (option nat))
    : list (option nat) :=
  imap (fun i desc =>
          if (rept <? i)%nat then
            match desc with
            | None => mjoin (paramDescs !! rept)
            | Some _ => desc
            end
          else desc) paramDescs.

(** The descriptors [handleParameters] builds for [count] values. *)
Definition buildParamDescs (params : list Param) (count : nat)
    : option (list (option nat)) :=
  r ← descsForward params count 0 (replicate count None);
  if 0 <=? snd r then
    paramDescs ← descsBackward params (S (length params))
                   (Z.of_nat (length (fst r)) - 1)
                   (Z.of_nat (length params) - 1) (fst r);
    Some (descsRepeated (Z.to_nat (snd r)) paramDescs)
  else Some (fst r).

(** The parameter a value is for: those before the repeated parameter
    and those after it take one value each, from the front and from the
    back, and the repeated parameter takes the values in between. *)
Definition expectedDesc (params : list Param) (count i : nat) : nat :=
  match list_find (fun p => repeated p = true) (take count params) with
  | Some (rept, _) =>
      let after := (length params - S rept)%nat in
      if (i <=? rept)%nat then i
      else if (count - after <=? i)%nat then (length params - (count - i))%nat
      else rept
  | None => i
  end.

(** [parserParamVal] represents a parsed positional parameter with its
    value; [param] points into [cmd.Parameters]. *)
Record parserParamVal := mkParamVal {
  param : option nat;
  value : string
}.

Section HandleParameters.

(** The [Validate] callback of a parameter, [None] if it is [nil]; the
    callback returns an error message or [None]. *)
Variable ParamValidate : Param -> option (string -> option string).

(** What validation reports: the name of the parameter, the error of the
    callback and the value. *)
Inductive paramError := ErrParamValue (name err val : string).

(** The loop of [handleParameters] that validates the values one by one;
    a [nil] descriptor makes it panic, [None]. *)
Fixpoint validateParams (params : list Param)
    (paramDescs : list (option nat)) (paramValues : list string)
    : option (option paramError) :=
  match paramDescs, paramValues with
  | desc :: descs, val :: vals =>
      i ← desc;
      p ← params !! i;
      match ParamValidate p with
      | Some validate =>
          match validate val with
          | Some err => Some (Some (ErrParamValue (paramName p) err val))
          | None => validateParams params descs vals
          end
      | None => validateParams params descs vals
      end
  | _, _ => Some None
  end.

(** [handleParameters] handles positional parameters: it returns the
    error or what it saves as [prs.parameters]. *)
Definition handleParameters (prs : parser) (paramValues : list string)
    : option (paramError + list parserParamVal) :=
  let params := Parameters (cmd prs) in
  paramDescs ← buildParamDescs params (length paramValues);
  err ← validateParams params paramDescs paramValues;
  match err with
  | Some err => Some (inl err)
  | None => Some (inr (zip_with mkParamVal paramDescs paramValues))
  end.

End HandleParameters.

(** *** Options as they are parsed ([argv/parser.go]) *)

(** [parserOptVal] is a parsed option with its values; the option it
    belongs to is the key it is stored under. *)
Record parserOptVal := mkOptVal {
  optvalName : string;             (* Actual name being used *)
  optvalValues : list string       (* Option values *)
}.

(** The parser with the fields option handling reads and writes as
    well: [optConflicts], [optRequired] and [options], the latter keyed
    by the index of the option in [cmd.Options]. *)
Record optParser := mkOptParser {
  base : parser;
  prsOptConflicts : gmap string string;
  prsOptRequired : gmap string string;
  prsOptions : gmap nat parserOptVal
}.

Definition setBase (op : optParser) (p : parser) : optParser :=
  mkOptParser p (prsOptConflicts op) (prsOptRequired op) (prsOptions op).

(** [done] returns true if all arguments are consumed. *)
Definition done (p : parser) : bool :=
  (nextarg p =? length (argv p))%nat
  || match subcmd p with Some _ => true | None => false end.

(** [next] returns the next argument. *)
Definition next (p : parser) : string * parser :=
  match argv p !! nextarg p with
  | Some arg =>
      (arg, mkParser (cmd p) (argv p) (S (nextarg p)) (subcmd p) (subargv p))
  | None => ("", p)
  end.

(** [nextValue] returns the next argument, if one exists. *)
Definition nextValue (p : parser) : string * bool * parser :=
  if negb (done p) then let '(val, p') := next p in (val, false, p')
  else ("", true, p).

Inductive optError :=
| ErrUnknownOption (name : string)           (* unknown option: %q *)
| ErrOptionOperand (name : string)           (* option requires operand: %q *)
| ErrOptionValue (err name value : string)   (* %w: %s %q *)
| ErrOptionConflict (name conflict : string). (* option %q conflicts with %q *)

(** [for _, k := range keys { if _, found := m[k]; !found { m[k] = name } }] *)
Definition markNames (m : gmap string string) (keys : list string)
    (name : string) : gmap string string :=
  fold_left (fun m k =>
               match m !! k with
               | Some _ => m
               | None => <[k:=name]> m
               end) keys m.

Section HandleOptions.

(** The [Validate] callback of an option, [None] for a nil callback; it
    returns the message of its error. *)
Variable OptValidate : Option -> option (string -> option string).

(** [withValue] tells if Option has a value. *)
Definition withValue (opt : Option) : bool :=
  match OptValidate opt with
  | Some _ => true
  | None => false
  end.

(** A handler ends with an error or with the parser it leaves, or
    panics ([None]) on the call of a nil [Validate]. *)
Definition optHandled : Type := option (optError + optParser).

(** [appendOptVal] validates the option value and appends it to
    [prs.options]; [i] is the index of [opt] in [cmd.Options]. *)
Definition appendOptVal (op : optParser) (i : nat) (opt : Option)
    (name value : string) (novalue : bool) : optHandled :=
  if novalue && withValue opt then Some (inl (ErrOptionOperand name))
  else
    checked ←
      (if negb novalue then
         validate ← OptValidate opt; Some (validate value)
       else Some None);
    match checked with
    | Some err => Some (inl (ErrOptionValue err name value))
    | None =>
        match prsOptConflicts op !! name with
        | Some conflict => Some (inl (ErrOptionConflict name conflict))
        | None =>
            (* Save the option *)
            let optval :=
              match prsOptions op !! i with
              | Some optval => optval
              | None => mkOptVal name []
              end in
            let optval :=
              mkOptVal (optvalName optval) (optvalValues optval ++ [value]) in
            (* Update optConflicts and optRequired *)
            Some (inr (mkOptParser (base op)
                         (markNames (prsOptConflicts op) (optConflicts opt)
                            name)
                         (markNames (prsOptRequired op) (optRequires opt)
                            name)
                         (<[i:=optval]> (prsOptions op))))
        end
    end.

(** The loop of [handleShortOption] over the runes of a sequence of
    short options. *)
Fixpoint combinedOptions (op : optParser) (cs : list rune) : optHandled :=
  match cs with
  | [] => Some (inr op)
  | c :: rest =>
      let name2 := "-" +:+ string_of_rune c in
      match findOption (base op) name2 with
      | None => Some (inl (ErrUnknownOption name2))
      | Some i2 =>
          opt2 ← Options (cmd (base op)) !! i2;
          r ← appendOptVal op i2 opt2 name2 "" true;
          match r with
          | inl err => Some (inl err)
          | inr op' => combinedOptions op' rest
          end
      end
  end.

(** [handleShortOption] handles a short option. *)
Definition handleShortOption (op : optParser) (arg : string) : optHandled :=
  let '(name, val, novalue) := splitOptVal arg in
  match findOption (base op) name with
  | None => Some (inl (ErrUnknownOption name))
  | Some i =>
      opt ← Options (cmd (base op)) !! i;
      if novalue || withValue opt then
        let '(val, novalue, p) :=
          if novalue && withValue opt then nextValue (base op)
          else (val, novalue, base op) in
        appendOptVal (setBase op p) i opt name val novalue
      else
        (* Short options without value can be combined *)
        combinedOptions op
          (map snd (Go.rangeString (Go.sliceFrom name 1 +:+ val)))
  end.

(** [handleLongOption] handles a long option. *)
Definition handleLongOption (op : optParser) (arg : string) : optHandled :=
  let '(name, val, novalue) := splitOptVal arg in
  match findOption (base op) name with
  | None => Some (inl (ErrUnknownOption name))
  | Some i =>
      opt ← Options (cmd (base op)) !! i;
      let '(val, novalue, p) :=
        if novalue && withValue opt then nextValue (base op)
        else (val, novalue, base op) in
      appendOptVal (setBase op p) i opt name val novalue
  end.

(** Short options handled one after the other, each an argument of its
    own. *)
Fixpoint handleShortOptions (op : optParser) (args : list string)
    : optHandled :=
  match args with
  | [] => Some (inr op)
  | arg :: rest =>
      r ← handleShortOption op arg;
      match r with
      | inl err => Some (inl err)
      | inr op' => handleShortOptions op' rest
      end
  end.

(** The letter of a flag, as far as the command has a short option of
    that name: a 7-bit character other than the dash, which names no
    option that takes a value. *)
Definition isFlagChar (p : parser) (c : ascii) : Prop :=
  c <> "-"%char /\ Go.byteZ c < 128 /\
  forall j opt,
    findOption p (String "-" (String c "")) = Some j ->
    Options (cmd p) !! j = Some opt -> withValue opt = false.

(** The parser once it has taken the next argument. *)
Definition skipArg (op : optParser) : optParser :=
  setBase op (snd (next (base op))).

(** One call of [appendOptVal], and calls made one after the other. *)
Record appendCall := mkAppendCall {
  callIndex : nat;
  callOption : Option;
  callName : string;
  callValue : string;
  callNoValue : bool
}.

Fixpoint appendAll (op : optParser) (calls : list appendCall) : optHandled :=
  match calls with
  | [] => Some (inr op)
  | c :: rest =>
      r ← appendOptVal op (callIndex c) (callOption c) (callName c)
            (callValue c) (callNoValue c);
      match r with
      | inl err => Some (inl err)
      | inr op' => appendAll op' rest
      end
  end.

End HandleOptions.

(** The parser of a command line as [newParser] makes it. *)
Definition newOptParser (c : Command) (args : list string) : optParser :=
  mkOptParser (newParser c args) ∅ ∅ ∅.

(** A command with an option that takes a value and three flags, one
    of which excludes another, and the [Validate] callbacks of its
    options: that of [-o] accepts every value but the empty one. *)
Definition archiveCommand : Command :=
  mkCommand "archive" "" ""
    [mkOption "-o" ["--output"] "" [] [];
     mkOption "-v" ["--verbose"] "" [] [];
     mkOption "-x" ["--extract"] "" ["-c"; "--create"] [];
     mkOption "-c" ["--create"] "" [] []]
    [] [].

Definition archiveValidate (opt : Option) : option (string -> option string) :=
  if String.eqb (optName opt) "-o" then
    Some (fun value => if String.eqb value "" then Some "empty" else None)
  else None.

End Argv.

(** ** Package abstract *)

Module Abstract.

(** *** Collaborators of [Validate] that are declared elsewhere *)

(** Modelled from the spec: [generic.Bitset] is not part of the sources.
    It is a set of small enumeration values; here one bit per value. *)
Definition Bitset := Z.
Definition Bitset_empty : Bitset := 0.
Definition Bitset_Add (set : Bitset) (elem : Z) : Bitset :=
  Z.lor set (Z.shiftl 1 elem).
Definition Bitset_Union (set set2 : Bitset) : Bitset := Z.lor set set2.
Definition Bitset_Contains (set : Bitset) (elem : Z) : bool :=
  negb (Z.land set (Z.shiftl 1 elem) =? 0).

(** Modelled from the spec: the enumerations of the package are not part
    of the sources.  Each is a Go [iota] enumeration that starts with the
    unset value and ends with an unexported upper bound. *)
Definition InputUnset : Z := 0.
Definition InputPlaten : Z := 1.
Definition InputADF : Z := 2.
Definition inputMax : Z := 3.

Definition ADFModeUnset : Z := 0.
Definition ADFModeSimplex : Z := 1.
Definition ADFModeDuplex : Z := 2.
Definition adfModeMax : Z := 3.

Definition ColorModeUnset : Z := 0.
Definition ColorModeBinary : Z := 1.
Definition ColorModeMono : Z := 2.
Definition ColorModeColor : Z := 3.
Definition colorModeMax : Z := 4.

Definition DepthUnset : Z := 0.
Definition Depth8 : Z := 1.
Definition Depth16 : Z := 2.
Definition depthMax : Z := 3.

Definition BinaryRenderingUnset : Z := 0.
Definition BinaryRenderingHalftone : Z := 1.
Definition BinaryRenderingThreshold : Z := 2.
Definition binaryRenderingMax : Z := 3.

Definition CCDChannelUnset : Z := 0.
Definition CCDChannelRed : Z := 1.
Definition CCDChannelGreen : Z := 2.
Definition CCDChannelBlue : Z := 3.
Definition CCDChannelNTSC : Z := 4.
Definition CCDChannelGrayCcd : Z := 5.
Definition CCDChannelGrayCcdEmulated : Z := 6.
Definition ccdChannelMax : Z := 7.

Inductive ErrCode := ErrInvalidParam | ErrUnsupportedParam.

(** [ErrParam{Err, Name, Value}] *)
Record ErrParam := mkErrParam {
  Err : ErrCode;
  ErrName : string;
  ErrValue : Z
}.

(** An [error] result: [None] is [nil]. *)
Definition error := option ErrParam.

(** [p != nil] for a pointer [p]. *)
Definition notNil {A : Type} (p : option A) : bool :=
  match p with
  | Some _ => true
  | None => false
  end.

(** The color profile of an input and the capabilities of an input, with
    the fields [Validate] reads. *)
Record SettingsProfile := mkProfile {
  ColorModes : Bitset;
  Depths : Bitset;
  BinaryRenderings : Bitset;
  CCDChannels : Bitset
}.

Record InputCapabilities := mkInputCaps {
  Intents : Bitset;
  Profiles : list SettingsProfile
}.

Section Validate.

(** The type [Range] and its method [validate(name, value)] are declared
    elsewhere in the package; [Validate] is written against them. *)
Context {Range : Type}.
Variable validate : Range -> string -> option Z -> error.

Record ScannerCapabilities := mkCaps {
  Platen : option InputCapabilities;
  ADFSimplex : option InputCapabilities;
  ADFDuplex : option InputCapabilities;
  BrightnessRange : Range;
  ContrastRange : Range;
  GammaRange : Range;
  HighlightRange : Range;
  NoiseRemovalRange : Range;
  ShadowRange : Range;
  SharpenRange : Range;
  ThresholdRange : Range;
  CompressionRange : Range
}.

(** [ScannerRequest].  [Region] and [Resolution], of types declared
    elsewhere, are not looked at by [Validate] and are left out. *)
Record ScannerRequest := mkRequest {
  Input : Z;
  ADFMode : Z;
  ColorMode : Z;
  Depth : Z;
  BinaryRendering : Z;
  CCDChannel : Z;
  DocumentFormat : string;
  Intent : Z;
  Brightness : option Z;
  Contrast : option Z;
  Gamma : option Z;
  Highlight : option Z;
  NoiseRemoval : option Z;
  Shadow : option Z;
  Sharpen : option Z;
  Threshold : option Z;
  Compression : option Z
}.

(** The sets gathered at the top of [Validate]. *)
Record gathered := mkGathered {
  inputs : Bitset;
  adfmodes : Bitset;
  intents : Bitset;
  colorModes : Bitset;
  depths : Bitset;
  binrend : Bitset;
  ccdChannels : Bitset
}.

Definition gatherProfile (g : gathered) (prof : SettingsProfile) : gathered :=
  mkGathered (inputs g) (adfmodes g) (intents g)
    (Bitset_Union (colorModes g) (ColorModes prof))
    (Bitset_Union (depths g) (Depths prof))
    (Bitset_Union (binrend g) (BinaryRenderings prof))
    (Bitset_Union (ccdChannels g) (CCDChannels prof)).

Definition gatherInput (g : gathered) (inpcaps : option InputCapabilities)
    : gathered :=
  match inpcaps with
  | None => g
  | Some ic =>
      fold_left gatherProfile (Profiles ic)
        (mkGathered (inputs g) (adfmodes g)
           (Bitset_Union (intents g) (Intents ic))
           (colorModes g) (depths g) (binrend g) (ccdChannels g))
  end.

Definition gather (scancaps : ScannerCapabilities) : gathered :=
  let inputs0 :=
    if notNil (Platen scancaps) then Bitset_Add Bitset_empty InputPlaten
    else Bitset_empty in
  let inputs1 :=
    if notNil (ADFSimplex scancaps) || notNil (ADFDuplex scancaps)
    then Bitset_Add inputs0 InputADF else inputs0 in
  let adf0 :=
    if notNil (ADFSimplex scancaps)
    then Bitset_Add Bitset_empty ADFModeSimplex
    else Bitset_empty in
  let adf1 :=
    if notNil (ADFDuplex scancaps) then Bitset_Add adf0 ADFModeDuplex
    else adf0 in
  fold_left gatherInput
    [Platen scancaps; ADFSimplex scancaps; ADFDuplex scancaps]
    (mkGathered inputs1 adf1 Bitset_empty Bitset_empty Bitset_empty
       Bitset_empty Bitset_empty).

(** The [switch] that checks one enumeration field:
    unset passes, out of range is invalid, not in the set is unsupported. *)
Definition checkEnum (name : string) (v unset max : Z) (set : Bitset) : error :=
  if v =? unset then None
  else if (v <? 0) || (max <=? v) then Some (mkErrParam ErrInvalidParam name v)
  else if negb (Bitset_Contains set v) then
    Some (mkErrParam ErrUnsupportedParam name v)
  else None.

(** [if err != nil { return err }] *)
Definition orElse (e : error) (rest : error) : error :=
  match e with
  | Some err => Some err
  | None => rest
  end.

Definition Validate (req : ScannerRequest) (scancaps : ScannerCapabilities)
    : error :=
  let g := gather scancaps in
  (* Check Input and ADFMode *)
  orElse (checkEnum "Input" (Input req) InputUnset inputMax (inputs g))
  (orElse (if negb (Input req =? InputADF) then None
           else checkEnum "ADFMode" (ADFMode req) ADFModeUnset adfModeMax
                  (adfmodes g))
  (* Check ColorMode, Depth, BinaryRendering and Threshold *)
  (orElse (checkEnum "ColorMode," (ColorMode req) ColorModeUnset colorModeMax
             (colorModes g))
  (orElse (if ColorMode req =? ColorModeBinary then
             orElse (checkEnum "BinaryRendering" (BinaryRendering req)
                       BinaryRenderingUnset binaryRenderingMax (binrend g))
                    (validate (ThresholdRange scancaps) "Threshold"
                       (Threshold req))
           else if (ColorMode req =? ColorModeMono)
                   || (ColorMode req =? ColorModeColor) then
             checkEnum "Depth" (Depth req) DepthUnset depthMax (depths g)
           else None)
  (* Check CCDChannel *)
  (orElse (checkEnum "CCDChannel" (CCDChannel req) CCDChannelUnset
             ccdChannelMax (ccdChannels g))
  (* Check image processing parameters. *)
  (orElse (validate (BrightnessRange scancaps) "Brightness" (Brightness req))
  (orElse (validate (ContrastRange scancaps) "Contrast" (Contrast req))
  (orElse (validate (GammaRange scancaps) "Gamma" (Gamma req))
  (orElse (validate (HighlightRange scancaps) "Highlight" (Highlight req))
  (orElse (validate (NoiseRemovalRange scancaps) "NoiseRemoval"
             (NoiseRemoval req))
  (orElse (validate (ShadowRange scancaps) "Shadow" (Shadow req))
  (orElse (validate (SharpenRange scancaps) "Sharpen" (Sharpen req))
          (validate (CompressionRange scancaps) "Compression"
             (Compression req))))))))))))).

(** *** The rules, one by one

    Each rule is the outcome of one check, whether or not an earlier
    check has already failed. *)

Definition ruleInput (req : ScannerRequest) (g : gathered) : error :=
  checkEnum "Input" (Input req) InputUnset inputMax (inputs g).

Definition ruleADFMode (req : ScannerRequest) (g : gathered) : error :=
  if Input req =? InputADF then
    checkEnum "ADFMode" (ADFMode req) ADFModeUnset adfModeMax (adfmodes g)
  else None.

Definition ruleColorMode (req : ScannerRequest) (g : gathered) : error :=
  checkEnum "ColorMode," (ColorMode req) ColorModeUnset colorModeMax
    (colorModes g).

Definition ruleBinaryRendering (req : ScannerRequest) (g : gathered) : error :=
  checkEnum "BinaryRendering" (BinaryRendering req) BinaryRenderingUnset
    binaryRenderingMax (binrend g).

Definition ruleThreshold (req : ScannerRequest) (scancaps : ScannerCapabilities)
    : error :=
  validate (ThresholdRange scancaps) "Threshold" (Threshold req).

Definition ruleDepth (req : ScannerRequest) (g : gathered) : error :=
  checkEnum "Depth" (Depth req) DepthUnset depthMax (depths g).

Definition ruleCCDChannel (req : ScannerRequest) (g : gathered) : error :=
  checkEnum "CCDChannel" (CCDChannel req) CCDChannelUnset ccdChannelMax
    (ccdChannels g).

Definition rulesImageProcessing (req : ScannerRequest)
    (scancaps : ScannerCapabilities) : list error :=
  [validate (BrightnessRange scancaps) "Brightness" (Brightness req);
   validate (ContrastRange scancaps) "Contrast" (Contrast req);
   validate (GammaRange scancaps) "Gamma" (Gamma req);
   validate (HighlightRange scancaps) "Highlight" (Highlight req);
   validate (NoiseRemovalRange scancaps) "NoiseRemoval" (NoiseRemoval req);
   validate (ShadowRange scancaps) "Shadow" (Shadow req);
   validate (SharpenRange scancaps) "Sharpen" (Sharpen req);
   validate (CompressionRange scancaps) "Compression" (Compression req)].

(** The first failure of a list of rule outcomes, [nil] if there is none. *)
Fixpoint firstFailure (rules : list error) : error :=
  match rules with
  | [] => None
  | Some err :: _ => Some err
  | None :: rest => firstFailure rest
  end.

(** The rules in the order of the specification, rule 5 as it words it:
    BinaryRendering and Threshold for ColorMode Binary, else Depth. *)
Definition rulesAsSpecified (req : ScannerRequest)
    (scancaps : ScannerCapabilities) : list error :=
  let g := gather scancaps in
  [ruleInput req g; ruleADFMode req g; ruleColorMode req g]
  ++ (if ColorMode req =? ColorModeBinary
      then [ruleBinaryRendering req g; ruleThreshold req scancaps]
      else [ruleDepth req g])
  ++ [ruleCCDChannel req g]
  ++ rulesImageProcessing req scancaps.

(** The same, with Depth a rule for the color modes Mono and Color only. *)
Definition rulesApplied (req : ScannerRequest)
    (scancaps : ScannerCapabilities) : list error :=
  let g := gather scancaps in
  [ruleInput req g; ruleADFMode req g; ruleColorMode req g]
  ++ (if ColorMode req =? ColorModeBinary
      then [ruleBinaryRendering req g; ruleThreshold req scancaps]
      else if (ColorMode req =? ColorModeMono)
              || (ColorMode req =? ColorModeColor)
      then [ruleDepth req g]
      else [])
  ++ [ruleCCDChannel req g]
  ++ rulesImageProcessing req scancaps.

End Validate.

Arguments ScannerCapabilities : clear implicits.

(** Modelled from the spec: [Range] and [Range.validate] are not part of
    the sources.  A range has [Min <= value <= Max] and an optional
    [Step] grid; the zero range stands for an absent one, for which only
    an unset field is acceptable, anything else being unsupported. *)
Record Range := mkRange {
  Min : Z;
  Max : Z;
  Normal : Z;
  Step : Z
}.

Definition Range_IsZero (r : Range) : bool :=
  (Min r =? 0) && (Max r =? 0) && (Normal r =? 0) && (Step r =? 0).

Definition Range_validate (r : Range) (name : string) (v : option Z) : error :=
  match v with
  | None => None
  | Some x =>
      if Range_IsZero r then Some (mkErrParam ErrUnsupportedParam name x)
      else if (x <? Min r) || (Max r <? x) then
        Some (mkErrParam ErrInvalidParam name x)
      else if negb (Step r =? 0) && negb ((x - Min r) mod Step r =? 0) then
        Some (mkErrParam ErrInvalidParam name x)
      else None
  end.

Definition noRange : Range := mkRange 0 0 0 0.

(** A scanner with a platen that scans in color, 8 bits deep, and no
    image processing. *)
Definition colorPlaten : ScannerCapabilities Range :=
  mkCaps
    (Some (mkInputCaps Bitset_empty
             [mkProfile (Bitset_Add Bitset_empty ColorModeColor)
                (Bitset_Add Bitset_empty Depth8) Bitset_empty Bitset_empty]))
    None None
    noRange noRange noRange noRange noRange noRange noRange noRange noRange.

(** A request that leaves everything unset but the depth, which is out
    of range. *)
Definition badDepthRequest : ScannerRequest :=
  mkRequest InputUnset ADFModeUnset ColorModeUnset (-1) BinaryRenderingUnset
    CCDChannelUnset "" 0 None None None None None None None None None.

(** The inputs a scanner has: those of its three capability pointers
    that are not [nil]. *)
Definition inputsOf {Range : Type} (scancaps : ScannerCapabilities Range)
    : list InputCapabilities :=
  omap id [Platen scancaps; ADFSimplex scancaps; ADFDuplex scancaps].

(** Some profile of some input of the scanner has [v] in the set that
    [field] selects. *)
Definition someProfile {Range : Type} (scancaps : ScannerCapabilities Range)
    (field : SettingsProfile -> Bitset) (v : Z) : Prop :=
  exists inpcaps prof,
    inpcaps ∈ inputsOf scancaps /\ prof ∈ Profiles inpcaps /\
    Bitset_Contains (field prof) v = true.

(** A request for a color scan from the platen, 8 bits deep. *)
Definition colorRequest : ScannerRequest :=
  mkRequest InputPlaten ADFModeUnset ColorModeColor Depth8
    BinaryRenderingUnset CCDChannelUnset "" 0 None None None None None None
    None None None.

End Abstract.

(** ** Package wsdd: the multicast messaging scheduler *)

Module Wsdd.

(** Scheduler parameters; durations are in milliseconds. *)
Definition schedRetransmitSeriesLen : nat := 4.
Definition schedRetransmitDelayMin : Z := 250.
Definition schedRetransmitDelayMax : Z := 500.
Definition schedFastSeriesLen : nat := 2.
Definition schedFastSeriesDelay : Z := 1000.
Definition schedInterSeriesDelay : Z := 5000.
Definition schedResolveMaxTime : Z := 5000.

(** Events generated by the scheduler. *)
Inductive schedEvent :=
| schedClosed      (* Scheduler is closed *)
| schedNewMessage  (* Generate new message *)
| schedSend.       (* Send current message *)

#[global] Instance schedEvent_eq_dec : EqDecision schedEvent.
Proof. solve_decision. Defined.

(** Modelled from the spec: the [timer] of the scheduler is not part of
    the sources; [Sleep] reports [false] once the timer is cancelled, which
    is what closing the scheduler does.

    What the goroutine of [proc] gets from outside: the result of its
    k-th call of [timer.Sleep] ([false] once the timer is cancelled), the
    k-th value drawn by [random.UintRange] and the k-th reading of
    [time.Now().Sub(start)]. *)
Record world := mkWorld {
  sleepOk : nat -> bool;
  rnd : nat -> Z;
  elapsed : nat -> Z
}.

(** Where [proc] stands between two steps. *)
Inductive pc :=
| pcFast          (* at the test of the fast series loop *)
| pcRetransmit    (* at the test of the retransmit series loop *)
| pcFastDelay     (* before Sleep(schedFastSeriesDelay) *)
| pcInterDelay    (* before Sleep(schedInterSeriesDelay) *)
| pcReturned.     (* proc has returned and closed the channel *)

Record procState := mkProc {
  at_pc : pc;
  fastCnt : nat;
  tx : nat;
  nsleep : nat;               (* calls of timer.Sleep so far *)
  nrnd : nat;                 (* random values drawn so far *)
  nclock : nat;               (* clock readings so far *)
  sent : list schedEvent;     (* everything written to s.c so far *)
  pauses : list Z             (* the delays slept through so far *)
}.

(** Modelled from the spec: [random.UintRange] is not part of the
    sources; the pause is drawn between its two bounds. *)
Definition UintRange (w : world) (k : nat) (lo hi : Z) : Z :=
  lo + (rnd w k) mod (hi - lo + 1).

(** [resolveTimedOut] *)
Definition resolveTimedOut (resolve : bool) (w : world) (k : nat) : bool :=
  if negb resolve then false else schedResolveMaxTime <=? elapsed w k.

(** One step of [proc]: from one loop test or sleep to the next. *)
Definition procStep (resolve : bool) (w : world) (s : procState) : procState :=
  match at_pc s with
  | pcFast =>
      if (fastCnt s <? schedFastSeriesLen)%nat then
        mkProc pcRetransmit (fastCnt s) 0 (nsleep s) (nrnd s) (nclock s)
          (sent s ++ [schedNewMessage]) (pauses s)
      else
        mkProc pcInterDelay (fastCnt s) (tx s) (nsleep s) (nrnd s) (nclock s)
          (sent s) (pauses s)
  | pcRetransmit =>
      if (tx s <? schedRetransmitSeriesLen)%nat then
        let delay := UintRange w (nrnd s) schedRetransmitDelayMin
                       schedRetransmitDelayMax in
        if sleepOk w (nsleep s) then
          mkProc pcRetransmit (fastCnt s) (S (tx s)) (S (nsleep s))
            (S (nrnd s)) (nclock s) (sent s ++ [schedSend])
            (pauses s ++ [delay])
        else
          mkProc pcReturned (fastCnt s) (tx s) (S (nsleep s)) (S (nrnd s))
            (nclock s) (sent s ++ [schedSend]) (pauses s)
      else
        mkProc pcFastDelay (fastCnt s) (tx s) (nsleep s) (nrnd s) (nclock s)
          (sent s) (pauses s)
  | pcFastDelay =>
      if sleepOk w (nsleep s) then
        let fastCnt' := if negb resolve then S (fastCnt s) else fastCnt s in
        let nclock' := if resolve then S (nclock s) else nclock s in
        if resolveTimedOut resolve w (nclock s) then
          mkProc pcReturned fastCnt' (tx s) (S (nsleep s)) (nrnd s) nclock'
            (sent s) (pauses s ++ [schedFastSeriesDelay])
        else
          mkProc pcFast fastCnt' (tx s) (S (nsleep s)) (nrnd s) nclock'
            (sent s) (pauses s ++ [schedFastSeriesDelay])
      else
        mkProc pcReturned (fastCnt s) (tx s) (S (nsleep s)) (nrnd s)
          (nclock s) (sent s) (pauses s)
  | pcInterDelay =>
      if sleepOk w (nsleep s) then
        mkProc pcFast 0 (tx s) (S (nsleep s)) (nrnd s) (nclock s) (sent s)
          (pauses s ++ [schedInterSeriesDelay])
      else
        mkProc pcReturned (fastCnt s) (tx s) (S (nsleep s)) (nrnd s)
          (nclock s) (sent s) (pauses s)
  | pcReturned => s
  end.

(** [proc] starts at the outer [for] with [fastCnt := 0]. *)
Definition procInit : procState := mkProc pcFast 0 0 0 0 0 [] [].

(** The state of [proc] after [n] steps. *)
Fixpoint proc (resolve : bool) (w : world) (n : nat) : procState :=
  match n with
  | O => procInit
  | S n' => procStep resolve w (proc resolve w n')
  end.

(** A world in which the timer is cancelled during the k-th sleep. *)
Definition cancelledAt (k : nat) : world :=
  mkWorld (fun i => (i <? k)%nat) (fun _ => 0) (fun _ => 0).

(** [n] full retransmit series, each a new message and its sends. *)
Definition series (r : nat) : list schedEvent :=
  schedNewMessage :: repeat schedSend r.

Fixpoint fullSeries (n : nat) : list schedEvent :=
  match n with
  | O => []
  | S n' => series schedRetransmitSeriesLen ++ fullSeries n'
  end.

(** Between any two consecutive new-message events of [evs] there are
    exactly [r] send events. *)
Definition pacedBetween (r : nat) (evs : list schedEvent) : Prop :=
  forall l1 mid l2,
    evs = l1 ++ schedNewMessage :: mid ++ schedNewMessage :: l2 ->
    ~ In schedNewMessage mid ->
    mid = repeat schedSend r.

(** Every new-message event of [evs] is immediately followed by [r] send
    events. *)
Definition followedBy (r : nat) (evs : list schedEvent) : Prop :=
  forall l1 l2,
    evs = l1 ++ schedNewMessage :: l2 ->
    exists l3, l2 = repeat schedSend r ++ l3.

(** The same, but for the last new-message event: every new-message
    event is followed by [r] send events and then by the next
    new-message event, or it is the last one and is followed by at most
    [r] send events and nothing else. *)
Definition followedByButLast (r : nat) (evs : list schedEvent) : Prop :=
  forall l1 l2,
    evs = l1 ++ schedNewMessage :: l2 ->
    (exists l3, l2 = repeat schedSend r ++ schedNewMessage :: l3) \/
    (exists k, (k <= r)%nat /\ l2 = repeat schedSend k).

(** Nothing, or something that starts with a new-message event. *)
Definition startsNew (l : list schedEvent) : Prop :=
  l = [] \/ exists l', l = schedNewMessage :: l'.

(** What has been sent, according to where [proc] stands: full series,
    followed inside a retransmit series by the part of it sent so far. *)
Definition shape (s : procState) : Prop :=
  exists n,
    match at_pc s with
    | pcFast | pcFastDelay | pcInterDelay => sent s = fullSeries n
    | pcRetransmit =>
        (tx s <= schedRetransmitSeriesLen)%nat /\
        sent s = fullSeries n ++ series (tx s)
    | pcReturned =>
        sent s = fullSeries n \/
        exists k, (1 <= k <= schedRetransmitSeriesLen)%nat /\
                  sent s = fullSeries n ++ series k
    end.

(** The timer is never cancelled. *)
Definition neverCancelled (w : world) : Prop :=
  forall k, sleepOk w k = true.

(** The pauses after the sends of one retransmit series, the first of
    them being the [k]-th random value drawn. *)
Definition retransmitPauses (w : world) (k : nat) : list Z :=
  map (fun i => UintRange w (k + i) schedRetransmitDelayMin
                  schedRetransmitDelayMax)
    (seq 0 schedRetransmitSeriesLen).

(** The pauses of the first cycles of the scheduler when it browses:
    every cycle is two series, each followed by the fast series delay,
    and then the delay between series. *)
Fixpoint browsePauses (w : world) (cycles : nat) : list Z :=
  match cycles with
  | O => []
  | S c =>
      browsePauses w c
      ++ retransmitPauses w (8 * c) ++ [schedFastSeriesDelay]
      ++ retransmitPauses w (8 * c + 4)
      ++ [schedFastSeriesDelay; schedInterSeriesDelay]
  end.

(** A world in which the timer is never cancelled and the clock shows
    two seconds more at every reading. *)
Definition steadyWorld : world :=
  mkWorld (fun _ => true) (fun _ => 0) (fun k => 2000 * Z.of_nat (S k)).

End Wsdd.

(** ** Package transport: TLS auto-detect *)

Module Transport.

(** [syscall.Errno] values the code tells apart, and the others. *)
Inductive Errno :=
| EAGAIN
| EWOULDBLOCK
| Errno_other (code : Z).

(** The outcome of one [syscall.Recvfrom(fd, buf, MSG_PEEK)]: either
    [n >= 0] bytes copied to the front of [buf] and a [nil] error, or an
    error and [n = -1]. *)
Inductive recv :=
| RecvData (data : list Z)
| RecvErr (e : Errno).

(** A [syscall.RawConn] is used through [Read] only, which calls its
    argument once the descriptor is readable, again and again until the
    argument returns [true].  The list holds what [Recvfrom] returns in
    these calls; when it runs out, waiting for the descriptor has failed
    (it was closed) and [Read] gives up. *)
Definition RawConn := list recv.

Inductive connError := ErrSyscallConn.

(** A [net.Conn], with an identity.  [SyscallConn] is [None] for an
    implementation that lacks the method, else the result of the call.
    [peerData] is what the peer has sent, whichever way it is read. *)
Record Conn := mkConn {
  connID : nat;
  SyscallConn : option (RawConn + connError);
  peerData : list Z
}.

#[global] Instance Errno_eq_dec : EqDecision Errno.
Proof. solve_decision. Defined.
#[global] Instance recv_eq_dec : EqDecision recv.
Proof. solve_decision. Defined.
#[global] Instance connError_eq_dec : EqDecision connError.
Proof. solve_decision. Defined.
#[global] Instance Conn_eq_dec : EqDecision Conn.
Proof. solve_decision. Defined.

Record autoTLSListenerQueue := mkQueue {
  connections : list Conn
}.

(** [autoTLSListener], without its lock and condition variable, and with
    the connections closed so far as a ghost field. *)
Record autoTLSListener := mkATL {
  haveAccepter : bool;
  closed : bool;
  parentClosed : bool;
  plain : autoTLSListenerQueue;
  encrypted : autoTLSListenerQueue;
  pending : list Conn;
  closedConns : list Conn
}.

Definition NewAutoTLSListener : autoTLSListener :=
  mkATL false false false (mkQueue []) (mkQueue []) [] [].

Definition push (q : autoTLSListenerQueue) (c : Conn) : autoTLSListenerQueue :=
  mkQueue (connections q ++ [c]).

Definition pull (q : autoTLSListenerQueue)
    : option Conn * autoTLSListenerQueue :=
  match connections q with
  | [] => (None, q)
  | c :: rest => (Some c, mkQueue rest)
  end.

Definition pullAll (q : autoTLSListenerQueue)
    : list Conn * autoTLSListenerQueue :=
  (connections q, mkQueue []).

(** [c.Close()] *)
Definition closeConn (atl : autoTLSListener) (c : Conn) : autoTLSListener :=
  mkATL (haveAccepter atl) (closed atl) (parentClosed atl) (plain atl)
    (encrypted atl) (pending atl) (closedConns atl ++ [c]).

(** [close]: marks the listener closed, then closes the parent and all
    queued and pending connections. *)
Definition close (atl : autoTLSListener) : autoTLSListener :=
  let conns := connections (plain atl) ++ connections (encrypted atl)
               ++ pending atl in
  mkATL (haveAccepter atl) true true (mkQueue []) (mkQueue []) []
    (closedConns atl ++ conns).

(** The callback handed to [rawconn.Read] in [detectTLSRawConn], run on
    the successive outcomes of [Recvfrom].  [buf] and [err] are the
    variables the callback assigns; the last component counts the calls
    of [Recvfrom]. *)
Fixpoint rawRead (rawconn : RawConn) (buf : list Z) (err : option Errno)
    (calls : nat) : list Z * option Errno * nat :=
  match rawconn with
  | [] => (buf, err, calls)
  | RecvData data :: rest =>
      if (0 <? Z.of_nat (length (take 16 data))) then
        (take 16 data, None, S calls)
      else (buf, None, S calls)
  | RecvErr e :: rest =>
      if negb (bool_decide (e = EAGAIN)) && negb (bool_decide (e = EWOULDBLOCK))
      then (buf, Some e, S calls)
      else rawRead rest buf (Some e) (S calls)
  end.

(** [buf[0]]; the buffer is never empty. *)
Definition buf0 (buf : list Z) : Z := nth 0 buf 0.

(** [detectTLSRawConn] returns [(withTLS, err)]; the third component is
    the number of reads made. *)
Definition detectTLSRawConn (rawconn : RawConn)
    : bool * option Errno * nat :=
  let '(buf, err, calls) := rawRead rawconn (repeat 0 16) None 0 in
  let withTLS :=
    match err with
    | None => buf0 buf =? 22
    | Some _ => false
    end in
  (withTLS, None, calls).

Definition detectTLS (c : Conn) : bool * option Errno * nat :=
  match SyscallConn c with
  | Some (inl rawconn) => detectTLSRawConn rawconn
  | _ =>
      (* connections that do not provide a working SyscallConn() method *)
      (false, None, O)
  end.

(** What other goroutines do to the listener while [acceptWait] does
    not hold the lock. *)
Inductive others := Quiet | Close.

Definition meanwhile (o : others) (atl : autoTLSListener) : autoTLSListener :=
  match o with
  | Quiet => atl
  | Close => close atl
  end.

Definition setPending (atl : autoTLSListener) (p : list Conn)
    : autoTLSListener :=
  mkATL (haveAccepter atl) (closed atl) (parentClosed atl) (plain atl)
    (encrypted atl) p (closedConns atl).

Definition setPlain (atl : autoTLSListener) (q : autoTLSListenerQueue)
    : autoTLSListener :=
  mkATL (haveAccepter atl) (closed atl) (parentClosed atl) q
    (encrypted atl) (pending atl) (closedConns atl).

Definition setEncrypted (atl : autoTLSListener) (q : autoTLSListenerQueue)
    : autoTLSListener :=
  mkATL (haveAccepter atl) (closed atl) (parentClosed atl) (plain atl)
    q (pending atl) (closedConns atl).

(** [atl.pending[c] = struct{}{}] *)
Definition addPending (atl : autoTLSListener) (c : Conn) : autoTLSListener :=
  if bool_decide (c ∈ pending atl) then atl
  else setPending atl (pending atl ++ [c]).

(** [delete(atl.pending, c)] *)
Definition deletePending (atl : autoTLSListener) (c : Conn)
    : autoTLSListener :=
  setPending atl (filter (fun c' => c' <> c) (pending atl)).

Inductive acceptError := ErrAccept.

(** [acceptWait], given the result of [atl.parent.Accept()] and what the
    other goroutines do before each of its three critical sections. *)
Definition acceptWait (atl : autoTLSListener) (accepted : Conn + acceptError)
    (o1 o2 o3 : others) : autoTLSListener * option acceptError :=
  match accepted with
  | inr err => (atl, Some err)
  | inl c =>
      (* Add connection to atl.pending *)
      let atl := meanwhile o1 atl in
      let closed0 := closed atl in
      let atl := if negb closed0 then addPending atl c else atl in
      (* If listener already closed, just drop the connection *)
      if closed0 then (closeConn atl c, None)
      else
        (* Detect TLS, then drop connection from pending. *)
        let '(withTLS, err, _) := detectTLS c in
        let atl := meanwhile o2 atl in
        let atl := deletePending atl c in
        match err with
        | Some _ => (closeConn atl c, None)
        | None =>
            (* Enqueue the connection *)
            let atl := meanwhile o3 atl in
            if closed atl then (closeConn atl c, None)
            else if withTLS then (setEncrypted atl (push (encrypted atl) c), None)
            else (setPlain atl (push (plain atl) c), None)
        end
  end.

(** The first byte a peek at the connection yields: that of the first
    data [Recvfrom] returns, after any number of attempts that found
    nothing to read yet. *)
Fixpoint firstPeeked (rawconn : RawConn) : option Z :=
  match rawconn with
  | RecvErr EAGAIN :: rest => firstPeeked rest
  | RecvErr EWOULDBLOCK :: rest => firstPeeked rest
  | RecvData (b :: _) :: _ => Some b
  | _ => None
  end.

(** The connection is at the tail of the queue and not closed. *)
Definition enqueuedTo (q q' : autoTLSListenerQueue) (c : Conn) : Prop :=
  connections q' = connections q ++ [c].

(** The listener is closed meanwhile: it was closed when the connection
    arrived, or another goroutine closes it before one of the critical
    sections of [acceptWait]. *)
Definition closedMeanwhile (atl : autoTLSListener) (o1 o2 o3 : others)
    : Prop :=
  closed atl = true \/ o1 = Close \/ o2 = Close \/ o3 = Close.

(** A connection of a TLS client, whose first byte is 0x16, and one of
    the same client behind a [net.Conn] without [SyscallConn]. *)
Definition tlsConn : Conn :=
  mkConn 1 (Some (inl [RecvErr EAGAIN; RecvData [22; 3; 1]])) [22; 3; 1].

Definition wrappedTLSConn : Conn := mkConn 2 None [22; 3; 1].

Definition httpConn : Conn :=
  mkConn 3 (Some (inl [RecvData [71; 69; 84]])) [71; 69; 84].

(** What one turn of the loop of [accept] gets from outside: the result
    of [atl.parent.Accept()] and what the other goroutines do before each
    of the three critical sections of [acceptWait]. *)
Record arrival := mkArrival {
  accepted : Conn + acceptError;
  before1 : others;
  before2 : others;
  before3 : others
}.

(** An arrival with no other goroutine at work. *)
Definition quietly (c : Conn) : arrival := mkArrival (inl c) Quiet Quiet Quiet.

Definition setHaveAccepter (atl : autoTLSListener) (b : bool)
    : autoTLSListener :=
  mkATL b (closed atl) (parentClosed atl) (plain atl) (encrypted atl)
    (pending atl) (closedConns atl).

(** [queue := &atl.plain; if encrypted { queue = &atl.encrypted }] *)
Definition queueOf (encrypted0 : bool) (atl : autoTLSListener)
    : autoTLSListenerQueue :=
  if encrypted0 then encrypted atl else plain atl.

Definition setQueueOf (encrypted0 : bool) (atl : autoTLSListener)
    (q : autoTLSListenerQueue) : autoTLSListener :=
  if encrypted0 then setEncrypted atl q else setPlain atl q.

(** [accept], run by one goroutine on the successive arrivals at the
    parent listener.  It returns the listener, what [accept] returns and
    the arrivals left; the result is [None] where the call blocks: in
    [atl.wait.Wait()], as another goroutine is the accepter, or in
    [atl.parent.Accept()], as nothing arrives any more. *)
Fixpoint accept (encrypted0 : bool) (atl : autoTLSListener)
    (arrivals : list arrival) {struct arrivals}
    : autoTLSListener * option (Conn + acceptError) * list arrival :=
  (* May be we already have a queued connection? *)
  match pull (queueOf encrypted0 atl) with
  | (Some c, q) => (setQueueOf encrypted0 atl q, Some (inl c), arrivals)
  | (None, _) =>
      (* Somebody already waits on parent.Accept()? *)
      if haveAccepter atl then (atl, None, arrivals)
      else
        (* We are that happy accepter. *)
        let atl := setHaveAccepter atl true in
        match arrivals with
        | [] => (atl, None, [])
        | a :: rest =>
            let '(atl, err) :=
              acceptWait atl (accepted a) (before1 a) (before2 a) (before3 a) in
            let atl := setHaveAccepter atl false in
            match err with
            | Some e => (atl, Some (inr e), rest)
            | None => accept encrypted0 atl rest
            end
        end
  end.

(** What [detectTLS] answers for a connection. *)
Definition withTLS (c : Conn) : bool := fst (fst (detectTLS c)).

(** The connections the parent listener has delivered in [arrivals]. *)
Fixpoint delivered (arrivals : list arrival) : list Conn :=
  match arrivals with
  | [] => []
  | a :: rest =>
      match accepted a with
      | inl c => c :: delivered rest
      | inr _ => delivered rest
      end
  end.

(** The listener holds the connection in one of its queues, or has
    closed it. *)
Definition kept (atl : autoTLSListener) (c : Conn) : Prop :=
  c ∈ connections (plain atl) \/ c ∈ connections (encrypted atl) \/
  c ∈ closedConns atl.

End Transport.

(** ** Package escl: the eSCL server on top of an abstract scanner *)

Module Escl.

(** Job states ([escl/jobstate.go]), under the names the server uses for
    them: the declared values of the type, an [int], which are the only
    ones the server assigns. *)
Inductive JobState :=
| UnknownJobState
| JobCanceled      (* Job was canceled by user *)
| JobAborted       (* Job was aborted due to fatal error *)
| JobCompleted     (* Job is finished successfully *)
| JobPending       (* Job was initiated *)
| JobProcessing.   (* Job is in progress *)

(** Modelled from the spec: the declarations of [JobStateReason],
    [ScannerState] and [ADFState] are not part of the sources; the
    constants are those the server and [ScannerStatus.ToXML] name. *)
Inductive JobStateReason :=
| UnknownJobStateReason
| JobCompletedSuccessfully
| AbortedBySystem
| JobCanceledByUser.

Inductive ScannerState :=
| UnknownScannerState
| ScannerIdle
| ScannerProcessing
| ScannerTesting
| ScannerStopped
| ScannerDown.

Inductive ADFState :=
| UnknownADFState
| ScannerAdfProcessing
| ADFState_other (code : Z).

#[global] Instance JobState_eq_dec : EqDecision JobState.
Proof. solve_decision. Defined.
#[global] Instance JobStateReason_eq_dec : EqDecision JobStateReason.
Proof. solve_decision. Defined.

(** [JobInfo], with the fields the server sets. *)
Record JobInfo := mkJobInfo {
  JobURI : string;
  JobUUID : option string;
  JobState_ : JobState;
  JobStateReasons : list JobStateReason
}.

Record ScannerStatus := mkStatus {
  Version : Z;
  State : ScannerState;
  ADFState_ : option ADFState;
  Jobs : list JobInfo
}.

Definition AbstractServerHistorySize : nat := 10.

(** Modelled from the spec: [PushJobInfo] is not part of the sources.
    Jobs are ordered newest-first and the server retains the last [max]
    of them. *)
Definition PushJobInfo (status : ScannerStatus) (info : JobInfo) (max : nat)
    : ScannerStatus :=
  mkStatus (Version status) (State status) (ADFState_ status)
    (take max (info :: Jobs status)).

(** An XML tree as built by the [ToXML] functions. *)
#[local] Unset Elimination Schemes.
Inductive Element := mkElement {
  Name : string;
  Text : string;
  Children : list Element
}.
#[local] Set Elimination Schemes.

(** Modelled from the spec: the namespace prefixes and the content type
    of XML replies are constants declared elsewhere. *)
Definition NsScan : string := "scan".
Definition NsPWG : string := "pwg".
Definition HTTPContentType : string := "text/xml".
Definition DefaultVersion : Z := 2.

(** HTTP status codes of [net/http]. *)
Definition StatusOK : Z := 200.
Definition StatusCreated : Z := 201.
Definition StatusBadRequest : Z := 400.
Definition StatusNotFound : Z := 404.
Definition StatusConflict : Z := 409.
Definition StatusNotImplemented : Z := 501.
Definition StatusServiceUnavailable : Z := 503.

(** An [abstract.Document] is known by its identity; what its [Next]
    returns comes with the request that calls it. *)
Record Document := mkDocument { docID : nat }.

Record DocumentFile := mkFile {
  Format : string;
  content : string
}.

(** An [error] other than [io.EOF] is its message. *)
Inductive nextResult :=
| NextFile (file : DocumentFile)
| NextEOF
| NextErr (err : string).

(** The body of a POST request, through [xmldoc.Decode] and
    [DecodeScanSettings]. *)
Inductive bodyResult (Req : Type) :=
| BodyXMLError (err : string)        (* xmldoc.Decode failed *)
| BodySettingsError (err : string)   (* DecodeScanSettings failed *)
| BodyOK (absreq : Req).             (* ss.ToAbstract() *)
Arguments BodyXMLError {Req} err.
Arguments BodySettingsError {Req} err.
Arguments BodyOK {Req} absreq.

(** What is written to the [http.ResponseWriter]. *)
Inductive written :=
| WroteText (status : Z) (err : string)   (* Reject: status line, message *)
| WroteXML (xml : Element) (indent : string)
| WroteImage (file : DocumentFile).

(** [abstractServerQuery]: the request and the response so far. *)
Record abstractServerQuery (Req : Type) := mkQuery {
  Method : string;
  URLPath : string;
  Host : string;
  TLS : bool;
  RequestBody : bodyResult Req;
  status : Z;                               (* HTTP status, 0 if not known yet *)
  ResponseHeader : list (string * string);
  body : list written
}.
Arguments mkQuery {Req}.
Arguments Method {Req}.
Arguments URLPath {Req}.
Arguments Host {Req}.
Arguments TLS {Req}.
Arguments RequestBody {Req}.
Arguments status {Req}.
Arguments ResponseHeader {Req}.
Arguments body {Req}.

Section Server.

(** The scanner request and capabilities of package abstract, and the
    functions of other packages the server calls. *)
Context {Range : Type}.
Abbreviation ScannerRequest := Abstract.ScannerRequest.
Abbreviation ScannerCapabilities := (Abstract.ScannerCapabilities Range).
Abbreviation query := (abstractServerQuery ScannerRequest).

Variable CleanURLPath : string -> string.          (* transport.CleanURLPath *)
Variable pathJoin : list string -> string.         (* path.Join *)
Variable StatusText : Z -> string.                 (* http.StatusText *)
Variable versionToXML : Z -> string -> Element.
Variable stateToXML : ScannerState -> string -> Element.
Variable adfStateToXML : ADFState -> string -> Element.
Variable jobInfoToXML : JobInfo -> string -> Element.
Variable capabilitiesToXML : Z -> ScannerCapabilities -> Element.

(** [ScannerStatus.ToXML].  A nil slice of jobs is the empty list: the
    server starts without jobs and never empties a list it has filled. *)
Definition ToXML (st : ScannerStatus) : Element :=
  let children0 :=
    [versionToXML (Version st) (NsPWG +:+ ":Version");
     stateToXML (State st) (NsPWG +:+ ":State")] in
  let children1 :=
    match ADFState_ st with
    | Some a => children0 ++ [adfStateToXML a (NsScan +:+ ":AdfState")]
    | None => children0
    end in
  let children2 :=
    match Jobs st with
    | [] => children1
    | jobs =>
        children1 ++
        [mkElement (NsScan +:+ ":Jobs") ""
           (map (fun job => jobInfoToXML job (NsScan +:+ ":JobInfo")) jobs)]
    end in
  mkElement (NsScan +:+ ":ScannerStatus") "" children2.

(** What the scanner, the UUID generator and the document answer while
    one request is served. *)
Record answers := mkAnswers {
  uuidRandom : string + string;           (* uu.URN(), or an error *)
  scan : Document + string;               (* Scanner.Scan *)
  next : nextResult                       (* srv.document.Next() *)
}.

Record AbstractServerOptions := mkOptions {
  optVersion : Z;
  ScannerCaps : ScannerCapabilities;      (* options.Scanner.Capabilities() *)
  BasePath : string
}.

Record AbstractServer := mkServer {
  options : AbstractServerOptions;
  caps : ScannerCapabilities;
  srvStatus : ScannerStatus;
  document : option Document;
  closedDocs : list Document              (* ghost: documents closed so far *)
}.

(** *** Methods of the query *)

Definition headerSet (hdr : list (string * string)) (k v : string)
    : list (string * string) :=
  (k, v) :: filter (fun kv => negb (String.eqb (fst kv) k)) hdr.

Definition setHeader (q : query) (k v : string) : query :=
  mkQuery (Method q) (URLPath q) (Host q) (TLS q) (RequestBody q) (status q)
    (headerSet (ResponseHeader q) k v) (body q).

Definition Write (q : query) (w : written) : query :=
  mkQuery (Method q) (URLPath q) (Host q) (TLS q) (RequestBody q) (status q)
    (ResponseHeader q) (body q ++ [w]).

(** The first status written stands. *)
Definition WriteHeader (q : query) (st : Z) : query :=
  if status q =? 0 then
    mkQuery (Method q) (URLPath q) (Host q) (TLS q) (RequestBody q) st
      (ResponseHeader q) (body q)
  else q.

Definition NoCache (q : query) : query :=
  setHeader (setHeader (setHeader q
    "Cache-Control" "no-cache, no-store, must-revalidate")
    "Pragma" "no-cache")
    "Expires" "0".

Definition Reject (q : query) (st : Z) (err : option string) : query :=
  let q := setHeader q "Content-Type" "text/plain; charset=utf-8" in
  let q := NoCache q in
  let q := WriteHeader q st in
  let err := match err with Some e => e | None => StatusText st end in
  Write q (WroteText st err).

Definition Created (q : query) (joburi : string) : query :=
  let scheme := if TLS q then "https" else "http" in
  let location := scheme +:+ "://" +:+ Host q +:+ joburi in
  WriteHeader (setHeader q "Location" location) StatusCreated.

Definition SendXML (q : query) (xml : Element) : query :=
  let q := setHeader q "Content-Type" HTTPContentType in
  let q := WriteHeader q StatusOK in
  Write q (WroteXML xml "  ").

Definition SendImage (q : query) (file : DocumentFile) : query :=
  let q := setHeader q "Content-Type" (Format file) in
  let q := WriteHeader q StatusOK in
  Write q (WroteImage file).

(** *** The server *)

Definition NewAbstractServer (opts : AbstractServerOptions) : AbstractServer :=
  let ver := if optVersion opts =? 0 then DefaultVersion else optVersion opts in
  let opts := mkOptions ver (ScannerCaps opts)
                (CleanURLPath (BasePath opts +:+ "/")) in
  let caps := ScannerCaps opts in
  let st := mkStatus ver ScannerIdle None [] in
  let st :=
    if Abstract.notNil (Abstract.ADFSimplex caps)
       || Abstract.notNil (Abstract.ADFDuplex caps)
    then mkStatus (Version st) (State st) (Some ScannerAdfProcessing) (Jobs st)
    else st in
  mkServer opts caps st None [].

Definition setStatus (srv : AbstractServer) (st : ScannerStatus)
    : AbstractServer :=
  mkServer (options srv) (caps srv) st (document srv) (closedDocs srv).

(** A handler either ends with the server and the query it leaves, or
    panics ([None]) on a nil document or an empty job list. *)
Definition handled : Type := option (AbstractServer * query).

Definition getScannerCapabilities (srv : AbstractServer) (q : query) : handled :=
  let ver := Version (srvStatus srv) in
  Some (srv, SendXML q (capabilitiesToXML ver (caps srv))).

Definition getScannerStatus (srv : AbstractServer) (q : query) : handled :=
  Some (srv, SendXML q (ToXML (srvStatus srv))).

Definition postScanJobs (srv : AbstractServer) (q : query) (a : answers)
    : handled :=
  match RequestBody q with
  | BodyXMLError err => Some (srv, Reject q StatusBadRequest (Some err))
  | BodySettingsError err => Some (srv, Reject q StatusBadRequest (Some err))
  | BodyOK absreq =>
      (* Check if previous request already in progress *)
      if Abstract.notNil (document srv) then
        Some (srv, Reject q StatusServiceUnavailable
                     (Some "Device is busy with the previous request"))
      else
        match uuidRandom a with
        | inr err => Some (srv, Reject q StatusServiceUnavailable (Some err))
        | inl jobuuid =>
            match scan a with
            | inr err => Some (srv, Reject q StatusConflict (Some err))
            | inl doc =>
                (* Update server status *)
                let joburi :=
                  pathJoin [BasePath (options srv); "ScanJobs"; jobuuid] in
                let info :=
                  mkJobInfo joburi (Some jobuuid) JobProcessing [] in
                let st := srvStatus srv in
                let st := mkStatus (Version st) ScannerProcessing
                            (ADFState_ st) (Jobs st) in
                let st := PushJobInfo st info AbstractServerHistorySize in
                Some (mkServer (options srv) (caps srv) st (Some doc)
                        (closedDocs srv),
                      Created q joburi)
            end
        end
  end.

(** [finish] finishes the current job and updates server state. *)
Definition finish (srv : AbstractServer) (state : JobState)
    (reason : JobStateReason) : option AbstractServer :=
  match document srv with
  | None => None
  | Some doc =>
      let st := srvStatus srv in
      match Jobs st with
      | [] => None
      | job0 :: rest =>
          let job0 := mkJobInfo (JobURI job0) (JobUUID job0) state
                        (JobStateReasons job0) in
          let job0 :=
            if bool_decide (reason <> UnknownJobStateReason) then
              mkJobInfo (JobURI job0) (JobUUID job0) (JobState_ job0) [reason]
            else job0 in
          Some (mkServer (options srv) (caps srv)
                  (mkStatus (Version st) ScannerIdle (ADFState_ st)
                     (job0 :: rest))
                  None (closedDocs srv ++ [doc]))
      end
  end.

Definition getJobURINextDocument (srv : AbstractServer) (q : query)
    (a : answers) : handled :=
  match document srv with
  | None => None
  | Some _ =>
      match next a with
      | NextEOF =>
          srv' ← finish srv JobCompleted JobCompletedSuccessfully;
          Some (srv', Reject q StatusNotFound None)
      | NextErr err =>
          srv' ← finish srv JobCanceled AbortedBySystem;
          Some (srv', Reject q StatusServiceUnavailable (Some err))
      | NextFile file => Some (srv, SendImage q file)
      end
  end.

Definition getJobURIScanImageInfo (srv : AbstractServer) (q : query) : handled :=
  Some (srv, Reject q StatusNotImplemented None).

Definition deleteJobURI (srv : AbstractServer) (q : query) : handled :=
  srv' ← finish srv JobCanceled JobCanceledByUser;
  Some (srv', WriteHeader q StatusOK).

Inductive action :=
| actGetScannerCapabilities
| actGetScannerStatus
| actPostScanJobs
| actGetJobURINextDocument
| actGetJobURIScanImageInfo
| actDeleteJobURI.

(** The part of [ServeHTTP] that picks the handler; the outer [None] is
    the panic of [srv.status.Jobs[0]] on an empty job list. *)
Definition dispatch (srv : AbstractServer) (q : query) : option (option action) :=
  let path := Go.CutPrefix (URLPath q) (BasePath (options srv)) in
  let action0 :=
    if String.eqb path "ScannerCapabilities" then
      if String.eqb (Method q) "GET" then Some actGetScannerCapabilities
      else None
    else if String.eqb path "ScannerStatus" then
      if String.eqb (Method q) "GET" then Some actGetScannerStatus else None
    else if String.eqb path "ScanJobs" then
      if String.eqb (Method q) "POST" then Some actPostScanJobs else None
    else None in
  match action0, document srv with
  | None, Some _ =>
      match Jobs (srvStatus srv) with
      | [] => None
      | job0 :: _ =>
          let joburi := JobURI job0 in
          Some
            (if String.eqb (Method q) "GET" then
               if String.eqb (URLPath q) (joburi +:+ "/NextDocument")
               then Some actGetJobURINextDocument
               else if String.eqb (URLPath q) (joburi +:+ "/ScanImageInfo")
               then Some actGetJobURIScanImageInfo
               else None
             else if String.eqb (Method q) "DELETE" then
               if String.eqb (URLPath q) joburi then Some actDeleteJobURI
               else None
             else None)
      end
  | _, _ => Some action0
  end.

Definition runAction (act : action) (srv : AbstractServer) (q : query)
    (a : answers) : handled :=
  match act with
  | actGetScannerCapabilities => getScannerCapabilities srv q
  | actGetScannerStatus => getScannerStatus srv q
  | actPostScanJobs => postScanJobs srv q a
  | actGetJobURINextDocument => getJobURINextDocument srv q a
  | actGetJobURIScanImageInfo => getJobURIScanImageInfo srv q
  | actDeleteJobURI => deleteJobURI srv q
  end.

(** [ServeHTTP], one request served from start to end. *)
Definition ServeHTTP (srv : AbstractServer) (q : query) (a : answers)
    : handled :=
  if negb (Go.HasPrefix (URLPath q) (BasePath (options srv))) then
    Some (srv, Reject q StatusNotFound None)
  else
    act ← dispatch srv q;
    match act with
    | Some act => runAction act srv q a
    | None => Some (srv, Reject q StatusNotFound None)
    end.

(** A request as it arrives: nothing of the response is written yet. *)
Definition newAbstractServerQuery (method path host : string) (tls : bool)
    (reqbody : bodyResult ScannerRequest) : query :=
  mkQuery method path host tls reqbody 0 [] [].

(** Requests served one after the other; the result is the server after
    the last one and the queries as they were left, or [None] if a
    handler panicked. *)
Fixpoint serveAll (srv : AbstractServer) (rqs : list (query * answers))
    : option (AbstractServer * list query) :=
  match rqs with
  | [] => Some (srv, [])
  | (q, a) :: rest =>
      r ← ServeHTTP srv q a;
      r' ← serveAll (fst r) rest;
      Some (fst r', snd r :: snd r')
  end.

(** *** The single job in progress *)

Definition notProcessing (job : JobInfo) : Prop :=
  JobState_ job <> JobProcessing.

(** Only the job at the head of the list can be in progress. *)
Definition processingIsFirst (st : ScannerStatus) : Prop :=
  forall (i : nat) (job : JobInfo),
    Jobs st !! i = Some job -> JobState_ job = JobProcessing -> i = 0%nat.

(** A job is in progress. *)
Definition inProgress (st : ScannerStatus) : Prop :=
  exists job, In job (Jobs st) /\ JobState_ job = JobProcessing.

(** The document and the job list go together: with a document, the
    first job is in progress and no other is; without, no job is. *)
Definition serverInv (srv : AbstractServer) : Prop :=
  match document srv with
  | None => Forall notProcessing (Jobs (srvStatus srv))
  | Some _ =>
      exists job rest,
        Jobs (srvStatus srv) = job :: rest /\
        JobState_ job = JobProcessing /\
        Forall notProcessing rest
  end.

End Server.

(** A scanner with an automatic document feeder and a server for it. *)
Definition adfCaps : Abstract.ScannerCapabilities Abstract.Range :=
  Abstract.mkCaps None
    (Some (Abstract.mkInputCaps Abstract.Bitset_empty [])) None
    Abstract.noRange Abstract.noRange Abstract.noRange Abstract.noRange
    Abstract.noRange Abstract.noRange Abstract.noRange Abstract.noRange
    Abstract.noRange.

Definition demoOptions : AbstractServerOptions := mkOptions 0 adfCaps "/eSCL".

(** Stand-ins for the functions of other packages, for the examples. *)
Definition demoClean (path : string) : string := path.
Definition demoJoin (elems : list string) : string :=
  match elems with
  | [base; dir; name] => base +:+ dir +:+ "/" +:+ name
  | _ => ""
  end.
Definition demoStatusText (st : Z) : string := "".
Definition demoLeaf {A : Type} (_ : A) (name : string) : Element :=
  mkElement name "" [].
Definition demoCapsXML (ver : Z)
    (c : Abstract.ScannerCapabilities Abstract.Range) : Element :=
  mkElement "scan:ScannerCapabilities" "" [].

Definition demoServe :=
  ServeHTTP demoJoin demoStatusText demoLeaf demoLeaf demoLeaf demoLeaf
    demoCapsXML.

Definition demoServer : AbstractServer :=
  NewAbstractServer demoClean demoOptions.

Definition demoAnswers (n : nextResult) : answers :=
  mkAnswers (inl "urn:uuid:1") (inl (mkDocument 1)) n.

Definition emptyRequest : Abstract.ScannerRequest :=
  Abstract.mkRequest 0 0 0 0 0 0 "" 0 None None None None None None None
    None None.

Definition demoPost : abstractServerQuery Abstract.ScannerRequest :=
  newAbstractServerQuery "POST" "/eSCL/ScanJobs" "localhost" false
    (BodyOK emptyRequest).

Definition demoNext : abstractServerQuery Abstract.ScannerRequest :=
  newAbstractServerQuery "GET" "/eSCL/ScanJobs/urn:uuid:1/NextDocument"
    "localhost" false (BodyXMLError "").

(** The server after a scan job was posted. *)
Definition demoBusy : option AbstractServer :=
  fst <$> demoServe demoServer demoPost (demoAnswers NextEOF).

(** [JobState] is an [int] in [escl/jobstate.go]; its known values
    are numbered from 0 in the order of their declaration. *)
Definition JobState_value (state : JobState) : Z :=
  match state with
  | UnknownJobState => 0
  | JobCanceled => 1
  | JobAborted => 2
  | JobCompleted => 3
  | JobPending => 4
  | JobProcessing => 5
  end.

(** [JobState.String], for any value of the [int]. *)
Definition JobState_String (state : Z) : string :=
  if state =? 1 then "Canceled"
  else if state =? 2 then "Aborted"
  else if state =? 3 then "Completed"
  else if state =? 4 then "Pending"
  else if state =? 5 then "Processing"
  else "Unknown".

(** [DecodeJobState] decodes a job state out of its XML string
    representation. *)
Definition DecodeJobState (s : string) : Z :=
  if String.eqb s "Canceled" then 1
  else if String.eqb s "Aborted" then 2
  else if String.eqb s "Completed" then 3
  else if String.eqb s "Pending" then 4
  else if String.eqb s "Processing" then 5
  else 0.

(** The documents the server has got from [Scanner.Scan]: those it has
    closed and the one it streams from. *)
Definition documentsOf {Range : Type} (srv : @AbstractServer Range)
    : list Document :=
  closedDocs srv ++
  match document srv with
  | Some doc => [doc]
  | None => []
  end.

(** The document a request has made the scanner open: that of
    [Scanner.Scan], when the request is answered with 201 Created. *)
Definition openedFor (q' : abstractServerQuery Abstract.ScannerRequest)
    (a : answers) : list Document :=
  if status q' =? StatusCreated then
    match scan a with
    | inl doc => [doc]
    | inr _ => []
    end
  else [].

(** The codes the server answers with. *)
Definition answerCodes : list Z :=
  [StatusOK; StatusCreated; StatusBadRequest; StatusNotFound; StatusConflict;
   StatusNotImplemented; StatusServiceUnavailable].

(** A request to cancel the job of [demoBusy]. *)
Definition demoDelete : abstractServerQuery Abstract.ScannerRequest :=
  newAbstractServerQuery "DELETE" "/eSCL/ScanJobs/urn:uuid:1" "localhost"
    false (BodyXMLError "").

Definition demoBusyServer : AbstractServer :=
  match demoBusy with
  | Some srv => srv
  | None => demoServer
  end.

(** [http.Header.Get] *)
Definition headerGet (hdr : list (string * string)) (k : string)
    : option string :=
  snd <$> List.find (fun kv => String.eqb (fst kv) k) hdr.

End Escl.

(** ** Package xml: the XML mini library *)

Module Xml.

(** *** Tokens of the Go library's encoding/xml *)

(** [xml.Name] *)
Record XmlName := mkName {
  Space : string;
  Local : string
}.

(** [xml.Attr] *)
Record XAttr := mkXAttr {
  XName : XmlName;
  XValue : string
}.

Inductive Token :=
| StartElement (name : XmlName) (attr : list XAttr)
| EndElement (name : XmlName)
| CharData (data : string)
| Comment (data : string)
| ProcInst (target inst : string)
| Directive (data : string).

(** *** Namespaces and elements *)

(** Modelled from the spec: the types [Namespace], [Attr] and [Element]
    and the functions [ByURL], [ByPrefix], [Append], [nsPrefix] and
    [Iterate] are not part of the sources.  A namespace maps full URLs
    to short prefixes; it is a sequence of such pairs, searched from
    its start.  An element has a name, a path, a text, attributes,
    children and a parent. *)
Record nsEntry := mkNs {
  URL : string;
  Prefix : string
}.

Definition Namespace := list nsEntry.

Fixpoint ByURL (ns : Namespace) (url : string) : option string :=
  match ns with
  | [] => None
  | n :: rest => if String.eqb (URL n) url then Some (Prefix n) else ByURL rest url
  end.

Fixpoint ByPrefix (ns : Namespace) (prefix : string) : option string :=
  match ns with
  | [] => None
  | n :: rest =>
      if String.eqb (Prefix n) prefix then Some (URL n) else ByPrefix rest prefix
  end.

Definition Append (ns : Namespace) (url prefix : string) : Namespace :=
  ns ++ [mkNs url prefix].

Record Attr := mkAttr {
  AttrName : string;
  AttrValue : string
}.

(** Elements live in a store, in the order of their creation; a pointer
    to an element is its index in the store. *)
Record Element := mkElement {
  Name : string;
  Path : string;
  Text : string;
  Attrs : list Attr;
  Parent : option nat;
  Children : list nat
}.

Abbreviation store := (list Element).

(** [strings.Cut(s, ":")] and [strings.Count(s, ":")] *)
Fixpoint cutColon (s : string) : option (string * string) :=
  match s with
  | EmptyString => None
  | String c rest =>
      if Ascii.eqb c ":" then Some (EmptyString, rest)
      else match cutColon rest with
           | Some (before, after) => Some (String c before, after)
           | None => None
           end
  end.

Fixpoint countColon (s : string) : nat :=
  match s with
  | EmptyString => O
  | String c rest =>
      if Ascii.eqb c ":" then S (countColon rest) else countColon rest
  end.

(** The prefix of a name, if it has one. *)
Definition nsPrefix (name : string) : option string :=
  match cutColon name with
  | Some (prefix, _) => Some prefix
  | None => None
  end.

Definition nonEmpty (s : string) : bool := negb (String.eqb s "").

Section Codec.

(** [bytes.TrimSpace] and [strings.TrimSpace], which agree. *)
Variable TrimSpace : string -> string.

(** *** The decoder *)

(** The local variables of [Decode]: [elements] is the store. *)
Record decoder := mkDecoder {
  elements : store;
  elem : option nat;
  path : string
}.

(** Decode name: namespace translation is handled here. *)
Definition rewriteName (ns : Namespace) (t : XmlName) : string :=
  let name :=
    if nonEmpty (Space t) then
      match ByURL ns (Space t) with
      | Some prefix => prefix
      | None => "-"
      end
    else "" in
  let name := if nonEmpty name then name +:+ ":" else name in
  name +:+ Local t.

Definition addChild (child : nat) (e : Element) : Element :=
  mkElement (Name e) (Path e) (Text e) (Attrs e) (Parent e)
    (Children e ++ [child]).

Definition setText (text : string) (e : Element) : Element :=
  mkElement (Name e) (Path e) text (Attrs e) (Parent e) (Children e).

(** [for p := elem.Parent; p != nil; p = p.Parent] appending [child] to
    the children of [p]; the parent chain is no longer than the store. *)
Fixpoint linkAncestors (fuel : nat) (h : store) (p : option nat) (child : nat)
    : store :=
  match p with
  | None => h
  | Some i =>
      match fuel with
      | O => h
      | S fuel' =>
          linkAncestors fuel' (alter (addChild child) i h)
            (h !! i ≫= Parent) child
      end
  end.

(** [path.Truncate(n)] *)
Definition Truncate (path : string) (n : nat) : string :=
  String.substring 0 n path.

(** One pass through the loop of [Decode]; [None] is the panic of
    [elem.Parent] on a nil [elem]. *)
Definition decodeStep (ns : Namespace) (d : decoder) (token : Token)
    : option decoder :=
  match token with
  | StartElement t _ =>
      let name := rewriteName ns t in
      let path' := path d +:+ "/" +:+ name in
      let idx := length (elements d) in
      let new := mkElement name path' "" [] (elem d) [] in
      let h := elements d ++ [new] in
      Some (mkDecoder (linkAncestors (length h) h (elem d) idx) (Some idx) path')
  | EndElement _ =>
      i ← elem d;
      e ← elements d !! i;
      match Parent e with
      | Some pi =>
          pe ← elements d !! pi;
          Some (mkDecoder (elements d) (Some pi)
                  (Truncate (path d) (String.length (Path pe))))
      | None => Some (mkDecoder (elements d) None (Truncate (path d) 0))
      end
  | CharData t =>
      match elem d with
      | Some i =>
          Some (mkDecoder (alter (setText (TrimSpace t)) i (elements d))
                  (elem d) (path d))
      | None => Some d
      end
  | _ => Some d
  end.

Fixpoint decodeLoop (ns : Namespace) (d : decoder) (tokens : list Token)
    : option decoder :=
  match tokens with
  | [] => Some d
  | token :: rest => d' ← decodeStep ns d token; decodeLoop ns d' rest
  end.

(** [Decode], on a reader whose tokens up to [io.EOF] are [tokens]. *)
Definition Decode (ns : Namespace) (tokens : list Token) : option store :=
  elements <$> decodeLoop ns (mkDecoder [] None "") tokens.

(** *** The encoder *)

(** [encodeRecursive], every [EncodeToken] taken to succeed.  The fuel
    bounds the depth of the recursion. *)
Fixpoint encodeRecursive (fuel : nat) (h : store) (root : Element)
    : option (list Token) :=
  match fuel with
  | O => None
  | S fuel' =>
      let name := mkName "" (Name root) in
      let attrs :=
        map (fun attr => mkXAttr (mkName "" (AttrName attr)) (AttrValue attr))
          (Attrs root) in
      let text := TrimSpace (Text root) in
      children ← mapM (fun i => elm ← h !! i; encodeRecursive fuel' h elm)
                   (Children root);
      Some ([StartElement name attrs]
            ++ (if nonEmpty text then [CharData text] else [])
            ++ concat children
            ++ [EndElement name])
  end.

(** [root.Iterate()]: the element, then what its children iterate over. *)
Fixpoint Iterate (fuel : nat) (h : store) (root : Element) : list Element :=
  match fuel with
  | O => []
  | S fuel' =>
      root ::
      concat (map (fun i => match h !! i with
                            | Some elm => Iterate fuel' h elm
                            | None => []
                            end) (Children root))
  end.

(** The body of the loops of [namespaceUsed] for one name. *)
Definition markUsed (ns : Namespace) (st : Namespace * gset string)
    (name : string) : Namespace * gset string :=
  let '(out, inuse) := st in
  match nsPrefix name with
  | Some prefix =>
      if bool_decide (prefix ∈ inuse) then st
      else
        (match ByPrefix ns prefix with
         | Some url => Append out url prefix
         | None => out
         end, {[prefix]} ∪ inuse)
  | None => st
  end.

Definition namespaceUsed (fuel : nat) (h : store) (root : Element)
    (ns : Namespace) : Namespace :=
  fst (fold_left
         (fun st elem =>
            fold_left (markUsed ns) (map AttrName (Attrs elem))
              (markUsed ns st (Name elem)))
         (Iterate fuel h root) ([], ∅)).

Definition doubleQuote : string := String (ascii_of_nat 34) EmptyString.

(** [Encode]: the compact form, as the tokens handed to the encoder. *)
Definition Encode (h : store) (root : Element) (ns : Namespace)
    : option (list Token) :=
  let fuel := S (length h) in
  let nsused := namespaceUsed fuel h root ns in
  let nsattrs :=
    map (fun n => mkAttr ("xmlns:" +:+ Prefix n) (URL n)) nsused in
  let root := mkElement (Name root) (Path root) (Text root)
                (nsattrs ++ Attrs root) (Parent root) (Children root) in
  body ← encodeRecursive fuel h root;
  Some (ProcInst "xml" ("version=" +:+ doubleQuote +:+ "1.0" +:+ doubleQuote)
        :: body).

(** The text [Decode] leaves in an element: that of the last character
    data directly inside it, trimmed. *)
Definition lastText (text : string) (tokens : list Token) : string :=
  fold_left (fun text token =>
               match token with
               | CharData t => TrimSpace t
               | _ => text
               end) tokens text.

End Codec.

(** *** What the decoder of encoding/xml reads back from what its
    encoder wrote *)

(** Names as the decoder accepts them, for 7-bit characters: a letter,
    an underscore or a colon first, then also digits, dashes and dots;
    bytes above 127 are let through. *)
Definition nameStart (c : ascii) : bool :=
  let n := nat_of_ascii c in
  ((65 <=? n) && (n <=? 90) || (97 <=? n) && (n <=? 122)
   || (n =? 95) || (n =? 58) || (128 <=? n))%nat.

Definition nameChar (c : ascii) : bool :=
  let n := nat_of_ascii c in
  (nameStart c || (48 <=? n) && (n <=? 57) || (n =? 45) || (n =? 46))%nat.

Fixpoint allChars (f : ascii -> bool) (s : string) : bool :=
  match s with
  | EmptyString => true
  | String c rest => f c && allChars f rest
  end.

Definition isName (s : string) : bool :=
  match s with
  | EmptyString => false
  | String c rest => nameStart c && allChars nameChar rest
  end.

(** [nsname]: a name read from the input is split at its colon. *)
Definition nsname (s : string) : option XmlName :=
  if negb (isName s) then None
  else if (1 <? countColon s)%nat then None
  else
    match cutColon s with
    | Some (space, local) =>
        if nonEmpty space && nonEmpty local then Some (mkName space local)
        else Some (mkName "" s)
    | None => Some (mkName "" s)
    end.

Definition xmlURL : string := "http://www.w3.org/XML/1998/namespace".

(** The prefixes in scope with their URLs, the innermost first. *)
Definition bindings := list (string * string).

Fixpoint bound (bs : bindings) (prefix : string) : option string :=
  match bs with
  | [] => None
  | (p, url) :: rest => if String.eqb p prefix then Some url else bound rest prefix
  end.

(** [translate]: the prefix of a name becomes the URL bound to it. *)
Definition translate (bs : bindings) (n : XmlName) (isElementName : bool) : XmlName :=
  if String.eqb (Space n) "xmlns" then n
  else if negb (nonEmpty (Space n)) && negb isElementName then n
  else if String.eqb (Space n) "xml" then mkName xmlURL (Local n)
  else if negb (nonEmpty (Space n)) && String.eqb (Local n) "xmlns" then n
  else match bound bs (Space n) with
       | Some url => mkName url (Local n)
       | None => n
       end.

(** The attributes of a start tag as read, and the bindings they add. *)
Definition readAttr (a : XAttr) : option XAttr :=
  n ← nsname (Local (XName a)); Some (mkXAttr n (XValue a)).

Fixpoint declare (bs : bindings) (attrs : list XAttr) : bindings :=
  match attrs with
  | [] => bs
  | a :: rest =>
      if String.eqb (Space (XName a)) "xmlns"
      then declare ((Local (XName a), XValue a) :: bs) rest
      else declare bs rest
  end.

(** The tokens read from the text written for [out], or [None] for a
    syntax error.  [open] holds the names of the open tags with the
    bindings to restore when they are closed.  The tokens written have
    an empty [Space]; character data is escaped when written and
    unescaped when read. *)
Fixpoint readBack (open : list (string * bindings)) (bs : bindings)
    (out : list Token) : option (list Token) :=
  match out with
  | [] => match open with [] => Some [] | _ => None end
  | StartElement name attr :: rest =>
      n ← nsname (Local name);
      attr' ← mapM readAttr attr;
      let bs' := declare bs attr' in
      rest' ← readBack ((Local name, bs) :: open) bs' rest;
      Some (StartElement (translate bs' n true)
              (map (fun a => mkXAttr (translate bs' (XName a) false) (XValue a))
                 attr')
            :: rest')
  | EndElement name :: rest =>
      match open with
      | [] => None
      | (opened, saved) :: open' =>
          if String.eqb opened (Local name) then
            n ← nsname (Local name);
            rest' ← readBack open' saved rest;
            Some (EndElement (translate bs n true) :: rest')
          else None
      end
  | token :: rest => rest' ← readBack open bs rest; Some (token :: rest')
  end.

(** [TrimSpace] for 7-bit text: tab, line feed, vertical tab, form
    feed, carriage return and space are trimmed at both ends. *)
Definition asciiSpace (c : ascii) : bool :=
  let n := nat_of_ascii c in ((9 <=? n) && (n <=? 13) || (n =? 32))%nat.

Fixpoint trimLeft (s : string) : string :=
  match s with
  | EmptyString => EmptyString
  | String c rest => if asciiSpace c then trimLeft rest else s
  end.

Fixpoint trimRight (s : string) : string :=
  match s with
  | EmptyString => EmptyString
  | String c rest =>
      match trimRight rest with
      | EmptyString => if asciiSpace c then EmptyString else String c EmptyString
      | rest' => String c rest'
      end
  end.

Definition TrimSpaceASCII (s : string) : string := trimRight (trimLeft s).

(** The string is empty or starts with something else than a space. *)
Definition startsClean (s : string) : Prop :=
  match s with
  | EmptyString => True
  | String c _ => asciiSpace c = false
  end.

(** *** Documents *)

(** The tokens are those of a well-formed document: the tags are
    balanced and there is one root element. *)
Fixpoint balanced (open : list XmlName) (seenRoot : bool) (tokens : list Token)
    : bool :=
  match tokens with
  | [] => match open with [] => seenRoot | _ => false end
  | StartElement name _ :: rest =>
      match open with
      | [] => negb seenRoot && balanced [name] true rest
      | _ => balanced (name :: open) seenRoot rest
      end
  | EndElement name :: rest =>
      match open with
      | [] => false
      | opened :: open' =>
          String.eqb (Space opened) (Space name)
          && String.eqb (Local opened) (Local name)
          && balanced open' seenRoot rest
      end
  | _ :: rest => balanced open seenRoot rest
  end.

Definition wellFormed (tokens : list Token) : bool := balanced [] false tokens.

(** Tags without a namespace and without attributes. *)
Definition startTag (name : string) : Token := StartElement (mkName "" name) [].
Definition endTag (name : string) : Token := EndElement (mkName "" name).

(** The document with an element [c] in an element [b] in the root [a]. *)
Definition nestedDocument : list Token :=
  [startTag "a"; startTag "b"; startTag "c";
   endTag "c"; endTag "b"; endTag "a"].

(** A flat document: a root element whose child elements have no
    element inside, with whatever else (character data, comments,
    processing instructions, directives) around and between them. *)
Definition isMisc (token : Token) : bool :=
  match token with
  | StartElement _ _ | EndElement _ => false
  | _ => true
  end.

Record leaf := mkLeaf {
  leafName : XmlName;
  leafAttr : list XAttr;
  leafBody : list Token
}.

Inductive item :=
| Misc (token : Token)
| Child (c : leaf).

Record flatDocument := mkFlat {
  prolog : list Token;
  rootName : XmlName;
  rootAttr : list XAttr;
  items : list item;
  epilog : list Token
}.

Definition leafTokens (c : leaf) : list Token :=
  StartElement (leafName c) (leafAttr c) :: leafBody c
  ++ [EndElement (leafName c)].

Definition itemTokens (i : item) : list Token :=
  match i with
  | Misc token => [token]
  | Child c => leafTokens c
  end.

Definition flatTokens (d : flatDocument) : list Token :=
  prolog d
  ++ StartElement (rootName d) (rootAttr d)
     :: concat (map itemTokens (items d))
  ++ EndElement (rootName d) :: epilog d.

Definition miscOnly (tokens : list Token) : Prop :=
  forallb isMisc tokens = true.

Definition itemMisc (i : item) : Prop :=
  match i with
  | Misc token => isMisc token = true
  | Child c => miscOnly (leafBody c)
  end.

Definition flat (d : flatDocument) : Prop :=
  miscOnly (prolog d) /\ Forall itemMisc (items d) /\ miscOnly (epilog d).

(** A name without a colon that the decoder accepts. *)
Definition noColon (s : string) : bool := (countColon s =? 0)%nat.
Definition NCName (s : string) : bool := isName s && noColon s.

(** The namespace lists no URL twice, and its URLs and prefixes are
    proper: no URL is empty, the prefixes are names without a colon
    other than the reserved xml and xmlns. *)
Definition nsProper (n : nsEntry) : Prop :=
  nonEmpty (URL n) = true /\ NCName (Prefix n) = true /\
  Prefix n <> "xml" /\ Prefix n <> "xmlns".

Definition nsValid (ns : Namespace) : Prop :=
  NoDup (map URL ns) /\ Forall nsProper ns.

(** The name of an element has a proper local part and no namespace or
    one that the namespace lists. *)
Definition nameKnown (ns : Namespace) (n : XmlName) : Prop :=
  NCName (Local n) = true /\
  (Space n = "" \/ exists prefix, ByURL ns (Space n) = Some prefix).

Definition itemKnown (ns : Namespace) (i : item) : Prop :=
  match i with
  | Misc _ => True
  | Child c => nameKnown ns (leafName c)
  end.

Definition namesKnown (ns : Namespace) (d : flatDocument) : Prop :=
  nameKnown ns (rootName d) /\ Forall (itemKnown ns) (items d).

(** The name read back for a name written, given the bindings in scope. *)
Definition backName (bs : bindings) (name : string) : XmlName :=
  match nsname name with
  | Some n => translate bs n true
  | None => mkName "" name
  end.

Definition xmlnsBinding (n : nsEntry) : string * string := (Prefix n, URL n).

Definition xmlnsAttr (n : nsEntry) : XAttr :=
  mkXAttr (mkName "xmlns" (Prefix n)) (URL n).

(** The state of the loop of [namespaceUsed] is sound: what is listed
    is as the namespace has it, and every prefix seen that the
    namespace knows is listed. *)
Definition goodUse (ns : Namespace) (st : Namespace * gset string) : Prop :=
  (forall e, In e (fst st) -> ByPrefix ns (Prefix e) = Some (URL e)) /\
  (forall p u, p ∈ snd st -> ByPrefix ns p = Some u -> In (mkNs u p) (fst st)).

Section FlatText.
Variable TrimSpace : string -> string.

Definition itemText (text : string) (i : item) : string :=
  match i with
  | Misc (CharData t) => TrimSpace t
  | _ => text
  end.

Definition rootText (text : string) (its : list item) : string :=
  fold_left itemText its text.

Definition kidOf (ns : Namespace) (i : item) : list (string * string) :=
  match i with
  | Misc _ => []
  | Child c =>
      [(rewriteName ns (leafName c), lastText TrimSpace "" (leafBody c))]
  end.

Definition kidsOf (ns : Namespace) (its : list item) : list (string * string) :=
  concat (map (kidOf ns) its).

(** The tokens [encodeRecursive] emits for a child of the root of a
    flat store, and for the text of an element. *)
Definition textTokens (text : string) : list Token :=
  if nonEmpty (TrimSpace text) then [CharData (TrimSpace text)] else [].

Definition kidTokens (kid : string * string) : list Token :=
  [StartElement (mkName "" (fst kid)) []]
  ++ textTokens (snd kid)
  ++ concat []
  ++ [EndElement (mkName "" (fst kid))].

(** The namespaces used by a list of names. *)
Definition usedBy (ns : Namespace) (names : list string) : Namespace :=
  fst (fold_left (markUsed ns) names ([], ∅)).

Definition nsAttr (n : nsEntry) : Attr :=
  mkAttr ("xmlns:" +:+ Prefix n) (URL n).

Definition toXAttr (attr : Attr) : XAttr :=
  mkXAttr (mkName "" (AttrName attr)) (AttrValue attr).

(** The flat document read back from what [Encode] writes for a flat
    store, [bs] being the bindings declared on the root. *)
Definition backLeaf (bs : bindings) (kid : string * string) : leaf :=
  mkLeaf (backName bs (fst kid)) [] (textTokens (snd kid)).

Definition backDocument (bs : bindings) (attr : list XAttr)
    (rname rtext : string) (kids : list (string * string)) : flatDocument :=
  mkFlat
    [ProcInst "xml" ("version=" +:+ doubleQuote +:+ "1.0" +:+ doubleQuote)]
    (backName bs rname) attr
    (map Misc (textTokens rtext) ++ map (fun kid => Child (backLeaf bs kid)) kids)
    [].

(** A text as [Decode] leaves it: empty, or trimmed. *)
Definition trimmed (text : string) : Prop :=
  text = "" \/ exists s, text = TrimSpace s.

End FlatText.

(** The store [Decode] builds for a flat document: the root, with the
    given name and text, and its children, with theirs. *)
Definition kidElement (rname : string) (kid : string * string) : Element :=
  mkElement (fst kid) ("/" +:+ rname +:+ "/" +:+ fst kid) (snd kid) []
    (Some 0%nat) [].

Definition flatStore (rname rtext : string) (kids : list (string * string))
    : store :=
  mkElement rname ("/" +:+ rname) rtext [] None (seq 1 (length kids))
  :: map (kidElement rname) kids.

(** A scanner status in the namespaces of eSCL, as a flat document. *)
Definition demoNs : Namespace :=
  [mkNs "http://schemas.hp.com/imaging/escl/2011/05/03" "scan";
   mkNs "http://www.pwg.org/schemas/2010/12/sm" "pwg"].

Definition demoDocument : flatDocument :=
  mkFlat
    [ProcInst "xml" "version=1.0"; CharData " "]
    (mkName "http://schemas.hp.com/imaging/escl/2011/05/03" "ScannerStatus") []
    [Misc (CharData "  ");
     Child (mkLeaf (mkName "http://www.pwg.org/schemas/2010/12/sm" "Version")
              [] [CharData "2.0"]);
     Misc (Comment "state");
     Child (mkLeaf (mkName "http://www.pwg.org/schemas/2010/12/sm" "State")
              [] [CharData " Idle "]);
     Child (mkLeaf (mkName "" "Jobs") [] []);
     Misc (CharData " ")]
    [CharData " "].

(** Decoding, encoding what has been decoded and reading it back. *)
Definition reEncode (TrimSpace : string -> string) (ns : Namespace)
    (tokens : list Token) : option (list Token) :=
  h ← Decode TrimSpace ns tokens;
  root ← h !! 0%nat;
  out ← Encode TrimSpace h root ns;
  readBack [] [] out.

(** *** What [Decode] builds *)

(** The names of the elements the tokens open, in the order of their
    start tags. *)
Fixpoint startNames (ns : Namespace) (tokens : list Token) : list string :=
  match tokens with
  | [] => []
  | StartElement t _ :: rest => rewriteName ns t :: startNames ns rest
  | _ :: rest => startNames ns rest
  end.

(** With [depth] elements open, no end tag of [tokens] comes without
    an element open. *)
Fixpoint neverBelow (depth : nat) (tokens : list Token) : bool :=
  match tokens with
  | [] => true
  | StartElement _ _ :: rest => neverBelow (S depth) rest
  | EndElement _ :: rest =>
      match depth with
      | O => false
      | S depth' => neverBelow depth' rest
      end
  | _ :: rest => neverBelow depth rest
  end.

(** The elements met from [p] upwards through [Parent]. *)
Fixpoint upFrom (fuel : nat) (h : store) (p : option nat) : list nat :=
  match p with
  | None => []
  | Some i =>
      match fuel with
      | O => []
      | S fuel' => i :: upFrom fuel' h (h !! i ≫= Parent)
      end
  end.

(** A parent comes before its children in the store. *)
Definition parentsBelow (h : store) : Prop :=
  forall i e p, h !! i = Some e -> Parent e = Some p -> (p < i)%nat.

(** The ancestors of the element at [c], its parent first, and the
    descendants of the element at [p], in the order of the store. *)
Definition ancestors (h : store) (c : nat) : list nat :=
  upFrom (length h) h (h !! c ≫= Parent).

Definition descendants (h : store) (p : nat) : list nat :=
  filter (fun c => p ∈ ancestors h c) (seq 0 (length h)).

(** The path of the parent of an element, empty for a root. *)
Definition parentPath (h : store) (e : Element) : string :=
  match Parent e ≫= (fun p => h !! p) with
  | Some pe => Path pe
  | None => ""
  end.

(** What the loop of [Decode] keeps true of its variables. *)
Record decoderInv (d : decoder) : Prop := mkDecoderInv {
  inv_parent : parentsBelow (elements d);
  inv_elem : forall i, elem d = Some i -> (i < length (elements d))%nat;
  inv_path :
    path d = match elem d ≫= (fun i => elements d !! i) with
             | Some e => Path e
             | None => ""
             end;
  inv_paths : forall i e,
    elements d !! i = Some e ->
    Path e = parentPath (elements d) e +:+ "/" +:+ Name e;
  inv_children : forall i e,
    elements d !! i = Some e -> Children e = descendants (elements d) i
}.

(** The document with an element [c] after an element [b] in the root
    [a], and some text. *)
Definition siblingsDocument : list Token :=
  [startTag "a"; startTag "b"; CharData "x"; endTag "b";
   startTag "c"; endTag "c"; endTag "a"].

(** The elements open in the decoder, the innermost first. *)
Definition openElements (d : decoder) : list nat :=
  upFrom (length (elements d)) (elements d) (elem d).

(** The names of an element that can carry a prefix: its own and those
    of its attributes. *)
Definition namesOf (el : Element) : list string :=
  Name el :: map AttrName (Attrs el).

(** The state of the loop of [namespaceUsed] lists no prefix twice, and
    only prefixes it has marked as seen. *)
Definition usedOnce (st : Namespace * gset string) : Prop :=
  NoDup (map Prefix (fst st)) /\
  (forall n, In n (fst st) -> Prefix n ∈ snd st).

(** *** The encoder and its errors *)


Section Encoder.

Variable TrimSpace : string -> string.

(** [encoder.EncodeToken]: the error it answers a token with, if any,
    which may depend on the tokens it has taken before. *)
Variable EncodeToken : list Token -> Token -> option string.





End Encoder.

(** The children of every element of the store are elements of the
    store that come after it, as in what [Decode] returns. *)
Definition childrenLater (h : store) : Prop :=
  forall p e i, h !! p = Some e -> i ∈ Children e -> (p < i < length h)%nat.



End Xml.

(** * Properties *)

(** ** argv: the tokenizer *)

Section TokenizeFacts.
Import Argv.

(** [Tokenize] returns for every line: either tokens and no error, or the
    error and a [nil] token list. *)
Lemma Tokenize_total (line : list rune) :
  (exists toks, Tokenize line = (Some toks, None)) \/
  Tokenize line = (None, Some ErrUnterminatedString).
Proof.
  unfold Tokenize. destruct (state (tkLoop line)); eauto.
Qed.

(** The error is returned exactly when the line ends inside a quoted
    string. *)
Lemma Tokenize_error_iff (line : list rune) :
  snd (Tokenize line) = Some ErrUnterminatedString <->
  state (tkLoop line) <> tkSpace /\ state (tkLoop line) <> tkWord.
Proof.
  unfold Tokenize. destruct (state (tkLoop line)); simpl;
    split; try intros [? ?]; try split; congruence.
Qed.

(** Whenever [Tokenize] reports an error, the tokens are gone. *)
Lemma Tokenize_error_nil (line : list rune) :
  snd (Tokenize line) <> None -> fst (Tokenize line) = None.
Proof.
  unfold Tokenize. destruct (state (tkLoop line)); simpl; congruence.
Qed.

(** C4: on the line [unterminated_line] the loop of [Tokenize] has
    gathered the tokens [foo] and [bar] when it reaches the end of the
    input inside the quoted string, yet [Tokenize] returns the error
    together with a [nil] token list instead of these best-effort
    tokens. *)
Theorem Tokenize_unterminated_drops_tokens :
  Tokenize unterminated_line = (None, Some ErrUnterminatedString) /\
  tkBestEffort unterminated_line = ["foo"; "bar"].
Proof. split; vm_compute; reflexivity. Qed.

End TokenizeFacts.

(** ** argv: sub-command lookup *)

Section SubCommandFacts.
Import Argv.

Lemma prefix_refl (s : string) : String.prefix s s = true.
Proof.
  induction s as [|a s IH]; simpl; [reflexivity|].
  destruct (ascii_dec a a); [exact IH | congruence].
Qed.

Lemma isExactAt_cons_S sub rest arg i :
  isExactAt (sub :: rest) arg (S i) <-> isExactAt rest arg i.
Proof. unfold isExactAt. simpl. tauto. Qed.

Lemma isPrefixAt_cons_S sub rest arg i :
  isPrefixAt (sub :: rest) arg (S i) <-> isPrefixAt rest arg i.
Proof. unfold isPrefixAt. simpl. tauto. Qed.

Lemma isExactAt_cons_0 sub rest arg :
  isExactAt (sub :: rest) arg 0 <-> Name sub = arg.
Proof.
  unfold isExactAt. simpl. split.
  - intros (s & [= ->] & H). exact H.
  - intros H. eauto.
Qed.

Lemma isPrefixAt_cons_0 sub rest arg :
  isPrefixAt (sub :: rest) arg 0 <-> Go.HasPrefix (Name sub) arg = true.
Proof.
  unfold isPrefixAt. simpl. split.
  - intros (s & [= ->] & H). exact H.
  - intros H. eauto.
Qed.

Lemma findSubCommandLoop_exact subs : forall k name acc i,
  isExactAt subs name i ->
  (forall j, (j < i)%nat -> ~ isExactAt subs name j) ->
  findSubCommandLoop subs k name acc = [(k + i)%nat].
Proof.
  induction subs as [|sub rest IH]; intros k name acc i Hi Hfirst.
  - destruct Hi as (s & Hs & _). destruct i; discriminate.
  - simpl. destruct i as [|i].
    + apply isExactAt_cons_0 in Hi. subst name.
      rewrite String.eqb_refl. f_equal. lia.
    + assert (Hne : String.eqb name (Name sub) = false).
      { apply String.eqb_neq. intros Heq.
        apply (Hfirst 0%nat); [lia|]. apply isExactAt_cons_0. auto. }
      rewrite Hne.
      assert (Hrec : forall acc', findSubCommandLoop rest (S k) name acc'
                                  = [(k + S i)%nat]).
      { intros acc'. rewrite (IH (S k) name acc' i).
        - f_equal. lia.
        - apply isExactAt_cons_S in Hi. exact Hi.
        - intros j Hj Hex. apply (Hfirst (S j)); [lia|].
          apply isExactAt_cons_S. exact Hex. }
      destruct (Go.HasPrefix (Name sub) name); apply Hrec.
Qed.

Lemma findSubCommandLoop_inexact subs : forall k name acc,
  (forall j, ~ isExactAt subs name j) ->
  findSubCommandLoop subs k name acc = acc ++ prefixIdxFrom subs k name.
Proof.
  induction subs as [|sub rest IH]; intros k name acc Hno; simpl.
  - rewrite app_nil_r. reflexivity.
  - assert (Hne : String.eqb name (Name sub) = false).
    { apply String.eqb_neq. intros Heq.
      apply (Hno 0%nat). apply isExactAt_cons_0. auto. }
    rewrite Hne.
    assert (Hrest : forall j, ~ isExactAt rest name j).
    { intros j Hj. apply (Hno (S j)). apply isExactAt_cons_S. exact Hj. }
    destruct (Go.HasPrefix (Name sub) name); rewrite IH by exact Hrest.
    + rewrite <- app_assoc. reflexivity.
    + reflexivity.
Qed.

Lemma prefixIdxFrom_none subs : forall k name,
  (forall j, ~ isPrefixAt subs name j) -> prefixIdxFrom subs k name = [].
Proof.
  induction subs as [|sub rest IH]; intros k name Hno; simpl; [reflexivity|].
  destruct (Go.HasPrefix (Name sub) name) eqn:Hp.
  - exfalso. apply (Hno 0%nat). apply isPrefixAt_cons_0. exact Hp.
  - apply IH. intros j Hj. apply (Hno (S j)).
    apply isPrefixAt_cons_S. exact Hj.
Qed.

Lemma prefixIdxFrom_unique subs : forall k name i,
  isPrefixAt subs name i ->
  (forall j, isPrefixAt subs name j -> j = i) ->
  prefixIdxFrom subs k name = [(k + i)%nat].
Proof.
  induction subs as [|sub rest IH]; intros k name i Hi Huniq.
  - destruct Hi as (s & Hs & _). destruct i; discriminate.
  - simpl. destruct i as [|i].
    + apply isPrefixAt_cons_0 in Hi. rewrite Hi.
      rewrite prefixIdxFrom_none.
      * f_equal. lia.
      * intros j Hj. apply isPrefixAt_cons_S with (sub := sub) in Hj.
        apply Huniq in Hj. discriminate.
    + destruct (Go.HasPrefix (Name sub) name) eqn:Hp.
      * apply isPrefixAt_cons_0 with (rest := rest) in Hp.
        apply Huniq in Hp. discriminate.
      * rewrite (IH (S k) name i).
        -- f_equal. lia.
        -- apply isPrefixAt_cons_S in Hi. exact Hi.
        -- intros j Hj. apply isPrefixAt_cons_S with (sub := sub) in Hj.
           apply Huniq in Hj. congruence.
Qed.

Lemma prefixIdxFrom_some subs : forall k name i,
  isPrefixAt subs name i -> (1 <= length (prefixIdxFrom subs k name))%nat.
Proof.
  induction subs as [|sub rest IH]; intros k name i Hi.
  - destruct Hi as (s & Hs & _). destruct i; discriminate.
  - simpl. destruct (Go.HasPrefix (Name sub) name) eqn:Hp; simpl; [lia|].
    destruct i as [|i].
    + apply isPrefixAt_cons_0 in Hi. congruence.
    + apply isPrefixAt_cons_S in Hi. eapply IH; eauto.
Qed.

Lemma prefixIdxFrom_two subs : forall k name i j,
  (i < j)%nat -> isPrefixAt subs name i -> isPrefixAt subs name j ->
  (2 <= length (prefixIdxFrom subs k name))%nat.
Proof.
  induction subs as [|sub rest IH]; intros k name i j Hij Hi Hj.
  - destruct Hi as (s & Hs & _). destruct i; discriminate.
  - destruct j as [|j]; [lia|]. apply isPrefixAt_cons_S in Hj. simpl.
    destruct i as [|i].
    + apply isPrefixAt_cons_0 in Hi. rewrite Hi. simpl.
      pose proof (prefixIdxFrom_some rest (S k) name j Hj). lia.
    + apply isPrefixAt_cons_S in Hi.
      assert (H2 := IH (S k) name i j ltac:(lia) Hi Hj).
      destruct (Go.HasPrefix (Name sub) name); simpl; lia.
Qed.

(** C5: the sub-command an argument selects.  An exact match is selected
    (the first one, should a name occur twice), whatever other names the
    argument is a prefix of; without an exact match, the only sub-command
    whose name starts with the argument is selected; several such
    sub-commands give the ambiguous sub-command error and none gives the
    unknown sub-command error, the parser being left as it was. *)
Theorem handleSubCommand_rule (prs : parser) (arg : string) :
  let subs := SubCommands (cmd prs) in
  (forall i, isExactAt subs arg i ->
             (forall j, (j < i)%nat -> ~ isExactAt subs arg j) ->
             selects prs arg i) /\
  ((forall j, ~ isExactAt subs arg j) ->
   forall i, isPrefixAt subs arg i ->
             (forall j, isPrefixAt subs arg j -> j = i) ->
             selects prs arg i) /\
  ((forall j, ~ isExactAt subs arg j) ->
   forall i j, i <> j -> isPrefixAt subs arg i -> isPrefixAt subs arg j ->
               handleSubCommand prs arg = (prs, Some (ErrAmbiguousSubCommand arg))) /\
  ((forall j, ~ isPrefixAt subs arg j) ->
   handleSubCommand prs arg = (prs, Some (ErrUnknownSubCommand arg))).
Proof.
  intros subs. unfold selects, handleSubCommand, findSubCommand.
  fold subs. repeat split.
  - intros i Hi Hfirst.
    rewrite (findSubCommandLoop_exact subs 0 arg [] i Hi Hfirst). reflexivity.
  - intros Hno i Hi Huniq.
    rewrite (findSubCommandLoop_inexact subs 0 arg [] Hno).
    rewrite (prefixIdxFrom_unique subs 0 arg i Hi Huniq). reflexivity.
  - intros Hno i j Hij Hi Hj.
    rewrite (findSubCommandLoop_inexact subs 0 arg [] Hno). simpl.
    assert (H2 : (2 <= length (prefixIdxFrom subs 0 arg))%nat).
    { destruct (Nat.lt_ge_cases i j) as [Hlt|Hge].
      - eapply prefixIdxFrom_two; eauto.
      - eapply (prefixIdxFrom_two subs 0 arg j i); eauto. lia. }
    destruct (prefixIdxFrom subs 0 arg) as [|a [|b l]]; simpl in *;
      try lia. reflexivity.
  - intros Hno.
    assert (Hnoex : forall j, ~ isExactAt subs arg j).
    { intros j (sub & Hs & Hn). apply (Hno j). exists sub. split; [exact Hs|].
      unfold Go.HasPrefix. subst arg. apply prefix_refl. }
    rewrite (findSubCommandLoop_inexact subs 0 arg [] Hnoex).
    rewrite (prefixIdxFrom_none subs 0 arg Hno). reflexivity.
Qed.

End SubCommandFacts.

Section SubCommandExamples.
Import Argv.

Lemma handleSubCommand_rule_witness :
  selects (demoParser "list") "list" 0 /\
  selects (demoParser "lo") "lo" 2 /\
  handleSubCommand (demoParser "li") "li"
    = (demoParser "li", Some (ErrAmbiguousSubCommand "li")) /\
  handleSubCommand (demoParser "x") "x"
    = (demoParser "x", Some (ErrUnknownSubCommand "x")).
Proof.
  split; [|split; [|split]].
  - apply (proj1 (handleSubCommand_rule (demoParser "list") "list")).
    + eexists; split; reflexivity.
    + intros j Hj; inversion Hj.
  - apply (proj1 (proj2 (handleSubCommand_rule (demoParser "lo") "lo"))).
    + intros [|[|[|j]]] (sub & Hs & Hn); simpl in Hs;
        try discriminate; injection Hs as <-; discriminate.
    + eexists; split; reflexivity.
    + intros [|[|[|j]]] (sub & Hs & Hn); simpl in Hs;
        try discriminate; try reflexivity; injection Hs as <-; discriminate.
  - apply (proj1 (proj2 (proj2 (handleSubCommand_rule (demoParser "li") "li")))
             ltac:(intros [|[|[|j]]] (sub & Hs & Hn); simpl in Hs;
                   try discriminate; injection Hs as <-; discriminate)
             0%nat 1%nat).
    + discriminate.
    + eexists; split; reflexivity.
    + eexists; split; reflexivity.
  - apply (proj2 (proj2 (proj2 (handleSubCommand_rule (demoParser "x") "x")))).
    intros [|[|[|j]]] (sub & Hs & Hn); simpl in Hs;
      try discriminate; injection Hs as <-; discriminate.
Defined.

End SubCommandExamples.

(** ** abstract: the scan request validator *)

Section ValidateFacts.
Import Abstract.
Context {Range : Type} (validate : Range -> string -> option Z -> error).

Lemma firstFailure_cons (e : error) (rules : list error) :
  firstFailure (e :: rules) = orElse e (firstFailure rules).
Proof. destruct e; reflexivity. Qed.

(** C6: [Validate] returns the first failure of its rules taken in
    order: Input; ADFMode when the input is the ADF; ColorMode; then
    BinaryRendering and Threshold when the color mode is Binary, Depth
    when it is Mono or Color, and neither when it is unset; CCDChannel;
    the image processing ranges. *)
Theorem Validate_first_failure (req : ScannerRequest)
    (scancaps : ScannerCapabilities Range) :
  Validate validate req scancaps
  = firstFailure (rulesApplied validate req scancaps).
Proof.
  unfold Validate, rulesApplied, rulesImageProcessing, ruleInput, ruleADFMode,
    ruleColorMode, ruleBinaryRendering, ruleThreshold, ruleDepth,
    ruleCCDChannel.
  cbv zeta.
  destruct (Input req =? InputADF); cbn [negb];
    destruct (ColorMode req =? ColorModeBinary);
    try destruct ((ColorMode req =? ColorModeMono)
                  || (ColorMode req =? ColorModeColor));
    cbn [app];
    repeat first
      [ reflexivity
      | progress cbn [orElse firstFailure]
      | match goal with
        | |- orElse (orElse ?e _) _ = _ =>
            destruct e; cbn [orElse firstFailure]; [reflexivity|]
        | |- orElse ?e _ = _ =>
            destruct e; cbn [orElse firstFailure]; [reflexivity|]
        | |- ?e = match ?e with _ => _ end => destruct e; reflexivity
        end ].
Qed.

End ValidateFacts.

Section ValidateExamples.
Import Abstract.

(** C6, as stated, fails: with the color mode unset the depth is not
    validated, so a request whose only flaw is a depth out of range
    passes, where the rules as specified report the depth. *)
Lemma Validate_unset_color_skips_depth :
  Validate Range_validate badDepthRequest colorPlaten = None /\
  firstFailure (rulesAsSpecified Range_validate badDepthRequest colorPlaten)
  = Some (mkErrParam ErrInvalidParam "Depth" (-1)).
Proof. split; vm_compute; reflexivity. Qed.

End ValidateExamples.

(** ** wsdd: the scheduler *)

Section SchedFacts.
Import Wsdd.

Lemma series_snoc (k : nat) : series k ++ [schedSend] = series (S k).
Proof.
  unfold series. simpl. f_equal. symmetry. apply repeat_cons.
Qed.

Lemma fullSeries_snoc (n : nat) :
  fullSeries n ++ series schedRetransmitSeriesLen = fullSeries (S n).
Proof.
  induction n as [|n IH].
  - reflexivity.
  - change (fullSeries (S n)) with (series schedRetransmitSeriesLen ++ fullSeries n).
    rewrite <- app_assoc, IH. reflexivity.
Qed.

Lemma procStep_shape (resolve : bool) (w : world) (s : procState) :
  shape s -> shape (procStep resolve w s).
Proof.
  intros [n Hn]. unfold procStep.
  destruct (at_pc s) eqn:Hpc.
  - (* pcFast *)
    destruct (fastCnt s <? schedFastSeriesLen)%nat.
    + exists n. simpl. split; [unfold schedRetransmitSeriesLen; lia|].
      rewrite Hn. reflexivity.
    + exists n. simpl. exact Hn.
  - (* pcRetransmit *)
    destruct Hn as [Htx Hn].
    destruct (tx s <? schedRetransmitSeriesLen)%nat eqn:Hlt.
    + apply Nat.ltb_lt in Hlt.
      destruct (sleepOk w (nsleep s)).
      * exists n. simpl. split; [lia|].
        rewrite Hn, <- app_assoc, series_snoc. reflexivity.
      * exists n. simpl. right. exists (S (tx s)). split; [lia|].
        rewrite Hn, <- app_assoc, series_snoc. reflexivity.
    + apply Nat.ltb_ge in Hlt.
      assert (Heq : tx s = schedRetransmitSeriesLen) by lia.
      exists (S n). simpl at_pc. cbv iota. simpl sent.
      rewrite Hn, Heq. apply fullSeries_snoc.
  - (* pcFastDelay *)
    destruct (sleepOk w (nsleep s)).
    + destruct (resolveTimedOut resolve w (nclock s)); exists n; simpl; auto.
    + exists n. simpl. auto.
  - (* pcInterDelay *)
    destruct (sleepOk w (nsleep s)); exists n; simpl; auto.
  - (* pcReturned *)
    exists n. rewrite Hpc. exact Hn.
Qed.

Lemma proc_shape (resolve : bool) (w : world) (n : nat) :
  shape (proc resolve w n).
Proof.
  induction n as [|n IH].
  - exists 0%nat. reflexivity.
  - simpl. apply procStep_shape. exact IH.
Qed.

(** Facts on lists of events. *)

Lemma repeat_send_split (r : nat) : forall X l1 l2,
  repeat schedSend r ++ X = l1 ++ schedNewMessage :: l2 ->
  exists l1', l1 = repeat schedSend r ++ l1' /\
              X = l1' ++ schedNewMessage :: l2.
Proof.
  induction r as [|r IH]; intros X l1 l2 H; simpl in H.
  - exists l1. split; [reflexivity | exact H].
  - destruct l1 as [|a l1]; simpl in H; [discriminate|].
    injection H as <- H. destruct (IH _ _ _ H) as (l1' & -> & HX).
    exists l1'. split; [reflexivity | exact HX].
Qed.

Lemma repeat_send_no_new (k : nat) l1 l2 :
  repeat schedSend k <> l1 ++ schedNewMessage :: l2.
Proof.
  intros H.
  assert (Hin : In schedNewMessage (repeat schedSend k)).
  { rewrite H. apply in_or_app. right. left. reflexivity. }
  apply repeat_spec in Hin. discriminate.
Qed.

Lemma fullSeries_startsNew (n : nat) (tail : list schedEvent) :
  startsNew tail -> startsNew (fullSeries n ++ tail).
Proof.
  intros Ht. destruct n as [|n]; [exact Ht|].
  right. simpl. eauto.
Qed.

Lemma after_new (n : nat) : forall tail l1 l2,
  (tail = [] \/ exists k, (k <= schedRetransmitSeriesLen)%nat /\ tail = series k) ->
  fullSeries n ++ tail = l1 ++ schedNewMessage :: l2 ->
  (exists l3, l2 = repeat schedSend schedRetransmitSeriesLen ++ l3 /\ startsNew l3)
  \/ (exists k, (k <= schedRetransmitSeriesLen)%nat /\ l2 = repeat schedSend k
                 /\ tail = series k).
Proof.
  induction n as [|n IH]; intros tail l1 l2 Htail H.
  - simpl in H. destruct Htail as [-> | (k & Hk & ->)].
    + destruct l1; discriminate.
    + right. exists k. split; [exact Hk|]. split; [|reflexivity].
      unfold series in H. destruct l1 as [|a l1]; simpl in H.
      * injection H as H. symmetry. exact H.
      * injection H as _ H. exfalso. eapply repeat_send_no_new; eauto.
  - change (fullSeries (S n)) with (series schedRetransmitSeriesLen ++ fullSeries n) in H.
    unfold series in H at 1. simpl in H.
    destruct l1 as [|a l1]; simpl in H.
    + injection H as H. left.
      exists (fullSeries n ++ tail). split.
      * rewrite <- H. reflexivity.
      * apply fullSeries_startsNew.
        destruct Htail as [-> | (k & _ & ->)]; [left; reflexivity|].
        right. unfold series. eauto.
    + injection H as _ H.
      change (schedSend :: schedSend :: schedSend :: schedSend
              :: fullSeries n ++ tail)
        with (repeat schedSend 4 ++ (fullSeries n ++ tail)) in H.
      apply repeat_send_split in H. destruct H as (l1' & _ & H).
      eapply IH; eauto.
Qed.

Lemma mid_is_series (r : nat) : forall mid l2 l3,
  ~ In schedNewMessage mid ->
  mid ++ schedNewMessage :: l2 = repeat schedSend r ++ l3 ->
  startsNew l3 ->
  mid = repeat schedSend r.
Proof.
  induction r as [|r IH]; intros mid l2 l3 Hnin H Hl3; simpl in H.
  - destruct Hl3 as [-> | (l' & ->)].
    + destruct mid; discriminate.
    + destruct mid as [|a mid]; [reflexivity|].
      simpl in H. injection H as -> _. exfalso. apply Hnin. left. reflexivity.
  - destruct mid as [|a mid]; simpl in H; [discriminate|].
    injection H as -> H. simpl. f_equal.
    eapply IH; eauto. intros Hin. apply Hnin. right. exact Hin.
Qed.

Lemma shape_tail (s : procState) :
  shape s ->
  exists n tail,
    sent s = fullSeries n ++ tail /\
    (tail = [] \/ exists k, (k <= schedRetransmitSeriesLen)%nat /\ tail = series k) /\
    (at_pc s = pcReturned -> tail <> series 0).
Proof.
  intros [n Hn]. destruct (at_pc s) eqn:Hpc.
  1,3,4: exists n, []; rewrite app_nil_r;
    split; [exact Hn | split; [left; reflexivity | discriminate]].
  - destruct Hn as [Htx Hn]. exists n, (series (tx s)).
    split; [exact Hn | split; [right; eauto | discriminate]].
  - destruct Hn as [Hn | (k & Hk & Hn)].
    + exists n, []. rewrite app_nil_r.
      split; [exact Hn | split; [left; reflexivity | discriminate]].
    + exists n, (series k). split; [exact Hn | split].
      * right. exists k. split; [lia | reflexivity].
      * intros _ Heq. unfold series in Heq. injection Heq as Heq.
        destruct k; [lia | discriminate].
Qed.

(** C7: whatever the pauses and whenever the timer is cancelled, between
    two consecutive new-message events the scheduler emits exactly
    [schedRetransmitSeriesLen] send events, and every new-message event
    but the last is immediately followed by that many send events and
    then by the next new-message event; the last one is followed by at
    most that many send events and by nothing else (and by at least one
    once [proc] has returned), fewer of them when the timer is cancelled
    in the middle of its series.  This holds in browse and in resolve
    mode. *)
Theorem sched_pacing (resolve : bool) (w : world) (n : nat) :
  let s := proc resolve w n in
  pacedBetween schedRetransmitSeriesLen (sent s) /\
  followedByButLast schedRetransmitSeriesLen (sent s) /\
  (at_pc s = pcReturned ->
   forall l1, sent s <> l1 ++ [schedNewMessage]).
Proof.
  intros s.
  destruct (shape_tail s (proc_shape resolve w n)) as (m & tail & Hs & Htail & Hret).
  repeat split.
  - intros l1 mid l2 H Hnin. rewrite Hs in H.
    destruct (after_new m tail l1 _ Htail H) as [(l3 & Hl3 & Hst) | (k & _ & Hk & _)].
    + eapply mid_is_series; eauto.
    + exfalso. symmetry in Hk. eapply repeat_send_no_new; eauto.
  - intros l1 l2 H. rewrite Hs in H.
    destruct (after_new m tail l1 _ Htail H)
      as [(l3 & Hl3 & [-> | (l' & ->)]) | (k & Hk & Hl2 & _)].
    + right. exists schedRetransmitSeriesLen. split; [lia|].
      rewrite Hl3, app_nil_r. reflexivity.
    + left. eauto.
    + right. eauto.
  - intros Hpc l1 H. rewrite Hs in H.
    destruct (after_new m tail l1 _ Htail H) as [(l3 & Hl3 & _) | (k & Hk & Hl2 & Ht)].
    + simpl in Hl3. discriminate.
    + destruct k; [|discriminate]. apply Hret; assumption.
Qed.

(** C7, as stated, fails for the message being retransmitted when the
    scheduler is closed: the timer cancelled during the first pause,
    [proc] returns having sent one new-message event followed by a single
    send event. *)
Lemma sched_cancelled_series_counterexample :
  let s := proc false (cancelledAt 0) 2 in
  at_pc s = pcReturned /\
  sent s = [schedNewMessage; schedSend] /\
  ~ followedBy schedRetransmitSeriesLen (sent s).
Proof.
  repeat split.
  intros H. destruct (H [] [schedSend] eq_refl) as [l3 Hl3].
  discriminate.
Qed.

End SchedFacts.

(** ** transport: TLS auto-detect *)

Section AutoTLSFacts.
Import Transport.

Lemma rawRead_firstPeeked (rawconn : RawConn) : forall buf err calls b,
  firstPeeked rawconn = Some b ->
  exists buf' calls',
    rawRead rawconn buf err calls = (buf', None, calls') /\ buf0 buf' = b.
Proof.
  induction rawconn as [|r rest IH]; intros buf err calls b H; simpl in H.
  - discriminate.
  - destruct r as [data | e].
    + destruct data as [|b0 data]; [discriminate|]. injection H as ->.
      simpl. eexists _, _. split; reflexivity.
    + destruct e; try discriminate; simpl; eapply IH; eauto.
Qed.

Lemma detectTLSRawConn_firstPeeked (rawconn : RawConn) (b : Z) :
  firstPeeked rawconn = Some b ->
  exists calls, detectTLSRawConn rawconn = (b =? 22, None, calls).
Proof.
  intros H. unfold detectTLSRawConn.
  destruct (rawRead_firstPeeked rawconn (repeat 0 16) None 0%nat b H)
    as (buf' & calls' & -> & <-).
  eexists. reflexivity.
Qed.

(** [detectTLSRawConn] never reports an error. *)
Lemma detectTLSRawConn_no_error (rawconn : RawConn) :
  snd (fst (detectTLSRawConn rawconn)) = None.
Proof.
  unfold detectTLSRawConn.
  destruct (rawRead rawconn (repeat 0 16) None 0) as [[buf err] calls].
  reflexivity.
Qed.

(** Registering a connection as pending and dropping it again leaves
    the flags and the queues of the listener alone. *)
Lemma pending_roundtrip (atl : autoTLSListener) (c : Conn) :
  let atl1 := deletePending (addPending atl c) c in
  closed atl1 = closed atl /\
  plain atl1 = plain atl /\
  encrypted atl1 = encrypted atl /\
  closedConns atl1 = closedConns atl.
Proof.
  unfold addPending. destruct (bool_decide _); simpl; auto.
Qed.

Lemma detectTLS_no_error (c : Conn) : snd (fst (detectTLS c)) = None.
Proof.
  unfold detectTLS. destruct (SyscallConn c) as [[rawconn|e]|]; try reflexivity.
  apply detectTLSRawConn_no_error.
Qed.

Lemma detectTLS_withTLS (c : Conn) :
  exists calls, detectTLS c = (withTLS c, None, calls).
Proof.
  pose proof (detectTLS_no_error c) as H. unfold withTLS.
  destruct (detectTLS c) as [[b err] calls]. simpl in *. subst err.
  exists calls. reflexivity.
Qed.

Lemma closed_addPending (atl : autoTLSListener) (c : Conn) :
  closed (addPending atl c) = closed atl.
Proof. unfold addPending. destruct (bool_decide _); reflexivity. Qed.

(** What [acceptWait] does with the listener, step by step. *)
Lemma acceptWait_cases (atl : autoTLSListener) (c : Conn) (o1 o2 o3 : others) :
  let atl1 := meanwhile o1 atl in
  let atl2 := deletePending (meanwhile o2 (addPending atl1 c)) c in
  let atl3 := meanwhile o3 atl2 in
  acceptWait atl (inl c) o1 o2 o3 =
  if closed atl1 then (closeConn atl1 c, None)
  else if closed atl3 then (closeConn atl3 c, None)
  else (setQueueOf (withTLS c) atl3 (push (queueOf (withTLS c) atl3) c), None).
Proof.
  cbv zeta. unfold acceptWait.
  destruct (closed (meanwhile o1 atl)) eqn:H1; [reflexivity|]. cbn [negb].
  destruct (detectTLS_withTLS c) as [calls ->].
  destruct (closed (meanwhile o3 _)); [reflexivity|].
  destruct (withTLS c); reflexivity.
Qed.

Lemma acceptWait_no_error (atl : autoTLSListener) (c : Conn) (o1 o2 o3 : others) :
  snd (acceptWait atl (inl c) o1 o2 o3) = None.
Proof.
  rewrite acceptWait_cases. cbv zeta.
  repeat match goal with |- context [if ?b then _ else _] => destruct b end;
    reflexivity.
Qed.

(** A connection accepted while the listener is open, no other
    goroutine at work, goes by its first byte. *)
Lemma acceptWait_open_byte (atl : autoTLSListener) (c : Conn)
    (rawconn : RawConn) (b : Z) :
  closed atl = false ->
  SyscallConn c = Some (inl rawconn) ->
  firstPeeked rawconn = Some b ->
  exists atl',
    acceptWait atl (inl c) Quiet Quiet Quiet = (atl', None) /\
    closedConns atl' = closedConns atl /\
    (b = 22 -> enqueuedTo (encrypted atl) (encrypted atl') c /\
               plain atl' = plain atl) /\
    (b <> 22 -> enqueuedTo (plain atl) (plain atl') c /\
                encrypted atl' = encrypted atl).
Proof.
  intros Hopen Hsys Hpeek.
  destruct (detectTLSRawConn_firstPeeked rawconn b Hpeek) as [calls Hdet].
  unfold acceptWait, meanwhile, detectTLS. rewrite Hopen, Hsys, Hdet.
  cbn [negb].
  destruct (pending_roundtrip atl c) as (Hcl & Hp & He & Hc).
  rewrite Hopen in Hcl.
  remember (deletePending (addPending atl c) c) as atl1 eqn:Heq1.
  clear Heq1. rewrite Hcl.
  destruct (b =? 22) eqn:Hb.
  - apply Z.eqb_eq in Hb. eexists. split; [reflexivity|].
    unfold enqueuedTo. simpl. rewrite Hp, He, Hc.
    split; [reflexivity|]. split.
    + intros _. split; reflexivity.
    + intros Hne. contradiction.
  - apply Z.eqb_neq in Hb. eexists. split; [reflexivity|].
    unfold enqueuedTo. simpl. rewrite Hp, He, Hc.
    split; [reflexivity|]. split.
    + intros Heq. contradiction.
    + intros _. split; reflexivity.
Qed.

Lemma not_enqueuedTo_same (q : autoTLSListenerQueue) (c : Conn) :
  ~ enqueuedTo q q c.
Proof.
  unfold enqueuedTo. intros H. apply (f_equal (@length Conn)) in H.
  rewrite length_app in H. cbn [length] in H. lia.
Qed.

Lemma not_enqueuedTo_empty (q q' : autoTLSListenerQueue) (c : Conn) :
  connections q' = [] -> ~ enqueuedTo q q' c.
Proof.
  unfold enqueuedTo. intros -> H. apply (f_equal (@length Conn)) in H.
  rewrite length_app in H. cbn [length] in H. lia.
Qed.

(** A listener that is closed keeps its queues as they are or has them
    empty, whatever the other goroutines do. *)
Lemma meanwhile_closed (o : others) (atl : autoTLSListener) (c : Conn) :
  closed (meanwhile o atl) = true ->
  (closed atl = true \/ o = Close) /\
  ~ enqueuedTo (encrypted atl) (encrypted (meanwhile o atl)) c /\
  ~ enqueuedTo (plain atl) (plain (meanwhile o atl)) c.
Proof.
  destruct o; cbn [meanwhile]; intros H.
  - split; [left; exact H|]. split; apply not_enqueuedTo_same.
  - split; [right; reflexivity|].
    split; apply not_enqueuedTo_empty; reflexivity.
Qed.

(** A connection accepted by a listener that is closed meanwhile is
    closed, and put on neither queue. *)
Lemma acceptWait_closed_meanwhile (atl : autoTLSListener) (c : Conn)
    (o1 o2 o3 : others) :
  closedMeanwhile atl o1 o2 o3 ->
  In c (closedConns (fst (acceptWait atl (inl c) o1 o2 o3))) /\
  closed (fst (acceptWait atl (inl c) o1 o2 o3)) = true /\
  ~ enqueuedTo (encrypted atl)
      (encrypted (fst (acceptWait atl (inl c) o1 o2 o3))) c /\
  ~ enqueuedTo (plain atl)
      (plain (fst (acceptWait atl (inl c) o1 o2 o3))) c.
Proof.
  intros Hcl. rewrite acceptWait_cases. cbv zeta.
  destruct (closed (meanwhile o1 atl)) eqn:H1.
  - destruct (meanwhile_closed o1 atl c H1) as (_ & He & Hp).
    cbn [fst closeConn closedConns closed encrypted plain].
    split; [apply in_or_app; right; left; reflexivity|].
    split; [exact H1|]. split; assumption.
  - assert (Hopen : closed atl = false /\ o1 = Quiet).
    { destruct o1; cbn [meanwhile] in H1; [auto | discriminate]. }
    destruct Hopen as [Hopen ->]. cbn [meanwhile] in *.
    assert (H23 : o2 = Close \/ o3 = Close).
    { destruct Hcl as [Hc | [Hc | Hc]]; [congruence | discriminate | exact Hc]. }
    assert (H3 : closed (meanwhile o3
                   (deletePending (meanwhile o2 (addPending atl c)) c)) = true
                 /\ connections (encrypted (meanwhile o3
                      (deletePending (meanwhile o2 (addPending atl c)) c))) = []
                 /\ connections (plain (meanwhile o3
                      (deletePending (meanwhile o2 (addPending atl c)) c))) = []).
    { destruct o3; cbn [meanwhile]; [|repeat split].
      destruct H23 as [-> | H]; [|discriminate]. cbn [meanwhile].
      repeat split. }
    destruct H3 as (Hc3 & He3 & Hp3). rewrite Hc3.
    cbn [fst closeConn closedConns closed encrypted plain].
    split; [apply in_or_app; right; left; reflexivity|].
    split; [exact Hc3|].
    split; apply not_enqueuedTo_empty; assumption.
Qed.

(** C8: a connection whose first peeked byte is 0x16, accepted while
    the listener is open and not closed by another goroutine meanwhile,
    is put at the tail of the encrypted queue; with any other first byte
    it is put at the tail of the plain queue; the other queue is left as
    it was and the connection is not closed.  If the listener is closed
    meanwhile, before the connection is registered or while it is
    classified, the connection is closed instead and put on neither
    queue.  [acceptWait] reports no error either way. *)
Theorem acceptWait_classifies (atl : autoTLSListener) (c : Conn)
    (rawconn : RawConn) (b : Z) (o1 o2 o3 : others) :
  SyscallConn c = Some (inl rawconn) ->
  firstPeeked rawconn = Some b ->
  exists atl',
    acceptWait atl (inl c) o1 o2 o3 = (atl', None) /\
    (closed atl = false -> o1 = Quiet -> o2 = Quiet -> o3 = Quiet ->
     closedConns atl' = closedConns atl /\
     (b = 22 -> enqueuedTo (encrypted atl) (encrypted atl') c /\
                plain atl' = plain atl) /\
     (b <> 22 -> enqueuedTo (plain atl) (plain atl') c /\
                 encrypted atl' = encrypted atl)) /\
    (closedMeanwhile atl o1 o2 o3 ->
     In c (closedConns atl') /\ closed atl' = true /\
     ~ enqueuedTo (encrypted atl) (encrypted atl') c /\
     ~ enqueuedTo (plain atl) (plain atl') c).
Proof.
  intros Hsys Hpeek.
  exists (fst (acceptWait atl (inl c) o1 o2 o3)). split; [|split].
  - pose proof (acceptWait_no_error atl c o1 o2 o3) as Hno.
    destruct (acceptWait atl (inl c) o1 o2 o3) as [atl' err].
    cbn [fst snd] in *. subst err. reflexivity.
  - intros Hopen -> -> ->.
    destruct (acceptWait_open_byte atl c rawconn b Hopen Hsys Hpeek)
      as (atl' & -> & H). exact H.
  - apply acceptWait_closed_meanwhile.
Qed.

Lemma acceptWait_classifies_witness :
  exists atl',
    acceptWait NewAutoTLSListener (inl tlsConn) Quiet Quiet Quiet = (atl', None) /\
    closedConns atl' = [] /\
    (22 = 22 -> enqueuedTo (encrypted NewAutoTLSListener) (encrypted atl') tlsConn /\
                plain atl' = plain NewAutoTLSListener) /\
    (22 <> 22 -> enqueuedTo (plain NewAutoTLSListener) (plain atl') tlsConn /\
                 encrypted atl' = encrypted NewAutoTLSListener).
Proof.
  destruct (acceptWait_classifies NewAutoTLSListener tlsConn
              [RecvErr EAGAIN; RecvData [22; 3; 1]] 22 Quiet Quiet Quiet
              eq_refl eq_refl) as (atl' & Hrun & Hquiet & _).
  exists atl'. split; [exact Hrun|].
  exact (Hquiet eq_refl eq_refl eq_refl eq_refl).
Defined.

(** C8, as stated, fails when the listener is closed while the
    connection is being classified: the connection, whose first byte is
    0x16, is closed and reaches neither queue. *)
Lemma acceptWait_closed_counterexample :
  let atl' := fst (acceptWait NewAutoTLSListener (inl tlsConn) Quiet Close Quiet) in
  firstPeeked [RecvErr EAGAIN; RecvData [22; 3; 1]] = Some 22 /\
  connections (encrypted atl') = [] /\
  connections (plain atl') = [] /\
  In tlsConn (closedConns atl').
Proof. vm_compute. repeat split; auto. Qed.

(** C10: for a connection whose [net.Conn] lacks the [SyscallConn]
    method, [detectTLS] answers plain, without an error and without a
    single read; accepted while the listener is open and not closed by
    another goroutine meanwhile, the connection is put at the tail of
    the plain queue whatever its first byte is, the encrypted queue is
    left as it was and the connection is not closed.  If the listener is
    closed meanwhile, before the connection is registered or while it is
    classified, the connection is closed instead and put on neither
    queue. *)
Theorem detectTLS_without_SyscallConn (atl : autoTLSListener) (c : Conn)
    (o1 o2 o3 : others) :
  SyscallConn c = None ->
  detectTLS c = (false, None, 0%nat) /\
  exists atl',
    acceptWait atl (inl c) o1 o2 o3 = (atl', None) /\
    (closed atl = false -> o1 = Quiet -> o2 = Quiet -> o3 = Quiet ->
     enqueuedTo (plain atl) (plain atl') c /\
     encrypted atl' = encrypted atl /\
     closedConns atl' = closedConns atl) /\
    (closedMeanwhile atl o1 o2 o3 ->
     In c (closedConns atl') /\ closed atl' = true /\
     ~ enqueuedTo (encrypted atl) (encrypted atl') c /\
     ~ enqueuedTo (plain atl) (plain atl') c).
Proof.
  intros Hsys.
  assert (Hdet : detectTLS c = (false, None, 0%nat)).
  { unfold detectTLS. rewrite Hsys. reflexivity. }
  split; [exact Hdet|].
  exists (fst (acceptWait atl (inl c) o1 o2 o3)). split; [|split].
  - pose proof (acceptWait_no_error atl c o1 o2 o3) as Hno.
    destruct (acceptWait atl (inl c) o1 o2 o3) as [atl' err].
    cbn [fst snd] in *. subst err. reflexivity.
  - intros Hopen -> -> ->.
    unfold acceptWait, meanwhile. rewrite Hopen, Hdet. cbn [negb].
    destruct (pending_roundtrip atl c) as (Hcl & Hp & He & Hc).
    rewrite Hopen in Hcl.
    remember (deletePending (addPending atl c) c) as atl1 eqn:Heq1.
    clear Heq1. rewrite Hcl.
    unfold enqueuedTo. simpl. rewrite Hp, He, Hc. auto.
  - apply acceptWait_closed_meanwhile.
Qed.

Lemma detectTLS_without_SyscallConn_witness :
  detectTLS wrappedTLSConn = (false, None, 0%nat) /\
  exists atl',
    acceptWait NewAutoTLSListener (inl wrappedTLSConn) Quiet Quiet Quiet
      = (atl', None) /\
    enqueuedTo (plain NewAutoTLSListener) (plain atl') wrappedTLSConn /\
    encrypted atl' = encrypted NewAutoTLSListener /\
    closedConns atl' = closedConns NewAutoTLSListener.
Proof.
  destruct (detectTLS_without_SyscallConn NewAutoTLSListener wrappedTLSConn
              Quiet Quiet Quiet eq_refl) as (Hdet & atl' & Hrun & Hquiet & _).
  split; [exact Hdet|]. exists atl'. split; [exact Hrun|].
  exact (Hquiet eq_refl eq_refl eq_refl eq_refl).
Defined.

(** C10, as stated, fails when the listener has been closed: the
    connection is closed and not delivered to the plain listener. *)
Lemma detectTLS_without_SyscallConn_closed_counterexample :
  let atl' := fst (acceptWait (close NewAutoTLSListener) (inl wrappedTLSConn)
                     Quiet Quiet Quiet) in
  SyscallConn wrappedTLSConn = None /\
  connections (plain atl') = [] /\
  In wrappedTLSConn (closedConns atl').
Proof. vm_compute. repeat split; auto. Qed.

End AutoTLSFacts.

(** ** escl: the server *)

Section StringFacts.

Lemma prefix_app (p s : string) : String.prefix p (p +:+ s) = true.
Proof.
  induction p as [|a p IH]; simpl.
  - destruct s; reflexivity.
  - destruct (ascii_dec a a); [exact IH | congruence].
Qed.

Lemma substring_all (s : string) : String.substring 0 (String.length s) s = s.
Proof.
  induction s as [|a s IH]; simpl; [reflexivity|]. rewrite IH. reflexivity.
Qed.

Lemma CutPrefix_app (p s : string) : Go.CutPrefix (p +:+ s) p = s.
Proof.
  unfold Go.CutPrefix. induction p as [|a p IH]; simpl.
  - rewrite Nat.sub_0_r. apply substring_all.
  - exact IH.
Qed.

End StringFacts.

Section ServerFacts.
Import Escl.
Context {Range : Type}.
Variable CleanURLPath : string -> string.
Variable pathJoin : list string -> string.
Variable StatusText : Z -> string.
Variable versionToXML : Z -> string -> Element.
Variable stateToXML : ScannerState -> string -> Element.
Variable adfStateToXML : ADFState -> string -> Element.
Variable jobInfoToXML : JobInfo -> string -> Element.
Variable capabilitiesToXML : Z -> Abstract.ScannerCapabilities Range -> Element.

Abbreviation Server := (@AbstractServer Range).
Abbreviation Query := (abstractServerQuery Abstract.ScannerRequest).
Abbreviation serve :=
  (ServeHTTP pathJoin StatusText versionToXML stateToXML adfStateToXML
     jobInfoToXML capabilitiesToXML).
Abbreviation statusXML :=
  (ToXML versionToXML stateToXML adfStateToXML jobInfoToXML).

Lemma status_Reject (q : Query) (st : Z) (err : option string) :
  status q = 0 -> status (Reject StatusText q st err) = st.
Proof. intros H. unfold Reject, WriteHeader. simpl. rewrite H. reflexivity. Qed.

Lemma status_SendXML (q : Query) (xml : Element) :
  status q = 0 ->
  status (SendXML q xml) = StatusOK /\ body (SendXML q xml) = body q ++ [WroteXML xml "  "].
Proof.
  intros H. unfold SendXML, WriteHeader. simpl. rewrite H. split; reflexivity.
Qed.

Lemma dispatch_ScannerStatus (srv : Server) (q : Query) :
  URLPath q = BasePath (options srv) +:+ "ScannerStatus" ->
  Method q = "GET" ->
  dispatch srv q = Some (Some actGetScannerStatus).
Proof.
  intros Hp Hm. unfold dispatch. rewrite Hp, Hm, CutPrefix_app. reflexivity.
Qed.

Lemma dispatch_ScanJobs (srv : Server) (q : Query) :
  URLPath q = BasePath (options srv) +:+ "ScanJobs" ->
  Method q = "POST" ->
  dispatch srv q = Some (Some actPostScanJobs).
Proof.
  intros Hp Hm. unfold dispatch. rewrite Hp, Hm, CutPrefix_app. reflexivity.
Qed.

(** C9: a server just made for a scanner with an automatic document
    feeder answers a GET of its ScannerStatus path with status 200 and
    the XML of a status whose state is idle, whose ADF state is
    processing and whose job list is empty: the ScannerStatus element
    has the version, the state and the ADF state for children and no
    Jobs element. *)
Theorem fresh_server_status (opts : @AbstractServerOptions Range)
    (host : string) (tls : bool)
    (reqbody : bodyResult Abstract.ScannerRequest) (a : answers) :
  Abstract.notNil (Abstract.ADFSimplex (ScannerCaps opts))
  || Abstract.notNil (Abstract.ADFDuplex (ScannerCaps opts)) = true ->
  let srv := NewAbstractServer CleanURLPath opts in
  let q := newAbstractServerQuery "GET"
             (BasePath (options srv) +:+ "ScannerStatus") host tls reqbody in
  exists q',
    serve srv q a = Some (srv, q') /\
    status q' = StatusOK /\
    body q' = [WroteXML (statusXML (srvStatus srv)) "  "] /\
    State (srvStatus srv) = ScannerIdle /\
    ADFState_ (srvStatus srv) = Some ScannerAdfProcessing /\
    Jobs (srvStatus srv) = [] /\
    statusXML (srvStatus srv)
    = mkElement "scan:ScannerStatus" ""
        [versionToXML (Version (srvStatus srv)) "pwg:Version";
         stateToXML ScannerIdle "pwg:State";
         adfStateToXML ScannerAdfProcessing "scan:AdfState"].
Proof.
  intros Hadf srv q.
  assert (Hst : srvStatus srv
                = mkStatus (if optVersion opts =? 0 then DefaultVersion
                            else optVersion opts)
                    ScannerIdle (Some ScannerAdfProcessing) []).
  { unfold srv, NewAbstractServer. cbn [ScannerCaps]. rewrite Hadf.
    reflexivity. }
  assert (Hdoc : document srv = None) by reflexivity.
  exists (SendXML q (statusXML (srvStatus srv))).
  split; [|split; [|split; [|split; [|split; [|split]]]]].
  - unfold ServeHTTP, Go.HasPrefix.
    rewrite (dispatch_ScannerStatus srv q eq_refl eq_refl).
    change (URLPath q) with (BasePath (options srv) +:+ "ScannerStatus").
    rewrite prefix_app. reflexivity.
  - apply status_SendXML. reflexivity.
  - apply (status_SendXML q). reflexivity.
  - rewrite Hst. reflexivity.
  - rewrite Hst. reflexivity.
  - rewrite Hst. reflexivity.
  - rewrite Hst. reflexivity.
Qed.

(** *** Finishing a job *)

Lemma finish_some (srv : Server) (doc : Document) (job : JobInfo)
    (rest : list JobInfo) (state : JobState) (reason : JobStateReason) :
  document srv = Some doc ->
  Jobs (srvStatus srv) = job :: rest ->
  reason <> UnknownJobStateReason ->
  finish srv state reason
  = Some (mkServer (options srv) (caps srv)
            (mkStatus (Version (srvStatus srv)) ScannerIdle
               (ADFState_ (srvStatus srv))
               (mkJobInfo (JobURI job) (JobUUID job) state [reason] :: rest))
            None (closedDocs srv ++ [doc])).
Proof.
  intros Hdoc Hjobs Hr. unfold finish. rewrite Hdoc, Hjobs.
  rewrite bool_decide_eq_true_2 by exact Hr. reflexivity.
Qed.

Lemma finish_inv (srv srv' : Server) (state : JobState)
    (reason : JobStateReason) :
  serverInv srv -> state <> JobProcessing ->
  finish srv state reason = Some srv' ->
  serverInv srv'.
Proof.
  unfold serverInv, finish. intros Hinv Hstate Hfin.
  destruct (document srv) as [doc|]; [|discriminate].
  destruct Hinv as (job & rest & Hjobs & _ & Hrest).
  rewrite Hjobs in Hfin. injection Hfin as <-. simpl.
  constructor; [|exact Hrest].
  unfold notProcessing. destruct (bool_decide _); simpl; exact Hstate.
Qed.

Lemma finish_total (srv : Server) (state : JobState)
    (reason : JobStateReason) :
  serverInv srv -> document srv <> None ->
  exists srv', finish srv state reason = Some srv'.
Proof.
  unfold serverInv, finish. intros Hinv Hdoc.
  destruct (document srv) as [doc|]; [|congruence].
  destruct Hinv as (job & rest & -> & _). eauto.
Qed.

(** *** Every request keeps the invariant and none panics *)

Lemma dispatch_job_action (srv : Server) (q : Query) (act : action) :
  dispatch srv q = Some (Some act) ->
  act = actGetJobURINextDocument \/ act = actGetJobURIScanImageInfo
  \/ act = actDeleteJobURI ->
  document srv <> None.
Proof.
  unfold dispatch. intros Hd Hact Hdoc. rewrite Hdoc in Hd.
  repeat case_match; simplify_eq; intuition discriminate.
Qed.

Lemma dispatch_total (srv : Server) (q : Query) :
  serverInv srv -> exists act, dispatch srv q = Some act.
Proof.
  unfold serverInv, dispatch. intros Hinv.
  destruct (document srv) as [doc|].
  - destruct Hinv as (job & rest & -> & _). repeat case_match; eauto.
  - repeat case_match; eauto.
Qed.

Lemma postScanJobs_inv (srv : Server) (q : Query) (a : answers) :
  serverInv srv ->
  exists srv' q',
    postScanJobs pathJoin StatusText srv q a = Some (srv', q') /\
    serverInv srv'.
Proof.
  intros Hinv. unfold postScanJobs.
  destruct (RequestBody q); [eauto | eauto |].
  destruct (document srv) as [doc|] eqn:Hdoc; cbn [Abstract.notNil]; [eauto|].
  destruct (uuidRandom a); [|eauto].
  destruct (scan a) as [doc|]; [|eauto].
  eexists _, _. split; [reflexivity|].
  unfold serverInv in *. rewrite Hdoc in Hinv. simpl.
  eexists _, _. split; [reflexivity|]. split; [reflexivity|].
  apply Forall_take. exact Hinv.
Qed.

Lemma runAction_inv (srv : Server) (q : Query) (a : answers) (act : action) :
  serverInv srv ->
  dispatch srv q = Some (Some act) ->
  exists srv' q',
    runAction pathJoin StatusText versionToXML stateToXML adfStateToXML
      jobInfoToXML capabilitiesToXML act srv q a = Some (srv', q') /\
    serverInv srv'.
Proof.
  intros Hinv Hd. destruct act; simpl.
  - unfold getScannerCapabilities. eauto.
  - unfold getScannerStatus. eauto.
  - apply postScanJobs_inv. exact Hinv.
  - pose proof (dispatch_job_action srv q _ Hd ltac:(auto)) as Hdoc.
    unfold getJobURINextDocument.
    destruct (document srv) as [doc|] eqn:Hdoc'; [|congruence].
    destruct (next a).
    + eauto.
    + destruct (finish_total srv JobCompleted JobCompletedSuccessfully Hinv)
        as [srv' Hfin]; [congruence|].
      rewrite Hfin. simpl. eexists _, _. split; [reflexivity|].
      eapply finish_inv; eauto. discriminate.
    + destruct (finish_total srv JobCanceled AbortedBySystem Hinv)
        as [srv' Hfin]; [congruence|].
      rewrite Hfin. simpl. eexists _, _. split; [reflexivity|].
      eapply finish_inv; eauto. discriminate.
  - unfold getJobURIScanImageInfo. eauto.
  - pose proof (dispatch_job_action srv q _ Hd ltac:(auto)) as Hdoc.
    unfold deleteJobURI.
    destruct (finish_total srv JobCanceled JobCanceledByUser Hinv Hdoc)
      as [srv' Hfin].
    rewrite Hfin. simpl. eexists _, _. split; [reflexivity|].
    eapply finish_inv; eauto. discriminate.
Qed.

Lemma ServeHTTP_inv (srv : Server) (q : Query) (a : answers) :
  serverInv srv ->
  exists srv' q', serve srv q a = Some (srv', q') /\ serverInv srv'.
Proof.
  intros Hinv. unfold ServeHTTP.
  destruct (negb _); [eauto|].
  destruct (dispatch_total srv q Hinv) as [[act|] Hd]; rewrite Hd; simpl.
  - apply runAction_inv; assumption.
  - eauto.
Qed.

Lemma NewAbstractServer_inv (opts : @AbstractServerOptions Range) :
  serverInv (NewAbstractServer CleanURLPath opts).
Proof.
  unfold serverInv, NewAbstractServer. simpl.
  destruct (_ || _); simpl; constructor.
Qed.

Lemma serveAll_inv (rqs : list (Query * answers)) : forall srv : Server,
  serverInv srv ->
  exists srv' qs,
    serveAll pathJoin StatusText versionToXML stateToXML adfStateToXML
      jobInfoToXML capabilitiesToXML srv rqs = Some (srv', qs) /\
    serverInv srv'.
Proof.
  induction rqs as [|[q a] rest IH]; intros srv Hinv; simpl.
  - eauto.
  - destruct (ServeHTTP_inv srv q a Hinv) as (srv1 & q1 & Hs & Hinv1).
    rewrite Hs. simpl.
    destruct (IH srv1 Hinv1) as (srv2 & qs & Hrest & Hinv2).
    rewrite Hrest. simpl. eauto.
Qed.

Lemma serverInv_processingIsFirst (srv : Server) :
  serverInv srv -> processingIsFirst (srvStatus srv).
Proof.
  unfold serverInv, processingIsFirst. intros Hinv i job Hi Hp.
  destruct (document srv).
  - destruct Hinv as (job0 & rest & Hjobs & _ & Hrest).
    rewrite Hjobs in Hi. destruct i as [|i]; [reflexivity|]. simpl in Hi.
    exfalso. rewrite Forall_forall in Hrest. apply (Hrest job); [|exact Hp].
    eapply list_elem_of_lookup_2. exact Hi.
  - exfalso. rewrite Forall_forall in Hinv. apply (Hinv job); [|exact Hp].
    eapply list_elem_of_lookup_2. exact Hi.
Qed.

Lemma serverInv_inProgress (srv : Server) :
  serverInv srv -> inProgress (srvStatus srv) -> document srv <> None.
Proof.
  unfold serverInv, inProgress. intros Hinv (job & Hin & Hp) Hdoc.
  rewrite Hdoc in Hinv. rewrite Forall_forall in Hinv.
  apply (Hinv job); [|exact Hp]. apply list_elem_of_In. exact Hin.
Qed.

(** A well-formed POST to a busy server is rejected and changes nothing. *)
Lemma busy_post_rejected (srv : Server) (host : string) (tls : bool)
    (absreq : Abstract.ScannerRequest) (a : answers) :
  document srv <> None ->
  let q := newAbstractServerQuery "POST"
             (BasePath (options srv) +:+ "ScanJobs") host tls (BodyOK absreq) in
  exists q',
    serve srv q a = Some (srv, q') /\ status q' = StatusServiceUnavailable.
Proof.
  intros Hdoc q. unfold ServeHTTP, Go.HasPrefix.
  rewrite (dispatch_ScanJobs srv q eq_refl eq_refl).
  change (URLPath q) with (BasePath (options srv) +:+ "ScanJobs").
  rewrite prefix_app. simpl. unfold postScanJobs. simpl.
  destruct (document srv); [|congruence]. simpl.
  eexists. split; reflexivity.
Qed.

(** C2: whatever requests a new server has served one after the other,
    none of them made it panic, only the first job of its list can be in
    state Processing (so at most one job is), and if a job is in
    progress a POST of well-formed scan settings is answered with status
    503 and leaves the server, its status and job list included, as it
    was. *)
Theorem scan_job_linearity (opts : @AbstractServerOptions Range)
    (rqs : list (Query * answers)) :
  exists (srv : Server) (qs : list Query),
    serveAll pathJoin StatusText versionToXML stateToXML adfStateToXML
      jobInfoToXML capabilitiesToXML (NewAbstractServer CleanURLPath opts) rqs
    = Some (srv, qs) /\
    processingIsFirst (srvStatus srv) /\
    (inProgress (srvStatus srv) ->
     forall host tls absreq a,
       let q := newAbstractServerQuery "POST"
                  (BasePath (options srv) +:+ "ScanJobs") host tls
                  (BodyOK absreq) in
       exists q',
         serve srv q a = Some (srv, q') /\
         status q' = StatusServiceUnavailable).
Proof.
  destruct (serveAll_inv rqs _ (NewAbstractServer_inv opts))
    as (srv & qs & Hs & Hinv).
  exists srv, qs. split; [exact Hs|]. split.
  - apply serverInv_processingIsFirst. exact Hinv.
  - intros Hbusy host tls absreq a.
    apply busy_post_rejected. apply serverInv_inProgress; assumption.
Qed.

(** *** The end of a document *)

(** When [Next] returns [io.EOF] the current job is marked completed,
    the scanner goes back to idle and the answer is 404. *)
Lemma NextDocument_EOF (srv : Server) (q : Query) (a : answers)
    (doc : Document) (job : JobInfo) (rest : list JobInfo) :
  document srv = Some doc ->
  Jobs (srvStatus srv) = job :: rest ->
  next a = NextEOF ->
  status q = 0 ->
  exists srv' q',
    getJobURINextDocument StatusText srv q a = Some (srv', q') /\
    status q' = StatusNotFound /\
    State (srvStatus srv') = ScannerIdle /\
    document srv' = None /\
    Jobs (srvStatus srv')
    = mkJobInfo (JobURI job) (JobUUID job) JobCompleted
        [JobCompletedSuccessfully] :: rest.
Proof.
  intros Hdoc Hjobs Hnext Hq. unfold getJobURINextDocument.
  rewrite Hdoc, Hnext.
  rewrite (finish_some srv doc job rest _ _ Hdoc Hjobs) by discriminate.
  simpl. eexists _, _. split; [reflexivity|].
  split; [apply status_Reject; exact Hq|]. auto.
Qed.

(** When [Next] returns another error the answer is 503 and the scanner
    goes back to idle, the current job being marked canceled, with the
    reason that the system aborted it. *)
Lemma NextDocument_error (srv : Server) (q : Query) (a : answers)
    (doc : Document) (job : JobInfo) (rest : list JobInfo) (err : string) :
  document srv = Some doc ->
  Jobs (srvStatus srv) = job :: rest ->
  next a = NextErr err ->
  status q = 0 ->
  exists srv' q',
    getJobURINextDocument StatusText srv q a = Some (srv', q') /\
    status q' = StatusServiceUnavailable /\
    State (srvStatus srv') = ScannerIdle /\
    document srv' = None /\
    Jobs (srvStatus srv')
    = mkJobInfo (JobURI job) (JobUUID job) JobCanceled [AbortedBySystem]
      :: rest.
Proof.
  intros Hdoc Hjobs Hnext Hq. unfold getJobURINextDocument.
  rewrite Hdoc, Hnext.
  rewrite (finish_some srv doc job rest _ _ Hdoc Hjobs) by discriminate.
  simpl. eexists _, _. split; [reflexivity|].
  split; [apply status_Reject; exact Hq|]. auto.
Qed.

End ServerFacts.

Section ServerExamples.
Import Escl.

Lemma fresh_server_status_witness :
  let srv := NewAbstractServer demoClean demoOptions in
  let q := newAbstractServerQuery "GET"
             (BasePath (options srv) +:+ "ScannerStatus") "localhost" false
             (BodyXMLError "") in
  exists q',
    demoServe srv q (demoAnswers NextEOF) = Some (srv, q') /\
    status q' = StatusOK /\
    body q' = [WroteXML (ToXML demoLeaf demoLeaf demoLeaf demoLeaf
                           (srvStatus srv)) "  "] /\
    State (srvStatus srv) = ScannerIdle /\
    ADFState_ (srvStatus srv) = Some ScannerAdfProcessing /\
    Jobs (srvStatus srv) = [] /\
    ToXML demoLeaf demoLeaf demoLeaf demoLeaf (srvStatus srv)
    = mkElement "scan:ScannerStatus" ""
        [demoLeaf (Version (srvStatus srv)) "pwg:Version";
         demoLeaf ScannerIdle "pwg:State";
         demoLeaf ScannerAdfProcessing "scan:AdfState"].
Proof.
  apply (fresh_server_status demoClean demoJoin demoStatusText demoLeaf
           demoLeaf demoLeaf demoLeaf demoCapsXML demoOptions "localhost"
           false (BodyXMLError "") (demoAnswers NextEOF)).
  reflexivity.
Defined.


(** C1: with a scan job in progress, a GET of its NextDocument whose
    [Next] fails with an error other than the end of the document is
    answered with status 503 and sends the scanner back to idle, but the
    job is marked Canceled, not Aborted. *)
Theorem NextDocument_error_marks_canceled :
  exists busy srv' q',
    demoBusy = Some busy /\
    JobState_ <$> Jobs (srvStatus busy) = [JobProcessing] /\
    demoServe busy demoNext (demoAnswers (NextErr "scanner jammed"))
    = Some (srv', q') /\
    status q' = StatusServiceUnavailable /\
    State (srvStatus srv') = ScannerIdle /\
    JobState_ <$> Jobs (srvStatus srv') = [JobCanceled] /\
    JobStateReasons <$> Jobs (srvStatus srv') = [[AbortedBySystem]].
Proof.
  vm_compute. eexists _, _, _. repeat split; reflexivity.
Qed.

End ServerExamples.

(** ** xml: decoding and encoding *)

Section XmlFacts.
Import Xml.
Variable TrimSpace : string -> string.
Hypothesis TrimSpace_idem : forall s, TrimSpace (TrimSpace s) = TrimSpace s.
Hypothesis TrimSpace_empty : TrimSpace "" = "".

Abbreviation loop := (decodeLoop TrimSpace).

Lemma append_cons (x : ascii) (a b : string) :
  String x a +:+ b = String x (a +:+ b).
Proof. reflexivity. Qed.

Lemma append_nil (b : string) : "" +:+ b = b.
Proof. reflexivity. Qed.

Lemma append_assoc (a b c : string) : (a +:+ b) +:+ c = a +:+ (b +:+ c).
Proof.
  induction a as [|x a IH]; [reflexivity|].
  rewrite !append_cons. f_equal. exact IH.
Qed.

Lemma Truncate_app (a b : string) : Truncate (a +:+ b) (String.length a) = a.
Proof.
  unfold Truncate. induction a as [|x a IH].
  - rewrite append_nil. destruct b; reflexivity.
  - rewrite append_cons. simpl. f_equal. exact IH.
Qed.

Lemma Truncate_0 (a : string) : Truncate a 0 = "".
Proof. unfold Truncate. destruct a; reflexivity. Qed.

Lemma decodeLoop_app ns d l1 l2 :
  loop ns d (l1 ++ l2) = d' ← loop ns d l1; loop ns d' l2.
Proof.
  revert d. induction l1 as [|t l1 IH]; intros d; simpl; [reflexivity|].
  destruct (decodeStep TrimSpace ns d t) as [d'|]; simpl; [apply IH | reflexivity].
Qed.

(** Outside of the root element nothing but tags matters. *)
Lemma decodeLoop_misc_outside ns h p tokens :
  miscOnly tokens ->
  loop ns (mkDecoder h None p) tokens = Some (mkDecoder h None p).
Proof.
  unfold miscOnly. induction tokens as [|t tokens IH]; simpl; intros H.
  - reflexivity.
  - apply andb_true_iff in H. destruct H as [Ht H].
    destruct t; try discriminate; simpl; apply IH; exact H.
Qed.

Lemma flatStore_setText_root rn t t' kids :
  alter (setText t') 0%nat (flatStore rn t kids) = flatStore rn t' kids.
Proof. reflexivity. Qed.

Lemma flatStore_length rn t kids :
  length (flatStore rn t kids) = S (length kids).
Proof. unfold flatStore. simpl. rewrite length_map. reflexivity. Qed.

Lemma flatStore_lookup_last rn t kids kid :
  flatStore rn t (kids ++ [kid]) !! S (length kids) = Some (kidElement rn kid).
Proof.
  unfold flatStore. simpl. rewrite map_app. simpl.
  apply list_lookup_middle. rewrite length_map. reflexivity.
Qed.

Lemma alter_last {A : Type} (f : A -> A) (l : list A) (x : A) :
  alter f (length l) (l ++ [x]) = l ++ [f x].
Proof.
  induction l as [|a l IH]; simpl; [reflexivity|]. f_equal. exact IH.
Qed.

Lemma alter_cons_S {A : Type} (f : A -> A) (a : A) (l : list A) (n : nat) :
  alter f (S n) (a :: l) = a :: alter f n l.
Proof. reflexivity. Qed.

Lemma flatStore_setText_last rn t kids kn kt t' :
  alter (setText t') (S (length kids)) (flatStore rn t (kids ++ [(kn, kt)]))
  = flatStore rn t (kids ++ [(kn, t')]).
Proof.
  unfold flatStore. rewrite !map_app, !length_app. cbn [map length].
  rewrite alter_cons_S. f_equal.
  rewrite <- (length_map (kidElement rn) kids). rewrite alter_last.
  reflexivity.
Qed.

Lemma lastText_cons text token tokens :
  lastText TrimSpace text (token :: tokens)
  = lastText TrimSpace (match token with
                        | CharData t => TrimSpace t
                        | _ => text
                        end) tokens.
Proof. reflexivity. Qed.

Lemma decodeLoop_cons ns d token tokens :
  loop ns d (token :: tokens)
  = d' ← decodeStep TrimSpace ns d token; loop ns d' tokens.
Proof. reflexivity. Qed.

(** Inside a child element. *)
Lemma decodeLoop_leaf_body ns rn t kids kn p body : forall kt,
  miscOnly body ->
  loop ns (mkDecoder (flatStore rn t (kids ++ [(kn, kt)]))
             (Some (S (length kids))) p) body
  = Some (mkDecoder (flatStore rn t (kids ++ [(kn, lastText TrimSpace kt body)]))
            (Some (S (length kids))) p).
Proof.
  unfold miscOnly. induction body as [|tok body IH]; intros kt H.
  - reflexivity.
  - simpl in H. apply andb_true_iff in H. destruct H as [Ht H].
    rewrite lastText_cons, decodeLoop_cons.
    destruct tok; try discriminate;
      cbn [decodeStep elem elements path mbind option_bind];
      try (apply IH; exact H).
    rewrite flatStore_setText_last. apply IH. exact H.
Qed.

Lemma decodeStep_start_child ns rn t kids name attr :
  decodeStep TrimSpace ns
    (mkDecoder (flatStore rn t kids) (Some 0%nat) ("/" +:+ rn))
    (StartElement name attr)
  = Some (mkDecoder (flatStore rn t (kids ++ [(rewriteName ns name, "")]))
            (Some (S (length kids)))
            ("/" +:+ rn +:+ "/" +:+ rewriteName ns name)).
Proof.
  unfold decodeStep. cbn [elements elem path].
  rewrite length_app, flatStore_length. cbn [length].
  replace (S (length kids) + 1)%nat with (S (S (length kids))) by lia.
  cbn [linkAncestors]. f_equal. f_equal.
  unfold flatStore. simpl. rewrite length_app, map_app. simpl.
  rewrite Nat.add_1_r, seq_S. reflexivity.
Qed.

Lemma decodeStep_end_child ns rn t kids kn kt name :
  decodeStep TrimSpace ns
    (mkDecoder (flatStore rn t (kids ++ [(kn, kt)])) (Some (S (length kids)))
       ("/" +:+ rn +:+ "/" +:+ kn))
    (EndElement name)
  = Some (mkDecoder (flatStore rn t (kids ++ [(kn, kt)])) (Some 0%nat)
            ("/" +:+ rn)).
Proof.
  unfold decodeStep. cbn [elements elem path]. cbn [mbind option_bind].
  rewrite flatStore_lookup_last. cbn [kidElement Parent mbind option_bind].
  change (flatStore rn t (kids ++ [(kn, kt)]) !! 0%nat)
    with (Some (mkElement rn ("/" +:+ rn) t [] None
                  (seq 1 (length (kids ++ [(kn, kt)]))))).
  cbn [mbind option_bind Path]. f_equal. f_equal.
  rewrite <- (append_assoc "/" rn ("/" +:+ kn)).
  apply (Truncate_app ("/" +:+ rn)).
Qed.

Lemma decodeLoop_leaf ns rn t kids c :
  miscOnly (leafBody c) ->
  loop ns (mkDecoder (flatStore rn t kids) (Some 0%nat) ("/" +:+ rn))
    (leafTokens c)
  = Some (mkDecoder (flatStore rn t (kids ++ kidOf TrimSpace ns (Child c)))
            (Some 0%nat) ("/" +:+ rn)).
Proof.
  intros Hbody. unfold leafTokens.
  change (StartElement (leafName c) (leafAttr c)
          :: leafBody c ++ [EndElement (leafName c)])
    with ([StartElement (leafName c) (leafAttr c)]
          ++ leafBody c ++ [EndElement (leafName c)]).
  rewrite decodeLoop_app. cbn [decodeLoop].
  rewrite decodeStep_start_child. cbn [mbind option_bind].
  rewrite decodeLoop_app, decodeLoop_leaf_body by exact Hbody.
  cbn [mbind option_bind decodeLoop].
  rewrite decodeStep_end_child. reflexivity.
Qed.

(** Inside the root element. *)
Lemma decodeLoop_items ns rn its : forall t kids,
  Forall itemMisc its ->
  loop ns (mkDecoder (flatStore rn t kids) (Some 0%nat) ("/" +:+ rn))
    (concat (map itemTokens its))
  = Some (mkDecoder
            (flatStore rn (rootText TrimSpace t its)
               (kids ++ kidsOf TrimSpace ns its))
            (Some 0%nat) ("/" +:+ rn)).
Proof.
  induction its as [|i its IH]; intros t kids Hits.
  - simpl. unfold kidsOf. simpl. rewrite app_nil_r. reflexivity.
  - inversion Hits as [|? ? Hi Hrest]; subst.
    cbn [map concat]. rewrite decodeLoop_app.
    destruct i as [tok | c].
    + simpl in Hi. cbn [itemTokens decodeLoop].
      assert (Hstep : decodeStep TrimSpace ns
                 (mkDecoder (flatStore rn t kids) (Some 0%nat) ("/" +:+ rn)) tok
               = Some (mkDecoder (flatStore rn (itemText TrimSpace t (Misc tok)) kids)
                         (Some 0%nat) ("/" +:+ rn))).
      { destruct tok; try discriminate; reflexivity. }
      rewrite Hstep. cbn [mbind option_bind].
      rewrite IH by exact Hrest. reflexivity.
    + simpl in Hi. cbn [itemTokens].
      rewrite decodeLoop_leaf by exact Hi. cbn [mbind option_bind].
      rewrite IH by exact Hrest.
      unfold kidsOf. cbn [map concat]. rewrite app_assoc. reflexivity.
Qed.

(** What [Decode] makes of a flat document. *)
Lemma Decode_flat ns d :
  flat d ->
  Decode TrimSpace ns (flatTokens d)
  = Some (flatStore (rewriteName ns (rootName d))
            (rootText TrimSpace "" (items d))
            (kidsOf TrimSpace ns (items d))).
Proof.
  intros (Hpro & Hits & Hepi). unfold Decode, flatTokens.
  rewrite decodeLoop_app, decodeLoop_misc_outside by exact Hpro.
  cbn [mbind option_bind decodeLoop].
  change (decodeStep TrimSpace ns (mkDecoder [] None "")
            (StartElement (rootName d) (rootAttr d)))
    with (Some (mkDecoder (flatStore (rewriteName ns (rootName d)) "" [])
                  (Some 0%nat) ("/" +:+ rewriteName ns (rootName d)))).
  cbn [mbind option_bind].
  rewrite decodeLoop_app, decodeLoop_items by exact Hits.
  cbn [mbind option_bind decodeLoop app].
  change (decodeStep TrimSpace ns _ (EndElement (rootName d)))
    with (Some (mkDecoder
                  (flatStore (rewriteName ns (rootName d))
                     (rootText TrimSpace "" (items d))
                     (kidsOf TrimSpace ns (items d)))
                  None
                  (Truncate ("/" +:+ rewriteName ns (rootName d)) 0))).
  cbn [mbind option_bind].
  rewrite decodeLoop_misc_outside by exact Hepi. reflexivity.
Qed.

(** *** Encoding a flat store *)

Lemma map_lookup_seq {A B : Type} (F : option A -> B) (l : list A) :
  forall pre : list A,
    map (fun i => F ((pre ++ l) !! i)) (seq (length pre) (length l))
    = map (fun a => F (Some a)) l.
Proof.
  induction l as [|a l IH]; intros pre; [reflexivity|].
  cbn [length seq map]. f_equal.
  - rewrite list_lookup_middle by reflexivity. reflexivity.
  - specialize (IH (pre ++ [a])). rewrite length_app in IH. cbn [length] in IH.
    rewrite Nat.add_1_r, <- app_assoc in IH. exact IH.
Qed.

Lemma mapM_lookup_seq {A B : Type} (F : A -> option B) (l : list A) :
  forall pre : list A,
    mapM (fun i => a ← (pre ++ l) !! i; F a) (seq (length pre) (length l))
    = mapM F l.
Proof.
  induction l as [|a l IH]; intros pre; [reflexivity|].
  cbn [length seq mapM].
  rewrite list_lookup_middle by reflexivity. cbn [mbind option_bind].
  specialize (IH (pre ++ [a])). rewrite length_app in IH. cbn [length] in IH.
  rewrite Nat.add_1_r, <- app_assoc in IH. cbn [app] in IH. rewrite IH.
  reflexivity.
Qed.

Lemma Iterate_kid f h rn kid :
  Iterate (S f) h (kidElement rn kid) = [kidElement rn kid].
Proof. reflexivity. Qed.

Lemma concat_singletons {A B : Type} (g : A -> B) (l : list A) :
  concat (map (fun a => [g a]) l) = map g l.
Proof. induction l as [|a l IH]; simpl; [reflexivity | f_equal; exact IH]. Qed.

Lemma Iterate_flatStore f rn t kids root :
  Children root = seq 1 (length kids) ->
  Iterate (S (S f)) (flatStore rn t kids) root
  = root :: map (kidElement rn) kids.
Proof.
  intros Hch. cbn [Iterate]. rewrite Hch. f_equal.
  unfold flatStore.
  set (r := mkElement rn ("/" +:+ rn) t [] None (seq 1 (length kids))).
  rewrite <- (length_map (kidElement rn) kids).
  rewrite (map_lookup_seq
             (fun o => match o with
                       | Some elm =>
                           elm :: concat (map (fun i =>
                                    match (r :: map (kidElement rn) kids) !! i with
                                    | Some elm0 => Iterate f (r :: map (kidElement rn) kids) elm0
                                    | None => []
                                    end) (Children elm))
                       | None => []
                       end)
             (map (kidElement rn) kids) [r]).
  rewrite map_map. cbn [kidElement Children map concat].
  apply (concat_singletons (kidElement rn)).
Qed.

Lemma encodeRecursive_kid f h rn kid :
  encodeRecursive TrimSpace (S f) h (kidElement rn kid)
  = Some (kidTokens TrimSpace kid).
Proof. reflexivity. Qed.

Lemma mapM_Some_map {A B : Type} (F : A -> option B) (G : A -> B) (l : list A) :
  (forall a, In a l -> F a = Some (G a)) -> mapM F l = Some (map G l).
Proof.
  induction l as [|a l IH]; intros H; [reflexivity|].
  cbn [mapM map]. rewrite (H a) by (left; reflexivity).
  cbn [mbind option_bind]. rewrite IH by (intros b Hb; apply H; right; exact Hb).
  reflexivity.
Qed.

Lemma encodeRecursive_S f h root :
  encodeRecursive TrimSpace (S f) h root
  = children ← mapM (fun i => elm ← h !! i; encodeRecursive TrimSpace f h elm)
                 (Children root);
    Some ([StartElement (mkName "" (Name root)) (map toXAttr (Attrs root))]
          ++ textTokens TrimSpace (Text root)
          ++ concat children
          ++ [EndElement (mkName "" (Name root))]).
Proof. reflexivity. Qed.

Lemma encodeRecursive_flatStore f rn t kids root :
  Children root = seq 1 (length kids) ->
  encodeRecursive TrimSpace (S (S f)) (flatStore rn t kids) root
  = Some ([StartElement (mkName "" (Name root)) (map toXAttr (Attrs root))]
          ++ textTokens TrimSpace (Text root)
          ++ concat (map (kidTokens TrimSpace) kids)
          ++ [EndElement (mkName "" (Name root))]).
Proof.
  intros Hch. rewrite encodeRecursive_S. rewrite Hch.
  unfold flatStore.
  set (r := mkElement rn ("/" +:+ rn) t [] None (seq 1 (length kids))).
  rewrite <- (length_map (kidElement rn) kids).
  pose proof (mapM_lookup_seq
                (encodeRecursive TrimSpace (S f) (r :: map (kidElement rn) kids))
                (map (kidElement rn) kids) [r]) as Hseq.
  cbn [app length] in Hseq. rewrite Hseq. clear Hseq.
  rewrite (mapM_Some_map _ (fun e => kidTokens TrimSpace (Name e, Text e))).
  - cbn [mbind option_bind]. rewrite map_map. reflexivity.
  - intros e He. apply in_map_iff in He. destruct He as (kid & <- & _).
    reflexivity.
Qed.

Lemma namespaceUsed_flatStore f rn t kids ns root :
  Children root = seq 1 (length kids) ->
  Attrs root = [] ->
  namespaceUsed (S (S f)) (flatStore rn t kids) root ns
  = usedBy ns (Name root :: map fst kids).
Proof.
  intros Hch Hat. unfold namespaceUsed, usedBy.
  rewrite Iterate_flatStore by exact Hch. f_equal.
  cbn [fold_left]. rewrite Hat. cbn [map fold_left].
  generalize (markUsed ns ([], ∅) (Name root)). clear Hch.
  induction kids as [|kid kids IH]; intros st; [reflexivity|].
  cbn [map fold_left kidElement Attrs Name]. apply IH.
Qed.

(** *** Names *)

Lemma allChars_app (f : ascii -> bool) (a b : string) :
  allChars f (a +:+ b) = allChars f a && allChars f b.
Proof.
  induction a as [|x a IH]; [reflexivity|].
  rewrite append_cons. cbn [allChars]. rewrite IH, andb_assoc. reflexivity.
Qed.

Lemma countColon_app (a b : string) :
  countColon (a +:+ b) = (countColon a + countColon b)%nat.
Proof.
  induction a as [|x a IH]; [reflexivity|].
  rewrite append_cons. cbn [countColon]. rewrite IH.
  destruct (Ascii.eqb x ":"); reflexivity.
Qed.

Lemma cutColon_noColon (s : string) : noColon s = true -> cutColon s = None.
Proof.
  unfold noColon. induction s as [|x s IH]; [reflexivity|].
  cbn [countColon cutColon]. destruct (Ascii.eqb x ":"); [discriminate|].
  intros H. rewrite IH by exact H. reflexivity.
Qed.

Lemma cutColon_qualified (p l : string) :
  noColon p = true -> cutColon (p +:+ ":" +:+ l) = Some (p, l).
Proof.
  unfold noColon. induction p as [|x p IH].
  - reflexivity.
  - rewrite append_cons. cbn [countColon cutColon].
    destruct (Ascii.eqb x ":"); [discriminate|].
    intros H. rewrite IH by exact H. reflexivity.
Qed.

Lemma nameStart_nameChar (c : ascii) : nameStart c = true -> nameChar c = true.
Proof. unfold nameChar. intros ->. reflexivity. Qed.

Lemma NCName_inv (s : string) :
  NCName s = true ->
  isName s = true /\ noColon s = true /\ nonEmpty s = true.
Proof.
  unfold NCName. intros H. apply andb_true_iff in H. destruct H as [Hn Hc].
  repeat split; try assumption. destruct s; [discriminate | reflexivity].
Qed.

Lemma isName_allChars (s : string) :
  isName s = true -> allChars nameChar s = true.
Proof.
  destruct s as [|c s]; [discriminate|]. cbn [isName allChars].
  intros H. apply andb_true_iff in H. destruct H as [Hc Hs].
  rewrite (nameStart_nameChar c Hc). exact Hs.
Qed.

Lemma isName_qualified (p l : string) :
  isName p = true -> isName l = true -> isName (p +:+ ":" +:+ l) = true.
Proof.
  intros Hp Hl. destruct p as [|c p]; [discriminate|].
  rewrite append_cons. cbn [isName] in *.
  apply andb_true_iff in Hp. destruct Hp as [Hc Hp].
  rewrite Hc, allChars_app, Hp. cbn [andb].
  change (":" +:+ l) with (String ":" l). cbn [allChars].
  rewrite (isName_allChars l Hl). reflexivity.
Qed.

Lemma nsname_plain (l : string) :
  NCName l = true -> nsname l = Some (mkName "" l).
Proof.
  intros H. destruct (NCName_inv l H) as (Hn & Hc & _).
  unfold nsname. rewrite Hn. cbn [negb].
  unfold noColon in Hc. apply Nat.eqb_eq in Hc. rewrite Hc. cbn [Nat.ltb Nat.leb].
  rewrite cutColon_noColon; [reflexivity|].
  unfold noColon. rewrite Hc. reflexivity.
Qed.

Lemma nsname_qualified (p l : string) :
  NCName p = true -> NCName l = true ->
  nsname (p +:+ ":" +:+ l) = Some (mkName p l).
Proof.
  intros Hp Hl.
  destruct (NCName_inv p Hp) as (Hpn & Hpc & Hpe).
  destruct (NCName_inv l Hl) as (Hln & Hlc & Hle).
  unfold nsname. rewrite isName_qualified by assumption. cbn [negb].
  rewrite countColon_app. change (":" +:+ l) with (String ":" l).
  cbn [countColon Ascii.eqb]. 
  unfold noColon in Hpc, Hlc. apply Nat.eqb_eq in Hpc, Hlc.
  rewrite Hpc, Hlc. cbn [Nat.add Nat.ltb Nat.leb].
  change (String ":" l) with (":" +:+ l).
  rewrite cutColon_qualified by (unfold noColon; rewrite Hpc; reflexivity).
  rewrite Hpe, Hle. reflexivity.
Qed.

Lemma nonEmpty_true (s : string) : nonEmpty s = true <-> s <> "".
Proof.
  unfold nonEmpty. rewrite negb_true_iff. apply String.eqb_neq.
Qed.

(** *** Namespaces *)

Lemma ByURL_In ns u p : ByURL ns u = Some p -> In (mkNs u p) ns.
Proof.
  induction ns as [|n ns IH]; [discriminate|]. cbn [ByURL].
  destruct (String.eqb (URL n) u) eqn:He.
  - intros [= <-]. apply String.eqb_eq in He. subst u. left.
    destruct n; reflexivity.
  - intros H. right. apply IH. exact H.
Qed.

Lemma ByPrefix_In ns p u : ByPrefix ns p = Some u -> In (mkNs u p) ns.
Proof.
  induction ns as [|n ns IH]; [discriminate|]. cbn [ByPrefix].
  destruct (String.eqb (Prefix n) p) eqn:He.
  - intros [= <-]. apply String.eqb_eq in He. subst p. left.
    destruct n; reflexivity.
  - intros H. right. apply IH. exact H.
Qed.

Lemma In_ByPrefix ns u p :
  In (mkNs u p) ns -> exists u', ByPrefix ns p = Some u'.
Proof.
  induction ns as [|n ns IH]; [intros []|]. cbn [ByPrefix].
  destruct (String.eqb (Prefix n) p) eqn:He; [eauto|].
  intros [Hn | Hin]; [|apply IH; exact Hin].
  subst n. cbn [Prefix] in He. rewrite String.eqb_refl in He. discriminate.
Qed.

Lemma NoDup_ByURL ns u p :
  NoDup (map URL ns) -> In (mkNs u p) ns -> ByURL ns u = Some p.
Proof.
  induction ns as [|n ns IH]; [intros _ []|].
  cbn [map ByURL]. intros Hnd Hin. inversion Hnd as [|? ? Hnot Hnd']; subst.
  destruct Hin as [-> | Hin].
  - cbn [URL Prefix]. rewrite String.eqb_refl. reflexivity.
  - destruct (String.eqb (URL n) u) eqn:He.
    + apply String.eqb_eq in He. exfalso. apply Hnot. rewrite He.
      apply list_elem_of_In.
      change u with (URL (mkNs u p)). apply in_map. exact Hin.
    + apply IH; assumption.
Qed.

Lemma nsValid_proper ns u p :
  nsValid ns -> In (mkNs u p) ns ->
  nonEmpty u = true /\ NCName p = true /\ p <> "xml" /\ p <> "xmlns".
Proof.
  intros [_ Hall] Hin. rewrite Forall_forall in Hall.
  apply (Hall (mkNs u p)). apply list_elem_of_In. exact Hin.
Qed.

(** *** The namespaces in use and the bindings they give *)

Lemma markUsed_good ns st name : goodUse ns st -> goodUse ns (markUsed ns st name).
Proof.
  destruct st as [out inuse]. intros [H1 H2]. unfold markUsed.
  destruct (nsPrefix name) as [p|]; [|split; assumption].
  destruct (bool_decide (p ∈ inuse)) eqn:Hin; [split; assumption|].
  destruct (ByPrefix ns p) as [url|] eqn:Hp; split; cbn [fst snd] in *.
  - intros e He. unfold Append in He. apply in_app_or in He.
    destruct He as [He | [<- | []]]; [apply H1; exact He | exact Hp].
  - intros q u Hq Hu. unfold Append. apply in_or_app.
    apply elem_of_union in Hq. destruct Hq as [Hq | Hq].
    + apply elem_of_singleton in Hq. subst q. rewrite Hp in Hu.
      injection Hu as <-. right. left. reflexivity.
    + left. apply H2; assumption.
  - exact H1.
  - intros q u Hq Hu. apply elem_of_union in Hq. destruct Hq as [Hq | Hq].
    + apply elem_of_singleton in Hq. subst q. congruence.
    + apply H2; assumption.
Qed.

Lemma markUsed_mono ns st name p :
  p ∈ snd st -> p ∈ snd (markUsed ns st name).
Proof.
  destruct st as [out inuse]. unfold markUsed. cbn [snd]. intros Hp.
  destruct (nsPrefix name) as [q|]; [|exact Hp].
  destruct (bool_decide (q ∈ inuse)); [exact Hp|].
  cbn [snd]. apply elem_of_union. right. exact Hp.
Qed.

Lemma markUsed_covers ns st name p :
  nsPrefix name = Some p -> p ∈ snd (markUsed ns st name).
Proof.
  destruct st as [out inuse]. unfold markUsed. intros ->.
  destruct (bool_decide (p ∈ inuse)) eqn:Hin.
  - apply bool_decide_eq_true in Hin. exact Hin.
  - cbn [snd]. apply elem_of_union. left. apply elem_of_singleton. reflexivity.
Qed.

Lemma fold_markUsed ns names : forall st,
  goodUse ns st ->
  goodUse ns (fold_left (markUsed ns) names st) /\
  (forall p, p ∈ snd st -> p ∈ snd (fold_left (markUsed ns) names st)) /\
  (forall name p, In name names -> nsPrefix name = Some p ->
                  p ∈ snd (fold_left (markUsed ns) names st)).
Proof.
  induction names as [|name names IH]; intros st Hgood; cbn [fold_left].
  - repeat split; try apply Hgood; auto. intros ? ? [].
  - destruct (IH (markUsed ns st name) (markUsed_good ns st name Hgood))
      as (Hg & Hmono & Hcov).
    split; [exact Hg|]. split.
    + intros p Hp. apply Hmono. apply markUsed_mono. exact Hp.
    + intros name' p [<- | Hin] Hpre.
      * apply Hmono. apply markUsed_covers. exact Hpre.
      * eapply Hcov; eauto.
Qed.

Lemma usedBy_spec ns names :
  (forall e, In e (usedBy ns names) -> ByPrefix ns (Prefix e) = Some (URL e)) /\
  (forall name p u, In name names -> nsPrefix name = Some p ->
                    ByPrefix ns p = Some u -> In (mkNs u p) (usedBy ns names)).
Proof.
  assert (Hinit : goodUse ns ([], ∅)).
  { split; cbn [fst snd]; [intros ? [] | intros p u Hp; set_solver]. }
  destruct (fold_markUsed ns names _ Hinit) as ([H1 H2] & _ & Hcov).
  unfold usedBy. split; [exact H1|].
  intros name p u Hin Hpre Hu. apply H2; [|exact Hu]. eapply Hcov; eauto.
Qed.

Lemma declare_xmlns used : forall bs,
  declare bs (map xmlnsAttr used) = rev (map xmlnsBinding used) ++ bs.
Proof.
  induction used as [|n used IH]; intros bs; [reflexivity|].
  cbn [map declare xmlnsAttr XName Space Local XValue].
  cbn [String.eqb Ascii.eqb Bool.eqb]. cbn [andb]. rewrite IH.
  cbn [rev]. rewrite <- app_assoc. reflexivity.
Qed.

Lemma bound_In l p u :
  In (p, u) l -> (forall u', In (p, u') l -> u' = u) -> bound l p = Some u.
Proof.
  induction l as [|[q v] l IH]; [intros []|]. intros Hin Huniq. cbn [bound].
  destruct (String.eqb q p) eqn:He.
  - apply String.eqb_eq in He. subst q. f_equal. apply Huniq. left. reflexivity.
  - apply IH.
    + destruct Hin as [[= -> ->] | Hin]; [|exact Hin].
      rewrite String.eqb_refl in He. discriminate.
    + intros u' Hu'. apply Huniq. right. exact Hu'.
Qed.

Lemma bound_None l p : (forall u, ~ In (p, u) l) -> bound l p = None.
Proof.
  induction l as [|[q v] l IH]; [reflexivity|]. intros Hno. cbn [bound].
  destruct (String.eqb q p) eqn:He.
  - apply String.eqb_eq in He. subst q. exfalso. apply (Hno v). left. reflexivity.
  - apply IH. intros u Hu. apply (Hno u). right. exact Hu.
Qed.

Lemma In_xmlnsBinding p u used :
  In (p, u) (rev (map xmlnsBinding used) ++ []) <-> In (mkNs u p) used.
Proof.
  rewrite app_nil_r, <- in_rev, in_map_iff. split.
  - intros ([u' p'] & [= <- <-] & Hin). exact Hin.
  - intros Hin. exists (mkNs u p). split; [reflexivity | exact Hin].
Qed.

(** The bindings declared by the attributes written for the namespaces
    in use: a prefix of one of the names that the namespace knows is
    bound to its URL there, and the empty prefix is not bound. *)
Lemma bindings_usedBy ns names :
  nsValid ns ->
  let bs := rev (map xmlnsBinding (usedBy ns names)) ++ [] in
  bound bs "" = None /\
  (forall name p u, In name names -> nsPrefix name = Some p ->
                    ByPrefix ns p = Some u -> bound bs p = Some u).
Proof.
  intros Hns bs. destruct (usedBy_spec ns names) as [Hsound Hcov]. split.
  - apply bound_None. intros u Hin. apply In_xmlnsBinding in Hin.
    specialize (Hsound _ Hin). cbn [Prefix URL] in Hsound.
    apply ByPrefix_In in Hsound.
    destruct (nsValid_proper ns u "" Hns Hsound) as (_ & Hnc & _).
    discriminate.
  - intros name p u Hin Hpre Hu. apply bound_In.
    + apply In_xmlnsBinding. eapply Hcov; eauto.
    + intros u' Hu'. apply In_xmlnsBinding in Hu'.
      specialize (Hsound _ Hu'). cbn [Prefix URL] in Hsound. congruence.
Qed.

Lemma readAttr_nsAttr (n : nsEntry) :
  NCName (Prefix n) = true ->
  readAttr (toXAttr (nsAttr n)) = Some (xmlnsAttr n).
Proof.
  intros H. unfold readAttr, toXAttr, nsAttr. cbn [XName Local AttrName AttrValue XValue].
  change ("xmlns:" +:+ Prefix n) with ("xmlns" +:+ ":" +:+ Prefix n).
  rewrite nsname_qualified by (reflexivity || exact H). reflexivity.
Qed.

Lemma mapM_map_Some {A B C : Type} (F : B -> option C) (g : A -> B)
    (G : A -> C) (l : list A) :
  (forall a, In a l -> F (g a) = Some (G a)) ->
  mapM F (map g l) = Some (map G l).
Proof.
  induction l as [|a l IH]; intros H; [reflexivity|].
  cbn [mapM map]. rewrite (H a) by (left; reflexivity).
  cbn [mbind option_bind]. rewrite IH by (intros b Hb; apply H; right; exact Hb).
  reflexivity.
Qed.

Lemma readAttr_usedBy ns names :
  nsValid ns ->
  mapM readAttr (map toXAttr (map nsAttr (usedBy ns names) ++ []))
  = Some (map xmlnsAttr (usedBy ns names)).
Proof.
  intros Hns. rewrite app_nil_r, map_map.
  apply mapM_map_Some. intros n Hn. apply readAttr_nsAttr.
  destruct (usedBy_spec ns names) as [Hsound _].
  specialize (Hsound _ Hn). apply ByPrefix_In in Hsound.
  apply (nsValid_proper ns _ _ Hns Hsound).
Qed.

(** *** Reading back what was written for a flat store *)

Lemma readBack_text open bs text rest :
  readBack open bs (textTokens TrimSpace text ++ rest)
  = rest' ← readBack open bs rest; Some (textTokens TrimSpace text ++ rest').
Proof.
  unfold textTokens. destruct (nonEmpty (TrimSpace text)); cbn [app].
  - reflexivity.
  - destruct (readBack open bs rest); reflexivity.
Qed.

Lemma backName_Some bs name n :
  nsname name = Some n -> backName bs name = translate bs n true.
Proof. unfold backName. intros ->. reflexivity. Qed.

Lemma readBack_kid open bs kid rest :
  is_Some (nsname (fst kid)) ->
  readBack open bs (kidTokens TrimSpace kid ++ rest)
  = rest' ← readBack open bs rest;
    Some (leafTokens (backLeaf TrimSpace bs kid) ++ rest').
Proof.
  intros [n Hn]. unfold kidTokens, leafTokens, backLeaf.
  cbn [leafName leafAttr leafBody concat app].
  cbn [readBack Local]. rewrite Hn. cbn [mbind option_bind mapM mret option_ret declare map].
  rewrite <- app_assoc, readBack_text. cbn [app readBack Local].
  rewrite String.eqb_refl, Hn. cbn [mbind option_bind].
  rewrite (backName_Some bs _ n Hn).
  destruct (readBack open bs rest) as [rest'|]; cbn [mbind option_bind].
  - rewrite <- app_assoc. reflexivity.
  - reflexivity.
Qed.

Lemma readBack_kids open bs kids : forall rest,
  Forall (fun kid => is_Some (nsname (fst kid))) kids ->
  readBack open bs (concat (map (kidTokens TrimSpace) kids) ++ rest)
  = rest' ← readBack open bs rest;
    Some (concat (map (fun kid => leafTokens (backLeaf TrimSpace bs kid)) kids)
          ++ rest').
Proof.
  induction kids as [|kid kids IH]; intros rest Hall.
  - cbn [map concat app]. destruct (readBack open bs rest); reflexivity.
  - inversion Hall as [|? ? Hkid Hkids]; subst.
    cbn [map concat]. rewrite <- app_assoc, readBack_kid by exact Hkid.
    rewrite IH by exact Hkids.
    destruct (readBack open bs rest) as [rest'|]; cbn [mbind option_bind];
      [|reflexivity].
    rewrite <- app_assoc. reflexivity.
Qed.

Lemma itemTokens_back bs l kids :
  miscOnly l ->
  concat (map itemTokens
            (map Misc l ++ map (fun kid => Child (backLeaf TrimSpace bs kid)) kids))
  = l ++ concat (map (fun kid => leafTokens (backLeaf TrimSpace bs kid)) kids).
Proof.
  intros _. rewrite map_app, concat_app, !map_map. f_equal.
  cbn [itemTokens].
  induction l as [|t l IH]; simpl; [reflexivity | f_equal; exact IH].
Qed.

Lemma readBack_flat rn rt kids attrs attrs' n :
  nsname rn = Some n ->
  mapM readAttr attrs = Some attrs' ->
  Forall (fun kid => is_Some (nsname (fst kid))) kids ->
  let bs := declare [] attrs' in
  readBack [] []
    (ProcInst "xml" ("version=" +:+ doubleQuote +:+ "1.0" +:+ doubleQuote)
     :: [StartElement (mkName "" rn) attrs]
        ++ textTokens TrimSpace rt
        ++ concat (map (kidTokens TrimSpace) kids)
        ++ [EndElement (mkName "" rn)])
  = Some (flatTokens
            (backDocument TrimSpace bs
               (map (fun a => mkXAttr (translate bs (XName a) false) (XValue a))
                  attrs')
               rn rt kids)).
Proof.
  intros Hn Hattrs Hkids bs.
  unfold flatTokens, backDocument. cbn [prolog rootName rootAttr items epilog].
  cbn [readBack app Local]. rewrite Hn, Hattrs. cbn [mbind option_bind].
  fold bs. rewrite readBack_text, readBack_kids by exact Hkids.
  cbn [readBack Local]. rewrite String.eqb_refl, Hn.
  cbn [mbind option_bind readBack].
  rewrite (backName_Some bs rn n Hn).
  rewrite itemTokens_back.
  - rewrite <- !app_assoc. reflexivity.
  - unfold miscOnly, textTokens. destruct (nonEmpty _); reflexivity.
Qed.

(** *** Names and texts come back as they were *)

Lemma rewriteName_plain ns l : rewriteName ns (mkName "" l) = l.
Proof. reflexivity. Qed.

Lemma rewriteName_known ns u p l :
  nonEmpty u = true -> nonEmpty p = true -> ByURL ns u = Some p ->
  rewriteName ns (mkName u l) = p +:+ ":" +:+ l.
Proof.
  intros Hu Hp Hby. unfold rewriteName. cbn [Space Local].
  rewrite Hu, Hby, Hp. apply append_assoc.
Qed.

Lemma name_roundtrip ns bs n :
  nsValid ns -> nameKnown ns n ->
  bound bs "" = None ->
  (forall p u, nsPrefix (rewriteName ns n) = Some p ->
               ByPrefix ns p = Some u -> bound bs p = Some u) ->
  is_Some (nsname (rewriteName ns n)) /\
  rewriteName ns (backName bs (rewriteName ns n)) = rewriteName ns n.
Proof.
  intros Hns [Hlocal Hspace] Hnone Hbound. destruct n as [space local].
  cbn [Space Local] in *.
  destruct Hspace as [-> | [p Hby]].
  - (* no namespace *)
    rewrite rewriteName_plain in *.
    unfold backName. rewrite (nsname_plain local Hlocal).
    split; [eauto|].
    unfold translate. cbn [Space Local nonEmpty String.eqb negb andb].
    destruct (String.eqb local "xmlns"); [reflexivity|].
    rewrite Hnone. reflexivity.
  - (* a namespace the map lists *)
    pose proof (ByURL_In ns space p Hby) as Hin.
    destruct (nsValid_proper ns space p Hns Hin) as (Hu & Hp & Hxml & Hxmlns).
    destruct (NCName_inv p Hp) as (_ & _ & Hpe).
    rewrite (rewriteName_known ns space p local Hu Hpe Hby) in *.
    unfold backName. rewrite (nsname_qualified p local Hp Hlocal).
    split; [eauto|].
    destruct (In_ByPrefix ns space p Hin) as [u' Hu'].
    assert (Hb : bound bs p = Some u').
    { apply Hbound; [|exact Hu']. unfold nsPrefix.
      rewrite cutColon_qualified; [reflexivity|].
      apply (NCName_inv p Hp). }
    unfold translate. cbn [Space Local].
    assert (E1 : String.eqb p "xmlns" = false) by (apply String.eqb_neq; exact Hxmlns).
    assert (E2 : String.eqb p "xml" = false) by (apply String.eqb_neq; exact Hxml).
    rewrite E1, E2, Hpe, Hb. cbn [negb andb].
    pose proof (ByPrefix_In ns p u' Hu') as Hin'.
    destruct (nsValid_proper ns u' p Hns Hin') as (Hu'e & _).
    apply rewriteName_known; try assumption.
    apply NoDup_ByURL; [apply Hns | exact Hin'].
Qed.

Lemma lastText_trimmed tokens : forall text,
  trimmed TrimSpace text -> trimmed TrimSpace (lastText TrimSpace text tokens).
Proof.
  induction tokens as [|tok tokens IH]; intros text Ht; [exact Ht|].
  rewrite lastText_cons. apply IH.
  destruct tok; try exact Ht. right. eauto.
Qed.

Lemma rootText_trimmed its : forall text,
  trimmed TrimSpace text -> trimmed TrimSpace (rootText TrimSpace text its).
Proof.
  unfold rootText. induction its as [|i its IH]; intros text Ht; [exact Ht|].
  cbn [fold_left]. apply IH.
  destruct i as [tok|c]; [|exact Ht]. destruct tok; try exact Ht.
  right. cbn [itemText]. eauto.
Qed.

Lemma trimmed_fix text : trimmed TrimSpace text -> TrimSpace text = text.
Proof. intros [-> | [s ->]]; [exact TrimSpace_empty | apply TrimSpace_idem]. Qed.

Lemma lastText_textTokens text :
  trimmed TrimSpace text ->
  lastText TrimSpace "" (textTokens TrimSpace text) = text.
Proof.
  intros Ht. unfold textTokens. rewrite (trimmed_fix text Ht).
  destruct (nonEmpty text) eqn:He.
  - cbn [lastText fold_left]. apply trimmed_fix. exact Ht.
  - cbn [lastText fold_left]. unfold nonEmpty in He.
    apply negb_false_iff, String.eqb_eq in He. congruence.
Qed.

Lemma rootText_back bs text kids :
  trimmed TrimSpace text ->
  rootText TrimSpace ""
    (map Misc (textTokens TrimSpace text)
     ++ map (fun kid => Child (backLeaf TrimSpace bs kid)) kids)
  = text.
Proof.
  intros Ht. unfold rootText. rewrite fold_left_app.
  assert (Hkids : forall t,
             fold_left (itemText TrimSpace)
               (map (fun kid => Child (backLeaf TrimSpace bs kid)) kids) t = t).
  { induction kids as [|kid kids IH]; intros t; [reflexivity | apply IH]. }
  rewrite Hkids. rewrite <- (lastText_textTokens text Ht) at 2.
  unfold textTokens. destruct (nonEmpty (TrimSpace text)); reflexivity.
Qed.

Lemma kidsOf_back ns bs l kids :
  kidsOf TrimSpace ns
    (map Misc l ++ map (fun kid => Child (backLeaf TrimSpace bs kid)) kids)
  = map (fun kid => (rewriteName ns (backName bs (fst kid)),
                     lastText TrimSpace "" (textTokens TrimSpace (snd kid))))
      kids.
Proof.
  unfold kidsOf. rewrite map_app, concat_app, !map_map.
  assert (Hl : concat (map (fun x => kidOf TrimSpace ns (Misc x)) l) = []).
  { induction l as [|t l IH]; [reflexivity | exact IH]. }
  rewrite Hl. cbn [app kidOf backLeaf leafName leafBody].
  apply (concat_singletons
           (fun kid => (rewriteName ns (backName bs (fst kid)),
                        lastText TrimSpace "" (textTokens TrimSpace (snd kid))))).
Qed.

(** The names and texts of the children of a flat document. *)
Lemma kidsOf_known ns its :
  Forall (itemKnown ns) its ->
  Forall (fun kid => (exists n, nameKnown ns n /\ fst kid = rewriteName ns n)
                     /\ trimmed TrimSpace (snd kid))
    (kidsOf TrimSpace ns its).
Proof.
  unfold kidsOf. induction its as [|i its IH]; intros Hall.
  - constructor.
  - inversion Hall as [|? ? Hi Hrest]; subst. cbn [map concat].
    apply Forall_app. split; [|apply IH; exact Hrest].
    destruct i as [tok|c]; cbn [kidOf]; [constructor|].
    constructor; [|constructor]. cbn [fst snd]. split.
    + exists (leafName c). split; [exact Hi | reflexivity].
    + apply lastText_trimmed. left. reflexivity.
Qed.

Lemma kids_back_id ns bs kids :
  Forall (fun kid => rewriteName ns (backName bs (fst kid)) = fst kid
                     /\ trimmed TrimSpace (snd kid)) kids ->
  map (fun kid => (rewriteName ns (backName bs (fst kid)),
                   lastText TrimSpace "" (textTokens TrimSpace (snd kid))))
    kids
  = kids.
Proof.
  induction 1 as [|[kn kt] kids [Hnm Htr] _ IH]; [reflexivity|].
  cbn [map fst snd] in *. rewrite Hnm, (lastText_textTokens _ Htr), IH.
  reflexivity.
Qed.

(** C3: a flat document, that is one whose root element has only
    childless elements for children, with names that are proper and in
    no namespace or in one that the namespace map lists, the map being
    valid: decoding it, encoding the tree decoded and decoding what the
    encoder wrote gives the tree back, element by element. *)
Theorem roundtrip_flat (ns : Namespace) (d : flatDocument) :
  nsValid ns -> flat d -> namesKnown ns d ->
  exists (h : store) (tokens' : list Token),
    Decode TrimSpace ns (flatTokens d) = Some h /\
    reEncode TrimSpace ns (flatTokens d) = Some tokens' /\
    Decode TrimSpace ns tokens' = Some h.
Proof.
  intros Hns Hflat [Hroot Hitems].
  pose proof (Decode_flat ns d Hflat) as Hdec.
  set (rn := rewriteName ns (rootName d)) in *.
  set (rt := rootText TrimSpace "" (items d)) in *.
  set (kids := kidsOf TrimSpace ns (items d)) in *.
  pose proof (kidsOf_known ns (items d) Hitems) as Hkids. fold kids in Hkids.
  assert (Hrt : trimmed TrimSpace rt).
  { apply rootText_trimmed. left. reflexivity. }
  set (names := rn :: map fst kids).
  set (bs := rev (map xmlnsBinding (usedBy ns names)) ++ []).
  destruct (bindings_usedBy ns names Hns) as [Hnone Hbound]. fold bs in Hnone, Hbound.
  (* every name is read back and rewritten to itself *)
  assert (Hname : forall n, nameKnown ns n -> In (rewriteName ns n) names ->
            is_Some (nsname (rewriteName ns n)) /\
            rewriteName ns (backName bs (rewriteName ns n)) = rewriteName ns n).
  { intros n Hn Hin. apply name_roundtrip; try assumption.
    intros p u Hp Hu. eapply Hbound; eauto. }
  destruct (Hname (rootName d) Hroot ltac:(left; reflexivity)) as [[nr Hnr] Hrn].
  fold rn in Hnr, Hrn.
  assert (Hkn : Forall (fun kid => is_Some (nsname (fst kid)) /\
                          rewriteName ns (backName bs (fst kid)) = fst kid) kids).
  { rewrite Forall_forall in Hkids. apply Forall_forall. intros kid Hkid.
    destruct (Hkids kid Hkid) as [(n & Hn & Heq) _]. rewrite Heq.
    apply Hname; [exact Hn|]. right. rewrite <- Heq.
    apply in_map. apply list_elem_of_In. exact Hkid. }
  (* the encoder's output *)
  set (root := mkElement rn ("/" +:+ rn) rt [] None (seq 1 (length kids))).
  assert (Henc : Encode TrimSpace (flatStore rn rt kids) root ns
                 = Some (ProcInst "xml"
                           ("version=" +:+ doubleQuote +:+ "1.0" +:+ doubleQuote)
                         :: [StartElement (mkName "" rn)
                               (map toXAttr (map nsAttr (usedBy ns names) ++ []))]
                            ++ textTokens TrimSpace rt
                            ++ concat (map (kidTokens TrimSpace) kids)
                            ++ [EndElement (mkName "" rn)])).
  { unfold Encode. rewrite flatStore_length.
    rewrite namespaceUsed_flatStore by reflexivity.
    rewrite encodeRecursive_flatStore by reflexivity. reflexivity. }
  pose proof (readBack_flat rn rt kids _ _ nr Hnr (readAttr_usedBy ns names Hns)
                ltac:(eapply Forall_impl; [exact Hkn | intros ? [? _]; assumption]))
    as Hback.
  cbv zeta in Hback. rewrite declare_xmlns in Hback. fold bs in Hback.
  eexists _, _. split; [exact Hdec|]. split.
  - unfold reEncode. rewrite Hdec. cbn [mbind option_bind].
    change (flatStore rn rt kids !! 0%nat) with (Some root).
    cbn [mbind option_bind]. rewrite Henc. cbn [mbind option_bind].
    exact Hback.
  - rewrite Decode_flat.
    + cbn [backDocument rootName items].
      rewrite rootText_back by exact Hrt. rewrite kidsOf_back, Hrn.
      rewrite kids_back_id; [reflexivity|].
      rewrite Forall_forall in Hkids, Hkn. apply Forall_forall.
      intros kid Hkid. split; [apply (Hkn kid Hkid) | apply (Hkids kid Hkid)].
    + unfold flat, backDocument. cbn [prolog items epilog].
      split; [reflexivity|]. split; [|reflexivity].
      apply Forall_app. split.
      * unfold textTokens. destruct (nonEmpty _); repeat constructor.
      * apply Forall_forall. intros i Hi. apply list_elem_of_In, in_map_iff in Hi.
        destruct Hi as (kid & <- & _). cbn [itemMisc backLeaf leafBody].
        unfold miscOnly, textTokens. destruct (nonEmpty _); reflexivity.
Qed.

End XmlFacts.

Section XmlExamples.
Import Xml.

(** [TrimSpaceASCII] is idempotent. *)
Lemma trimLeft_clean (s : string) : startsClean (trimLeft s).
Proof.
  induction s as [|c s IH]; [exact I|]. cbn [trimLeft].
  destruct (asciiSpace c) eqn:Hc; [exact IH | exact Hc].
Qed.

Lemma trimLeft_id (s : string) : startsClean s -> trimLeft s = s.
Proof. destruct s as [|c s]; [reflexivity|]. cbn. intros ->. reflexivity. Qed.

Lemma trimRight_clean (s : string) : startsClean s -> startsClean (trimRight s).
Proof.
  destruct s as [|c s]; [intros _; exact I|]. cbn [startsClean trimRight].
  intros Hc. destruct (trimRight s); [rewrite Hc|]; exact Hc.
Qed.

Lemma trimRight_idem (s : string) : trimRight (trimRight s) = trimRight s.
Proof.
  induction s as [|c s IH]; [reflexivity|]. cbn [trimRight].
  destruct (trimRight s) as [|c' r] eqn:Hr.
  - destruct (asciiSpace c) eqn:Hc; [reflexivity|].
    cbn [trimRight]. rewrite Hc. reflexivity.
  - change (trimRight (String c (String c' r)))
      with (match trimRight (String c' r) with
            | EmptyString => if asciiSpace c then EmptyString else String c EmptyString
            | rest' => String c rest'
            end).
    rewrite IH. reflexivity.
Qed.

Lemma TrimSpaceASCII_idem (s : string) :
  TrimSpaceASCII (TrimSpaceASCII s) = TrimSpaceASCII s.
Proof.
  unfold TrimSpaceASCII.
  rewrite (trimLeft_id (trimRight (trimLeft s))).
  - apply trimRight_idem.
  - apply trimRight_clean, trimLeft_clean.
Qed.

Lemma roundtrip_flat_witness :
  exists (h : store) (tokens' : list Token),
    Decode TrimSpaceASCII demoNs (flatTokens demoDocument) = Some h /\
    reEncode TrimSpaceASCII demoNs (flatTokens demoDocument) = Some tokens' /\
    Decode TrimSpaceASCII demoNs tokens' = Some h.
Proof.
  apply (roundtrip_flat TrimSpaceASCII TrimSpaceASCII_idem eq_refl
           demoNs demoDocument).
  - split.
    + apply (bool_decide_unpack _). vm_compute. reflexivity.
    + repeat constructor; discriminate.
  - repeat constructor.
  - split; [split; [reflexivity | right; eexists; reflexivity]|].
    unfold demoDocument. cbn [items].
    repeat first
      [ apply List.Forall_nil
      | apply List.Forall_cons;
        [first [ exact I
               | split; [reflexivity
                        | first [ left; reflexivity
                                | right; eexists; reflexivity ]]] |] ].
Defined.

(** C3, as stated, fails for elements nested more deeply: [Decode] lists
    among the children of an element all the elements inside it, and
    [Encode] writes each of them as a child.  For the well-formed
    document of an element c in an element b in a root a, the tree
    decoded has three elements, two of them children of the root; what
    is decoded from its encoding has four, three of them children of
    the root. *)
Lemma roundtrip_nested_counterexample :
  wellFormed nestedDocument = true /\
  exists (h h' : store) (tokens' : list Token),
    Decode TrimSpaceASCII [] nestedDocument = Some h /\
    reEncode TrimSpaceASCII [] nestedDocument = Some tokens' /\
    Decode TrimSpaceASCII [] tokens' = Some h' /\
    h <> h' /\
    map Name h = ["a"; "b"; "c"] /\
    map Name h' = ["a"; "b"; "c"; "c"] /\
    Children <$> h !! 0%nat = Some [1; 2]%nat /\
    Children <$> h' !! 0%nat = Some [1; 2; 3]%nat.
Proof.
  split; [reflexivity|].
  eexists _, _, _. split; [vm_compute; reflexivity|].
  split; [vm_compute; reflexivity|]. split; [vm_compute; reflexivity|].
  split; [discriminate|]. repeat split; reflexivity.
Qed.

End XmlExamples.

(** ** argv: what the tokenizer does with quotes and escapes *)

Section TokenizeRender.
Import Argv.

Lemma append_empty_r (s : string) : s +:+ "" = s.
Proof. induction s as [|a s IH]; [reflexivity|]. rewrite append_cons, IH. reflexivity. Qed.

Lemma runesText_app (a b : list rune) :
  runesText (a ++ b) = runesText a +:+ runesText b.
Proof.
  induction a as [|c a IH]; simpl; [reflexivity|].
  rewrite IH, append_assoc. reflexivity.
Qed.

Lemma tkRun_app (s : tk) (l1 l2 : list rune) :
  tkRun s (l1 ++ l2) = tkRun (tkRun s l1) l2.
Proof. apply fold_left_app. Qed.

Lemma space_not_quote (c : rune) : IsSpace c = true -> (c =? dquote) = false.
Proof.
  intros H. destruct (Z.eqb_spec c dquote) as [->|]; [|reflexivity].
  vm_compute in H. discriminate.
Qed.

Lemma tkRun_cons (s : tk) (c : rune) (l : list rune) :
  tkRun s (c :: l) = tkRun (tkStep s c) l.
Proof. reflexivity. Qed.

Lemma tkRun_spaces_space (s : tk) (l : list rune) :
  state s = tkSpace -> spaces l -> tkRun s l = s.
Proof.
  intros Hs Hl. induction Hl as [|c l Hc _ IH]; [reflexivity|].
  rewrite tkRun_cons.
  replace (tkStep s c) with s; [exact IH|].
  unfold tkStep. rewrite Hs, (space_not_quote c Hc), Hc. reflexivity.
Qed.

Lemma tkRun_spaces_word (s : tk) (l : list rune) :
  state s = tkWord -> l <> [] -> spaces l ->
  tkRun s l = mkTk tkSpace "" (acc s) (tokens s ++ [token s]).
Proof.
  intros Hs Hne Hl. destruct Hl as [|c l Hc Hl]; [congruence|].
  rewrite tkRun_cons.
  replace (tkStep s c) with (mkTk tkSpace "" (acc s) (tokens s ++ [token s])).
  - apply tkRun_spaces_space; [reflexivity | exact Hl].
  - unfold tkStep. rewrite Hs, (space_not_quote c Hc), Hc. reflexivity.
Qed.

Lemma tkRun_plain (w : list rune) : forall s : tk,
  outside s ->
  Forall (fun c => IsSpace c = false /\ c <> dquote) w ->
  tkRun s w =
  mkTk (match w with [] => state s | _ => tkWord end)
    (token s +:+ runesText w) (acc s) (tokens s).
Proof.
  induction w as [|c w IH]; intros s Hs Hw.
  - simpl. rewrite append_empty_r. destruct s; reflexivity.
  - inversion Hw as [|? ? [Hsp Hq] Hw']; subst.
    rewrite tkRun_cons.
    assert (Hq' : (c =? dquote) = false) by (apply Z.eqb_neq; exact Hq).
    replace (tkStep s c)
      with (mkTk tkWord (token s +:+ string_of_rune c) (acc s) (tokens s))
      by (unfold tkStep; destruct Hs as [Hs|Hs]; rewrite Hs, Hq', Hsp;
          reflexivity).
    rewrite IH; [|right; reflexivity|exact Hw']. cbn [state token acc tokens runesText].
    rewrite append_assoc. destruct w; reflexivity.
Qed.

Lemma tkRun_inside (body : list rune) : forall s : tk,
  state s = tkQuote ->
  tkRun s (concat (map (fun c => if (c =? dquote) || (c =? backslash)
                                 then [backslash; c] else [c]) body)) =
  mkTk tkQuote (token s +:+ runesText body) (acc s) (tokens s).
Proof.
  induction body as [|c body IH]; intros s Hs.
  - cbn [tkRun fold_left runesText map concat]. rewrite append_empty_r.
    destruct s; simpl in *; congruence.
  - cbn [map concat]. rewrite tkRun_app.
    assert (Hc : tkRun s (if (c =? dquote) || (c =? backslash)
                          then [backslash; c] else [c]) =
                 mkTk tkQuote (token s +:+ string_of_rune c) (acc s) (tokens s)).
    { destruct (Z.eqb_spec c dquote) as [->|Hq].
      - cbn [orb tkRun fold_left]. unfold tkStep. rewrite Hs. reflexivity.
      - destruct (Z.eqb_spec c backslash) as [->|Hbs].
        + cbn [orb tkRun fold_left]. unfold tkStep. rewrite Hs. reflexivity.
        + cbn [orb tkRun fold_left]. unfold tkStep. rewrite Hs.
          rewrite (proj2 (Z.eqb_neq c backslash) Hbs),
            (proj2 (Z.eqb_neq c dquote) Hq). reflexivity. }
    etransitivity; [apply (f_equal (fun x => tkRun x _) Hc)|].
    rewrite (IH (mkTk tkQuote (token s +:+ string_of_rune c) (acc s) (tokens s))
               eq_refl).
    cbn [state token acc tokens runesText].
    rewrite append_assoc. reflexivity.
Qed.

Lemma tkRun_quote (body : list rune) (s : tk) :
  outside s ->
  tkRun s (quote body) =
  mkTk tkWord (token s +:+ runesText body) (acc s) (tokens s).
Proof.
  intros Hs. unfold quote. rewrite !tkRun_app.
  assert (H1 : tkRun s [dquote] = mkTk tkQuote (token s) (acc s) (tokens s)).
  { cbn [tkRun fold_left]. unfold tkStep. destruct Hs as [-> | ->]; reflexivity. }
  rewrite H1.
  rewrite (tkRun_inside body (mkTk tkQuote (token s) (acc s) (tokens s))
             eq_refl).
  reflexivity.
Qed.

Lemma tkRun_piece (p : piece) (s : tk) :
  outside s -> pieceOK p ->
  tkRun s (renderPiece p) =
  mkTk tkWord (token s +:+ runesText (pieceRunes p)) (acc s) (tokens s).
Proof.
  intros Hs Hp. destruct p as [w|body]; simpl in Hp.
  - destruct Hp as [Hne Hw]. simpl renderPiece. rewrite tkRun_plain by assumption.
    destruct w; [congruence|reflexivity].
  - apply tkRun_quote; assumption.
Qed.

Lemma tkRun_token (t : list piece) : forall s : tk,
  outside s -> Forall pieceOK t ->
  tkRun s (renderToken t) =
  mkTk (match t with [] => state s | _ => tkWord end)
    (token s +:+ tokenText t) (acc s) (tokens s).
Proof.
  unfold renderToken, tokenText.
  induction t as [|p t IH]; intros s Hs Ht.
  - simpl. rewrite append_empty_r. destruct s; reflexivity.
  - inversion Ht as [|? ? Hp Ht']; subst. simpl.
    rewrite tkRun_app, tkRun_piece by assumption.
    rewrite IH; [|right; reflexivity|exact Ht']. simpl.
    rewrite runesText_app, append_assoc. destruct t; reflexivity.
Qed.

Lemma tkRun_items (items : list (list piece * list rune)) : forall s : tk,
  state s = tkSpace -> token s = "" ->
  Forall (fun item => tokenOK (fst item) /\ snd item <> [] /\ spaces (snd item))
    items ->
  tkRun s (concat (map (fun item => renderToken (fst item) ++ snd item) items)) =
  mkTk tkSpace "" (acc s)
    (tokens s ++ map (fun item => tokenText (fst item)) items).
Proof.
  induction items as [|[t sep] items IH]; intros s Hs Htok Hit.
  - simpl. rewrite app_nil_r. destruct s; simpl in *; congruence.
  - inversion Hit as [|? ? [[Hne Ht] [Hsne Hsep]] Hit']; subst. simpl in *.
    rewrite !tkRun_app. rewrite tkRun_token; [|left; exact Hs|exact Ht].
    destruct t as [|p t]; [congruence|].
    rewrite (tkRun_spaces_word
               (mkTk tkWord (token s +:+ tokenText (p :: t)) (acc s) (tokens s))
               sep eq_refl Hsne Hsep).
    cbn [state token acc tokens].
    rewrite (IH (mkTk tkSpace "" (acc s)
                   (tokens s ++ [token s +:+ tokenText (p :: t)]))
               eq_refl eq_refl Hit').
    cbn [state token acc tokens map fst].
    rewrite Htok, <- app_assoc. reflexivity.
Qed.

(** X1: a command line written as tokens that are separated by spaces,
    each token a sequence of bare pieces and of pieces in double quotes,
    in which a backslash stands before every double quote and every
    backslash, is split by [Tokenize] into exactly these tokens: the
    text of a token is that of its pieces, the quotes and the escaping
    backslashes taken away and everything else inside the quotes kept,
    spaces included; a pair of quotes with nothing inside makes an empty
    token. *)
Theorem Tokenize_renderLine (lead : list rune)
    (items : list (list piece * list rune)) (last : list piece) :
  spaces lead ->
  Forall (fun item => tokenOK (fst item) /\ snd item <> [] /\ spaces (snd item))
    items ->
  Forall pieceOK last ->
  Tokenize (renderLine lead items last) =
  (Some (map (fun item => tokenText (fst item)) items
         ++ match last with [] => [] | _ => [tokenText last] end), None).
Proof.
  intros Hlead Hitems Hlast. unfold Tokenize, tkLoop, renderLine.
  change (fold_left tkStep ?l tkInit) with (tkRun tkInit l).
  rewrite !tkRun_app.
  rewrite (tkRun_spaces_space tkInit lead eq_refl Hlead).
  rewrite (tkRun_items items tkInit eq_refl eq_refl Hitems).
  rewrite tkRun_token; [|left; reflexivity|exact Hlast]. simpl.
  destruct last; simpl; [rewrite app_nil_r|]; reflexivity.
Qed.

(** A line of three tokens, the second of two quoted pieces, one of
    them empty. *)
Lemma Tokenize_renderLine_witness :
  Tokenize (renderLine (runes " ")
              [([Plain (runes "ab")], runes " ");
               ([Quoted (runes "c \d"); Quoted []], runes "  ")]
              [Plain (runes "e")]) =
  (Some ["ab"; "c \d"; "e"], None).
Proof.
  apply (Tokenize_renderLine (runes " ")
           [([Plain (runes "ab")], runes " ");
            ([Quoted (runes "c \d"); Quoted []], runes "  ")]
           [Plain (runes "e")]).
  - repeat constructor.
  - repeat constructor; try discriminate; vm_compute; congruence.
  - repeat constructor; try discriminate; vm_compute; congruence.
Defined.

(** *** Numeric escapes *)

Lemma lor_shiftl_add (a b k : Z) :
  0 <= k -> 0 <= b < 2 ^ k -> Z.lor (Z.shiftl a k) b = a * 2 ^ k + b.
Proof.
  intros Hk Hb. rewrite Z.shiftl_mul_pow2 by exact Hk.
  assert (Hland : Z.land (a * 2 ^ k) b = 0).
  { apply Z.bits_inj'. intros n Hn. rewrite Z.land_spec, Z.bits_0.
    destruct (Z.lt_ge_cases n k) as [Hlt|Hge].
    - rewrite Z.mul_pow2_bits_low by exact Hlt. reflexivity.
    - destruct (Z.eq_dec b 0) as [->|Hb0].
      + rewrite Z.bits_0. apply andb_false_r.
      + rewrite (Z.bits_above_log2 b n); [apply andb_false_r|lia|].
        apply Z.lt_le_trans with k; [|exact Hge].
        apply Z.log2_lt_pow2; lia. }
  rewrite <- (Z.lxor_lor _ _ Hland). symmetry.
  apply Z.add_nocarry_lxor. exact Hland.
Qed.

Lemma hexadecimal_lt_16 (c : rune) : hexadecimal c < 16.
Proof. unfold hexadecimal. repeat case_match; lia. Qed.

(** X2: inside double quotes, a backslash, the letter x and two
    hexadecimal digits stand for the byte these digits are the value of,
    and a backslash and three octal digits for the byte of that octal
    value, taken modulo 256. *)
Theorem Tokenize_numeric_escapes (h1 h2 o1 o2 o3 : rune) :
  0 <= hexadecimal h1 -> 0 <= hexadecimal h2 ->
  48 <= o1 <= 55 -> 48 <= o2 <= 55 -> 48 <= o3 <= 55 ->
  Tokenize [dquote; backslash; 120; h1; h2; dquote] =
  (Some [string_of_byte (16 * hexadecimal h1 + hexadecimal h2)], None) /\
  Tokenize [dquote; backslash; o1; o2; o3; dquote] =
  (Some [string_of_byte (64 * (o1 - 48) + 8 * (o2 - 48) + (o3 - 48))], None).
Proof.
  intros Hh1 Hh2 Ho1 Ho2 Ho3.
  pose proof (hexadecimal_lt_16 h1) as Hlt1.
  pose proof (hexadecimal_lt_16 h2) as Hlt2.
  split.
  - unfold Tokenize, tkLoop. cbn [fold_left].
    change (tkStep tkInit dquote) with (mkTk tkQuote "" 0 []).
    change (tkStep (mkTk tkQuote "" 0 []) backslash)
      with (mkTk tkQuoteBs "" 0 []).
    change (tkStep (mkTk tkQuoteBs "" 0 []) 120) with (mkTk tkHex1 "" 0 []).
    assert (E1 : tkStep (mkTk tkHex1 "" 0 []) h1 =
                 mkTk tkHex2 "" (hexadecimal h1) []).
    { unfold tkStep. cbn [state token acc tokens].
      rewrite (proj2 (Z.leb_le 0 (hexadecimal h1)) Hh1).
      rewrite (lor_shiftl_add 0 (hexadecimal h1) 4) by lia. f_equal. }
    rewrite E1.
    assert (E2 : tkStep (mkTk tkHex2 "" (hexadecimal h1) []) h2 =
                 mkTk tkQuote
                   (string_of_byte (16 * hexadecimal h1 + hexadecimal h2))
                   (16 * hexadecimal h1 + hexadecimal h2) []).
    { unfold tkStep. cbn [state token acc tokens].
      rewrite (proj2 (Z.leb_le 0 (hexadecimal h2)) Hh2).
      rewrite (lor_shiftl_add (hexadecimal h1) (hexadecimal h2) 4) by lia.
      replace (hexadecimal h1 * 2 ^ 4 + hexadecimal h2)
        with (16 * hexadecimal h1 + hexadecimal h2) by lia.
      reflexivity. }
    rewrite E2. reflexivity.
  - unfold Tokenize, tkLoop. cbn [fold_left].
    change (tkStep tkInit dquote) with (mkTk tkQuote "" 0 []).
    change (tkStep (mkTk tkQuote "" 0 []) backslash)
      with (mkTk tkQuoteBs "" 0 []).
    assert (E1 : tkStep (mkTk tkQuoteBs "" 0 []) o1 =
                 mkTk tkOct1 "" (o1 - 48) []).
    { unfold tkStep. cbn [state token acc tokens].
      replace ((o1 =? 120) || (o1 =? 88)) with false
        by (symmetry; apply orb_false_intro; apply Z.eqb_neq; lia).
      replace ((48 <=? o1) && (o1 <=? 55)) with true
        by (symmetry; apply andb_true_intro; split; apply Z.leb_le; lia).
      reflexivity. }
    rewrite E1.
    assert (Hoct : forall o, 48 <= o <= 55 -> octal o = o - 48).
    { intros o Ho. unfold octal.
      replace ((48 <=? o) && (o <=? 57)) with true
        by (symmetry; apply andb_true_intro; split; apply Z.leb_le; lia).
      reflexivity. }
    assert (E2 : tkStep (mkTk tkOct1 "" (o1 - 48) []) o2 =
                 mkTk tkOct2 "" (8 * (o1 - 48) + (o2 - 48)) []).
    { unfold tkStep. cbn [state token acc tokens]. rewrite (Hoct o2 Ho2).
      rewrite (proj2 (Z.leb_le 0 (o2 - 48))) by lia.
      rewrite (lor_shiftl_add (o1 - 48) (o2 - 48) 3) by lia.
      f_equal. lia. }
    rewrite E2.
    assert (E3 : tkStep (mkTk tkOct2 "" (8 * (o1 - 48) + (o2 - 48)) []) o3 =
                 mkTk tkQuote
                   (string_of_byte (64 * (o1 - 48) + 8 * (o2 - 48) + (o3 - 48)))
                   (64 * (o1 - 48) + 8 * (o2 - 48) + (o3 - 48)) []).
    { unfold tkStep. cbn [state token acc tokens]. rewrite (Hoct o3 Ho3).
      rewrite (proj2 (Z.leb_le 0 (o3 - 48))) by lia.
      rewrite (lor_shiftl_add (8 * (o1 - 48) + (o2 - 48)) (o3 - 48) 3) by lia.
      replace ((8 * (o1 - 48) + (o2 - 48)) * 2 ^ 3 + (o3 - 48))
        with (64 * (o1 - 48) + 8 * (o2 - 48) + (o3 - 48)) by lia.
      reflexivity. }
    rewrite E3. reflexivity.
Qed.

(** The escapes for the letter A: x41 and 101. *)
Lemma Tokenize_numeric_escapes_witness :
  Tokenize [dquote; backslash; 120; 52; 49; dquote] = (Some ["A"], None) /\
  Tokenize [dquote; backslash; 49; 48; 49; dquote] = (Some ["A"], None).
Proof.
  apply (Tokenize_numeric_escapes 52 49 49 48 49); vm_compute;
    try split; congruence.
Defined.

End TokenizeRender.

(** ** argv: options and sub-commands on the command line *)

Section OptionFacts.
Import Argv.

Lemma sliceTo_sliceFrom (s : string) (n : nat) :
  Go.sliceTo s n +:+ Go.sliceFrom s n = s.
Proof.
  revert s. induction n as [|n IH]; intros s.
  - destruct s; reflexivity.
  - destruct s as [|c s]; [reflexivity|]. simpl Go.sliceTo. simpl Go.sliceFrom.
    rewrite append_cons, IH. reflexivity.
Qed.

Lemma IndexByte_Some (s : string) (c : ascii) (i : nat) :
  Go.IndexByte s c = Some i ->
  Go.sliceTo s i +:+ String c (Go.sliceFrom s (i + 1)) = s /\
  Go.IndexByte (Go.sliceTo s i) c = None.
Proof.
  revert i. induction s as [|c' s IH]; intros i H; [discriminate|].
  simpl in H. destruct (Ascii.eqb_spec c' c) as [->|Hne].
  - injection H as <-. split; reflexivity.
  - destruct (Go.IndexByte s c) as [k|] eqn:Hk; [|discriminate].
    injection H as <-. destruct (IH k eq_refl) as [IH1 IH2].
    split.
    + simpl. rewrite append_cons, IH1. reflexivity.
    + simpl. destruct (Ascii.eqb_spec c' c); [congruence|]. rewrite IH2.
      reflexivity.
Qed.

(** X3: [splitOptVal] loses nothing of the argument.  A short option is
    split after its second byte and has no value when nothing follows; a
    long option is split at its first equals sign, which belongs to
    neither part, and has no value when there is none; anything else
    yields empty results. *)
Theorem splitOptVal_rebuild (arg : string) :
  let '(name, val, novalue) := splitOptVal arg in
  if isShortOption arg then
    name +:+ val = arg /\ String.length name = 2%nat /\
    (novalue = true <-> val = "")
  else if isLongOption arg then
    if novalue then
      name = arg /\ val = "" /\ Go.IndexByte arg "=" = None
    else
      name +:+ "=" +:+ val = arg /\ Go.IndexByte name "=" = None
  else name = "" /\ val = "" /\ novalue = false.
Proof.
  unfold splitOptVal.
  destruct (isShortOption arg) eqn:Hshort.
  - split; [apply sliceTo_sliceFrom|]. split.
    + destruct arg as [|c0 [|c1 rest]]; try discriminate. reflexivity.
    + split; intros H.
      * apply String.eqb_eq. exact H.
      * apply String.eqb_eq. exact H.
  - destruct (isLongOption arg) eqn:Hlong.
    + destruct (Go.IndexByte arg "=") as [idx|] eqn:Hidx.
      * destruct (IndexByte_Some arg "=" idx Hidx) as [H1 H2].
        split; [|exact H2]. exact H1.
      * repeat split; reflexivity.
    + repeat split; reflexivity.
Qed.

(** *** Options by name *)

Lemma existsb_eqb_elem_of (name : string) (l : list string) :
  existsb (String.eqb name) l = true <-> name ∈ l.
Proof.
  rewrite existsb_exists. split.
  - intros (x & Hin & Heq). apply String.eqb_eq in Heq. subst x.
    apply list_elem_of_In. exact Hin.
  - intros Hin. exists name. split; [apply list_elem_of_In; exact Hin|].
    apply String.eqb_refl.
Qed.

Lemma optNames_test (name : string) (opt : Option) :
  String.eqb name (optName opt) || existsb (String.eqb name) (optAliases opt)
  = true <-> name ∈ optNames opt.
Proof.
  unfold optNames. rewrite orb_true_iff, elem_of_cons, String.eqb_eq.
  rewrite existsb_eqb_elem_of. reflexivity.
Qed.

Lemma findOptionLoop_spec (opts : list Option) (name : string) :
  forall k : nat,
  match findOptionLoop opts k name with
  | Some i =>
      exists opt, (k <= i)%nat /\ opts !! (i - k)%nat = Some opt /\
        name ∈ optNames opt /\
        forall j opt', (j < i - k)%nat -> opts !! j = Some opt' ->
                       name ∉ optNames opt'
  | None => forall opt, opt ∈ opts -> name ∉ optNames opt
  end.
Proof.
  induction opts as [|opt opts IH]; intros k; simpl.
  - intros opt H. inversion H.
  - pose proof (optNames_test name opt) as Htest.
    destruct (String.eqb name (optName opt)) eqn:E1.
    + exists opt. rewrite Nat.sub_diag. split; [lia|]. split; [reflexivity|].
      split; [apply Htest; reflexivity|]. intros j opt' Hj. lia.
    + destruct (existsb (String.eqb name) (optAliases opt)) eqn:E2.
      * exists opt. rewrite Nat.sub_diag. split; [lia|]. split; [reflexivity|].
        split; [apply Htest; reflexivity|]. intros j opt' Hj. lia.
      * assert (Hnot : name ∉ optNames opt).
        { intros Hin. apply Htest in Hin. discriminate. }
        specialize (IH (S k)).
        destruct (findOptionLoop opts (S k) name) as [i|].
        -- destruct IH as (o & Hle & Hlook & Hin & Hbefore).
           exists o. split; [lia|].
           replace (i - k)%nat with (S (i - S k)) by lia.
           split; [exact Hlook|]. split; [exact Hin|].
           intros [|j] opt' Hj Hl.
           ++ simpl in Hl. injection Hl as <-. exact Hnot.
           ++ simpl in Hl. apply (Hbefore j); [lia|exact Hl].
        -- intros o Ho. apply elem_of_cons in Ho as [->|Ho];
             [exact Hnot|apply IH; exact Ho].
Qed.

(** [findOption] returns the first option of the command that has the
    name as its name or as one of its aliases, and [nil] exactly when no
    option of the command has it. *)
Lemma findOption_first (prs : parser) (name : string) :
  match findOption prs name with
  | Some i =>
      exists opt, Options (cmd prs) !! i = Some opt /\
        name ∈ optNames opt /\
        forall j opt', (j < i)%nat -> Options (cmd prs) !! j = Some opt' ->
                       name ∉ optNames opt'
  | None => forall opt, opt ∈ Options (cmd prs) -> name ∉ optNames opt
  end.
Proof.
  unfold findOption.
  pose proof (findOptionLoop_spec (Options (cmd prs)) name 0) as H.
  destruct (findOptionLoop (Options (cmd prs)) 0 name) as [i|]; [|exact H].
  destruct H as (opt & _ & Hlook & Hin & Hbefore).
  rewrite Nat.sub_0_r in *. eauto.
Qed.

End OptionFacts.

(** ** argv: what verification of a command gives the parser *)

Section VerifyFacts.
Import Argv.

Variable IsLetter IsDigit : rune -> bool.

Lemma addOptNames_inr (names : list string) :
  forall optnames optnames' : gset string,
  addOptNames names optnames = inr optnames' ->
  (forall name, name ∈ names -> (name ∉ optnames)) /\
  (forall name, name ∈ optnames' <-> name ∈ optnames \/ name ∈ names).
Proof.
  induction names as [|n names IH]; intros seen seen' H; simpl in H.
  - injection H as <-. split.
    + intros name Hin. inversion Hin.
    + intros name. split; [auto|]. intros [H|H]; [exact H|inversion H].
  - destruct (bool_decide (n ∈ seen)) eqn:Hn; [discriminate|].
    apply bool_decide_eq_false in Hn.
    destruct (IH _ _ H) as [IH1 IH2]. split.
    + intros name Hin. apply elem_of_cons in Hin as [->|Hin]; [exact Hn|].
      intros Hs. apply (IH1 name Hin). apply elem_of_union. right. exact Hs.
    + intros name. rewrite IH2, elem_of_cons, elem_of_union, elem_of_singleton.
      tauto.
Qed.

Lemma verifyOptionsLoop_disjoint (opts : list Option) :
  forall optnames : gset string,
  verifyOptionsLoop IsLetter IsDigit opts optnames = None ->
  forall i opt name,
    opts !! i = Some opt -> name ∈ optNames opt ->
    (name ∉ optnames) /\
    (forall j opt', (j < i)%nat -> opts !! j = Some opt' ->
                    name ∉ optNames opt').
Proof.
  induction opts as [|o opts IH]; intros seen H i opt name Hi Hin.
  - rewrite lookup_nil in Hi. discriminate.
  - cbn [verifyOptionsLoop] in H.
    destruct (Option_verify IsLetter IsDigit o); [discriminate|].
    destruct (addOptNames (optNames o) seen) as [err|seen'] eqn:Hadd;
      [discriminate|].
    destruct (addOptNames_inr _ _ _ Hadd) as [Hfresh Hseen'].
    destruct i as [|i].
    + simpl in Hi. injection Hi as <-. split; [apply Hfresh; exact Hin|].
      intros j opt' Hj. lia.
    + simpl in Hi. destruct (IH seen' H i opt name Hi Hin) as [Hnot Hbefore].
      split.
      * intros Hs. apply Hnot. apply Hseen'. left. exact Hs.
      * intros [|j] opt' Hj Hl.
        -- simpl in Hl. injection Hl as <-. intros Ho. apply Hnot.
           apply Hseen'. right. exact Ho.
        -- simpl in Hl. apply (Hbefore j); [lia|exact Hl].
Qed.

(** X4: in a command whose options pass [verifyOptions], [findOption]
    finds an option under a name exactly when the name is the name or an
    alias of that option: no name leads to two options, and a name that
    no option has leads to none. *)
Theorem verified_options_found (prs : parser) (i : nat) (name : string) :
  verifyOptions IsLetter IsDigit (cmd prs) = None ->
  (findOption prs name = Some i <->
   exists opt, Options (cmd prs) !! i = Some opt /\ name ∈ optNames opt).
Proof.
  intros Hver. pose proof (findOption_first prs name) as Hfind. split.
  - intros Hi. rewrite Hi in Hfind. destruct Hfind as (opt & Ho & Hin & _).
    exists opt. split; assumption.
  - intros (opt & Hi & Hin).
    destruct (verifyOptionsLoop_disjoint _ _ Hver i opt name Hi Hin)
      as [_ Hbefore].
    destruct (findOption prs name) as [k|].
    + destruct Hfind as (optk & Hk & Hink & Hmin).
      destruct (Nat.lt_trichotomy k i) as [Hlt|[->|Hgt]].
      * exfalso. exact (Hbefore k optk Hlt Hk Hink).
      * reflexivity.
      * exfalso. exact (Hmin i opt Hgt Hi Hin).
    + exfalso. apply (Hfind opt); [|exact Hin].
      eapply list_elem_of_lookup_2. exact Hi.
Qed.

(** *** Sub-commands *)

Lemma prefix_sliceFrom (p s : string) :
  String.prefix p s = true -> p +:+ Go.sliceFrom s (String.length p) = s.
Proof.
  revert s. induction p as [|a p IH]; intros s H.
  - reflexivity.
  - destruct s as [|b s]; [discriminate|]. simpl in H.
    destruct (ascii_dec a b) as [->|]; [|discriminate].
    simpl. rewrite append_cons, (IH s H). reflexivity.
Qed.

Lemma exact_first (subs : list Command) (name : string) :
  forall i, isExactAt subs name i ->
  exists i0, isExactAt subs name i0 /\
             forall j, (j < i0)%nat -> ~ isExactAt subs name j.
Proof.
  induction subs as [|sub subs IH]; intros i Hi.
  - destruct Hi as (s & Hs & _). destruct i; discriminate.
  - destruct (String.eqb_spec (Name sub) name) as [Heq|Hne].
    + exists 0%nat. split; [apply isExactAt_cons_0; exact Heq|].
      intros j Hj. lia.
    + destruct i as [|i].
      * apply isExactAt_cons_0 in Hi. congruence.
      * apply isExactAt_cons_S in Hi. destruct (IH i Hi) as (i0 & H0 & Hmin).
        exists (S i0). split; [apply isExactAt_cons_S; exact H0|].
        intros [|j] Hj Hex.
        -- apply isExactAt_cons_0 in Hex. congruence.
        -- apply isExactAt_cons_S in Hex. apply (Hmin j); [lia|exact Hex].
Qed.

Lemma exact_selects (prs : parser) (name : string) (i : nat) :
  isExactAt (SubCommands (cmd prs)) name i ->
  (forall j, (j < i)%nat -> ~ isExactAt (SubCommands (cmd prs)) name j) ->
  selects prs name i.
Proof.
  intros Hi Hmin. unfold selects, handleSubCommand, findSubCommand.
  rewrite (findSubCommandLoop_exact _ 0 name [] i Hi Hmin). reflexivity.
Qed.

Lemma isExactAt_isPrefixAt (subs : list Command) (name : string) (i : nat) :
  isExactAt subs name i -> isPrefixAt subs name i.
Proof.
  intros (sub & Hs & <-). exists sub. split; [exact Hs|].
  apply prefix_refl.
Qed.

Lemma classic_exact (subs : list Command) (name : string) :
  (exists i, isExactAt subs name i) \/ (forall j, ~ isExactAt subs name j).
Proof.
  induction subs as [|sub subs IH].
  - right. intros j (s & Hs & _). destruct j; discriminate.
  - destruct (String.eqb_spec (Name sub) name) as [Heq|Hne].
    + left. exists 0%nat. apply isExactAt_cons_0. exact Heq.
    + destruct IH as [(i & Hi)|Hno].
      * left. exists (S i). apply isExactAt_cons_S. exact Hi.
      * right. intros [|j] Hj.
        -- apply isExactAt_cons_0 in Hj. congruence.
        -- apply isExactAt_cons_S in Hj. exact (Hno j Hj).
Qed.

Lemma completions_nil (subs : list Command) (arg : string) :
  omap (fun sub =>
          if Go.HasPrefix (Name sub) arg
          then Some (Go.sliceFrom (Name sub) (String.length arg))
          else None) subs = [] <->
  forall j, ~ isPrefixAt subs arg j.
Proof.
  induction subs as [|sub subs IH]; simpl.
  - split; [|reflexivity]. intros _ j (s & Hs & _). destruct j; discriminate.
  - destruct (Go.HasPrefix (Name sub) arg) eqn:Hp.
    + split; [discriminate|]. intros H. exfalso. apply (H 0%nat).
      apply isPrefixAt_cons_0. exact Hp.
    + rewrite IH. split.
      * intros H [|j] Hj.
        -- apply isPrefixAt_cons_0 in Hj. congruence.
        -- apply isPrefixAt_cons_S in Hj. exact (H j Hj).
      * intros H j Hj. apply (H (S j)). apply isPrefixAt_cons_S. exact Hj.
Qed.

(** X5: what [completeSubCommand] offers is accepted by
    [handleSubCommand].  The argument followed by any of the completions
    is the full name of a sub-command and selects a sub-command of that
    name; and there is nothing to offer exactly when [handleSubCommand]
    rejects the argument as an unknown sub-command. *)
Theorem completeSubCommand_accepted (prs : parser) (arg : string) :
  (forall c, c ∈ snd (completeSubCommand prs arg) ->
     exists i, isExactAt (SubCommands (cmd prs)) (arg +:+ c) i /\
               selects prs (arg +:+ c) i) /\
  (snd (completeSubCommand prs arg) = [] <->
   handleSubCommand prs arg = (prs, Some (ErrUnknownSubCommand arg))).
Proof.
  unfold completeSubCommand. cbn [snd]. split.
  - intros c Hc. apply list_elem_of_omap in Hc as (sub & Hsub & Hf).
    destruct (Go.HasPrefix (Name sub) arg) eqn:Hp; [|discriminate].
    injection Hf as <-. unfold Go.HasPrefix in Hp.
    rewrite (prefix_sliceFrom _ _ Hp).
    apply list_elem_of_lookup_1 in Hsub as (i & Hi).
    destruct (exact_first (SubCommands (cmd prs)) (Name sub) i) as (i0 & H0 & Hmin).
    { exists sub. split; [exact Hi|reflexivity]. }
    exists i0. split; [exact H0|]. apply exact_selects; assumption.
  - rewrite completions_nil. split.
    + intros Hno. unfold handleSubCommand, findSubCommand.
      rewrite findSubCommandLoop_inexact.
      * rewrite prefixIdxFrom_none by exact Hno. reflexivity.
      * intros j Hj. apply (Hno j). apply isExactAt_isPrefixAt. exact Hj.
    + intros Hunk j Hj. unfold handleSubCommand, findSubCommand in Hunk.
      assert (Hlen : (1 <= length (findSubCommandLoop (SubCommands (cmd prs))
                                     0 arg []))%nat).
      { destruct (classic_exact (SubCommands (cmd prs)) arg) as [(i & Hi)|Hno].
        - destruct (exact_first _ _ i Hi) as (i0 & H0 & Hmin).
          rewrite (findSubCommandLoop_exact _ 0 arg [] i0 H0 Hmin). simpl. lia.
        - rewrite (findSubCommandLoop_inexact _ 0 arg [] Hno). simpl.
          exact (prefixIdxFrom_some _ 0 arg j Hj). }
      destruct (length (findSubCommandLoop (SubCommands (cmd prs)) 0 arg []))
        as [|[|n]] eqn:Hl; [lia| |]; simpl in Hunk; discriminate.
Qed.

End VerifyFacts.

(** ** argv: names that pass verification, as the parser reads them *)

Section NameFacts.
Import Argv.

Variable IsLetter IsDigit : rune -> bool.

Lemma prefix_cons_eqb (a b : ascii) (p s : string) :
  String.prefix (String a p) (String b s) = Ascii.eqb a b && String.prefix p s.
Proof.
  cbn [String.prefix].
  destruct (ascii_dec a b) as [->|Hne].
  - rewrite Ascii.eqb_refl. reflexivity.
  - apply Ascii.eqb_neq in Hne. rewrite Hne. reflexivity.
Qed.

Lemma prefix_empty (s : string) : String.prefix "" s = true.
Proof. destruct s; reflexivity. Qed.

Lemma byteZ_range (b : ascii) : 0 <= Go.byteZ b < 256.
Proof.
  unfold Go.byteZ. pose proof (N_ascii_bounded b) as H. lia.
Qed.

Lemma first_lo (s0 : Z) (sz : nat) (lo hi : Z) :
  Go.first s0 = Some (sz, lo, hi) -> 128 <= lo /\ (2 <= sz <= 4)%nat.
Proof.
  unfold Go.first. intros H.
  repeat match type of H with
         | (if ?b then _ else _) = _ => destruct b
         end; inversion H; subst; lia.
Qed.

Lemma DecodeRuneInString_spec (b0 : ascii) (rest : string) :
  let '(c, size) := Go.DecodeRuneInString (String b0 rest) in
  0 <= c /\ (1 <= size)%nat /\ Go.highBytes (size - 1) rest /\
  (Go.byteZ b0 < 128 -> c = Go.byteZ b0 /\ size = 1%nat).
Proof.
  pose proof (byteZ_range b0) as Hb0.
  unfold Go.DecodeRuneInString.
  destruct (Z.ltb_spec (Go.byteZ b0) 128) as [Hlt|Hge].
  { simpl. repeat split; lia. }
  assert (Herr : 0 <= Go.RuneError /\ (1 <= 1)%nat /\ Go.highBytes (1 - 1) rest /\
                 (Go.byteZ b0 < 128 -> Go.RuneError = Go.byteZ b0 /\ 1%nat = 1%nat)).
  { unfold Go.RuneError. simpl. repeat split; lia. }
  destruct (Go.first (Go.byteZ b0)) as [[[sz lo] hi]|] eqn:Hfirst;
    [|exact Herr].
  destruct (first_lo _ _ _ _ Hfirst) as [Hlo Hsz].
  destruct (String.length (String b0 rest) <? sz)%nat; [exact Herr|].
  destruct rest as [|b1 rest1]; [exact Herr|].
  pose proof (byteZ_range b1) as Hb1.
  destruct (Z.ltb_spec (Go.byteZ b1) lo) as [?|Hlo1]; [exact Herr|].
  destruct (Z.ltb_spec hi (Go.byteZ b1)) as [?|Hhi1]; [exact Herr|].
  cbn [orb].
  destruct (sz <=? 2)%nat eqn:H2.
  { split; [|split; [lia|split; [simpl; split; [lia|exact I]|intros; lia]]].
    apply Z.lor_nonneg. split; [apply Z.shiftl_nonneg|];
      apply Z.land_nonneg; lia. }
  destruct rest1 as [|b2 rest2]; [exact Herr|].
  pose proof (byteZ_range b2) as Hb2.
  unfold Go.notCont.
  destruct (Z.ltb_spec (Go.byteZ b2) 128) as [?|Hlo2]; [exact Herr|].
  destruct (Z.ltb_spec 191 (Go.byteZ b2)) as [?|Hhi2]; [exact Herr|].
  cbn [orb].
  destruct (sz <=? 3)%nat eqn:H3.
  { split; [|split; [lia|split; [simpl; repeat split; lia|intros; lia]]].
    apply Z.lor_nonneg. split; [apply Z.lor_nonneg; split|];
      try apply Z.shiftl_nonneg; apply Z.land_nonneg; lia. }
  destruct rest2 as [|b3 rest3]; [exact Herr|].
  pose proof (byteZ_range b3) as Hb3.
  destruct (Z.ltb_spec (Go.byteZ b3) 128) as [?|Hlo3]; [exact Herr|].
  destruct (Z.ltb_spec 191 (Go.byteZ b3)) as [?|Hhi3]; [exact Herr|].
  cbn [orb].
  split; [|split; [lia|split; [simpl; repeat split; lia|intros; lia]]].
  apply Z.lor_nonneg. split; [apply Z.lor_nonneg; split;
    [apply Z.lor_nonneg; split|]|];
    try apply Z.shiftl_nonneg; apply Z.land_nonneg; lia.
Qed.

Lemma rangeFrom_skip (i skip : nat) (b : ascii) (s : string) :
  Go.rangeFrom i (S skip) (String b s) = Go.rangeFrom (S i) skip s.
Proof. reflexivity. Qed.

Lemma rangeFrom_decode (i : nat) (b : ascii) (s : string) :
  Go.rangeFrom i 0 (String b s) =
  (i, fst (Go.DecodeRuneInString (String b s)))
  :: Go.rangeFrom (S i) (snd (Go.DecodeRuneInString (String b s)) - 1) s.
Proof.
  cbn [Go.rangeFrom]. destruct (Go.DecodeRuneInString (String b s)).
  reflexivity.
Qed.

Lemma rangeFrom_nonneg (s : string) : forall i skip j c,
  (j, c) ∈ Go.rangeFrom i skip s -> 0 <= c.
Proof.
  induction s as [|b s IH]; intros i skip j c H.
  - inversion H.
  - destruct skip as [|skip];
      [rewrite rangeFrom_decode in H|rewrite rangeFrom_skip in H];
      [|exact (IH _ _ _ _ H)].
    pose proof (DecodeRuneInString_spec b s) as Hspec.
    destruct (Go.DecodeRuneInString (String b s)) as [c0 size].
    destruct Hspec as (Hc0 & _). cbn [fst snd] in H.
    apply elem_of_cons in H as [[= -> ->]|H]; [exact Hc0|].
    exact (IH _ _ _ _ H).
Qed.

(** A byte below 0x80 is a rune of its own wherever it stands. *)
Lemma rangeFrom_ascii (b : ascii) (s : string) : forall i skip,
  Go.byteZ b < 128 ->
  Go.highBytes skip s ->
  Go.IndexByte s b <> None ->
  exists j, (j, Go.byteZ b) ∈ Go.rangeFrom i skip s.
Proof.
  intros i skip Hb. revert i skip.
  induction s as [|b0 s IH]; intros i skip Hhigh Hin; simpl in Hin.
  - congruence.
  - destruct (Ascii.eqb_spec b0 b) as [->|Hne].
    + destruct skip as [|skip]; [|simpl in Hhigh; lia].
      rewrite rangeFrom_decode.
      pose proof (DecodeRuneInString_spec b s) as Hspec.
      destruct (Go.DecodeRuneInString (String b s)) as [c0 size].
      destruct Hspec as (_ & _ & _ & Hascii).
      destruct (Hascii Hb) as [-> ->].
      exists i. apply list_elem_of_here.
    + assert (Hin' : Go.IndexByte s b <> None).
      { destruct (Go.IndexByte s b); [discriminate|]. exfalso. apply Hin.
        reflexivity. }
      destruct skip as [|skip].
      * rewrite rangeFrom_decode.
        pose proof (DecodeRuneInString_spec b0 s) as Hspec.
        destruct (Go.DecodeRuneInString (String b0 s)) as [c0 size].
        destruct Hspec as (_ & _ & Hh & _).
        destruct (IH (S i) (size - 1)%nat Hh Hin') as (j & Hj).
        exists j. apply list_elem_of_further. exact Hj.
      * rewrite rangeFrom_skip. simpl in Hhigh. destruct Hhigh as [_ Hh].
        destruct (IH (S i) skip Hh Hin') as (j & Hj).
        exists j. exact Hj.
Qed.

Lemma nameCheckLoop_ok (l : list (nat * rune)) :
  (forall j c, (j, c) ∈ l -> 0 <= c) ->
  nameCheckLoop IsLetter IsDigit l < 0 ->
  forall j c, (j, c) ∈ l ->
    IsLetter c || IsDigit c || (0 <? j)%nat && (c =? 45) = true.
Proof.
  induction l as [|[i0 c0] l IH]; intros Hnn Hlt j c Hin.
  - inversion Hin.
  - simpl in Hlt.
    assert (Hnn' : forall j c, (j, c) ∈ l -> 0 <= c).
    { intros j' c' H'. apply (Hnn j'). apply list_elem_of_further. exact H'. }
    assert (H0 : 0 <= c0) by (apply (Hnn i0); apply list_elem_of_here).
    destruct (IsLetter c0 || IsDigit c0) eqn:E1.
    + apply elem_of_cons in Hin as [[= -> ->]|Hin].
      * rewrite E1. reflexivity.
      * exact (IH Hnn' Hlt j c Hin).
    + destruct ((0 <? i0)%nat && (c0 =? 45)) eqn:E2; [|lia].
      apply elem_of_cons in Hin as [[= -> ->]|Hin].
      * rewrite E1, E2. reflexivity.
      * exact (IH Hnn' Hlt j c Hin).
Qed.

Lemma nameCheck_no_equals (check : string) :
  IsLetter 61 = false -> IsDigit 61 = false ->
  nameCheck IsLetter IsDigit check < 0 ->
  Go.IndexByte check "=" = None.
Proof.
  intros HL HD Hlt.
  destruct (Go.IndexByte check "=") as [k|] eqn:Hk; [|reflexivity].
  exfalso.
  destruct (rangeFrom_ascii "=" check 0 0) as (j & Hj).
  - vm_compute. reflexivity.
  - destruct check; exact I.
  - congruence.
  - change (Go.byteZ "=") with 61 in Hj.
    pose proof (nameCheckLoop_ok (Go.rangeString check)
                  (rangeFrom_nonneg check 0 0) Hlt j 61 Hj) as Hok.
    rewrite HL, HD in Hok. simpl in Hok. rewrite andb_false_r in Hok.
    discriminate.
Qed.

(** X6: an option name that passes [verifyNameSyntax] is, as an argument
    of the command line, a short or a long option that stands for itself:
    [splitOptVal] finds the whole of it to be the name and no value in
    it.  The equals sign is neither a letter nor a digit. *)
Theorem verified_name_is_option (name : string) :
  IsLetter 61 = false -> IsDigit 61 = false ->
  verifyNameSyntax IsLetter IsDigit name = None ->
  (isShortOption name = true \/ isLongOption name = true) /\
  splitOptVal name = (name, "", true).
Proof.
  intros HL HD Hver. unfold verifyNameSyntax, Go.HasPrefix in Hver.
  destruct name as [|c0 name]; [discriminate|].
  rewrite !prefix_cons_eqb in Hver.
  destruct (Ascii.eqb_spec "-" c0) as [<-|Hc0]; [|discriminate].
  cbn [andb] in Hver. rewrite prefix_empty in Hver.
  destruct name as [|c1 name]; [discriminate|].
  rewrite prefix_cons_eqb, prefix_empty, andb_true_r in Hver.
  destruct (Ascii.eqb_spec "-" c1) as [<-|Hc1].
  - (* a long name *)
    cbn [Go.sliceFrom] in Hver.
    destruct name as [|c2 name]; [discriminate|].
    assert (Hne : String.eqb (String c2 name) "" = false) by reflexivity.
    rewrite Hne in Hver.
    destruct (Z.leb_spec 0 (nameCheck IsLetter IsDigit (String c2 name)))
      as [?|Hlt]; [discriminate|].
    pose proof (nameCheck_no_equals _ HL HD Hlt) as Hno.
    split; [right; reflexivity|].
    unfold splitOptVal. cbn [isShortOption isLongOption Ascii.eqb Bool.eqb
                              andb negb].
    change (Go.IndexByte (String "-" (String "-" (String c2 name))) "=")
      with (S <$> (S <$> Go.IndexByte (String c2 name) "=")).
    rewrite Hno. reflexivity.
  - (* a short name *)
    cbn [Go.sliceFrom] in Hver.
    assert (Hne : String.eqb (String c1 name) "" = false) by reflexivity.
    rewrite Hne in Hver.
    destruct (0 <=? nameCheck IsLetter IsDigit (String c1 name));
      [discriminate|].
    cbn [andb] in Hver.
    destruct name as [|c2 name]; [|discriminate].
    assert (Hneq : Ascii.eqb c1 "-" = false).
    { apply Ascii.eqb_neq. congruence. }
    split.
    + left. cbn [isShortOption]. rewrite Hneq. reflexivity.
    + unfold splitOptVal. cbn [isShortOption]. rewrite Hneq. reflexivity.
Qed.

End NameFacts.

(** ** argv: positional parameters *)

Section ParameterFacts.
Import Argv.

(** *** What [verifyParameters] makes sure of *)

Lemma verifyDisposition_after_repeated (params : list Param) :
  forall opt r,
  verifyDisposition params (Some r) opt = None ->
  forall q, q ∈ params -> optional q = false /\ repeated q = false.
Proof.
  induction params as [|p params IH]; intros opt r H q Hq.
  - inversion Hq.
  - cbn [verifyDisposition] in H.
    destruct (optional p) eqn:Ho; [discriminate|].
    destruct opt as [o|]; [discriminate|].
    destruct (repeated p) eqn:Hr; [discriminate|].
    apply elem_of_cons in Hq as [->|Hq]; [split; assumption|].
    exact (IH None r H q Hq).
Qed.

Lemma verifyDisposition_after_optional (params : list Param) :
  forall rept o,
  verifyDisposition params rept (Some o) = None ->
  forall q, q ∈ params -> optional q = true.
Proof.
  induction params as [|p params IH]; intros rept o H q Hq.
  - inversion Hq.
  - cbn [verifyDisposition] in H.
    destruct (optional p) eqn:Ho; [|discriminate].
    destruct rept as [r|]; [discriminate|].
    apply elem_of_cons in Hq as [->|Hq]; [exact Ho|].
    destruct (repeated p); [exact (IH _ _ H q Hq)|exact (IH _ _ H q Hq)].
Qed.

Lemma verifyDisposition_tail (p : Param) (params : list Param) rept opt :
  verifyDisposition (p :: params) rept opt = None ->
  verifyDisposition params
    (if repeated p then Some p else rept)
    (if optional p then Some p else opt) = None.
Proof.
  cbn [verifyDisposition]. intros H.
  destruct (optional p); destruct rept, opt; try discriminate;
    destruct (repeated p); try discriminate; exact H.
Qed.

Lemma disposition_repeated (params : list Param) : forall rept opt r p,
  verifyDisposition params rept opt = None ->
  params !! r = Some p -> repeated p = true ->
  forall j q, (r < j)%nat -> params !! j = Some q ->
              optional q = false /\ repeated q = false.
Proof.
  induction params as [|p0 params IH]; intros rept opt r p H Hr Hrep j q Hj Hq.
  - rewrite lookup_nil in Hr. discriminate.
  - apply verifyDisposition_tail in H.
    destruct j as [|j]; [lia|]. cbn in Hq.
    destruct r as [|r].
    + cbn in Hr. injection Hr as ->. rewrite Hrep in H.
      eapply verifyDisposition_after_repeated; [exact H|].
      eapply list_elem_of_lookup_2. exact Hq.
    + cbn in Hr. eapply (IH _ _ r p H Hr Hrep j q); [lia|exact Hq].
Qed.

Lemma disposition_optional (params : list Param) : forall rept opt i p,
  verifyDisposition params rept opt = None ->
  params !! i = Some p -> optional p = true ->
  forall j q, (i < j)%nat -> params !! j = Some q -> optional q = true.
Proof.
  induction params as [|p0 params IH]; intros rept opt i p H Hi Hopt j q Hj Hq.
  - rewrite lookup_nil in Hi. discriminate.
  - apply verifyDisposition_tail in H.
    destruct j as [|j]; [lia|]. cbn in Hq.
    destruct i as [|i].
    + cbn in Hi. injection Hi as ->. rewrite Hopt in H.
      eapply verifyDisposition_after_optional; [exact H|].
      eapply list_elem_of_lookup_2. exact Hq.
    + cbn in Hi. eapply (IH _ _ i p H Hi Hopt j q); [lia|exact Hq].
Qed.

(** *** The counts of [paramsInfo] *)

Lemma paramsInfo_fold (params : list Param) : forall a b : Z,
  fold_left
    (fun acc param =>
       (if required param then fst acc + 1 else fst acc,
        if repeated param then MaxInt else snd acc))
    params (a, b) =
  (a + Z.of_nat (length (filter (fun p => required p = true) params)),
   if existsb repeated params then MaxInt else b).
Proof.
  induction params as [|p params IH]; intros a b; cbn [fold_left].
  - cbn. f_equal. lia.
  - rewrite IH. cbn [fst snd existsb]. rewrite filter_cons.
    assert (Hsnd : (if existsb repeated params then MaxInt
                    else if repeated p then MaxInt else b) =
                   (if repeated p || existsb repeated params then MaxInt
                    else b)).
    { destruct (repeated p), (existsb repeated params); reflexivity. }
    destruct (decide (required p = true)) as [Hreq|Hreq].
    + rewrite Hreq. cbn [length]. f_equal; first [lia | exact Hsnd].
    + apply not_true_is_false in Hreq. rewrite Hreq. f_equal; first [lia | exact Hsnd].
Qed.

Lemma paramsInfo_spec (prs : parser) :
  paramsInfo prs =
  (Z.of_nat (length (filter (fun p => required p = true)
                       (Parameters (cmd prs)))),
   if existsb repeated (Parameters (cmd prs)) then MaxInt
   else Z.of_nat (length (Parameters (cmd prs)))).
Proof.
  unfold paramsInfo. rewrite paramsInfo_fold. cbn [fst snd].
  destruct (existsb repeated (Parameters (cmd prs))); reflexivity.
Qed.

Lemma filter_all {A : Type} (P : A -> Prop) `{forall x, Decision (P x)}
    (l : list A) :
  (forall x, x ∈ l -> P x) -> filter P l = l.
Proof.
  induction l as [|x l IH]; intros Hall; [reflexivity|].
  rewrite filter_cons, decide_True by (apply Hall; apply list_elem_of_here).
  f_equal. apply IH. intros y Hy. apply Hall. apply list_elem_of_further.
  exact Hy.
Qed.

(** *** The loops of [handleParameters] *)

Lemma descsForward_plain (params : list Param) : forall k i descs,
  (i + k <= length params)%nat ->
  (forall j p, params !! j = Some p -> (i <= j < i + k)%nat ->
               repeated p = false) ->
  exists res,
    descsForward params k i descs = Some (res, -1) /\
    length res = length descs /\
    forall j, res !! j =
              if decide ((i <= j < i + k)%nat /\ (j < length descs)%nat)
              then Some (Some j) else descs !! j.
Proof.
  induction k as [|k IH]; intros i descs Hlen Hno.
  - exists descs. split; [reflexivity|]. split; [reflexivity|].
    intros j. rewrite decide_False by lia. reflexivity.
  - cbn [descsForward].
    destruct (lookup_lt_is_Some_2 params i) as [p Hp]; [lia|].
    rewrite Hp. rewrite (Hno i p Hp) by lia.
    destruct (IH (S i) (<[i:=Some i]> descs)) as (res & Hres & Hl & Hspec).
    { lia. }
    { intros j q Hq Hj. apply (Hno j q Hq). lia. }
    exists res. split; [exact Hres|]. rewrite length_insert in Hl.
    split; [exact Hl|]. intros j.
    rewrite Hspec, length_insert, list_lookup_insert.
    repeat case_decide; try lia; try reflexivity.
    destruct_and!. subst. reflexivity.
Qed.

Lemma descsForward_repeated (params : list Param) (r : nat) (p : Param) :
  params !! r = Some p -> repeated p = true ->
  forall k i descs,
  (i <= r < i + k)%nat ->
  (forall j q, params !! j = Some q -> (i <= j < r)%nat ->
               repeated q = false) ->
  exists res,
    descsForward params k i descs = Some (res, Z.of_nat r) /\
    length res = length descs /\
    forall j, res !! j =
              if decide ((i <= j <= r)%nat /\ (j < length descs)%nat)
              then Some (Some j) else descs !! j.
Proof.
  intros Hr Hrep. induction k as [|k IH]; intros i descs Hir Hno; [lia|].
  cbn [descsForward].
  destruct (decide (i = r)) as [->|Hne].
  - rewrite Hr, Hrep. eexists. split; [reflexivity|].
    rewrite length_insert. split; [reflexivity|]. intros j.
    rewrite list_lookup_insert.
    repeat case_decide; try lia; try reflexivity.
    destruct_and!. subst. reflexivity.
  - destruct (lookup_lt_is_Some_2 params i) as [q Hq].
    { apply lookup_lt_Some in Hr. lia. }
    rewrite Hq, (Hno i q Hq) by lia.
    destruct (IH (S i) (<[i:=Some i]> descs)) as (res & Hres & Hl & Hspec).
    { lia. }
    { intros j q' Hq' Hj. apply (Hno j q' Hq'). lia. }
    exists res. split; [exact Hres|]. rewrite length_insert in Hl.
    split; [exact Hl|]. intros j.
    rewrite Hspec, length_insert, list_lookup_insert.
    repeat case_decide; try lia; try reflexivity.
    destruct_and!. subst. reflexivity.
Qed.

Lemma descsBackward_spec (params : list Param) (r : nat) (p : Param) :
  params !! r = Some p -> repeated p = true ->
  forall t a descs fuel,
  (t < fuel)%nat ->
  (forall s q, (s < t)%nat -> params !! (r + 1 + s)%nat = Some q ->
               repeated q = false) ->
  (r + t < length params)%nat ->
  (a + t <= length descs)%nat ->
  exists res,
    descsBackward params fuel (Z.of_nat (a + t) - 1) (Z.of_nat (r + t)) descs
    = Some res /\
    length res = length descs /\
    forall j, res !! j =
              if decide (a <= j < a + t)%nat
              then Some (Some (r + 1 + (j - a))%nat) else descs !! j.
Proof.
  intros Hr Hrep. induction t as [|t IH]; intros a descs fuel Hfuel Hno Hlen Ha.
  - destruct fuel as [|fuel]; [lia|]. cbn [descsBackward].
    rewrite (proj2 (Z.ltb_ge _ _)) by lia.
    rewrite Nat2Z.id, Nat.add_0_r, Hr, Hrep.
    exists descs. split; [reflexivity|]. split; [reflexivity|].
    intros j. rewrite decide_False by lia. reflexivity.
  - destruct fuel as [|fuel]; [lia|]. cbn [descsBackward].
    rewrite (proj2 (Z.ltb_ge _ _)) by lia. rewrite Nat2Z.id.
    destruct (lookup_lt_is_Some_2 params (r + S t)) as [q Hq]; [lia|].
    rewrite Hq.
    rewrite (Hno t q) by (try lia; rewrite <- Hq; f_equal; lia).
    rewrite (proj2 (Z.ltb_ge _ _)) by lia.
    rewrite (proj2 (Z.leb_gt _ _)) by lia. cbn [orb].
    replace (Z.to_nat (Z.of_nat (a + S t) - 1)) with (a + t)%nat by lia.
    replace (Z.of_nat (a + S t) - 1 - 1) with (Z.of_nat (a + t) - 1) by lia.
    replace (Z.of_nat (r + S t) - 1) with (Z.of_nat (r + t)) by lia.
    destruct (IH a (<[(a + t)%nat:=Some (r + S t)%nat]> descs) fuel)
      as (res & Hres & Hl & Hspec).
    { lia. }
    { intros s q' Hs Hq'. apply (Hno s q'); [lia|exact Hq']. }
    { lia. }
    { rewrite length_insert. lia. }
    exists res. split; [exact Hres|]. rewrite length_insert in Hl.
    split; [exact Hl|]. intros j.
    rewrite Hspec, list_lookup_insert.
    repeat case_decide; try lia; try reflexivity.
    destruct_and!. subst. do 2 f_equal. lia.
Qed.

Lemma all_required (params : list Param) (r : nat) (p : Param) :
  verifyDisposition params None None = None ->
  params !! r = Some p -> repeated p = true ->
  (S r < length params)%nat ->
  forall q, q ∈ params -> required q = true.
Proof.
  intros Hver Hr Hrep Hlen q Hq.
  apply list_elem_of_lookup_1 in Hq as (j & Hj).
  destruct (lookup_lt_is_Some_2 params (S r) Hlen) as [q1 Hq1].
  destruct (disposition_repeated _ _ _ _ _ Hver Hr Hrep (S r) q1
              ltac:(lia) Hq1) as [Hopt1 _].
  unfold required. destruct (optional q) eqn:Hopt; [|reflexivity].
  exfalso. destruct (decide (j < S r)%nat) as [Hlt|Hge].
  - pose proof (disposition_optional _ _ _ _ _ Hver Hj Hopt (S r) q1 Hlt Hq1).
    congruence.
  - destruct (decide (j = S r)) as [->|Hne]; [congruence|].
    destruct (disposition_repeated _ _ _ _ _ Hver Hr Hrep j q
                ltac:(lia) Hj) as [Hoptj _].
    congruence.
Qed.

Lemma buildParamDescs_verified (prs : parser) (count : nat) :
  let params := Parameters (cmd prs) in
  verifyDisposition params None None = None ->
  fst (paramsInfo prs) <= Z.of_nat count <= snd (paramsInfo prs) ->
  buildParamDescs params count =
  Some (map (fun i => Some (expectedDesc params count i)) (seq 0 count)) /\
  forall i, (i < count)%nat ->
            (expectedDesc params count i < length params)%nat.
Proof.
  intros params Hver. rewrite paramsInfo_spec. fold params. cbn [fst snd].
  intros [Hmin Hmax]. unfold buildParamDescs, expectedDesc.
  destruct (list_find (fun p => repeated p = true) (take count params))
    as [[r p]|] eqn:Hfind.
  - apply list_find_Some in Hfind as (Hr & Hrep & Hfirst).
    apply lookup_take_Some in Hr as [Hr Hrn].
    pose proof (lookup_lt_Some _ _ _ Hr) as Hrlen.
    set (after := (length params - S r)%nat).
    assert (Hcount : (length params <= count)%nat).
    { destruct (decide (S r < length params)%nat) as [Hlt|Hge]; [|lia].
      rewrite (filter_all (fun q => required q = true) params) in Hmin; [lia|].
      exact (all_required params r p Hver Hr Hrep Hlt). }
    destruct (descsForward_repeated params r p Hr Hrep count 0
                (replicate count None)) as (res1 & Hres1 & Hl1 & Hspec1).
    { lia. }
    { intros j q Hq Hj. destruct (repeated q) eqn:Hq'; [|reflexivity].
      exfalso. apply (Hfirst j q); [|lia|exact Hq'].
      apply lookup_take_Some. split; [exact Hq|lia]. }
    rewrite Hres1. cbn [mbind option_bind fst snd].
    rewrite (proj2 (Z.leb_le 0 (Z.of_nat r))) by lia.
    rewrite length_replicate in Hl1.
    destruct (descsBackward_spec params r p Hr Hrep after (count - after)%nat
                res1 (S (length params))) as (res2 & Hres2 & Hl2 & Hspec2).
    { unfold after. lia. }
    { intros s q Hs Hq.
      exact (proj2 (disposition_repeated _ _ _ _ _ Hver Hr Hrep
                      (r + 1 + s)%nat q ltac:(lia) Hq)). }
    { unfold after. lia. }
    { unfold after. lia. }
    replace (Z.of_nat (length res1) - 1)
      with (Z.of_nat (count - after + after) - 1) by (unfold after; lia).
    replace (Z.of_nat (length params) - 1)
      with (Z.of_nat (r + after)) by (unfold after; lia).
    rewrite Hres2. cbn [mbind option_bind]. rewrite Nat2Z.id. split.
    + assert (Hr2 : res2 !! r = Some (Some r)).
      { rewrite Hspec2, decide_False by (unfold after; lia).
        rewrite Hspec1, length_replicate, decide_True by lia. reflexivity. }
      f_equal. apply list_eq. intros i. unfold descsRepeated.
      rewrite list_lookup_imap, list_lookup_fmap, Hr2.
      cbn [mjoin option_join].
      destruct (decide (i < count)%nat) as [Hi|Hi].
      * rewrite lookup_seq_lt by exact Hi. cbn [fmap option_fmap option_map].
        change (0 + i)%nat with i.
        destruct (Nat.leb_spec i r) as [Hir|Hir].
        -- rewrite (proj2 (Nat.ltb_ge r i)) by lia.
           rewrite Hspec2, decide_False by (unfold after; lia).
           rewrite Hspec1, length_replicate, decide_True by lia. reflexivity.
        -- rewrite (proj2 (Nat.ltb_lt r i)) by lia.
           destruct (Nat.leb_spec (count - after) i) as [Hia|Hia].
           ++ rewrite Hspec2, decide_True by lia. cbn. do 2 f_equal.
              unfold after. lia.
           ++ rewrite Hspec2, decide_False by lia.
              rewrite Hspec1, length_replicate, decide_False by lia.
              rewrite lookup_replicate_2 by exact Hi. reflexivity.
      * rewrite lookup_seq_ge by lia.
        rewrite Hspec2, decide_False by (unfold after; lia).
        rewrite Hspec1, length_replicate, decide_False by lia.
        assert (replicate count (@None nat) !! i = None) as ->
          by (apply lookup_replicate_None; lia).
        reflexivity.
    + intros i Hi. fold after.
      destruct (i <=? r)%nat eqn:E1; [apply Nat.leb_le in E1; lia|].
      destruct (count - after <=? i)%nat; lia.
  - apply list_find_None in Hfind.
    assert (Hcount : (count <= length params)%nat).
    { destruct (existsb repeated params) eqn:Hex; [|lia].
      apply existsb_exists in Hex as (q & Hq & Hrep).
      apply list_elem_of_In, list_elem_of_lookup_1 in Hq as (j & Hj).
      pose proof (lookup_lt_Some _ _ _ Hj) as Hjlen.
      destruct (decide (j < count)%nat) as [Hlt|Hge]; [|lia].
      exfalso. rewrite Forall_forall in Hfind. apply (Hfind q); [|exact Hrep].
      eapply list_elem_of_lookup_2. apply lookup_take_Some.
      split; [exact Hj|exact Hlt]. }
    destruct (descsForward_plain params count 0 (replicate count None))
      as (res & Hres & Hl & Hspec).
    { lia. }
    { intros j q Hq Hj. destruct (repeated q) eqn:Hq'; [|reflexivity].
      exfalso. rewrite Forall_forall in Hfind. apply (Hfind q); [|exact Hq'].
      eapply list_elem_of_lookup_2. apply lookup_take_Some.
      split; [exact Hq|lia]. }
    rewrite Hres. cbn [mbind option_bind fst snd Z.leb Z.compare]. split.
    + f_equal. apply list_eq. intros i.
      rewrite list_lookup_fmap, Hspec, length_replicate.
      destruct (decide (i < count)%nat) as [Hi|Hi].
      * rewrite lookup_seq_lt by exact Hi. rewrite decide_True by lia.
        reflexivity.
      * rewrite lookup_seq_ge by lia. rewrite decide_False by lia.
        assert (replicate count (@None nat) !! i = None) as ->
          by (apply lookup_replicate_None; lia).
        reflexivity.
    + intros i Hi. lia.
Qed.

Section Validation.

Variable ParamValidate : Param -> option (string -> option string).

Lemma validateParams_spec (params : list Param) (e : nat -> nat)
    (vals : list string) : forall k : nat,
  (forall i, (i < length vals)%nat -> (e (k + i) < length params)%nat) ->
  exists r,
    validateParams ParamValidate params
      (map (fun i => Some (e i)) (seq k (length vals))) vals = Some r /\
    match r with
    | None =>
        forall i val p validate,
          vals !! i = Some val -> params !! e (k + i)%nat = Some p ->
          ParamValidate p = Some validate -> validate val = None
    | Some (ErrParamValue name err val) =>
        exists i p validate,
          vals !! i = Some val /\ params !! e (k + i)%nat = Some p /\
          ParamValidate p = Some validate /\ validate val = Some err /\
          name = paramName p
    end.
Proof.
  induction vals as [|val vals IH]; intros k Hb.
  - exists None. split; [reflexivity|]. intros i v p validate Hi.
    rewrite lookup_nil in Hi. discriminate.
  - cbn [length seq map validateParams mbind option_bind].
    destruct (lookup_lt_is_Some_2 params (e k)) as [p Hp].
    { specialize (Hb 0%nat). rewrite Nat.add_0_r in Hb. apply Hb. cbn. lia. }
    rewrite Hp. cbn [mbind option_bind].
    destruct (IH (S k)) as (r & Hr & Hspec).
    { intros i Hi. replace (S k + i)%nat with (k + S i)%nat by lia.
      apply Hb. cbn. lia. }
    assert (Hrest :
      match r with
      | None =>
          forall i v q validate,
            vals !! i = Some v -> params !! e (k + S i)%nat = Some q ->
            ParamValidate q = Some validate -> validate v = None
      | Some (ErrParamValue name err v) =>
          exists i q validate,
            vals !! i = Some v /\ params !! e (k + S i)%nat = Some q /\
            ParamValidate q = Some validate /\ validate v = Some err /\
            name = paramName q
      end).
    { destruct r as [[name err v]|].
      - destruct Hspec as (i & q & validate & H1 & H2 & H3).
        exists i, q, validate. split; [exact H1|].
        replace (k + S i)%nat with (S k + i)%nat by lia. split; assumption.
      - intros i v q validate H1 H2.
        replace (k + S i)%nat with (S k + i)%nat in H2 by lia.
        exact (Hspec i v q validate H1 H2). }
    destruct (ParamValidate p) as [validate|] eqn:Hv.
    + destruct (validate val) as [err|] eqn:Herr.
      * eexists. split; [reflexivity|]. exists 0%nat, p, validate.
        rewrite Nat.add_0_r. repeat split; assumption.
      * exists r. split; [exact Hr|]. destruct r as [[name err v]|].
        -- destruct Hrest as (i & q & vq & H1 & H2).
           exists (S i), q, vq. split; [exact H1|exact H2].
        -- intros [|i] v q vq H1 H2 H3.
           ++ cbn in H1. injection H1 as <-. rewrite Nat.add_0_r in H2.
              congruence.
           ++ exact (Hrest i v q vq H1 H2 H3).
    + exists r. split; [exact Hr|]. destruct r as [[name err v]|].
      * destruct Hrest as (i & q & vq & H1 & H2).
        exists (S i), q, vq. split; [exact H1|exact H2].
      * intros [|i] v q vq H1 H2 H3.
        -- rewrite Nat.add_0_r in H2. congruence.
        -- exact (Hrest i v q vq H1 H2 H3).
Qed.

Lemma zip_with_seq (e : nat -> nat) (vals : list string) : forall k : nat,
  zip_with mkParamVal (map (fun i => Some (e i)) (seq k (length vals))) vals =
  imap (fun i val => mkParamVal (Some (e (k + i)%nat)) val) vals.
Proof.
  induction vals as [|val vals IH]; intros k; [reflexivity|].
  cbn [length seq map zip_with imap]. rewrite Nat.add_0_r. f_equal.
  rewrite IH. apply imap_ext. intros i v _. cbn.
  do 3 f_equal. lia.
Qed.

(** X7: in a command whose parameters pass the disposition check of
    [verifyParameters], [handleParameters] does not panic on any number
    of values between the two counts of [paramsInfo].  The values before
    the repeated parameter and those after it go to the parameters one by
    one, from the front and from the back, the values in between go to
    the repeated parameter, and every value is for a parameter that
    exists.  The values are saved with these parameters, unless the
    [Validate] callback of the parameter of some value rejects it, which
    is then the error. *)
Theorem handleParameters_assigns (prs : parser) (paramValues : list string) :
  let params := Parameters (cmd prs) in
  let count := length paramValues in
  verifyDisposition params None None = None ->
  fst (paramsInfo prs) <= Z.of_nat count <= snd (paramsInfo prs) ->
  (forall i, (i < count)%nat ->
             (expectedDesc params count i < length params)%nat) /\
  exists res,
    handleParameters ParamValidate prs paramValues = Some res /\
    match res with
    | inr saved =>
        saved = imap (fun i val =>
                        mkParamVal (Some (expectedDesc params count i)) val)
                  paramValues /\
        forall i val p validate,
          paramValues !! i = Some val ->
          params !! expectedDesc params count i = Some p ->
          ParamValidate p = Some validate -> validate val = None
    | inl (ErrParamValue name err val) =>
        exists i p validate,
          paramValues !! i = Some val /\
          params !! expectedDesc params count i = Some p /\
          ParamValidate p = Some validate /\ validate val = Some err /\
          name = paramName p
    end.
Proof.
  intros params count Hver Hcount. subst params count.
  destruct (buildParamDescs_verified prs _ Hver Hcount) as [Hdescs Hb].
  split; [exact Hb|].
  unfold handleParameters. rewrite Hdescs.
  cbn [mbind option_bind].
  destruct (validateParams_spec (Parameters (cmd prs))
              (expectedDesc (Parameters (cmd prs)) (length paramValues))
              paramValues 0) as (r & Hr & Hspec).
  { intros i Hi. apply Hb. exact Hi. }
  rewrite Hr. cbn [mbind option_bind].
  destruct r as [[name err val]|].
  - eexists. split; [reflexivity|]. exact Hspec.
  - eexists. split; [reflexivity|]. split; [|exact Hspec].
    apply (zip_with_seq _ paramValues 0).
Qed.

End Validation.

(** Five values for the three parameters of [copyCommand], the second of
    which is repeated. *)
Lemma handleParameters_assigns_witness :
  exists res,
    handleParameters (fun _ => None) (newParser copyCommand [])
      ["0"; "a"; "b"; "c"; "d"] = Some res /\
    match res with
    | inr saved =>
        saved = [mkParamVal (Some 0%nat) "0"; mkParamVal (Some 1%nat) "a";
                 mkParamVal (Some 1%nat) "b"; mkParamVal (Some 1%nat) "c";
                 mkParamVal (Some 2%nat) "d"]
    | inl _ => False
    end.
Proof.
  destruct (handleParameters_assigns (fun _ => None)
              (newParser copyCommand []) ["0"; "a"; "b"; "c"; "d"])
    as [_ (res & Hres & Hspec)].
  - reflexivity.
  - vm_compute. split; congruence.
  - exists res. split; [exact Hres|].
    destruct res as [[name err val]|saved].
    + destruct Hspec as (i & p & validate & _ & _ & Hv & _). discriminate.
    + destruct Hspec as [-> _]. reflexivity.
Defined.

End ParameterFacts.

(** ** argv: verified commands and their sub-commands *)

Section VerifiedCommands.
Import Argv.

Lemma verifySubCommandsLoop_spec (V : Command -> option verifyError)
    (subs : list Command) : forall subcmdnames : gset string,
  verifySubCommandsLoop V subs subcmdnames = None ->
  forall i sub, subs !! i = Some sub ->
    V sub = None /\ (Name sub ∉ subcmdnames) /\
    (forall j sub', (j < i)%nat -> subs !! j = Some sub' ->
                    Name sub' <> Name sub).
Proof.
  induction subs as [|s subs IH]; intros seen H i sub Hi.
  - rewrite lookup_nil in Hi. discriminate.
  - cbn [verifySubCommandsLoop] in H.
    destruct (bool_decide (Name s ∈ seen)) eqn:Hs; [discriminate|].
    apply bool_decide_eq_false in Hs.
    destruct (V s) eqn:HV; [discriminate|].
    destruct i as [|i].
    + cbn in Hi. injection Hi as <-. split; [exact HV|].
      split; [exact Hs|]. intros j sub' Hj. lia.
    + cbn in Hi. destruct (IH _ H i sub Hi) as (HVsub & Hnot & Hbefore).
      split; [exact HVsub|]. split.
      * intros Hin. apply Hnot. apply elem_of_union. right. exact Hin.
      * intros [|j] sub' Hj Hl.
        -- cbn in Hl. injection Hl as <-. intros Heq. apply Hnot.
           apply elem_of_union. left. apply elem_of_singleton. congruence.
        -- cbn in Hl. apply (Hbefore j); [lia|exact Hl].
Qed.

(** X8: in a command that passes [Verify], every sub-command passes
    [Verify] too and is what [handleSubCommand] selects for its full
    name, no other sub-command having that name; and a command with
    sub-commands has no parameters. *)
Theorem Verify_subcommands (IsLetter IsDigit : rune -> bool) (prs : parser)
    (i : nat) (sub : Command) :
  Verify IsLetter IsDigit (cmd prs) = None ->
  SubCommands (cmd prs) !! i = Some sub ->
  Verify IsLetter IsDigit sub = None /\
  selects prs (Name sub) i /\
  Parameters (cmd prs) = [].
Proof.
  intros Hver Hi. destruct (cmd prs) as [name help descr opts params subs] eqn:Hc.
  cbn [SubCommands Parameters] in *. cbn [Verify] in Hver.
  destruct (String.eqb name ""); [discriminate|].
  assert (Hsubs : hasSubCommands (mkCommand name help descr opts params subs)
                  = true).
  { unfold hasSubCommands. cbn [SubCommands]. destruct subs; [|reflexivity].
    rewrite lookup_nil in Hi. discriminate. }
  rewrite Hsubs, andb_true_r in Hver.
  destruct (hasParameters (mkCommand name help descr opts params subs)) eqn:Hp;
    [discriminate|].
  destruct (match verifyOptions IsLetter IsDigit _ with
            | Some err => Some err
            | None => verifyParameters IsLetter IsDigit _
            end); [discriminate|].
  destruct (verifySubCommandsLoop (Verify IsLetter IsDigit) subs ∅) eqn:Hloop;
    [discriminate|].
  destruct (verifySubCommandsLoop_spec _ _ _ Hloop i sub Hi)
    as (Hsub & _ & Hbefore).
  split; [exact Hsub|]. split.
  - apply exact_selects; rewrite Hc; cbn [SubCommands].
    + exists sub. split; [exact Hi|reflexivity].
    + intros j Hj (sub' & Hj' & Hname). exact (Hbefore j sub' Hj Hj' Hname).
  - unfold hasParameters in Hp. cbn [Parameters] in Hp.
    destruct params; [reflexivity|discriminate].
Qed.

Lemma Verify_subcommands_witness :
  Verify asciiLetter asciiDigit copyCommand = None /\
  selects (newParser toolCommand ["copy"]) "copy" 0 /\
  Parameters toolCommand = [].
Proof.
  apply (Verify_subcommands asciiLetter asciiDigit
           (newParser toolCommand ["copy"]) 0 copyCommand).
  - vm_compute. reflexivity.
  - reflexivity.
Defined.

(** The option [--force] of [copyCommand] is found under its alias. *)
Lemma verified_options_found_witness :
  findOption (newParser copyCommand []) "-f" = Some 1%nat.
Proof.
  apply (verified_options_found asciiLetter asciiDigit
           (newParser copyCommand []) 1 "-f").
  - vm_compute. reflexivity.
  - exists (mkOption "--force" ["-f"] "" ["-n"] []).
    split; [reflexivity|]. apply list_elem_of_further, list_elem_of_here.
Defined.

Lemma verified_name_is_option_witness :
  (isShortOption "--force" = true \/ isLongOption "--force" = true) /\
  splitOptVal "--force" = ("--force", "", true).
Proof.
  apply (verified_name_is_option asciiLetter asciiDigit "--force");
    vm_compute; reflexivity.
Defined.

End VerifiedCommands.
(** ** argv: options as they are parsed *)

Section OptionHandling.
Import Argv.
Variable OptValidate : Option -> option (string -> option string).

Abbreviation handleShort := (handleShortOption OptValidate).
Abbreviation handleLong := (handleLongOption OptValidate).

Lemma setBase_base (op : optParser) : setBase op (base op) = op.
Proof. destruct op; reflexivity. Qed.

Lemma nextValue_some (p : parser) (val : string) :
  done p = false -> argv p !! nextarg p = Some val ->
  nextValue p = (val, false, snd (next p)).
Proof.
  intros Hd Hv. unfold nextValue, next. rewrite Hd, Hv. reflexivity.
Qed.

Lemma cmd_next (p : parser) : cmd (snd (next p)) = cmd p.
Proof. unfold next. destruct (argv p !! nextarg p); reflexivity. Qed.

Lemma findOption_skipArg (op : optParser) (name : string) :
  findOption (base (skipArg op)) name = findOption (base op) name.
Proof. unfold findOption, skipArg. cbn [base setBase]. rewrite cmd_next. reflexivity. Qed.

Lemma setBase_skipArg (op : optParser) :
  setBase (skipArg op) (base (skipArg op)) = setBase op (snd (next (base op))).
Proof. reflexivity. Qed.

(** X9: a short option that takes a value is handled alike with its
    value in the next argument and with its value in the same argument:
    [-o VAL] leaves what [-oVAL] leaves, the argument [VAL] being
    consumed. *)
Theorem short_option_value_forms (op : optParser) (c : ascii)
    (val : string) (i : nat) (opt : Option) :
  c <> "-"%char ->
  findOption (base op) (String "-" (String c "")) = Some i ->
  Options (cmd (base op)) !! i = Some opt ->
  withValue OptValidate opt = true ->
  val <> "" ->
  done (base op) = false ->
  argv (base op) !! nextarg (base op) = Some val ->
  handleShort op (String "-" (String c "")) =
  handleShort (skipArg op) (String "-" (String c "") +:+ val).
Proof.
  intros Hc Hfind Hopt Hwith Hval Hdone Hnext.
  apply Ascii.eqb_neq in Hc. apply String.eqb_neq in Hval.
  unfold handleShortOption, splitOptVal, isShortOption.
  rewrite !append_cons, append_nil. rewrite Hc.
  change (Ascii.eqb "-" "-") with true. cbn [negb andb].
  cbn [Go.sliceTo Go.sliceFrom]. rewrite Hval.
  change (String.eqb "" "") with true.
  rewrite findOption_skipArg, Hfind.
  assert (Hcmd : cmd (base (skipArg op)) = cmd (base op))
    by (unfold skipArg; cbn [base setBase]; apply cmd_next).
  rewrite Hcmd, Hopt. cbn [mbind option_bind]. rewrite Hwith.
  cbn [orb andb]. rewrite (nextValue_some _ val Hdone Hnext).
  reflexivity.
Qed.

Lemma isLongOption_app (name rest : string) :
  isLongOption name = true ->
  isLongOption (name +:+ rest) = true /\ isShortOption (name +:+ rest) = false.
Proof.
  destruct name as [|c0 [|c1 [|c2 name]]]; try discriminate.
  rewrite !append_cons. cbn [isLongOption isShortOption]. intros H.
  apply andb_true_iff in H as [-> ->]. split; reflexivity.
Qed.

Lemma IndexByte_app_None (name rest : string) (c : ascii) :
  Go.IndexByte name c = None ->
  Go.IndexByte (name +:+ String c rest) c = Some (String.length name).
Proof.
  induction name as [|c' name IH];
    rewrite ?append_cons, ?append_nil; cbn [Go.IndexByte String.length].
  - intros _. rewrite Ascii.eqb_refl. reflexivity.
  - destruct (Ascii.eqb c' c); [discriminate|].
    destruct (Go.IndexByte name c); [discriminate|]. intros _.
    rewrite IH by reflexivity. reflexivity.
Qed.

Lemma sliceTo_app (name rest : string) :
  Go.sliceTo (name +:+ rest) (String.length name) = name.
Proof.
  induction name as [|c name IH];
    rewrite ?append_cons, ?append_nil; cbn [Go.sliceTo String.length];
    [reflexivity|]. rewrite IH. reflexivity.
Qed.

Lemma sliceFrom_app (name rest : string) :
  Go.sliceFrom (name +:+ rest) (String.length name) = rest.
Proof.
  induction name as [|c name IH];
    rewrite ?append_cons, ?append_nil; cbn [Go.sliceFrom String.length];
    [reflexivity|]. exact IH.
Qed.

Lemma sliceFrom_app_S (name rest : string) (c : ascii) :
  Go.sliceFrom (name +:+ String c rest) (String.length name + 1) = rest.
Proof.
  induction name as [|c' name IH];
    rewrite ?append_cons, ?append_nil;
    cbn [Go.sliceFrom String.length Nat.add]; [reflexivity|].
  exact IH.
Qed.

(** X10: a long option that takes a value is handled alike with its
    value in the next argument and with its value after an equals sign:
    [--name VAL] leaves what [--name=VAL] leaves, the argument [VAL]
    being consumed. *)
Theorem long_option_value_forms (op : optParser) (name val : string)
    (i : nat) (opt : Option) :
  isLongOption name = true ->
  Go.IndexByte name "=" = None ->
  findOption (base op) name = Some i ->
  Options (cmd (base op)) !! i = Some opt ->
  withValue OptValidate opt = true ->
  done (base op) = false ->
  argv (base op) !! nextarg (base op) = Some val ->
  handleLong op name = handleLong (skipArg op) (name +:+ "=" +:+ val).
Proof.
  intros Hlong Heq Hfind Hopt Hwith Hdone Hnext.
  destruct (isLongOption_app name ("=" +:+ val) Hlong) as [Hl2 Hs2].
  assert (Hs1 : isShortOption name = false).
  { destruct name as [|c0 [|c1 [|c2 name]]]; try discriminate.
    cbn [isLongOption isShortOption] in *.
    apply andb_true_iff in Hlong as [-> ->]. reflexivity. }
  unfold handleLongOption, splitOptVal.
  rewrite Hs1, Hlong, Heq, Hs2, Hl2.
  change ("=" +:+ val) with (String "=" val).
  rewrite (IndexByte_app_None name val "=" Heq), sliceTo_app, sliceFrom_app_S.
  rewrite findOption_skipArg, Hfind.
  assert (Hcmd : cmd (base (skipArg op)) = cmd (base op))
    by (unfold skipArg; cbn [base setBase]; apply cmd_next).
  rewrite Hcmd, Hopt. cbn [mbind option_bind]. rewrite Hwith.
  cbn [andb]. rewrite (nextValue_some _ val Hdone Hnext). reflexivity.
Qed.

(** *** Short options in one argument *)

Lemma appendOptVal_base (op op' : optParser) (i : nat) (opt : Option)
    (name value : string) (novalue : bool) :
  appendOptVal OptValidate op i opt name value novalue = Some (inr op') ->
  base op' = base op.
Proof.
  unfold appendOptVal. destruct (novalue && _); [discriminate|].
  destruct (if negb novalue then _ else _) as [[err|]|]; cbn;
    try discriminate.
  destruct (prsOptConflicts op !! name); [discriminate|].
  intros [= <-]. reflexivity.
Qed.

Lemma byte_of_byteZ (c : ascii) : byte_of (Go.byteZ c) = c.
Proof.
  unfold byte_of, Go.byteZ. pose proof (N_ascii_bounded c) as Hb.
  rewrite Z.mod_small by lia. rewrite N2Z.id. apply ascii_N_embedding.
Qed.

Lemma string_of_rune_ascii (c : ascii) :
  Go.byteZ c < 128 -> string_of_rune (Go.byteZ c) = String c "".
Proof.
  intros Hc. unfold string_of_rune.
  assert (H0 : 0 <= Go.byteZ c) by (unfold Go.byteZ; lia).
  rewrite (proj2 (Z.ltb_ge _ _) H0), (proj2 (Z.ltb_lt _ _) Hc), byte_of_byteZ.
  reflexivity.
Qed.

Lemma rangeFrom_all_ascii (s : string) : forall i,
  Forall (fun b => Go.byteZ b < 128) (list_ascii_of_string s) ->
  map snd (Go.rangeFrom i 0 s) = map Go.byteZ (list_ascii_of_string s).
Proof.
  induction s as [|b s IH]; intros i Hall; [reflexivity|].
  cbn [list_ascii_of_string] in Hall. apply Forall_cons in Hall as [Hb Hall].
  cbn [Go.rangeFrom list_ascii_of_string map].
  unfold Go.DecodeRuneInString. rewrite (proj2 (Z.ltb_lt _ _) Hb).
  cbn [map snd Nat.sub]. f_equal. apply IH. exact Hall.
Qed.

Lemma splitOptVal_short (c : ascii) :
  c <> "-"%char ->
  splitOptVal (String "-" (String c "")) = (String "-" (String c ""), "", true).
Proof.
  intros Hc. apply Ascii.eqb_neq in Hc. unfold splitOptVal, isShortOption.
  rewrite Hc. reflexivity.
Qed.

Lemma combinedOptions_each (l : list ascii) : forall op,
  Forall (isFlagChar OptValidate (base op)) l ->
  combinedOptions OptValidate op (map Go.byteZ l) =
  handleShortOptions OptValidate op
    (map (fun c => String "-" (String c "")) l).
Proof.
  induction l as [|c l IH]; intros op Hall; [reflexivity|].
  apply Forall_cons in Hall as [(Hdash & Hascii & Hflag) Hall].
  cbn [map combinedOptions handleShortOptions].
  rewrite (string_of_rune_ascii c Hascii).
  change ("-" +:+ String c "") with (String "-" (String c "")).
  unfold handleShortOption. rewrite (splitOptVal_short c Hdash).
  destruct (findOption (base op) (String "-" (String c ""))) as [j|] eqn:Hj;
    [|reflexivity].
  destruct (Options (cmd (base op)) !! j) as [opt|] eqn:Hopt; [|reflexivity].
  cbn [mbind option_bind orb]. rewrite (Hflag j opt eq_refl Hopt).
  cbn [andb]. rewrite setBase_base.
  destruct (appendOptVal OptValidate op j opt _ "" true) as [[err|op']|]
    eqn:Happ; cbn [mbind option_bind]; try reflexivity.
  apply IH. rewrite (appendOptVal_base _ _ _ _ _ _ _ Happ). exact Hall.
Qed.

(** X11: short options without value can be combined: when every
    letter of the argument is a 7-bit character other than the dash and
    none of them names an option that takes a value, [-cru] is handled
    as [-c], [-r] and [-u] are, one after the other. *)
Theorem combined_short_options (op : optParser) (s : string) :
  s <> "" ->
  Forall (isFlagChar OptValidate (base op)) (list_ascii_of_string s) ->
  handleShort op ("-" +:+ s) =
  handleShortOptions OptValidate op
    (map (fun c => String "-" (String c "")) (list_ascii_of_string s)).
Proof.
  intros Hs Hall. destruct s as [|c cs]; [congruence|].
  pose proof Hall as Hall0.
  cbn [list_ascii_of_string] in Hall. apply Forall_cons in Hall as [Hc Hcs].
  destruct Hc as (Hdash & Hascii & Hflag).
  destruct cs as [|c1 cs].
  - cbn [list_ascii_of_string map handleShortOptions].
    change ("-" +:+ String c "") with (String "-" (String c "")).
    destruct (handleShortOption OptValidate op _) as [[err|op']|];
      reflexivity.
  - rewrite <- (combinedOptions_each _ op Hall0).
    change ("-" +:+ String c (String c1 cs))
      with (String "-" (String c (String c1 cs))).
    unfold handleShortOption at 1. unfold splitOptVal, isShortOption.
    apply Ascii.eqb_neq in Hdash. rewrite Hdash.
    change (Ascii.eqb "-" "-") with true. cbn [negb andb].
    cbn [Go.sliceTo Go.sliceFrom].
    change (String.eqb (String c1 cs) "") with false.
    cbn [combinedOptions map list_ascii_of_string].
    rewrite (string_of_rune_ascii c Hascii).
    change ("-" +:+ String c "") with (String "-" (String c "")).
    destruct (findOption (base op) (String "-" (String c ""))) as [j|] eqn:Hj;
      [|reflexivity].
    destruct (Options (cmd (base op)) !! j) as [opt|] eqn:Hopt; [|reflexivity].
    cbn [mbind option_bind orb]. rewrite (Hflag j opt eq_refl Hopt).
    rewrite append_cons, append_nil.
    unfold Go.rangeString.
    rewrite (rangeFrom_all_ascii (String c (String c1 cs)) 0).
    + cbn [list_ascii_of_string map combinedOptions].
      rewrite (string_of_rune_ascii c Hascii).
      change ("-" +:+ String c "") with (String "-" (String c "")).
      rewrite Hj, Hopt. reflexivity.
    + eapply Forall_impl; [exact Hall0|]. intros b (_ & Hb & _). exact Hb.
Qed.

(** *** Options that exclude one another *)

Lemma markNames_mono (keys : list string) (name k : string) :
  forall m : gmap string string,
  is_Some (m !! k) -> is_Some (markNames m keys name !! k).
Proof.
  unfold markNames. induction keys as [|k0 keys IH]; intros m Hk; [exact Hk|].
  cbn [fold_left]. apply IH. destruct (m !! k0) eqn:Hk0; [exact Hk|].
  destruct (decide (k0 = k)) as [->|Hne].
  - rewrite lookup_insert_eq. eauto.
  - rewrite lookup_insert_ne by exact Hne. exact Hk.
Qed.

Lemma markNames_covers (keys : list string) (name k : string) :
  forall m : gmap string string,
  k ∈ keys -> is_Some (markNames m keys name !! k).
Proof.
  induction keys as [|k0 keys IH]; intros m Hk.
  - apply elem_of_nil in Hk. destruct Hk.
  - apply elem_of_cons in Hk. unfold markNames. cbn [fold_left].
    destruct Hk as [->|Hk]; [|apply IH; exact Hk].
    apply markNames_mono. destruct (m !! k0) eqn:Hk0; [eauto|].
    rewrite lookup_insert_eq. eauto.
Qed.

(** What an accepted call of [appendOptVal] tells about the conflicts
    recorded before and after it. *)
Lemma appendOptVal_conflicts (op op' : optParser) (i : nat) (opt : Option)
    (name value : string) (novalue : bool) :
  appendOptVal OptValidate op i opt name value novalue = Some (inr op') ->
  prsOptConflicts op !! name = None /\
  (forall k, k ∈ optConflicts opt -> is_Some (prsOptConflicts op' !! k)) /\
  (forall k, is_Some (prsOptConflicts op !! k) ->
             is_Some (prsOptConflicts op' !! k)).
Proof.
  unfold appendOptVal. destruct (novalue && _); [discriminate|].
  destruct (if negb novalue then _ else _) as [[err|]|]; cbn;
    try discriminate.
  destruct (prsOptConflicts op !! name) eqn:Hname; [discriminate|].
  intros [= <-]. cbn [prsOptConflicts]. split; [reflexivity|]. split.
  - intros k Hk. apply markNames_covers. exact Hk.
  - intros k Hk. apply markNames_mono. exact Hk.
Qed.

Lemma appendAll_excluded (calls : list appendCall) :
  forall op op' k,
  appendAll OptValidate op calls = Some (inr op') ->
  is_Some (prsOptConflicts op !! k) ->
  forall c, c ∈ calls -> callName c <> k.
Proof.
  induction calls as [|c0 calls IH]; intros op op' k Hrun Hk c Hc.
  - apply elem_of_nil in Hc. destruct Hc.
  - cbn [appendAll] in Hrun.
    destruct (appendOptVal OptValidate op _ _ _ _ _) as [[err|op1]|] eqn:Happ;
      cbn in Hrun; try discriminate.
    destruct (appendOptVal_conflicts _ _ _ _ _ _ _ Happ) as (Hfree & _ & Hmono).
    apply elem_of_cons in Hc. destruct Hc as [->|Hc].
    + intros Heq. rewrite Heq in Hfree. rewrite Hfree in Hk.
      destruct Hk as [? Hk]. discriminate.
    + apply (IH op1 op' k Hrun (Hmono k Hk) c Hc).
Qed.

(** X12: an option excludes the options it names as conflicting from
    the rest of the command line: when calls of [appendOptVal] made one
    after the other are all accepted, none of them is made under a name
    that the option of an earlier call lists in its [Conflicts]. *)
Theorem conflicting_option_rejected (op op' : optParser)
    (before between after : list appendCall) (first later : appendCall) :
  appendAll OptValidate op (before ++ first :: between ++ later :: after)
    = Some (inr op') ->
  callName later ∉ optConflicts (callOption first).
Proof.
  revert op. induction before as [|c0 before IH]; intros op Hrun Hin.
  - cbn [app appendAll] in Hrun.
    destruct (appendOptVal OptValidate op _ _ _ _ _) as [[err|op1]|] eqn:Happ;
      cbn in Hrun; try discriminate.
    destruct (appendOptVal_conflicts _ _ _ _ _ _ _ Happ) as (_ & Hcov & _).
    apply (appendAll_excluded _ op1 op' (callName later) Hrun (Hcov _ Hin)
             later); [|reflexivity].
    apply elem_of_app. right. apply list_elem_of_here.
  - cbn [app appendAll] in Hrun.
    destruct (appendOptVal OptValidate op _ _ _ _ _) as [[err|op1]|];
      cbn in Hrun; try discriminate.
    apply (IH op1 Hrun Hin).
Qed.

End OptionHandling.

Section OptionHandlingExamples.
Import Argv.

Lemma short_option_value_forms_witness :
  handleShortOption archiveValidate
    (skipArg (newOptParser archiveCommand ["-o"; "out.tar"])) "-o" =
  handleShortOption archiveValidate
    (skipArg (skipArg (newOptParser archiveCommand ["-o"; "out.tar"])))
    "-oout.tar".
Proof.
  apply (short_option_value_forms archiveValidate
           (skipArg (newOptParser archiveCommand ["-o"; "out.tar"]))
           "o" "out.tar" 0
           (mkOption "-o" ["--output"] "" [] [])).
  - discriminate.
  - reflexivity.
  - reflexivity.
  - reflexivity.
  - discriminate.
  - reflexivity.
  - reflexivity.
Defined.

Lemma long_option_value_forms_witness :
  handleLongOption archiveValidate
    (skipArg (newOptParser archiveCommand ["--output"; "out.tar"]))
    "--output" =
  handleLongOption archiveValidate
    (skipArg (skipArg (newOptParser archiveCommand ["--output"; "out.tar"])))
    "--output=out.tar".
Proof.
  apply (long_option_value_forms archiveValidate
           (skipArg (newOptParser archiveCommand ["--output"; "out.tar"]))
           "--output" "out.tar" 0
           (mkOption "-o" ["--output"] "" [] [])); reflexivity.
Defined.

Lemma combined_short_options_witness :
  handleShortOption archiveValidate
    (skipArg (newOptParser archiveCommand ["-vx"])) "-vx" =
  handleShortOptions archiveValidate
    (skipArg (newOptParser archiveCommand ["-vx"])) ["-v"; "-x"].
Proof.
  apply (combined_short_options archiveValidate
           (skipArg (newOptParser archiveCommand ["-vx"])) "vx").
  - discriminate.
  - repeat constructor; try discriminate; try (vm_compute; reflexivity);
      intros j opt Hj Hopt; vm_compute in Hj; injection Hj as <-;
      vm_compute in Hopt; injection Hopt as <-; reflexivity.
Defined.

Lemma conflicting_option_rejected_witness :
  "-v" ∉ ["-c"; "--create"].
Proof.
  eapply (conflicting_option_rejected archiveValidate
            (newOptParser archiveCommand ["-x"; "-v"]) _ [] [] []
            (mkAppendCall 2 (mkOption "-x" ["--extract"] ""
                               ["-c"; "--create"] []) "-x" "" true)
            (mkAppendCall 1 (mkOption "-v" ["--verbose"] "" [] [])
               "-v" "" true)).
  vm_compute. reflexivity.
Defined.

End OptionHandlingExamples.

(** ** abstract: what a valid request can rely on *)

Section GatherFacts.
Import Abstract.

Lemma Bitset_Contains_Union (a b : Bitset) (v : Z) :
  Bitset_Contains (Bitset_Union a b) v =
  Bitset_Contains a v || Bitset_Contains b v.
Proof.
  unfold Bitset_Contains, Bitset_Union. rewrite Z.land_lor_distr_l.
  destruct (Z.eqb_spec (Z.land a (Z.shiftl 1 v)) 0) as [Ha|Ha];
    destruct (Z.eqb_spec (Z.land b (Z.shiftl 1 v)) 0) as [Hb|Hb];
    destruct (Z.eqb_spec (Z.lor (Z.land a (Z.shiftl 1 v))
                            (Z.land b (Z.shiftl 1 v))) 0) as [Hab|Hab];
    try reflexivity; exfalso.
  - apply Hab. rewrite Ha, Hb. reflexivity.
  - apply Z.lor_eq_0_iff in Hab. tauto.
  - apply Z.lor_eq_0_iff in Hab. tauto.
  - apply Z.lor_eq_0_iff in Hab. tauto.
Qed.

(** One of the four sets that [gather] fills from the profiles: [sel]
    is the set and [field] the field of a profile it is the union of. *)
Variable field : SettingsProfile -> Bitset.
Variable sel : gathered -> Bitset.
Hypothesis sel_profile : forall g prof,
  sel (gatherProfile g prof) = Bitset_Union (sel g) (field prof).
Hypothesis sel_intents : forall g x,
  sel (mkGathered (inputs g) (adfmodes g) x (colorModes g) (depths g)
         (binrend g) (ccdChannels g)) = sel g.

Lemma gatherProfiles_Contains (profs : list SettingsProfile) (v : Z) :
  forall g,
  Bitset_Contains (sel (fold_left gatherProfile profs g)) v = true <->
  Bitset_Contains (sel g) v = true \/
  exists prof, prof ∈ profs /\ Bitset_Contains (field prof) v = true.
Proof.
  induction profs as [|prof profs IH]; intros g; cbn [fold_left].
  - split; [auto|]. intros [H|(p & Hp & _)]; [exact H|inversion Hp].
  - rewrite IH, sel_profile, Bitset_Contains_Union, orb_true_iff. split.
    + intros [[H|H]|(p & Hp & H)].
      * left. exact H.
      * right. exists prof. split; [apply list_elem_of_here|exact H].
      * right. exists p. split; [apply list_elem_of_further; exact Hp|exact H].
    + intros [H|(p & Hp & H)]; [left; left; exact H|].
      apply elem_of_cons in Hp as [->|Hp].
      * left. right. exact H.
      * right. exists p. split; assumption.
Qed.

Lemma gatherInputs_Contains (l : list (option InputCapabilities)) (v : Z) :
  forall g,
  Bitset_Contains (sel (fold_left gatherInput l g)) v = true <->
  Bitset_Contains (sel g) v = true \/
  exists inpcaps prof,
    inpcaps ∈ omap id l /\ prof ∈ Profiles inpcaps /\
    Bitset_Contains (field prof) v = true.
Proof.
  induction l as [|[ic|] l IH]; intros g; cbn [fold_left].
  - split; [auto|]. intros [H|(ic & p & Hic & _)]; [exact H|inversion Hic].
  - rewrite IH. cbn [gatherInput omap id].
    rewrite gatherProfiles_Contains, sel_intents. split.
    + intros [[H|(p & Hp & H)]|(ic' & p & Hic & Hp & H)].
      * left. exact H.
      * right. exists ic, p. split; [apply list_elem_of_here|]. split; assumption.
      * right. exists ic', p.
        split; [apply list_elem_of_further; exact Hic|]. split; assumption.
    + intros [H|(ic' & p & Hic & Hp & H)]; [left; left; exact H|].
      apply elem_of_cons in Hic as [->|Hic].
      * left. right. exists p. split; assumption.
      * right. exists ic', p. split; [exact Hic|]. split; assumption.
  - rewrite IH. cbn [gatherInput omap id]. reflexivity.
Qed.

End GatherFacts.

Section ValidateSupport.
Import Abstract.

Context {Range : Type}.
Variable validate : Range -> string -> option Z -> error.

Lemma gather_inputs_const (l : list (option InputCapabilities)) : forall g,
  inputs (fold_left gatherInput l g) = inputs g /\
  adfmodes (fold_left gatherInput l g) = adfmodes g.
Proof.
  assert (Hp : forall profs g,
             inputs (fold_left gatherProfile profs g) = inputs g /\
             adfmodes (fold_left gatherProfile profs g) = adfmodes g).
  { induction profs as [|p profs IH]; intros g; [split; reflexivity|].
    cbn [fold_left]. destruct (IH (gatherProfile g p)) as [-> ->].
    split; reflexivity. }
  induction l as [|[ic|] l IH]; intros g; cbn [fold_left].
  - split; reflexivity.
  - destruct (IH (gatherInput g (Some ic))) as [-> ->]. cbn [gatherInput].
    destruct (Hp (Profiles ic)
                (mkGathered (inputs g) (adfmodes g)
                   (Bitset_Union (intents g) (Intents ic)) (colorModes g)
                   (depths g) (binrend g) (ccdChannels g))) as [-> ->].
    split; reflexivity.
  - exact (IH g).
Qed.

Lemma gather_Contains (scancaps : ScannerCapabilities Range)
    (field : SettingsProfile -> Bitset) (sel : gathered -> Bitset) (v : Z) :
  (forall g prof,
     sel (gatherProfile g prof) = Bitset_Union (sel g) (field prof)) ->
  (forall g x,
     sel (mkGathered (inputs g) (adfmodes g) x (colorModes g) (depths g)
            (binrend g) (ccdChannels g)) = sel g) ->
  (forall i a, sel (mkGathered i a Bitset_empty Bitset_empty Bitset_empty
                      Bitset_empty Bitset_empty) = Bitset_empty) ->
  Bitset_Contains (sel (gather scancaps)) v = true <->
  someProfile scancaps field v.
Proof.
  intros H1 H2 H3. unfold gather, someProfile, inputsOf.
  rewrite (gatherInputs_Contains field sel H1 H2), H3. split.
  - intros [H|H]; [discriminate|exact H].
  - intros H. right. exact H.
Qed.

Lemma checkEnum_None (name : string) (v unset max : Z) (set : Bitset) :
  checkEnum name v unset max set = None ->
  v = unset \/ (0 <= v < max /\ Bitset_Contains set v = true).
Proof.
  unfold checkEnum. destruct (Z.eqb_spec v unset) as [->|Hne]; [auto|].
  destruct (Z.ltb_spec v 0); [discriminate|].
  destruct (Z.leb_spec max v); [discriminate|]. cbn [orb].
  destruct (Bitset_Contains set v); [|discriminate]. intros _. right.
  split; [lia|reflexivity].
Qed.

(** X13: a request that [Validate] accepts asks for nothing the scanner
    lacks.  If it names an input, the scanner has that input, and with
    the ADF an ADF mode it names is one the scanner has; and the color
    mode, the CCD channel, the depth (looked at for the modes Mono and
    Color) and the binary rendering (looked at for the mode Binary) it
    names are each found in some profile of some input of the scanner,
    which need not be the input the request names. *)
Theorem Validate_supported (req : ScannerRequest)
    (scancaps : ScannerCapabilities Range) :
  Validate validate req scancaps = None ->
  (Input req = InputPlaten -> Platen scancaps <> None) /\
  (Input req = InputADF ->
   (ADFSimplex scancaps <> None \/ ADFDuplex scancaps <> None) /\
   (ADFMode req = ADFModeSimplex -> ADFSimplex scancaps <> None) /\
   (ADFMode req = ADFModeDuplex -> ADFDuplex scancaps <> None)) /\
  (ColorMode req <> ColorModeUnset ->
   someProfile scancaps ColorModes (ColorMode req)) /\
  (CCDChannel req <> CCDChannelUnset ->
   someProfile scancaps CCDChannels (CCDChannel req)) /\
  (ColorMode req = ColorModeMono \/ ColorMode req = ColorModeColor ->
   Depth req <> DepthUnset -> someProfile scancaps Depths (Depth req)) /\
  (ColorMode req = ColorModeBinary ->
   BinaryRendering req <> BinaryRenderingUnset ->
   someProfile scancaps BinaryRenderings (BinaryRendering req)).
Proof.
  unfold Validate. intros H.
  repeat match type of H with
         | orElse ?e _ = None =>
             let E := fresh "E" in
             destruct e eqn:E; [discriminate|cbn [orElse] in H]
         end.
  clear H.
  assert (Hin : inputs (gather scancaps) =
                (let inputs0 :=
                   if notNil (Platen scancaps)
                   then Bitset_Add Bitset_empty InputPlaten
                   else Bitset_empty in
                 if notNil (ADFSimplex scancaps) || notNil (ADFDuplex scancaps)
                 then Bitset_Add inputs0 InputADF else inputs0) /\
                adfmodes (gather scancaps) =
                (let adf0 :=
                   if notNil (ADFSimplex scancaps)
                   then Bitset_Add Bitset_empty ADFModeSimplex
                   else Bitset_empty in
                 if notNil (ADFDuplex scancaps)
                 then Bitset_Add adf0 ADFModeDuplex else adf0)).
  { unfold gather.
    destruct (gather_inputs_const
                [Platen scancaps; ADFSimplex scancaps; ADFDuplex scancaps]
                (mkGathered
                   (let inputs0 :=
                      if notNil (Platen scancaps)
                      then Bitset_Add Bitset_empty InputPlaten
                      else Bitset_empty in
                    if notNil (ADFSimplex scancaps)
                       || notNil (ADFDuplex scancaps)
                    then Bitset_Add inputs0 InputADF else inputs0)
                   (let adf0 :=
                      if notNil (ADFSimplex scancaps)
                      then Bitset_Add Bitset_empty ADFModeSimplex
                      else Bitset_empty in
                    if notNil (ADFDuplex scancaps)
                    then Bitset_Add adf0 ADFModeDuplex else adf0)
                   Bitset_empty Bitset_empty Bitset_empty Bitset_empty
                   Bitset_empty)) as [H1 H2].
    split; assumption. }
  destruct Hin as [Hinputs Hadf].
  apply checkEnum_None in E. rewrite Hinputs in E.
  split; [|split; [|split; [|split; [|split]]]].
  - intros Hp. rewrite Hp in E. destruct E as [E|[_ E]]; [discriminate|].
    destruct (Platen scancaps); [discriminate|].
    destruct (ADFSimplex scancaps), (ADFDuplex scancaps); discriminate.
  - intros Ha. rewrite Ha in E, E0. cbn [Z.eqb negb] in E0.
    change (InputADF =? InputADF) with true in E0. cbn [negb] in E0.
    apply checkEnum_None in E0. rewrite Hadf in E0.
    destruct E as [E|[_ E]]; [discriminate|].
    split; [|split].
    + destruct (ADFSimplex scancaps); [left; discriminate|].
      destruct (ADFDuplex scancaps); [right; discriminate|].
      destruct (Platen scancaps); discriminate.
    + intros Hs. rewrite Hs in E0. destruct E0 as [E0|[_ E0]]; [discriminate|].
      destruct (ADFSimplex scancaps); [discriminate|].
      destruct (ADFDuplex scancaps); discriminate.
    + intros Hd. rewrite Hd in E0. destruct E0 as [E0|[_ E0]]; [discriminate|].
      destruct (ADFDuplex scancaps); [discriminate|].
      destruct (ADFSimplex scancaps); discriminate.
  - intros Hne. apply checkEnum_None in E1 as [E1|[_ E1]]; [congruence|].
    apply (gather_Contains scancaps ColorModes colorModes); try reflexivity.
    exact E1.
  - intros Hne. apply checkEnum_None in E3 as [E3|[_ E3]]; [congruence|].
    apply (gather_Contains scancaps CCDChannels ccdChannels); try reflexivity.
    exact E3.
  - intros Hmode Hne.
    assert (Hd : checkEnum "Depth" (Depth req) DepthUnset depthMax
                   (depths (gather scancaps)) = None).
    { destruct Hmode as [Hm|Hm]; rewrite Hm in E2; exact E2. }
    apply checkEnum_None in Hd as [Hd|[_ Hd]]; [congruence|].
    apply (gather_Contains scancaps Depths depths); try reflexivity.
    exact Hd.
  - intros Hmode Hne. rewrite Hmode in E2.
    change (ColorModeBinary =? ColorModeBinary) with true in E2. cbn iota in E2.
    destruct (checkEnum "BinaryRendering" (BinaryRendering req)
                BinaryRenderingUnset binaryRenderingMax
                (binrend (gather scancaps))) eqn:Hb; [discriminate|].
    apply checkEnum_None in Hb as [Hb|[_ Hb]]; [congruence|].
    apply (gather_Contains scancaps BinaryRenderings binrend);
      try reflexivity.
    exact Hb.
Qed.

End ValidateSupport.

Section ValidateSupportExamples.
Import Abstract.

Lemma Validate_supported_witness :
  Validate Range_validate colorRequest colorPlaten = None /\
  Platen colorPlaten <> None /\
  someProfile colorPlaten Depths Depth8.
Proof.
  pose proof (Validate_supported Range_validate colorRequest colorPlaten
                eq_refl) as (H1 & _ & _ & _ & H5 & _).
  split; [reflexivity|]. split; [apply H1; reflexivity|].
  apply H5; [right; reflexivity|discriminate].
Defined.

End ValidateSupportExamples.

(** ** wsdd: how long the scheduler runs *)

Section SchedRuns.
Import Wsdd.

Lemma proc_iter (resolve : bool) (w : world) (n : nat) :
  proc resolve w n = Nat.iter n (procStep resolve w) procInit.
Proof. induction n as [|n IH]; [reflexivity|]. simpl. rewrite IH. reflexivity. Qed.

Lemma proc_add (resolve : bool) (w : world) (n m : nat) :
  proc resolve w (n + m) = Nat.iter n (procStep resolve w) (proc resolve w m).
Proof. rewrite !proc_iter. apply Nat.iter_add. Qed.

Lemma step_new (resolve : bool) (w : world) fc tx0 ns nr nc sn ps :
  (fc < schedFastSeriesLen)%nat ->
  procStep resolve w (mkProc pcFast fc tx0 ns nr nc sn ps) =
  mkProc pcRetransmit fc 0 ns nr nc (sn ++ [schedNewMessage]) ps.
Proof.
  intros H. unfold procStep. cbn [at_pc fastCnt tx nsleep nrnd nclock sent
    pauses]. rewrite (proj2 (Nat.ltb_lt _ _) H). reflexivity.
Qed.

Lemma step_send (resolve : bool) (w : world) fc tx0 ns nr nc sn ps :
  (tx0 < schedRetransmitSeriesLen)%nat -> sleepOk w ns = true ->
  procStep resolve w (mkProc pcRetransmit fc tx0 ns nr nc sn ps) =
  mkProc pcRetransmit fc (S tx0) (S ns) (S nr) nc (sn ++ [schedSend])
    (ps ++ [UintRange w nr schedRetransmitDelayMin schedRetransmitDelayMax]).
Proof.
  intros H Hs. unfold procStep. cbn [at_pc fastCnt tx nsleep nrnd nclock sent
    pauses]. rewrite (proj2 (Nat.ltb_lt _ _) H), Hs. reflexivity.
Qed.

Lemma step_series_end (resolve : bool) (w : world) fc ns nr nc sn ps :
  procStep resolve w
    (mkProc pcRetransmit fc schedRetransmitSeriesLen ns nr nc sn ps) =
  mkProc pcFastDelay fc schedRetransmitSeriesLen ns nr nc sn ps.
Proof. reflexivity. Qed.

(** One retransmit series, from the test of the fast series loop to the
    pause after the series: six steps. *)
Lemma series_steps (resolve : bool) (w : world) fc tx0 ns nr nc sn ps :
  neverCancelled w ->
  (fc < schedFastSeriesLen)%nat ->
  Nat.iter 6 (procStep resolve w) (mkProc pcFast fc tx0 ns nr nc sn ps) =
  mkProc pcFastDelay fc 4 (ns + 4) (nr + 4) nc
    (sn ++ series schedRetransmitSeriesLen)
    (ps ++ retransmitPauses w nr).
Proof.
  intros Hw Hcnt. cbn [Nat.iter nat_rect].
  rewrite step_new by exact Hcnt.
  rewrite !step_send by (try apply Hw; unfold schedRetransmitSeriesLen; lia).
  rewrite step_series_end.
  unfold series, retransmitPauses, schedRetransmitSeriesLen.
  cbn [repeat map seq]. rewrite <- !app_assoc. cbn [app].
  rewrite !Nat.add_0_r.
  replace (S (S (S (S ns)))) with (ns + 4)%nat by lia.
  replace (S (S (S (S nr)))) with (nr + 4)%nat by lia.
  replace (S nr) with (nr + 1)%nat by lia.
  replace (S (nr + 1)) with (nr + 2)%nat by lia.
  replace (S (nr + 2)) with (nr + 3)%nat by lia.
  reflexivity.
Qed.

(** *** Resolving *)

Lemma resolve_series (w : world) (K : nat) :
  neverCancelled w ->
  (forall k, (k < K)%nat -> elapsed w k < schedResolveMaxTime) ->
  forall j, (j <= K)%nat ->
  exists tx0 ps,
    proc true w (7 * j) =
    mkProc pcFast 0 tx0 (5 * j) (4 * j) j (fullSeries j) ps.
Proof.
  intros Hw Hearly. induction j as [|j IH]; intros Hj.
  - exists 0%nat, []. reflexivity.
  - destruct IH as (tx0 & ps & IH); [lia|].
    replace (7 * S j)%nat with (1 + (6 + 7 * j))%nat by lia.
    rewrite proc_add, proc_add, IH.
    rewrite series_steps by (try exact Hw; unfold schedFastSeriesLen; lia).
    cbn [Nat.iter nat_rect]. unfold procStep.
    cbn [at_pc fastCnt tx nsleep nrnd nclock sent pauses].
    rewrite Hw. unfold resolveTimedOut. cbn [negb].
    rewrite (proj2 (Z.leb_gt _ _)) by (apply Hearly; lia).
    rewrite fullSeries_snoc. eexists _, _. f_equal; lia.
Qed.

(** X14: when it resolves, the scheduler stops by itself.  If the timer
    is never cancelled and the clock, read after every series, first
    shows the resolve time at its [K]-th reading (counted from 0), then
    the scheduler returns after [K + 1] steps of seven, it has sent
    exactly [K + 1] complete series by then, and it sends nothing
    afterwards. *)
Theorem resolve_terminates (w : world) (K : nat) :
  neverCancelled w ->
  (forall k, (k < K)%nat -> elapsed w k < schedResolveMaxTime) ->
  schedResolveMaxTime <= elapsed w K ->
  at_pc (proc true w (7 * (K + 1))) = pcReturned /\
  sent (proc true w (7 * (K + 1))) = fullSeries (K + 1) /\
  forall n, (7 * (K + 1) <= n)%nat ->
            proc true w n = proc true w (7 * (K + 1)).
Proof.
  intros Hw Hearly Hlate.
  destruct (resolve_series w K Hw Hearly K (le_n K)) as (tx0 & ps & HK).
  assert (Hend : exists fc tx1 ns nr nc ps',
             proc true w (7 * (K + 1)) =
             mkProc pcReturned fc tx1 ns nr nc (fullSeries (K + 1)) ps').
  { replace (7 * (K + 1))%nat with (1 + (6 + 7 * K))%nat by lia.
    rewrite proc_add, proc_add, HK.
    rewrite series_steps by (try exact Hw; unfold schedFastSeriesLen; lia).
    cbn [Nat.iter nat_rect]. unfold procStep.
    cbn [at_pc fastCnt tx nsleep nrnd nclock sent pauses].
    rewrite Hw. unfold resolveTimedOut. cbn [negb].
    rewrite (proj2 (Z.leb_le _ _)) by exact Hlate.
    rewrite fullSeries_snoc. replace (S K) with (K + 1)%nat by lia.
    eexists _, _, _, _, _, _. reflexivity. }
  destruct Hend as (fc & tx1 & ns & nr & nc & ps' & Hend).
  rewrite Hend. split; [reflexivity|]. split; [reflexivity|].
  intros n Hn. replace n with ((n - 7 * (K + 1)) + 7 * (K + 1))%nat by lia.
  rewrite proc_add, Hend.
  induction (n - 7 * (K + 1))%nat as [|m IH]; [reflexivity|].
  rewrite Nat.iter_succ, IH. reflexivity.
Qed.

(** With the clock of [steadyWorld] the resolve time is reached at the
    third reading. *)
Lemma resolve_terminates_witness :
  at_pc (proc true steadyWorld 21) = pcReturned /\
  sent (proc true steadyWorld 21) = fullSeries 3 /\
  proc true steadyWorld 40 = proc true steadyWorld 21.
Proof.
  destruct (resolve_terminates steadyWorld 2) as (H1 & H2 & H3).
  - intros k. reflexivity.
  - intros k Hk. unfold steadyWorld, schedResolveMaxTime. cbn [elapsed]. lia.
  - vm_compute. congruence.
  - split; [exact H1|]. split; [exact H2|]. apply H3. simpl. lia.
Defined.

(** *** Browsing *)

Lemma browse_running (w : world) :
  neverCancelled w ->
  forall n, at_pc (proc false w n) <> pcReturned.
Proof.
  intros Hw. induction n as [|n IH]; [discriminate|].
  cbn [proc]. destruct (proc false w n) as [pc0 fc tx0 ns nr nc sn ps].
  cbn [at_pc] in IH. unfold procStep.
  cbn [at_pc fastCnt tx nsleep nrnd nclock sent pauses].
  destruct pc0; try congruence.
  - destruct (fc <? schedFastSeriesLen)%nat; discriminate.
  - destruct (tx0 <? schedRetransmitSeriesLen)%nat; [|discriminate].
    rewrite Hw. discriminate.
  - rewrite Hw. discriminate.
  - rewrite Hw. discriminate.
Qed.

Lemma step_fast_delay_browse (w : world) fc tx0 ns nr nc sn ps :
  sleepOk w ns = true ->
  procStep false w (mkProc pcFastDelay fc tx0 ns nr nc sn ps) =
  mkProc pcFast (S fc) tx0 (S ns) nr nc sn (ps ++ [schedFastSeriesDelay]).
Proof.
  intros Hs. unfold procStep.
  cbn [at_pc fastCnt tx nsleep nrnd nclock sent pauses]. rewrite Hs.
  reflexivity.
Qed.

Lemma step_fast_end (resolve : bool) (w : world) fc tx0 ns nr nc sn ps :
  (schedFastSeriesLen <= fc)%nat ->
  procStep resolve w (mkProc pcFast fc tx0 ns nr nc sn ps) =
  mkProc pcInterDelay fc tx0 ns nr nc sn ps.
Proof.
  intros H. unfold procStep.
  cbn [at_pc fastCnt tx nsleep nrnd nclock sent pauses].
  rewrite (proj2 (Nat.ltb_ge _ _) H). reflexivity.
Qed.

Lemma step_inter_delay (resolve : bool) (w : world) fc tx0 ns nr nc sn ps :
  sleepOk w ns = true ->
  procStep resolve w (mkProc pcInterDelay fc tx0 ns nr nc sn ps) =
  mkProc pcFast 0 tx0 (S ns) nr nc sn (ps ++ [schedInterSeriesDelay]).
Proof.
  intros Hs. unfold procStep.
  cbn [at_pc fastCnt tx nsleep nrnd nclock sent pauses]. rewrite Hs.
  reflexivity.
Qed.

Lemma iter_1 {A : Type} (f : A -> A) (x : A) : Nat.iter 1 f x = f x.
Proof. reflexivity. Qed.

Lemma iter_3 {A : Type} (f : A -> A) (x : A) : Nat.iter 3 f x = f (f (f x)).
Proof. reflexivity. Qed.

(** One cycle of the scheduler when it browses: sixteen steps. *)
Lemma cycle_steps (w : world) tx0 ns nr nc sn ps :
  neverCancelled w ->
  Nat.iter (3 + (6 + (1 + 6))) (procStep false w)
    (mkProc pcFast 0 tx0 ns nr nc sn ps) =
  mkProc pcFast 0 4 (ns + 11) (nr + 8) nc
    (sn ++ series schedRetransmitSeriesLen ++ series schedRetransmitSeriesLen)
    (ps ++ retransmitPauses w nr ++ [schedFastSeriesDelay]
        ++ retransmitPauses w (nr + 4)
        ++ [schedFastSeriesDelay; schedInterSeriesDelay]).
Proof.
  intros Hw.
  assert (H02 : (0 < schedFastSeriesLen)%nat)
    by (unfold schedFastSeriesLen; lia).
  assert (H12 : (1 < schedFastSeriesLen)%nat)
    by (unfold schedFastSeriesLen; lia).
  assert (H22 : (schedFastSeriesLen <= 2)%nat)
    by (unfold schedFastSeriesLen; lia).
  rewrite (Nat.iter_add 3 (6 + (1 + 6))), (Nat.iter_add 6 (1 + 6)),
    (Nat.iter_add 1 6).
  rewrite (series_steps false w 0 tx0 ns nr nc sn ps Hw H02).
  rewrite iter_1, iter_3.
  rewrite (step_fast_delay_browse w 0 4 (ns + 4) (nr + 4) nc _ _ (Hw _)).
  rewrite (series_steps false w 1 4 _ _ nc _ _ Hw H12).
  rewrite (step_fast_delay_browse w 1 4 _ _ nc _ _ (Hw _)).
  rewrite (step_fast_end false w 2 4 _ _ nc _ _ H22).
  rewrite (step_inter_delay false w 2 4 _ _ nc _ _ (Hw _)).
  rewrite <- !app_assoc. cbn [app].
  f_equal; lia.
Qed.

Lemma browse_cycle (w : world) :
  neverCancelled w ->
  forall c,
  exists tx0,
    proc false w (16 * c) =
    mkProc pcFast 0 tx0 (11 * c) (8 * c) 0 (fullSeries (2 * c))
      (browsePauses w c).
Proof.
  intros Hw. induction c as [|c IH].
  - exists 0%nat. reflexivity.
  - destruct IH as (tx0 & IH).
    replace (16 * S c)%nat with (3 + (6 + (1 + 6)) + 16 * c)%nat by lia.
    rewrite (proc_add false w (3 + (6 + (1 + 6))) (16 * c)), IH,
      (cycle_steps w _ _ _ _ _ _ Hw).
    exists 4%nat. f_equal; try lia.
    replace (2 * S c)%nat with (S (S (2 * c))) by lia.
    rewrite <- !fullSeries_snoc, <- !app_assoc. reflexivity.
Qed.

(** X15: when it browses, the scheduler goes on for as long as the timer
    is not cancelled: it never returns, and its every cycle is two
    series of a new message and its sends, with a pause drawn at random
    after each send, the fast series delay after each series and the
    delay between series after the second. *)
Theorem browse_forever (w : world) :
  neverCancelled w ->
  (forall n, at_pc (proc false w n) <> pcReturned) /\
  (forall c, sent (proc false w (16 * c)) = fullSeries (2 * c) /\
             pauses (proc false w (16 * c)) = browsePauses w c).
Proof.
  intros Hw. split; [exact (browse_running w Hw)|].
  intros c. destruct (browse_cycle w Hw c) as (tx0 & ->). split; reflexivity.
Qed.

Lemma browse_forever_witness :
  at_pc (proc false steadyWorld 100) <> pcReturned /\
  sent (proc false steadyWorld 16) = fullSeries 2.
Proof.
  destruct (browse_forever steadyWorld) as [H1 H2].
  - intros k. reflexivity.
  - split; [apply H1|]. exact (proj1 (H2 1%nat)).
Defined.

End SchedRuns.
(** ** transport: the accept loop of the auto-TLS listener *)

Section AcceptFacts.
Import Transport.

(** [acceptWait] with no other goroutine at work, on an open listener. *)
Lemma acceptWait_quiet (atl : autoTLSListener) (c : Conn) :
  closed atl = false ->
  exists atl',
    acceptWait atl (inl c) Quiet Quiet Quiet = (atl', None) /\
    haveAccepter atl' = haveAccepter atl /\
    closed atl' = false /\
    closedConns atl' = closedConns atl /\
    connections (queueOf (withTLS c) atl') =
      connections (queueOf (withTLS c) atl) ++ [c] /\
    queueOf (negb (withTLS c)) atl' = queueOf (negb (withTLS c)) atl.
Proof.
  intros Hopen. unfold acceptWait, meanwhile. rewrite Hopen. cbn [negb].
  destruct (detectTLS_withTLS c) as [calls ->].
  pose proof (pending_roundtrip atl c) as (H1 & H2 & H3 & H4).
  cbv zeta in H1, H2, H3, H4.
  assert (H0 : haveAccepter (deletePending (addPending atl c) c)
               = haveAccepter atl).
  { unfold addPending. destruct (bool_decide _); reflexivity. }
  rewrite H1, Hopen.
  destruct (withTLS c); eexists; (split; [reflexivity|]);
    cbn [queueOf negb setEncrypted setPlain haveAccepter closed closedConns
         plain encrypted push connections];
    rewrite ?H0, ?H1, ?H2, ?H3, ?H4; auto.
Qed.

Lemma pull_empty (q : autoTLSListenerQueue) :
  connections q = [] -> pull q = (None, q).
Proof. intros H. unfold pull. rewrite H. reflexivity. Qed.

Lemma queueOf_setHaveAccepter (enc b : bool) (atl : autoTLSListener) :
  queueOf enc (setHaveAccepter atl b) = queueOf enc atl.
Proof. destruct enc; reflexivity. Qed.

(** The turn of [accept] that takes a connection of the other kind from
    the parent listener. *)
Lemma accept_skips (enc : bool) (atl : autoTLSListener) (c : Conn)
    (rest : list arrival) :
  closed atl = false -> haveAccepter atl = false ->
  connections (queueOf enc atl) = [] ->
  withTLS c = negb enc ->
  exists atl1,
    accept enc atl (quietly c :: rest) = accept enc atl1 rest /\
    closed atl1 = false /\ haveAccepter atl1 = false /\
    connections (queueOf enc atl1) = [] /\
    connections (queueOf (negb enc) atl1) =
      connections (queueOf (negb enc) atl) ++ [c] /\
    closedConns atl1 = closedConns atl.
Proof.
  intros Hopen Hacc Hq Hkind.
  destruct (acceptWait_quiet (setHaveAccepter atl true) c Hopen)
    as (atl' & Hwait & H1 & H2 & H3 & H4 & H5).
  rewrite Hkind, negb_involutive, !queueOf_setHaveAccepter in *.
  exists (setHaveAccepter atl' false).
  cbn [accept]. rewrite (pull_empty _ Hq), Hacc.
  cbn [quietly accepted before1 before2 before3]. rewrite Hwait.
  split; [reflexivity|].
  rewrite !queueOf_setHaveAccepter, H5, Hq.
  repeat split; assumption.
Qed.

(** X16: [accept] hands out the first connection of the kind asked for
    and keeps the connections of the other kind that arrived before it
    for the other child listener, in the order of their arrival; none of
    them is closed, and the arrivals after it are not touched. *)
Theorem accept_demultiplexes (enc : bool) (atl : autoTLSListener)
    (skipped : list Conn) (c : Conn) (rest : list arrival) :
  closed atl = false -> haveAccepter atl = false ->
  connections (queueOf enc atl) = [] ->
  Forall (fun c' => withTLS c' = negb enc) skipped ->
  withTLS c = enc ->
  exists atl',
    accept enc atl (map quietly skipped ++ quietly c :: rest)
      = (atl', Some (inl c), rest) /\
    connections (queueOf enc atl') = [] /\
    connections (queueOf (negb enc) atl') =
      connections (queueOf (negb enc) atl) ++ skipped /\
    closedConns atl' = closedConns atl /\
    closed atl' = false.
Proof.
  intros Hopen Hacc Hq Hskipped Hkind. revert atl Hopen Hacc Hq.
  induction Hskipped as [|c' skipped Hc' _ IH]; intros atl Hopen Hacc Hq.
  - destruct (acceptWait_quiet (setHaveAccepter atl true) c Hopen)
      as (atl1 & Hwait & H1 & H2 & H3 & H4 & H5).
    rewrite Hkind, !queueOf_setHaveAccepter in *. rewrite Hq in H4.
    cbn [map app accept]. rewrite (pull_empty _ Hq), Hacc.
    cbn [quietly accepted before1 before2 before3]. rewrite Hwait.
    destruct rest as [|a rest];
      cbn [accept]; rewrite queueOf_setHaveAccepter; unfold pull;
      rewrite H4; cbn [app];
      (eexists; split; [reflexivity|]);
      destruct enc;
      cbn [queueOf setQueueOf setEncrypted setPlain setHaveAccepter connections
           plain encrypted closedConns closed negb] in *;
      rewrite ?app_nil_r, ?H5; auto.
  - destruct (accept_skips enc atl c' (map quietly skipped ++ quietly c :: rest)
                Hopen Hacc Hq Hc')
      as (atl1 & Hstep & H1 & H2 & H3 & H4 & H5).
    destruct (IH atl1 H1 H2 H3) as (atl' & Hrun & G1 & G2 & G3 & G4).
    exists atl'. cbn [map app]. rewrite Hstep, Hrun.
    split; [reflexivity|]. split; [assumption|].
    rewrite G2, H4, G3, H5, <- app_assoc. auto.
Qed.

Lemma accept_demultiplexes_witness :
  exists atl',
    accept true NewAutoTLSListener
      (map quietly [httpConn; wrappedTLSConn] ++ quietly tlsConn :: [])
      = (atl', Some (inl tlsConn), []) /\
    connections (queueOf true atl') = [] /\
    connections (queueOf (negb true) atl') =
      connections (queueOf (negb true) NewAutoTLSListener)
        ++ [httpConn; wrappedTLSConn] /\
    closedConns atl' = closedConns NewAutoTLSListener /\
    closed atl' = false.
Proof.
  apply (accept_demultiplexes true NewAutoTLSListener
           [httpConn; wrappedTLSConn] tlsConn []).
  - reflexivity.
  - reflexivity.
  - reflexivity.
  - repeat constructor.
  - reflexivity.
Defined.

(** *** No connection is lost *)

Lemma kept_close (atl : autoTLSListener) (c : Conn) :
  kept atl c -> kept (close atl) c.
Proof.
  unfold kept, close. cbn [plain encrypted closedConns connections].
  rewrite !elem_of_app. tauto.
Qed.

Lemma kept_meanwhile (o : others) (atl : autoTLSListener) (c : Conn) :
  kept atl c -> kept (meanwhile o atl) c.
Proof. destruct o; [auto | apply kept_close]. Qed.

Lemma kept_closeConn (atl : autoTLSListener) (c c0 : Conn) :
  kept atl c -> kept (closeConn atl c0) c.
Proof.
  unfold kept, closeConn. cbn [plain encrypted closedConns].
  rewrite elem_of_app. tauto.
Qed.

Lemma kept_closeConn_self (atl : autoTLSListener) (c : Conn) :
  kept (closeConn atl c) c.
Proof.
  unfold kept, closeConn. cbn [closedConns]. rewrite elem_of_app, list_elem_of_singleton.
  auto.
Qed.

Lemma kept_setPending (atl : autoTLSListener) (p : list Conn) (c : Conn) :
  kept atl c -> kept (setPending atl p) c.
Proof. auto. Qed.

Lemma kept_addPending (atl : autoTLSListener) (c0 c : Conn) :
  kept atl c -> kept (addPending atl c0) c.
Proof. unfold addPending. destruct (bool_decide _); auto. Qed.

Lemma kept_push (atl : autoTLSListener) (b : bool) (c0 c : Conn) :
  kept atl c ->
  kept (setQueueOf b atl (push (queueOf b atl) c0)) c.
Proof.
  unfold kept. destruct b;
    cbn [setQueueOf queueOf setEncrypted setPlain plain encrypted closedConns
         push connections]; rewrite elem_of_app; tauto.
Qed.

Lemma kept_push_self (atl : autoTLSListener) (b : bool) (c : Conn) :
  kept (setQueueOf b atl (push (queueOf b atl) c)) c.
Proof.
  unfold kept. destruct b;
    cbn [setQueueOf queueOf setEncrypted setPlain plain encrypted closedConns
         push connections]; rewrite elem_of_app, list_elem_of_singleton; tauto.
Qed.

Lemma kept_setHaveAccepter (atl : autoTLSListener) (b : bool) (c : Conn) :
  kept (setHaveAccepter atl b) c <-> kept atl c.
Proof. reflexivity. Qed.

Lemma kept_deletePending (atl : autoTLSListener) (c0 c : Conn) :
  kept atl c -> kept (deletePending atl c0) c.
Proof. auto. Qed.

Lemma acceptWait_keeps (atl : autoTLSListener) (a : Conn + acceptError)
    (o1 o2 o3 : others) (c : Conn) :
  kept atl c -> kept (fst (acceptWait atl a o1 o2 o3)) c.
Proof.
  intros H. destruct a as [c0|e]; [|exact H].
  rewrite acceptWait_cases. cbv zeta.
  repeat match goal with |- context [if ?b then _ else _] => destruct b end;
    cbn [fst];
    repeat first [ apply kept_closeConn | apply kept_push
                 | apply kept_meanwhile | apply kept_deletePending
                 | apply kept_addPending ]; exact H.
Qed.

Lemma acceptWait_keeps_new (atl : autoTLSListener) (c : Conn)
    (o1 o2 o3 : others) :
  kept (fst (acceptWait atl (inl c) o1 o2 o3)) c.
Proof.
  rewrite acceptWait_cases. cbv zeta.
  repeat match goal with |- context [if ?b then _ else _] => destruct b end;
    cbn [fst]; first [apply kept_closeConn_self | apply kept_push_self].
Qed.

Lemma kept_pull (enc : bool) (atl : autoTLSListener) (c0 c : Conn)
    (q : autoTLSListenerQueue) :
  pull (queueOf enc atl) = (Some c0, q) ->
  kept atl c -> c = c0 \/ kept (setQueueOf enc atl q) c.
Proof.
  unfold pull, kept. destruct (connections (queueOf enc atl)) as [|c1 l] eqn:Hq;
    [discriminate|]. intros [= <- <-].
  destruct enc;
    cbn [queueOf setQueueOf setEncrypted setPlain plain encrypted closedConns
         connections] in *; rewrite Hq, elem_of_cons; tauto.
Qed.

(** A connection the listener keeps when [accept] is called is the one
    returned, or is kept afterwards. *)
Lemma accept_keeps (enc : bool) (arrivals : list arrival) :
  forall (atl : autoTLSListener) (c : Conn),
  kept atl c ->
  snd (fst (accept enc atl arrivals)) = Some (inl c) \/
  kept (fst (fst (accept enc atl arrivals))) c.
Proof.
  induction arrivals as [|a rest IH]; intros atl c Hc.
  - cbn [accept]. destruct (pull (queueOf enc atl)) as [[c0|] q] eqn:Hp.
    + destruct (kept_pull enc atl c0 c q Hp Hc) as [-> | H]; cbn [fst snd]; auto.
    + destruct (haveAccepter atl); cbn [fst snd]; auto.
  - cbn [accept]. destruct (pull (queueOf enc atl)) as [[c0|] q] eqn:Hp.
    + destruct (kept_pull enc atl c0 c q Hp Hc) as [-> | H]; cbn [fst snd]; auto.
    + destruct (haveAccepter atl); [cbn [fst snd]; auto|].
      pose proof (acceptWait_keeps (setHaveAccepter atl true) (accepted a)
                    (before1 a) (before2 a) (before3 a) c Hc) as Hk.
      destruct (acceptWait _ _ _ _ _) as [atl1 [e|]]; cbn [fst] in Hk.
      * cbn [fst snd]. auto.
      * apply IH. exact Hk.
Qed.

Lemma delivered_cons (a : arrival) (l : list arrival) :
  delivered (a :: l) =
  match accepted a with
  | inl c => c :: delivered l
  | inr _ => delivered l
  end.
Proof. reflexivity. Qed.

(** X17: [accept] loses no connection, whatever arrives and whether or
    not another goroutine closes the listener meanwhile: every connection
    it took from the parent listener is the one it returns, or sits in
    one of the two queues, or has been closed. *)
Theorem accept_no_leak (enc : bool) (arrivals : list arrival) :
  forall (atl atl' : autoTLSListener) (r : option (Conn + acceptError))
         (rest : list arrival),
  accept enc atl arrivals = (atl', r, rest) ->
  exists used,
    arrivals = used ++ rest /\
    forall c, c ∈ delivered used -> r = Some (inl c) \/ kept atl' c.
Proof.
  induction arrivals as [|a arrivals IH]; intros atl atl' r rest Hrun.
  - exists []. cbn [accept] in Hrun.
    destruct (pull (queueOf enc atl)) as [[c0|] q];
      [|destruct (haveAccepter atl)]; injection Hrun as <- <- <-;
      (split; [reflexivity|]); intros c Hc; apply elem_of_nil in Hc; tauto.
  - cbn [accept] in Hrun.
    destruct (pull (queueOf enc atl)) as [[c0|] q].
    { exists []. injection Hrun as <- <- <-. split; [reflexivity|].
      intros c Hc. apply elem_of_nil in Hc. tauto. }
    destruct (haveAccepter atl).
    { exists []. injection Hrun as <- <- <-. split; [reflexivity|].
      intros c Hc. apply elem_of_nil in Hc. tauto. }
    pose proof (acceptWait_keeps_new (setHaveAccepter atl true)) as Hnew.
    pose proof (acceptWait_no_error (setHaveAccepter atl true)) as Hnoerr.
    destruct (accepted a) as [c0|e0] eqn:Ha.
    + specialize (Hnew c0 (before1 a) (before2 a) (before3 a)).
      specialize (Hnoerr c0 (before1 a) (before2 a) (before3 a)).
      destruct (acceptWait _ _ _ _ _) as [atl1 err]. cbn [fst snd] in *.
      subst err.
      destruct (IH _ _ _ _ Hrun) as (used & -> & Hused).
      exists (a :: used). split; [reflexivity|].
      intros c. rewrite delivered_cons, Ha, elem_of_cons. intros [-> | Hc].
      * pose proof (accept_keeps enc (used ++ rest) (setHaveAccepter atl1 false)
                      c0 Hnew) as Hk.
        rewrite Hrun in Hk. exact Hk.
      * apply Hused. exact Hc.
    + cbn [acceptWait] in Hrun. injection Hrun as <- <- <-.
      exists [a]. split; [reflexivity|].
      intros c. rewrite delivered_cons, Ha. intros Hc.
      apply elem_of_nil in Hc. tauto.
Qed.

(** The listener is closed while the first connection is classified, and
    the parent listener then fails. *)
Lemma accept_no_leak_witness :
  exists used,
    [mkArrival (inl tlsConn) Quiet Close Quiet;
     mkArrival (inr ErrAccept) Quiet Quiet Quiet; quietly httpConn]
      = used ++ [quietly httpConn] /\
    forall c, c ∈ delivered used ->
      Some (inr ErrAccept) = Some (inl c) \/
      kept (fst (fst (accept true NewAutoTLSListener
              [mkArrival (inl tlsConn) Quiet Close Quiet;
               mkArrival (inr ErrAccept) Quiet Quiet Quiet;
               quietly httpConn]))) c.
Proof.
  apply (accept_no_leak true _ NewAutoTLSListener).
  reflexivity.
Defined.

(** *** A closed listener *)

Lemma accept_closed (enc : bool) (arrivals : list arrival) :
  forall (atl : autoTLSListener),
  closed atl = true ->
  connections (plain atl) = [] -> connections (encrypted atl) = [] ->
  pending atl = [] ->
  (forall c, snd (fst (accept enc atl arrivals)) <> Some (inl c)) /\
  exists used,
    arrivals = used ++ snd (accept enc atl arrivals) /\
    closedConns (fst (fst (accept enc atl arrivals)))
      = closedConns atl ++ delivered used.
Proof.
  induction arrivals as [|a arrivals IH]; intros atl Hcl Hp He Hpend.
  - cbn [accept].
    assert (Hq : connections (queueOf enc atl) = []) by (destruct enc; auto).
    rewrite (pull_empty _ Hq). destruct (haveAccepter atl);
      (split; [discriminate|]); exists [];
      (split; [reflexivity|]); cbn [fst snd delivered closedConns
        setHaveAccepter]; rewrite app_nil_r; reflexivity.
  - cbn [accept].
    assert (Hq : connections (queueOf enc atl) = []) by (destruct enc; auto).
    rewrite (pull_empty _ Hq). destruct (haveAccepter atl).
    { split; [discriminate|]. exists []. split; [reflexivity|].
      cbn [fst snd delivered]. rewrite app_nil_r. reflexivity. }
    destruct (accepted a) as [c0|e0] eqn:Ha.
    + rewrite acceptWait_cases. cbv zeta.
      assert (Hm : closed (meanwhile (before1 a) (setHaveAccepter atl true))
                   = true).
      { destruct (before1 a); [exact Hcl | reflexivity]. }
      rewrite Hm.
      set (atl1 := setHaveAccepter
                     (closeConn (meanwhile (before1 a)
                                   (setHaveAccepter atl true)) c0) false).
      assert (H1 : closed atl1 = true) by exact Hm.
      assert (H2 : connections (plain atl1) = [])
        by (subst atl1; destruct (before1 a); [exact Hp | reflexivity]).
      assert (H3 : connections (encrypted atl1) = [])
        by (subst atl1; destruct (before1 a); [exact He | reflexivity]).
      assert (H4 : pending atl1 = [])
        by (subst atl1; destruct (before1 a); [exact Hpend | reflexivity]).
      assert (H5 : closedConns atl1 = closedConns atl ++ [c0]).
      { subst atl1. destruct (before1 a);
          cbn [meanwhile close closeConn setHaveAccepter closedConns plain
               encrypted pending connections]; [reflexivity|].
        rewrite Hp, He, Hpend. cbn [app]. rewrite app_nil_r. reflexivity. }
      destruct (IH atl1 H1 H2 H3 H4) as (G1 & used & G2 & G3).
      split; [exact G1|]. exists (a :: used). split.
      * cbn [app]. f_equal. exact G2.
      * rewrite G3, H5, delivered_cons, Ha, <- app_assoc. reflexivity.
    + cbn [acceptWait fst snd]. split; [discriminate|].
      exists [a]. split; [reflexivity|].
      rewrite delivered_cons, Ha. cbn [delivered].
      rewrite app_nil_r. reflexivity.
Qed.

(** X18: a closed listener hands out no connection.  Called after
    [close], [accept] does not return a connection, whatever the parent
    listener still delivers and whichever child asks, and it closes every
    connection it takes from the parent, in the order of their arrival. *)
Theorem accept_after_close (enc : bool) (atl : autoTLSListener)
    (arrivals : list arrival) :
  (forall c, snd (fst (accept enc (close atl) arrivals)) <> Some (inl c)) /\
  exists used,
    arrivals = used ++ snd (accept enc (close atl) arrivals) /\
    closedConns (fst (fst (accept enc (close atl) arrivals)))
      = closedConns atl
        ++ (connections (plain atl) ++ connections (encrypted atl)
            ++ pending atl)
        ++ delivered used.
Proof.
  destruct (accept_closed enc arrivals (close atl) eq_refl eq_refl eq_refl
              eq_refl) as (H1 & used & H2 & H3).
  split; [exact H1|]. exists used. split; [exact H2|].
  rewrite H3. cbn [close closedConns]. rewrite <- app_assoc. reflexivity.
Qed.

End AcceptFacts.
(** ** escl: what the server does with its documents and its answers *)

Section JobStateFacts.
Import Escl.

(** X19: a job state that is one of the six declared ones is read
    back from the string [String] writes for it; every other value of
    the [int] is written as Unknown and read back as the unknown state,
    0.  A string that [DecodeJobState] reads as a state other than the
    unknown one is the name of that state. *)
Theorem JobState_roundtrip (state : Z) (known : JobState) (s : string) :
  DecodeJobState (JobState_String state)
    = (if (1 <=? state) && (state <=? 5) then state else 0) /\
  DecodeJobState (JobState_String (JobState_value known))
    = JobState_value known /\
  (DecodeJobState s <> 0 -> JobState_String (DecodeJobState s) = s).
Proof.
  split; [|split].
  - unfold JobState_String.
    repeat match goal with
           | |- context [state =? ?k] =>
               destruct (Z.eqb_spec state k) as [->|?]; [reflexivity|]
           end.
    cbn. destruct ((1 <=? state) && (state <=? 5)) eqn:Hr; [|reflexivity].
    apply andb_true_iff in Hr as [H1 H5]. lia.
  - destruct known; reflexivity.
  - unfold DecodeJobState.
    repeat match goal with
           | |- context [String.eqb s ?k] =>
               destruct (String.eqb_spec s k) as [->|_]; [reflexivity|]
           end.
    congruence.
Qed.

End JobStateFacts.

Section ServerAnswers.
Import Escl.
Context {Range : Type}.
Variable CleanURLPath : string -> string.
Variable pathJoin : list string -> string.
Variable StatusText : Z -> string.
Variable versionToXML : Z -> string -> Element.
Variable stateToXML : ScannerState -> string -> Element.
Variable adfStateToXML : ADFState -> string -> Element.
Variable jobInfoToXML : JobInfo -> string -> Element.
Variable capabilitiesToXML : Z -> Abstract.ScannerCapabilities Range -> Element.

Abbreviation Server := (@AbstractServer Range).
Abbreviation Query := (abstractServerQuery Abstract.ScannerRequest).
Abbreviation serve :=
  (ServeHTTP pathJoin StatusText versionToXML stateToXML adfStateToXML
     jobInfoToXML capabilitiesToXML).
Abbreviation run :=
  (runAction pathJoin StatusText versionToXML stateToXML adfStateToXML
     jobInfoToXML capabilitiesToXML).

Lemma status_WriteHeader (q : Query) (st : Z) :
  status q = 0 -> status (WriteHeader q st) = st.
Proof. intros H. unfold WriteHeader. rewrite H. reflexivity. Qed.

Lemma status_SendImage (q : Query) (file : DocumentFile) :
  status q = 0 -> status (SendImage q file) = StatusOK.
Proof. intros H. unfold SendImage, WriteHeader. simpl. rewrite H. reflexivity. Qed.

Lemma status_Created (q : Query) (joburi : string) :
  status q = 0 -> status (Created q joburi) = StatusCreated.
Proof. intros H. unfold Created, WriteHeader. simpl. rewrite H. reflexivity. Qed.

Lemma finish_documents (srv srv' : Server) (state : JobState)
    (reason : JobStateReason) :
  finish srv state reason = Some srv' ->
  documentsOf srv' = documentsOf srv.
Proof.
  unfold finish, documentsOf. destruct (document srv) as [doc|]; [|discriminate].
  destruct (Jobs (srvStatus srv)); [discriminate|]. intros [= <-].
  cbn [document closedDocs]. rewrite app_nil_r. reflexivity.
Qed.

(** What an action does to the documents and which status it sets. *)
Lemma runAction_documents (act : action) (srv srv' : Server) (q q' : Query)
    (a : answers) :
  status q = 0 ->
  run act srv q a = Some (srv', q') ->
  status q' ∈ answerCodes /\
  documentsOf srv' = documentsOf srv ++ openedFor q' a.
Proof.
  intros Hfresh.
  assert (Hrej : forall st err (srv0 : Server),
            st ∈ answerCodes -> st <> StatusCreated ->
            status (Reject StatusText q st err) ∈ answerCodes /\
            documentsOf srv0
            = documentsOf srv0 ++ openedFor (Reject StatusText q st err) a).
  { intros st err srv0 Hin Hne. unfold openedFor.
    rewrite (status_Reject StatusText q st err Hfresh).
    split; [exact Hin|].
    rewrite (proj2 (Z.eqb_neq _ _) Hne), app_nil_r. reflexivity. }
  assert (Hok : forall (q0 : Query) (srv0 : Server),
            status q0 = StatusOK ->
            status q0 ∈ answerCodes /\
            documentsOf srv0 = documentsOf srv0 ++ openedFor q0 a).
  { intros q0 srv0 Hst. unfold openedFor. rewrite Hst. split.
    - unfold answerCodes. apply list_elem_of_here.
    - cbn [Z.eqb StatusOK StatusCreated Pos.eqb]. rewrite app_nil_r.
      reflexivity. }
  destruct act; cbn [runAction].
  - unfold getScannerCapabilities. intros [= <- <-].
    apply Hok. apply status_SendXML. exact Hfresh.
  - unfold getScannerStatus. intros [= <- <-].
    apply Hok. apply status_SendXML. exact Hfresh.
  - unfold postScanJobs.
    destruct (RequestBody q) as [err|err|absreq].
    + intros [= <- <-]. apply Hrej; [|discriminate].
      unfold answerCodes. repeat constructor.
    + intros [= <- <-]. apply Hrej; [|discriminate].
      unfold answerCodes. repeat constructor.
    + destruct (document srv) as [doc0|] eqn:Hdoc; cbn [Abstract.notNil].
      * intros [= <- <-]. apply Hrej; [|discriminate].
        unfold answerCodes. repeat constructor.
      * destruct (uuidRandom a) as [jobuuid|err].
        -- destruct (scan a) as [doc|err] eqn:Hscan.
           ++ intros [= <- <-]. unfold openedFor.
              rewrite (status_Created _ _ Hfresh), Hscan. split.
              ** unfold answerCodes. repeat constructor.
              ** unfold documentsOf. cbn [document closedDocs].
                 rewrite Hdoc, app_nil_r. reflexivity.
           ++ intros [= <- <-]. apply Hrej; [|discriminate].
              unfold answerCodes. repeat constructor.
        -- intros [= <- <-]. apply Hrej; [|discriminate].
           unfold answerCodes. repeat constructor.
  - unfold getJobURINextDocument.
    destruct (document srv) as [doc0|] eqn:Hdoc; [|discriminate].
    destruct (next a) as [file| |err].
    + intros [= <- <-]. apply Hok. apply status_SendImage. exact Hfresh.
    + destruct (finish srv JobCompleted JobCompletedSuccessfully)
        as [srv1|] eqn:Hfin; [|discriminate].
      cbn. intros [= <- <-]. rewrite (finish_documents _ _ _ _ Hfin).
      apply Hrej; [|discriminate]. unfold answerCodes. repeat constructor.
    + destruct (finish srv JobCanceled AbortedBySystem)
        as [srv1|] eqn:Hfin; [|discriminate].
      cbn. intros [= <- <-]. rewrite (finish_documents _ _ _ _ Hfin).
      apply Hrej; [|discriminate]. unfold answerCodes. repeat constructor.
  - unfold getJobURIScanImageInfo. intros [= <- <-].
    apply Hrej; [|discriminate]. unfold answerCodes. repeat constructor.
  - unfold deleteJobURI.
    destruct (finish srv JobCanceled JobCanceledByUser)
      as [srv1|] eqn:Hfin; [|discriminate].
    cbn. intros [= <- <-]. rewrite (finish_documents _ _ _ _ Hfin).
    apply Hok. apply status_WriteHeader. exact Hfresh.
Qed.

(** X20: whatever the request, the server that serves it answers with
    one of its seven status codes, and it keeps track of its documents:
    a document is taken from the scanner only by a request answered
    with 201 Created, and every document taken so far is the one the
    server streams from or has been closed, once, in the order they were
    taken. *)
Theorem ServeHTTP_documents (srv srv' : Server) (q q' : Query) (a : answers) :
  status q = 0 ->
  serve srv q a = Some (srv', q') ->
  status q' ∈ answerCodes /\
  documentsOf srv' = documentsOf srv ++ openedFor q' a.
Proof.
  intros Hfresh. unfold ServeHTTP.
  assert (H404 : forall srv0 : Server,
            Some (srv0, Reject StatusText q StatusNotFound None)
              = Some (srv', q') ->
            status q' ∈ answerCodes /\
            documentsOf srv' = documentsOf srv0 ++ openedFor q' a).
  { intros srv0 [= <- <-]. unfold openedFor.
    rewrite (status_Reject StatusText q _ None Hfresh). split.
    - unfold answerCodes. repeat constructor.
    - cbn. rewrite app_nil_r. reflexivity. }
  destruct (negb _); [apply H404|].
  destruct (dispatch srv q) as [[act|]|]; cbn; [|apply H404|discriminate].
  apply runAction_documents. exact Hfresh.
Qed.

(** *** Cancelling a job *)

Lemma dispatch_DELETE (srv : Server) (q : Query) :
  Method q = "DELETE" ->
  dispatch srv q =
  match document srv with
  | None => Some None
  | Some _ =>
      match Jobs (srvStatus srv) with
      | [] => None
      | job0 :: _ =>
          Some (if String.eqb (URLPath q) (JobURI job0)
                then Some actDeleteJobURI else None)
      end
  end.
Proof.
  intros Hm. unfold dispatch. rewrite Hm.
  change (String.eqb "DELETE" "GET") with false.
  change (String.eqb "DELETE" "POST") with false.
  change (String.eqb "DELETE" "DELETE") with true.
  cbv iota.
  repeat match goal with
         | |- context [if String.eqb ?x ?y then None else _] =>
             destruct (String.eqb x y)
         end; reflexivity.
Qed.

(** X21: a DELETE of the URI of the job in progress cancels it: the
    answer is 200 with no body, the document is closed, the scanner is
    idle again and the job, still first in the list, is Canceled for the
    reason JobCanceledByUser.  A DELETE of any other path, or with no job
    in progress, is answered with 404 and changes nothing. *)
Theorem DELETE_cancels_job (srv : Server) (q : Query) (a : answers) :
  status q = 0 -> Method q = "DELETE" ->
  (forall doc job rest,
     Go.HasPrefix (URLPath q) (BasePath (options srv)) = true ->
     document srv = Some doc ->
     Jobs (srvStatus srv) = job :: rest ->
     URLPath q = JobURI job ->
     exists q',
       serve srv q a =
         Some (mkServer (options srv) (caps srv)
                 (mkStatus (Version (srvStatus srv)) ScannerIdle
                    (ADFState_ (srvStatus srv))
                    (mkJobInfo (JobURI job) (JobUUID job) JobCanceled
                       [JobCanceledByUser] :: rest))
                 None (closedDocs srv ++ [doc]), q') /\
       status q' = StatusOK /\ body q' = body q) /\
  (document srv = None \/
   (exists job rest, Jobs (srvStatus srv) = job :: rest /\
                     URLPath q <> JobURI job) ->
   exists q', serve srv q a = Some (srv, q') /\ status q' = StatusNotFound).
Proof.
  intros Hfresh Hm. split.
  - intros doc job rest Hpre Hdoc Hjobs Hpath.
    exists (WriteHeader q StatusOK). unfold ServeHTTP.
    rewrite Hpre, (dispatch_DELETE srv q Hm), Hdoc, Hjobs, Hpath,
      String.eqb_refl.
    cbn [negb mbind option_bind runAction]. unfold deleteJobURI.
    rewrite (finish_some srv doc job rest JobCanceled JobCanceledByUser
               Hdoc Hjobs) by discriminate.
    cbn [mbind option_bind]. split; [reflexivity|].
    split; [apply status_WriteHeader; exact Hfresh|].
    unfold WriteHeader. destruct (status q =? 0); reflexivity.
  - intros Hcase. exists (Reject StatusText q StatusNotFound None).
    split; [|apply status_Reject; exact Hfresh].
    unfold ServeHTTP. destruct (negb _); [reflexivity|].
    rewrite (dispatch_DELETE srv q Hm).
    destruct Hcase as [-> | (job & rest & Hjobs & Hne)]; [reflexivity|].
    destruct (document srv); [|reflexivity].
    rewrite Hjobs. apply String.eqb_neq in Hne. rewrite Hne. reflexivity.
Qed.

(** *** A job that was posted *)

Lemma status_Created_only (act : action) (srv srv' : Server) (q q' : Query)
    (a : answers) :
  status q = 0 ->
  run act srv q a = Some (srv', q') ->
  status q' = StatusCreated ->
  exists absreq jobuuid doc,
    act = actPostScanJobs /\ RequestBody q = BodyOK absreq /\
    document srv = None /\
    uuidRandom a = inl jobuuid /\ scan a = inl doc /\
    postScanJobs pathJoin StatusText srv q a = Some (srv', q').
Proof.
  intros Hfresh Hrun Hst.
  assert (Hrej : forall st err,
            st <> StatusCreated ->
            q' = Reject StatusText q st err -> False).
  { intros st err Hne ->. rewrite (status_Reject StatusText q st err Hfresh) in Hst.
    contradiction. }
  assert (Hok : status q' = StatusOK -> False) by (rewrite Hst; discriminate).
  destruct act; cbn [runAction] in Hrun.
  - injection Hrun as <- <-. destruct Hok. apply status_SendXML. exact Hfresh.
  - injection Hrun as <- <-. destruct Hok. apply status_SendXML. exact Hfresh.
  - pose proof Hrun as Hpost. unfold postScanJobs in Hrun.
    destruct (RequestBody q) as [err|err|absreq] eqn:Hbody;
      [injection Hrun as <- <-; edestruct Hrej; [|reflexivity]; discriminate..|].
    destruct (document srv) as [doc0|] eqn:Hdoc; cbn [Abstract.notNil] in Hrun;
      [injection Hrun as <- <-; edestruct Hrej; [|reflexivity]; discriminate|].
    destruct (uuidRandom a) as [jobuuid|err] eqn:Hu;
      [|injection Hrun as <- <-; edestruct Hrej; [|reflexivity]; discriminate].
    destruct (scan a) as [doc|err] eqn:Hscan;
      [|injection Hrun as <- <-; edestruct Hrej; [|reflexivity]; discriminate].
    exists absreq, jobuuid, doc. auto 10.
  - unfold getJobURINextDocument in Hrun.
    destruct (document srv); [|discriminate].
    destruct (next a).
    + injection Hrun as <- <-. destruct Hok. apply status_SendImage. exact Hfresh.
    + destruct (finish _ _ _); [|discriminate]. cbn in Hrun.
      injection Hrun as <- <-. edestruct Hrej; [|reflexivity]; discriminate.
    + destruct (finish _ _ _); [|discriminate]. cbn in Hrun.
      injection Hrun as <- <-. edestruct Hrej; [|reflexivity]; discriminate.
  - injection Hrun as <- <-. edestruct Hrej; [|reflexivity]; discriminate.
  - unfold deleteJobURI in Hrun. destruct (finish _ _ _); [|discriminate].
    cbn in Hrun. injection Hrun as <- <-. destruct Hok.
    apply status_WriteHeader. exact Hfresh.
Qed.

Lemma headerGet_headerSet (hdr : list (string * string)) (k v : string) :
  headerGet (headerSet hdr k v) k = Some v.
Proof.
  unfold headerGet, headerSet. cbn [List.find fst]. rewrite String.eqb_refl.
  reflexivity.
Qed.

(** X22: a request answered with 201 Created has started a scan job:
    the Location header is the address of the job, built from the
    scheme and the host of the request and the URI of the job, the job is
    the first of the list and in state Processing, the scanner is
    Processing, and a GET of NextDocument under the URI of the job then
    sends the file that [Next] of the document returns, with status 200,
    and leaves the server as it is. *)
Theorem created_job_is_served (srv srv' : Server) (q q' : Query) (a : answers) :
  status q = 0 ->
  serve srv q a = Some (srv', q') ->
  status q' = StatusCreated ->
  exists doc job rest,
    scan a = inl doc /\ document srv' = Some doc /\
    Jobs (srvStatus srv') = job :: rest /\
    JobState_ job = JobProcessing /\
    State (srvStatus srv') = ScannerProcessing /\
    headerGet (ResponseHeader q') "Location"
      = Some ((if TLS q then "https" else "http") +:+ "://" +:+ Host q
              +:+ JobURI job) /\
    forall (q2 : Query) (a2 : answers) (file : DocumentFile),
      status q2 = 0 -> Method q2 = "GET" ->
      URLPath q2 = JobURI job +:+ "/NextDocument" ->
      Go.HasPrefix (URLPath q2) (BasePath (options srv')) = true ->
      Go.CutPrefix (URLPath q2) (BasePath (options srv'))
        <> "ScannerCapabilities" ->
      Go.CutPrefix (URLPath q2) (BasePath (options srv')) <> "ScannerStatus" ->
      next a2 = NextFile file ->
      serve srv' q2 a2 = Some (srv', SendImage q2 file) /\
      status (SendImage q2 file) = StatusOK.
Proof.
  intros Hfresh Hserve Hst. unfold ServeHTTP in Hserve.
  destruct (negb _).
  { injection Hserve as <- <-.
    rewrite (status_Reject StatusText q _ None Hfresh) in Hst. discriminate. }
  destruct (dispatch srv q) as [[act|]|]; cbn in Hserve; [| |discriminate].
  2: { injection Hserve as <- <-.
       rewrite (status_Reject StatusText q _ None Hfresh) in Hst.
       discriminate. }
  destruct (status_Created_only act srv srv' q q' a Hfresh Hserve Hst)
    as (absreq & jobuuid & doc & _ & Hbody & Hdoc & Huuid & Hscan & Hpost).
  unfold postScanJobs in Hpost. rewrite Hbody, Hdoc, Huuid, Hscan in Hpost.
  cbn [Abstract.notNil] in Hpost. injection Hpost as <- <-.
  unfold PushJobInfo, AbstractServerHistorySize.
  cbn [document srvStatus Jobs State take options].
  eexists doc, _, _. split; [exact Hscan|]. split; [reflexivity|].
  split; [reflexivity|]. split; [reflexivity|]. split; [reflexivity|].
  split.
  { unfold Created, WriteHeader, setHeader. cbn [status ResponseHeader TLS Host].
    destruct (status q =? 0); cbn [ResponseHeader JobURI];
      apply headerGet_headerSet. }
  cbn [JobURI].
  intros q2 a2 file Hfresh2 Hm Hpath Hpre Hn1 Hn2 Hnext.
  split; [|apply status_SendImage; exact Hfresh2].
  unfold ServeHTTP, dispatch.
  cbn [document srvStatus Jobs options JobURI].
  rewrite Hpre. cbn [negb].
  apply String.eqb_neq in Hn1, Hn2. rewrite Hn1, Hn2, Hm.
  change (String.eqb "GET" "POST") with false.
  change (String.eqb "GET" "GET") with true.
  cbv iota.
  assert (Hsame : forall b : bool,
            (if b then @None action else None) = None)
    by (intros []; reflexivity).
  rewrite Hsame.
  rewrite Hpath, String.eqb_refl.
  cbn [mbind option_bind runAction]. unfold getJobURINextDocument.
  cbn [document]. rewrite Hnext. reflexivity.
Qed.

End ServerAnswers.

Section ServerAnswersExamples.
Import Escl.

Lemma ServeHTTP_documents_witness :
  exists srv' q',
    demoServe demoServer demoPost (demoAnswers NextEOF) = Some (srv', q') /\
    status q' ∈ answerCodes /\
    documentsOf srv' =
      documentsOf demoServer ++ openedFor q' (demoAnswers NextEOF).
Proof.
  eexists _, _. split; [vm_compute; reflexivity|].
  apply (ServeHTTP_documents demoJoin demoStatusText demoLeaf demoLeaf
           demoLeaf demoLeaf demoCapsXML demoServer _ demoPost).
  - reflexivity.
  - vm_compute. reflexivity.
Defined.

Lemma DELETE_cancels_job_witness :
  exists q',
    demoServe demoBusyServer demoDelete (demoAnswers NextEOF)
      = Some (mkServer (options demoBusyServer) (caps demoBusyServer)
                (mkStatus (Version (srvStatus demoBusyServer)) ScannerIdle
                   (ADFState_ (srvStatus demoBusyServer))
                   [mkJobInfo "/eSCL/ScanJobs/urn:uuid:1" (Some "urn:uuid:1")
                      JobCanceled [JobCanceledByUser]])
                None (closedDocs demoBusyServer ++ [mkDocument 1]), q') /\
    status q' = StatusOK /\ body q' = body demoDelete.
Proof.
  apply (proj1 (DELETE_cancels_job demoJoin demoStatusText demoLeaf demoLeaf
           demoLeaf demoLeaf demoCapsXML demoBusyServer demoDelete
           (demoAnswers NextEOF) eq_refl eq_refl) (mkDocument 1)
           (mkJobInfo "/eSCL/ScanJobs/urn:uuid:1" (Some "urn:uuid:1")
              JobProcessing []) []); vm_compute; reflexivity.
Defined.

Lemma created_job_is_served_witness :
  exists doc job rest,
    scan (demoAnswers NextEOF) = inl doc /\
    document demoBusyServer = Some doc /\
    Jobs (srvStatus demoBusyServer) = job :: rest /\
    JobState_ job = JobProcessing /\
    State (srvStatus demoBusyServer) = ScannerProcessing /\
    JobURI job = "/eSCL/ScanJobs/urn:uuid:1".
Proof.
  destruct (created_job_is_served demoJoin demoStatusText demoLeaf demoLeaf
              demoLeaf demoLeaf demoCapsXML demoServer demoBusyServer demoPost
              (Created demoPost "/eSCL/ScanJobs/urn:uuid:1")
              (demoAnswers NextEOF))
    as (doc & job & rest & H1 & H2 & H3 & H4 & H5 & H6 & _);
    [reflexivity | vm_compute; reflexivity | reflexivity |].
  exists doc, job, rest. repeat (split; [assumption|]).
  vm_compute in H3. injection H3 as <- _. reflexivity.
Defined.

End ServerAnswersExamples.
(** ** xml: the store [Decode] builds *)

Section DecodeFacts.
Import Xml.
Variable TrimSpace : string -> string.

Lemma upFrom_None (fuel : nat) (h : store) : upFrom fuel h None = [].
Proof. destruct fuel; reflexivity. Qed.

Lemma not_in_upFrom_None (fuel : nat) (h : store) (j : nat) :
  j ∈ upFrom fuel h None -> False.
Proof. rewrite upFrom_None. apply elem_of_nil. Qed.

Lemma upFrom_le (h : store) : parentsBelow h ->
  forall fuel i j, j ∈ upFrom fuel h (Some i) -> (j <= i)%nat.
Proof.
  intros Hh. induction fuel as [|fuel IH]; intros i j Hj; cbn [upFrom] in Hj.
  - apply elem_of_nil in Hj. destruct Hj.
  - apply elem_of_cons in Hj. destruct Hj as [-> | Hj]; [lia|].
    destruct (h !! i) as [e|] eqn:He; cbn in Hj.
    + destruct (Parent e) as [p|] eqn:Hp.
      * specialize (Hh i e p He Hp). specialize (IH p j Hj). lia.
      * apply not_in_upFrom_None in Hj. destruct Hj.
    + apply not_in_upFrom_None in Hj. destruct Hj.
Qed.

Lemma upFrom_parent_lt (h : store) : parentsBelow h ->
  forall fuel i j, j ∈ upFrom fuel h (h !! i ≫= Parent) -> (j < i)%nat.
Proof.
  intros Hh fuel i j Hj. destruct (h !! i) as [e|] eqn:He; cbn in Hj.
  - destruct (Parent e) as [p|] eqn:Hp.
    + pose proof (Hh i e p He Hp).
      pose proof (upFrom_le h Hh fuel p j Hj). lia.
    + apply not_in_upFrom_None in Hj. destruct Hj.
  - apply not_in_upFrom_None in Hj. destruct Hj.
Qed.

(** The chain depends on the parents below its start only. *)
Lemma upFrom_ext (h1 h2 : store) (n : nat) :
  parentsBelow h1 ->
  (forall i, (i < n)%nat -> h1 !! i ≫= Parent = h2 !! i ≫= Parent) ->
  forall fuel p, (forall i, p = Some i -> (i < n)%nat) ->
  upFrom fuel h1 p = upFrom fuel h2 p.
Proof.
  intros Hh Heq. induction fuel as [|fuel IH]; intros p Hp.
  - destruct p; reflexivity.
  - destruct p as [i|]; [|reflexivity]. cbn [upFrom].
    rewrite <- (Heq i) by (apply Hp; reflexivity). f_equal.
    apply IH. intros j Hj.
    destruct (h1 !! i) as [e|] eqn:He; [|discriminate]. cbn in Hj.
    specialize (Hh i e j He Hj). specialize (Hp i eq_refl). lia.
Qed.

Lemma upFrom_fuel (h : store) : parentsBelow h ->
  forall f1 f2 p,
    (forall i, p = Some i -> (i < f1)%nat /\ (i < f2)%nat) ->
    upFrom f1 h p = upFrom f2 h p.
Proof.
  intros Hh. induction f1 as [|f1 IH]; intros f2 p Hp.
  - destruct p as [i|]; [|destruct f2; reflexivity].
    destruct (Hp i eq_refl). lia.
  - destruct p as [i|]; [|destruct f2; reflexivity].
    destruct (Hp i eq_refl) as [H1 H2]. destruct f2 as [|f2]; [lia|].
    cbn [upFrom]. f_equal. apply IH. intros j Hj.
    destruct (h !! i) as [e|] eqn:He; [|discriminate]. cbn in Hj.
    specialize (Hh i e j He Hj). lia.
Qed.

Lemma parentsBelow_alter (h : store) (f : Element -> Element) (k : nat) :
  (forall e, Parent (f e) = Parent e) ->
  parentsBelow h -> parentsBelow (alter f k h).
Proof.
  intros Hf Hh i e p He Hp. destruct (decide (i = k)) as [->|Hne].
  - rewrite list_lookup_alter_eq in He.
    destruct (h !! k) as [e0|] eqn:He0; [|discriminate].
    injection He as <-. rewrite Hf in Hp. eapply Hh; eauto.
  - rewrite list_lookup_alter_ne in He by congruence. eapply Hh; eauto.
Qed.

Lemma lookup_alter_Parent (h : store) (f : Element -> Element) (k i : nat) :
  (forall e, Parent (f e) = Parent e) ->
  alter f k h !! i ≫= Parent = h !! i ≫= Parent.
Proof.
  intros Hf. destruct (decide (i = k)) as [->|Hne].
  - rewrite list_lookup_alter_eq. destruct (h !! k); cbn; [apply Hf|reflexivity].
  - rewrite list_lookup_alter_ne by congruence. reflexivity.
Qed.

(** [linkAncestors] appends the child to the children of the elements
    of the chain, and to no other. *)
Lemma linkAncestors_lookup (child : nat) :
  forall fuel (h : store) p j,
  parentsBelow h ->
  linkAncestors fuel h p child !! j =
  if decide (j ∈ upFrom fuel h p) then addChild child <$> h !! j else h !! j.
Proof.
  induction fuel as [|fuel IH]; intros h p j Hh.
  - destruct p; cbn [linkAncestors upFrom];
      (destruct (decide _) as [Hin|]; [apply elem_of_nil in Hin; destruct Hin|]);
      reflexivity.
  - destruct p as [i|]; cbn [linkAncestors upFrom].
    + assert (Hh1 : parentsBelow (alter (addChild child) i h))
        by (apply parentsBelow_alter; [reflexivity | exact Hh]).
      rewrite (IH _ _ j Hh1).
      assert (Hchain : upFrom fuel (alter (addChild child) i h)
                         (h !! i ≫= Parent)
                       = upFrom fuel h (h !! i ≫= Parent)).
      { apply (upFrom_ext _ _ (length h + i)); [exact Hh1| |].
        - intros k _. apply lookup_alter_Parent. reflexivity.
        - intros k Hk. destruct (h !! i) as [e|] eqn:He; [|discriminate].
          cbn in Hk. specialize (Hh i e k He Hk). lia. }
      rewrite Hchain.
      destruct (decide (j = i)) as [->|Hne].
      * rewrite list_lookup_alter_eq.
        destruct (decide (i ∈ upFrom fuel h (h !! i ≫= Parent))) as [Hin|_].
        { apply (upFrom_parent_lt h Hh) in Hin. lia. }
        destruct (decide (i ∈ i :: _)) as [_|Hn]; [reflexivity|].
        destruct Hn. apply list_elem_of_here.
      * rewrite list_lookup_alter_ne by congruence.
        destruct (decide (j ∈ upFrom fuel h (h !! i ≫= Parent))) as [Hin|Hn];
          destruct (decide (j ∈ i :: _)) as [Hin'|Hn']; try reflexivity.
        -- destruct Hn'. apply list_elem_of_further. exact Hin.
        -- apply elem_of_cons in Hin'. destruct Hin' as [->|Hin']; congruence.
    + destruct (decide _) as [Hin|]; [apply elem_of_nil in Hin; destruct Hin|].
      reflexivity.
Qed.

Lemma linkAncestors_length (child : nat) :
  forall fuel (h : store) p, length (linkAncestors fuel h p child) = length h.
Proof.
  induction fuel as [|fuel IH]; intros h p; destruct p as [i|];
    cbn [linkAncestors]; try reflexivity.
  rewrite IH. apply length_alter.
Qed.

(** What [linkAncestors] leaves of an element as it was. *)
Lemma linkAncestors_fields (child fuel : nat) (h : store) p j :
  parentsBelow h ->
  exists g : Element -> Element,
    linkAncestors fuel h p child !! j = g <$> h !! j /\
    (forall e, Name (g e) = Name e /\ Path (g e) = Path e /\
               Parent (g e) = Parent e /\ Text (g e) = Text e).
Proof.
  intros Hh. rewrite (linkAncestors_lookup child fuel h p j Hh).
  destruct (decide _).
  - exists (addChild child). split; [reflexivity|]. intros e0. auto.
  - exists id. split; [destruct (h !! j); reflexivity|]. intros e0. auto.
Qed.

Lemma upFrom_ext_all (h1 h2 : store) :
  (forall i, h1 !! i ≫= Parent = h2 !! i ≫= Parent) ->
  forall fuel p, upFrom fuel h1 p = upFrom fuel h2 p.
Proof.
  intros Heq. induction fuel as [|fuel IH]; intros p.
  - destruct p; reflexivity.
  - destruct p as [i|]; [|reflexivity]. cbn [upFrom]. rewrite Heq, IH.
    reflexivity.
Qed.

Lemma filter_ext_elem {A : Type} (P Q : A -> Prop)
    `{!forall x, Decision (P x), !forall x, Decision (Q x)} (l : list A) :
  (forall x, x ∈ l -> P x <-> Q x) -> filter P l = filter Q l.
Proof.
  induction l as [|x l IH]; intros Hext; [reflexivity|].
  rewrite !filter_cons.
  assert (Hx : P x <-> Q x) by (apply Hext; apply list_elem_of_here).
  rewrite IH by (intros y Hy; apply Hext; apply list_elem_of_further; exact Hy).
  destruct (decide (P x)), (decide (Q x)); tauto.
Qed.

Lemma filter_none {A : Type} (P : A -> Prop)
    `{!forall x, Decision (P x)} (l : list A) :
  (forall x, x ∈ l -> ~ P x) -> filter P l = [].
Proof.
  induction l as [|x l IH]; intros Hno; [reflexivity|].
  rewrite filter_cons. destruct (decide (P x)) as [Hx|_].
  - destruct (Hno x (list_elem_of_here _ _) Hx).
  - apply IH. intros y Hy. apply Hno. apply list_elem_of_further. exact Hy.
Qed.

Lemma decoderInv_init : decoderInv (mkDecoder [] None "").
Proof.
  split; cbn [elements elem path].
  - intros i e0 p H. rewrite lookup_nil in H. discriminate.
  - discriminate.
  - reflexivity.
  - intros i e0 H. rewrite lookup_nil in H. discriminate.
  - intros i e0 H. rewrite lookup_nil in H. discriminate.
Qed.

(** An element opens. *)
Lemma decoderInv_start (d : decoder) (name : string) :
  decoderInv d ->
  let n := length (elements d) in
  let path' := path d +:+ "/" +:+ name in
  let h0 := elements d ++ [mkElement name path' "" [] (elem d) []] in
  decoderInv (mkDecoder (linkAncestors (length h0) h0 (elem d) n) (Some n)
                path').
Proof.
  intros [Hpar Helem Hpath Hpaths Hkids]. cbv zeta.
  set (h := elements d) in *. set (n := length h).
  set (new := mkElement name (path d +:+ "/" +:+ name) "" [] (elem d) []).
  set (h0 := h ++ [new]).
  set (h' := linkAncestors (length h0) h0 (elem d) n).
  assert (Hlen0 : length h0 = S n)
    by (subst h0; rewrite length_app; cbn; lia).
  assert (Hpar0 : parentsBelow h0).
  { intros i e0 p He Hp. subst h0.
    destruct (decide (i < n)%nat) as [Hi|Hi].
    - rewrite lookup_app_l in He by exact Hi. eapply Hpar; eauto.
    - apply lookup_lt_Some in He as Hlt. rewrite length_app in Hlt.
      cbn in Hlt. assert (i = n) as -> by (subst n; lia).
      rewrite list_lookup_middle in He by reflexivity.
      injection He as <-. cbn [Parent new] in Hp. apply Helem. exact Hp. }
  assert (Hlen' : length h' = S n)
    by (subst h'; rewrite linkAncestors_length; exact Hlen0).
  assert (Hfield : forall j, exists g : Element -> Element,
             h' !! j = g <$> h0 !! j /\
             (forall e0, Name (g e0) = Name e0 /\ Path (g e0) = Path e0 /\
                         Parent (g e0) = Parent e0 /\ Text (g e0) = Text e0)).
  { intros j. apply linkAncestors_fields. exact Hpar0. }
  assert (HparEq : forall i, h' !! i ≫= Parent = h0 !! i ≫= Parent).
  { intros i. destruct (Hfield i) as (g & -> & Hg).
    destruct (h0 !! i); cbn; [apply Hg | reflexivity]. }
  assert (Hpar' : parentsBelow h').
  { intros i e0 p He Hp. specialize (HparEq i). rewrite He in HparEq.
    cbn in HparEq. rewrite Hp in HparEq. symmetry in HparEq.
    destruct (h0 !! i) as [e1|] eqn:He1; [|discriminate]. cbn in HparEq.
    eapply Hpar0; eauto. }
  assert (Hnew : h0 !! n = Some new)
    by (subst h0; apply list_lookup_middle; reflexivity).
  assert (Hold : forall i, (i < n)%nat -> h0 !! i = h !! i)
    by (intros i Hi; subst h0; apply lookup_app_l; exact Hi).
  assert (HpathEq : forall i, Path <$> h' !! i = Path <$> h0 !! i).
  { intros i. destruct (Hfield i) as (g & -> & Hg).
    destruct (h0 !! i); cbn; [f_equal; apply Hg | reflexivity]. }
  assert (Hchain : forall fuel p,
             upFrom fuel h' p = upFrom fuel h0 p)
    by (apply upFrom_ext_all; exact HparEq).
  assert (Hanc_old : forall c, (c < n)%nat -> ancestors h' c = ancestors h c).
  { intros c Hc. unfold ancestors. rewrite Hchain, HparEq, Hlen', (Hold c Hc).
    fold n.
    rewrite (upFrom_fuel h0 Hpar0 (S n) n).
    - apply (upFrom_ext h0 h n Hpar0).
      + intros i Hi. rewrite Hold by exact Hi. reflexivity.
      + intros i Hi. destruct (h !! c) as [e0|] eqn:He0; [|discriminate].
        cbn in Hi. pose proof (Hpar c e0 i He0 Hi). lia.
    - intros i Hi. destruct (h !! c) as [e0|] eqn:He0; [|discriminate].
      cbn in Hi. pose proof (Hpar c e0 i He0 Hi). lia. }
  assert (Hanc_new : ancestors h' n = upFrom (S n) h0 (elem d)).
  { unfold ancestors. rewrite Hchain, HparEq, Hlen', Hnew. reflexivity. }
  split; cbn [elements elem path]; fold h n new h0 h'.
  - exact Hpar'.
  - intros i [= <-]. lia.
  - cbn [mbind option_bind]. destruct (Hfield n) as (g & Hl & Hg).
    rewrite Hl, Hnew. cbn [fmap option_fmap option_map].
    destruct (Hg new) as (_ & -> & _). reflexivity.
  - intros i e0 He.
    destruct (Hfield i) as (g & Hl & Hg). rewrite He in Hl.
    destruct (h0 !! i) as [e1|] eqn:He1; [|discriminate].
    injection Hl as ->. destruct (Hg e1) as (-> & -> & HP & _).
    assert (HpP : parentPath h' (g e1) = parentPath h0 e1).
    { unfold parentPath. rewrite HP. destruct (Parent e1) as [p|]; cbn;
        [|reflexivity].
      specialize (HpathEq p). destruct (h' !! p), (h0 !! p); cbn in *;
        congruence. }
    rewrite HpP.
    destruct (decide (i < n)%nat) as [Hi|Hi].
    + rewrite Hold in He1 by exact Hi.
      rewrite (Hpaths i e1 He1). f_equal. unfold parentPath.
      destruct (Parent e1) as [p|] eqn:Hp; cbn; [|reflexivity].
      rewrite Hold by (pose proof (Hpar i e1 p He1 Hp); lia). reflexivity.
    + apply lookup_lt_Some in He1 as Hlt. rewrite Hlen0 in Hlt.
      assert (i = n) as -> by lia. rewrite Hnew in He1. injection He1 as <-.
      cbn [Path Name new]. f_equal. unfold parentPath. cbn [Parent new].
      rewrite Hpath. destruct (elem d) as [k|] eqn:Hk; cbn; [|reflexivity].
      rewrite Hold by (apply Helem; reflexivity). reflexivity.
  - intros i e0 He.
    assert (Hi0 : (i < S n)%nat)
      by (apply lookup_lt_Some in He; rewrite Hlen' in He; exact He).
    unfold descendants. rewrite Hlen'.
    rewrite seq_S, filter_app. cbn [Nat.add].
    assert (Hfirst : filter (fun c => i ∈ ancestors h' c) (seq 0 n)
                     = filter (fun c => i ∈ ancestors h c) (seq 0 n)).
    { apply filter_ext_elem. intros c Hc. apply elem_of_seq in Hc.
      rewrite Hanc_old by lia. reflexivity. }
    rewrite Hfirst, filter_cons, filter_nil, Hanc_new.
    subst h'. rewrite (linkAncestors_lookup n _ h0 (elem d) i Hpar0) in He.
    rewrite Hlen0 in He.
    destruct (decide (i < n)%nat) as [Hi|Hi].
    + rewrite Hold in He by exact Hi.
      destruct (h !! i) as [e1|] eqn:He1;
        [|destruct (decide _); discriminate].
      pose proof (Hkids i e1 He1) as Hk. unfold descendants in Hk. fold n in Hk.
      destruct (decide (i ∈ upFrom (S n) h0 (elem d))); cbn in He;
        injection He as <-; cbn [Children addChild]; rewrite Hk;
        [reflexivity | rewrite app_nil_r; reflexivity].
    + assert (i = n) as -> by lia.
      assert (Hnot : ~ n ∈ upFrom (S n) h0 (elem d)).
      { intros Hin. destruct (elem d) as [k|] eqn:Hk.
        - pose proof (upFrom_le h0 Hpar0 _ _ _ Hin) as Hle.
          pose proof (Helem k eq_refl) as Hlt. fold h n in Hlt. lia.
        - apply not_in_upFrom_None in Hin. exact Hin. }
      destruct (decide (n ∈ upFrom (S n) h0 (elem d))); [contradiction|].
      rewrite Hnew in He. injection He as <-. cbn [Children new].
      rewrite app_nil_r. symmetry. apply filter_none.
      intros c Hc Hin. apply elem_of_seq in Hc.
      apply (upFrom_parent_lt h Hpar) in Hin. lia.
Qed.

(** An element closes. *)
Lemma decoderInv_end (ns : Namespace) (name : XmlName) (d : decoder)
    (i : nat) (e0 : Element) :
  decoderInv d -> elem d = Some i -> elements d !! i = Some e0 ->
  exists d',
    decodeStep TrimSpace ns d (EndElement name) = Some d' /\
    elem d' = Parent e0 /\ elements d' = elements d /\ decoderInv d'.
Proof.
  intros [Hpar Helem Hpath Hpaths Hkids] Hi He.
  cbn [decodeStep]. rewrite Hi. cbn [mbind option_bind]. rewrite He.
  cbn [mbind option_bind].
  rewrite Hi in Hpath. cbn [mbind option_bind] in Hpath. rewrite He in Hpath.
  pose proof (Hpaths i e0 He) as Hp. unfold parentPath in Hp.
  destruct (Parent e0) as [pi|] eqn:Hpi.
  - pose proof (Hpar i e0 pi He Hpi) as Hlt.
    pose proof (Helem i Hi) as Hlen.
    destruct (lookup_lt_is_Some_2 (elements d) pi) as [pe Hpe]; [lia|].
    rewrite Hpe. cbn [mbind option_bind] in *. rewrite Hpe in Hp.
    eexists. split; [reflexivity|]. split; [reflexivity|].
    split; [reflexivity|]. split; cbn [elements elem path]; auto.
    + intros k [= <-]. lia.
    + cbn [mbind option_bind]. rewrite Hpe, Hpath, Hp.
      apply Truncate_app.
  - eexists. split; [reflexivity|]. split; [reflexivity|].
    split; [reflexivity|]. split; cbn [elements elem path]; auto.
    + discriminate.
    + apply Truncate_0.
Qed.

(** A text is set. *)
Lemma decoderInv_text (d : decoder) (k : nat) (t : string) :
  decoderInv d ->
  decoderInv (mkDecoder (alter (setText t) k (elements d)) (elem d) (path d)).
Proof.
  intros [Hpar Helem Hpath Hpaths Hkids].
  set (h := elements d) in *. set (h' := alter (setText t) k h).
  assert (Hl : forall j, exists g : Element -> Element,
             h' !! j = g <$> h !! j /\
             (forall e0, Name (g e0) = Name e0 /\ Path (g e0) = Path e0 /\
                         Parent (g e0) = Parent e0 /\
                         Children (g e0) = Children e0)).
  { intros j. subst h'. destruct (decide (k = j)) as [->|Hne].
    - exists (setText t). rewrite list_lookup_alter_eq. auto.
    - exists id. rewrite list_lookup_alter_ne by exact Hne.
      split; [destruct (h !! j); reflexivity | auto]. }
  assert (HparEq : forall j, h' !! j ≫= Parent = h !! j ≫= Parent)
    by (intros j; apply lookup_alter_Parent; reflexivity).
  assert (HpathEq : forall j, Path <$> h' !! j = Path <$> h !! j).
  { intros j. destruct (Hl j) as (g & -> & Hg).
    destruct (h !! j); cbn; [f_equal; apply Hg | reflexivity]. }
  assert (Hlen : length h' = length h) by apply length_alter.
  split; cbn [elements elem path]; fold h h'.
  - apply parentsBelow_alter; [reflexivity | exact Hpar].
  - intros i Hi. rewrite Hlen. apply Helem. exact Hi.
  - rewrite Hpath. destruct (elem d) as [i|]; cbn; [|reflexivity].
    specialize (HpathEq i). destruct (h' !! i), (h !! i); cbn in *; congruence.
  - intros i e0 He. destruct (Hl i) as (g & Hg & Hf). rewrite He in Hg.
    destruct (h !! i) as [e1|] eqn:He1; [|discriminate]. injection Hg as ->.
    destruct (Hf e1) as (-> & -> & HP & _). rewrite (Hpaths i e1 He1).
    f_equal. unfold parentPath. rewrite HP.
    destruct (Parent e1) as [p|]; cbn; [|reflexivity].
    specialize (HpathEq p). destruct (h' !! p), (h !! p); cbn in *; congruence.
  - intros i e0 He. destruct (Hl i) as (g & Hg & Hf). rewrite He in Hg.
    destruct (h !! i) as [e1|] eqn:He1; [|discriminate]. injection Hg as ->.
    destruct (Hf e1) as (_ & _ & _ & ->). rewrite (Hkids i e1 He1).
    unfold descendants. rewrite Hlen. apply filter_ext_elem. intros c _.
    unfold ancestors. rewrite Hlen, HparEq.
    rewrite (upFrom_ext_all h' h HparEq). reflexivity.
Qed.

Lemma openElements_text (d : decoder) (k : nat) (t : string) :
  openElements (mkDecoder (alter (setText t) k (elements d)) (elem d) (path d))
  = openElements d.
Proof.
  unfold openElements. cbn [elements elem]. rewrite length_alter.
  apply upFrom_ext_all. intros j. apply lookup_alter_Parent. reflexivity.
Qed.

Lemma map_Name_alter_setText (h : store) (k : nat) (t : string) :
  map Name (alter (setText t) k h) = map Name h.
Proof.
  apply list_eq. intros j. rewrite !list_lookup_fmap.
  destruct (decide (k = j)) as [->|Hne].
  - rewrite list_lookup_alter_eq. destruct (h !! j); reflexivity.
  - rewrite list_lookup_alter_ne by exact Hne. reflexivity.
Qed.

Lemma map_Name_linkAncestors (h : store) (fuel child : nat) p :
  parentsBelow h ->
  map Name (linkAncestors fuel h p child) = map Name h.
Proof.
  intros Hh. apply list_eq. intros j. rewrite !list_lookup_fmap.
  destruct (linkAncestors_fields child fuel h p j Hh) as (g & -> & Hg).
  destruct (h !! j); cbn; [f_equal; apply Hg | reflexivity].
Qed.

(** What one step does to the invariant, to the names of the elements
    and to the elements open. *)
Lemma decodeStep_spec (ns : Namespace) (d : decoder) (token : Token) :
  decoderInv d ->
  match token with
  | EndElement _ =>
      match openElements d with
      | [] => decodeStep TrimSpace ns d token = None
      | _ :: up =>
          exists d', decodeStep TrimSpace ns d token = Some d' /\
                     decoderInv d' /\
                     map Name (elements d') = map Name (elements d) /\
                     openElements d' = up
      end
  | _ =>
      exists d', decodeStep TrimSpace ns d token = Some d' /\
                 decoderInv d' /\
                 map Name (elements d')
                   = map Name (elements d) ++ startNames ns [token] /\
                 length (openElements d') =
                   match token with
                   | StartElement _ _ => S (length (openElements d))
                   | _ => length (openElements d)
                   end
  end.
Proof.
  intros Hinv. destruct token as [t attr|t|t|t|t1 t2|t].
  - pose proof (decoderInv_start d (rewriteName ns t) Hinv) as Hnew.
    cbv zeta in Hnew. eexists. split; [reflexivity|].
    split; [exact Hnew|]. destruct Hinv as [Hpar Helem _ _ _].
    set (new := mkElement _ _ _ _ _ _) in *.
    assert (Hpar0 : parentsBelow (elements d ++ [new])).
    { intros i e0 p He Hp.
      destruct (decide (i < length (elements d))%nat) as [Hi|Hi].
      - rewrite lookup_app_l in He by exact Hi. eapply Hpar; eauto.
      - apply lookup_lt_Some in He as Hlt. rewrite length_app in Hlt.
        cbn in Hlt. assert (i = length (elements d)) as -> by lia.
        rewrite list_lookup_middle in He by reflexivity.
        injection He as <-. apply Helem. exact Hp. }
    cbn [elements]. split.
    + rewrite (map_Name_linkAncestors _ _ _ _ Hpar0), map_app. reflexivity.
    + unfold openElements. cbn [elements elem].
      rewrite linkAncestors_length, length_app. cbn [length].
      replace (length (elements d) + 1)%nat with (S (length (elements d)))
        by lia.
      cbn [upFrom]. cbn [length]. f_equal.
      set (h' := linkAncestors _ _ _ _).
      assert (HparEq : forall i, h' !! i ≫= Parent
                                 = (elements d ++ [new]) !! i ≫= Parent).
      { intros i. subst h'.
        destruct (linkAncestors_fields (length (elements d))
                    (S (length (elements d))) (elements d ++ [new]) (elem d)
                    i Hpar0) as (g & -> & Hg).
        destruct (_ !! i); cbn; [apply Hg | reflexivity]. }
      rewrite HparEq, list_lookup_middle by reflexivity. cbn [mbind option_bind].
      change (Parent new) with (elem d).
      rewrite (upFrom_ext_all h' _ HparEq).
      f_equal. apply (upFrom_ext _ _ (length (elements d)) Hpar0).
      * intros i Hi. rewrite lookup_app_l by exact Hi. reflexivity.
      * intros i Hi. apply Helem. exact Hi.
  - unfold openElements. destruct (elem d) as [i|] eqn:Hi.
    + pose proof (inv_elem d Hinv i Hi) as Hlt.
      destruct (lookup_lt_is_Some_2 (elements d) i Hlt) as [e0 He].
      destruct (length (elements d)) as [|n] eqn:Hlen; [lia|].
      cbn [upFrom].
      destruct (decoderInv_end ns t d i e0 Hinv Hi He)
        as (d' & Hstep & Helem' & Hels & Hinv').
      exists d'. split; [exact Hstep|]. split; [exact Hinv'|].
      split; [rewrite Hels; reflexivity|].
      unfold openElements. rewrite Hels, Helem', He, Hlen.
      cbn [mbind option_bind].
      apply (upFrom_fuel (elements d) (inv_parent d Hinv)).
      intros p Hp. pose proof (inv_parent d Hinv i e0 p He Hp). lia.
    + rewrite upFrom_None. cbn [decodeStep]. rewrite Hi. reflexivity.
  - cbn [decodeStep startNames]. destruct (elem d) as [i|] eqn:Hi.
    + eexists. split; [reflexivity|].
      split; [rewrite <- Hi; apply decoderInv_text; exact Hinv|].
      cbn [elements]. rewrite map_Name_alter_setText, app_nil_r.
      split; [reflexivity|]. rewrite <- Hi, openElements_text. reflexivity.
    + exists d. rewrite app_nil_r. auto.
  - exists d. cbn [decodeStep startNames]. rewrite app_nil_r. auto.
  - exists d. cbn [decodeStep startNames]. rewrite app_nil_r. auto.
  - exists d. cbn [decodeStep startNames]. rewrite app_nil_r. auto.
Qed.

Lemma decodeLoop_spec (ns : Namespace) (tokens : list Token) :
  forall d, decoderInv d ->
  if neverBelow (length (openElements d)) tokens then
    exists d', decodeLoop TrimSpace ns d tokens = Some d' /\
               decoderInv d' /\
               map Name (elements d')
                 = map Name (elements d) ++ startNames ns tokens
  else decodeLoop TrimSpace ns d tokens = None.
Proof.
  induction tokens as [|token tokens IH]; intros d Hinv.
  - cbn [neverBelow decodeLoop startNames]. exists d. rewrite app_nil_r. auto.
  - pose proof (decodeStep_spec ns d token Hinv) as Hstep.
    cbn [decodeLoop].
    destruct token as [t attr|t|t|t|t1 t2|t]; cbn [neverBelow startNames].
    2: { destruct (openElements d) as [|k up] eqn:Hopen; cbn [length].
         - rewrite Hstep. reflexivity.
         - destruct Hstep as (d' & -> & Hinv' & Hn & Hup).
           cbn [mbind option_bind]. specialize (IH d' Hinv').
           rewrite Hup in IH. rewrite <- Hn. exact IH. }
    all: destruct Hstep as (d' & -> & Hinv' & Hn & Hup);
      cbn [mbind option_bind]; specialize (IH d' Hinv'); rewrite Hup in IH;
      destruct (neverBelow _ tokens); [|exact IH];
      destruct IH as (d2 & Hrun & Hinv2 & Hnames); exists d2;
      split; [exact Hrun|]; split; [exact Hinv2|];
      rewrite Hnames, Hn; cbn [startNames]; rewrite <- app_assoc; reflexivity.
Qed.

Lemma decodeLoop_inv (ns : Namespace) (tokens : list Token) :
  forall d d', decoderInv d ->
  decodeLoop TrimSpace ns d tokens = Some d' -> decoderInv d'.
Proof.
  intros d d' Hinv Hrun. pose proof (decodeLoop_spec ns tokens d Hinv) as H.
  destruct (neverBelow _ tokens); [|congruence].
  destruct H as (d2 & Hrun2 & Hinv2 & _). congruence.
Qed.

(** X23: on the tokens its reader yields up to the end of the input,
    [Decode] panics exactly when an end tag comes with no element open.
    On any other sequence of tokens it returns one element for every
    start tag, in the order of the start tags in the document, each
    under its name with the prefix the namespace gives for its URL. *)
Theorem Decode_elements (ns : Namespace) (tokens : list Token) :
  if neverBelow 0 tokens then
    exists h, Decode TrimSpace ns tokens = Some h /\
              map Name h = startNames ns tokens
  else Decode TrimSpace ns tokens = None.
Proof.
  pose proof (decodeLoop_spec ns tokens _ decoderInv_init) as H.
  unfold Decode. cbn [openElements elements elem length upFrom] in H.
  destruct (neverBelow 0 tokens).
  - destruct H as (d' & -> & _ & Hn). exists (elements d'). auto.
  - rewrite H. reflexivity.
Qed.

(** X24: in what [Decode] returns, a parent comes before its children
    and the path of an element is the path of its parent, a slash and
    its own name, the path of a root being a slash and its name. *)
Theorem Decode_paths (ns : Namespace) (tokens : list Token) (h : store)
    (i : nat) (e0 : Element) :
  Decode TrimSpace ns tokens = Some h ->
  h !! i = Some e0 ->
  Path e0 = parentPath h e0 +:+ "/" +:+ Name e0 /\
  forall p, Parent e0 = Some p -> (p < i)%nat.
Proof.
  unfold Decode. intros Hdec He.
  destruct (decodeLoop TrimSpace ns _ tokens) as [d'|] eqn:Hrun;
    [|discriminate].
  injection Hdec as <-.
  pose proof (decodeLoop_inv ns tokens _ d' decoderInv_init Hrun) as Hinv.
  split.
  - apply (inv_paths d' Hinv i e0 He).
  - intros p Hp. apply (inv_parent d' Hinv i e0 p He Hp).
Qed.

(** X25: in what [Decode] returns, the children of an element are all
    the elements below it, its children, their children and so on, and
    no other, each once and in the order of the document. *)
Theorem Decode_children (ns : Namespace) (tokens : list Token) (h : store)
    (i : nat) (e0 : Element) :
  Decode TrimSpace ns tokens = Some h ->
  h !! i = Some e0 ->
  Children e0 = descendants h i.
Proof.
  unfold Decode. intros Hdec He.
  destruct (decodeLoop TrimSpace ns _ tokens) as [d'|] eqn:Hrun;
    [|discriminate].
  injection Hdec as <-.
  pose proof (decodeLoop_inv ns tokens _ d' decoderInv_init Hrun) as Hinv.
  apply (inv_children d' Hinv i e0 He).
Qed.

(** In what [Decode] returns, children come after their parents. *)
Lemma Decode_childrenLater (ns : Namespace) (tokens : list Token)
    (h : store) :
  Decode TrimSpace ns tokens = Some h -> childrenLater h.
Proof.
  unfold Decode. intros Hdec.
  destruct (decodeLoop TrimSpace ns _ tokens) as [d'|] eqn:Hrun;
    [|discriminate].
  injection Hdec as <-.
  pose proof (decodeLoop_inv ns tokens _ d' decoderInv_init Hrun) as Hinv.
  intros p e0 i Hp Hi. rewrite (inv_children d' Hinv p e0 Hp) in Hi.
  unfold descendants in Hi. apply list_elem_of_filter in Hi as [Hanc Hseq].
  apply elem_of_seq in Hseq.
  apply (upFrom_parent_lt _ (inv_parent d' Hinv)) in Hanc. lia.
Qed.

End DecodeFacts.
(** ** xml: what the encoder writes *)

Section EncodeFacts.
Import Xml.
Variable TrimSpace : string -> string.
Variable EncodeToken : list Token -> Token -> option string.

Lemma balanced_app_misc (open : list XmlName) (seen : bool)
    (pre rest : list Token) :
  forallb isMisc pre = true ->
  balanced open seen (pre ++ rest) = balanced open seen rest.
Proof.
  induction pre as [|t pre IH]; intros H; [reflexivity|].
  cbn [forallb] in H. apply andb_true_iff in H as [Ht Hpre].
  destruct t; try discriminate; cbn [app balanced]; apply IH; exact Hpre.
Qed.












(** *** The namespaces declared at the root *)

Lemma markUsed_once (ns : Namespace) (st : Namespace * gset string)
    (name : string) :
  usedOnce st -> usedOnce (markUsed ns st name).
Proof.
  destruct st as [out inuse]. intros [Hnd Hin]. unfold markUsed.
  destruct (nsPrefix name) as [p|]; [|split; assumption].
  destruct (bool_decide (p ∈ inuse)) eqn:Hp; [split; assumption|].
  apply bool_decide_eq_false in Hp. cbn [fst snd] in *.
  destruct (ByPrefix ns p) as [url|]; split; cbn [fst snd].
  - unfold Append. rewrite map_app. cbn [map Prefix].
    apply NoDup_app. split; [exact Hnd|]. split.
    + intros q Hq Hq'. apply list_elem_of_singleton in Hq'. subst q.
      apply list_elem_of_In, in_map_iff in Hq. destruct Hq as (n & <- & Hn).
      apply Hp. apply Hin. exact Hn.
    + apply NoDup_singleton.
  - intros n Hn. unfold Append in Hn. apply in_app_or in Hn.
    apply elem_of_union. destruct Hn as [Hn | [<- | []]].
    + right. apply Hin. exact Hn.
    + left. apply elem_of_singleton. reflexivity.
  - exact Hnd.
  - intros n Hn. apply elem_of_union. right. apply Hin. exact Hn.
Qed.

Lemma fold_markUsed_once (ns : Namespace) (names : list string) :
  forall st, usedOnce st -> usedOnce (fold_left (markUsed ns) names st).
Proof.
  induction names as [|name names IH]; intros st Hst; [exact Hst|].
  cbn [fold_left]. apply IH. apply markUsed_once. exact Hst.
Qed.

(** The loop of [namespaceUsed] goes through the names of the elements
    one after the other. *)
Lemma namespaceUsed_names (ns : Namespace) (els : list Element) :
  forall st,
  fold_left
    (fun st el =>
       fold_left (markUsed ns) (map AttrName (Attrs el))
         (markUsed ns st (Name el))) els st
  = fold_left (markUsed ns) (concat (map namesOf els)) st.
Proof.
  induction els as [|el els IH]; intros st; [reflexivity|].
  cbn [fold_left map concat]. rewrite IH, fold_left_app. reflexivity.
Qed.

(** X27: the namespaces [Encode] declares at the root are taken from
    the namespace given, none of them twice, and there is one for every
    prefix the namespace knows among the names of the elements that
    [Iterate] visits and of their attributes. *)
Theorem namespaceUsed_declares (fuel : nat) (h : store) (root : Element)
    (ns : Namespace) :
  NoDup (map Prefix (namespaceUsed fuel h root ns)) /\
  (forall n, In n (namespaceUsed fuel h root ns) ->
             ByPrefix ns (Prefix n) = Some (URL n)) /\
  (forall el name p u,
     In el (Iterate fuel h root) -> In name (namesOf el) ->
     nsPrefix name = Some p -> ByPrefix ns p = Some u ->
     In (mkNs u p) (namespaceUsed fuel h root ns)).
Proof.
  unfold namespaceUsed. rewrite namespaceUsed_names.
  set (names := concat (map namesOf (Iterate fuel h root))).
  assert (Hinit : goodUse ns ([], ∅)).
  { split; cbn [fst snd]; [intros ? [] | intros p u Hp].
    apply elem_of_empty in Hp. destruct Hp. }
  assert (Honce : usedOnce ([], ∅ : gset string)).
  { split; cbn [fst snd map]; [apply NoDup_nil; exact I | intros ? []]. }
  destruct (fold_markUsed ns names _ Hinit) as ([H1 H2] & _ & Hcov).
  destruct (fold_markUsed_once ns names _ Honce) as [Hnd _].
  split; [exact Hnd|]. split; [exact H1|].
  intros el name p u Hel Hname Hp Hu. apply H2; [|exact Hu].
  apply (Hcov name p); [|exact Hp]. subst names.
  apply in_concat. exists (namesOf el). split; [|exact Hname].
  apply in_map. exact Hel.
Qed.

End EncodeFacts.

Section CodecExamples.
Import Xml.

Lemma Decode_paths_witness :
  exists h e0,
    Decode TrimSpaceASCII demoNs siblingsDocument = Some h /\
    h !! 2%nat = Some e0 /\
    Path e0 = parentPath h e0 +:+ "/" +:+ Name e0 /\
    Path e0 = "/a/c".
Proof.
  eexists _, _. split; [vm_compute; reflexivity|].
  split; [reflexivity|]. split; [|reflexivity].
  apply (Decode_paths TrimSpaceASCII demoNs siblingsDocument _ 2).
  - vm_compute. reflexivity.
  - reflexivity.
Defined.

Lemma Decode_children_witness :
  exists h e0,
    Decode TrimSpaceASCII demoNs siblingsDocument = Some h /\
    h !! 0%nat = Some e0 /\
    Children e0 = descendants h 0 /\ Children e0 = [1; 2]%nat.
Proof.
  eexists _, _. split; [vm_compute; reflexivity|].
  split; [reflexivity|]. split; [|reflexivity].
  apply (Decode_children TrimSpaceASCII demoNs siblingsDocument _ 0).
  - vm_compute. reflexivity.
  - reflexivity.
Defined.


End CodecExamples.
